(** * borgmatic-windows-tray: the background backup thread

    A shallow embedding of [backups.py] (class [BackgroundBackupThread]),
    [queue_requests.py], [configuration.py] and, of [systray.py], the thread
    that updates the icon, the requests of the menu and [start].

    Modelling conventions.
    - Python [str] and [bytes] are Rocq strings, a [str] being kept as its
      UTF-8 bytes.  A [float] is the rational it is: readings of [time()]
      and their differences are taken as they are, and the arithmetic of
      [analyze_logs] rounds to binary64 ([PyFloat]).
    - [self.task_status] is a [defaultdict] that keeps insertion order: an
      association list with unique keys; reading a missing key inserts it.
    - The file system is a finite map from path text to file contents
      (regular files only).
    - Everything the standard library or the operating system decides
      (clocks, [subprocess.Popen], [shlex.split], [bytes.decode], [int()],
      [datetime.strptime], [traceback.format_exc], the [schedule] timer) is a
      method of the class [Platform].
    - A method of the thread object is a function in the monad [M]: it
      threads the [World] and either returns or raises a Python exception.
    - A method in [M] runs from its first statement to its last with no
      other thread in between, except that what the dispatch loop does while
      a worker is blocked reading process output is part of the [Process] it
      reads from.  The part on threads writes the workers of the start
      requests as the sequences of calls they make, which run interleaved
      with the other threads. *)

From stdpp Require Import gmap strings list pretty.
From Stdlib Require Import Ascii ZArith QArith Qround Qpower Lqa Sorting.Sorted Permutation.

Open Scope Z_scope.

(** ** Python string operations used by the source *)

Module PyStr.

(** [needle in hay] *)
Fixpoint contains (needle hay : string) : bool :=
  if String.prefix needle hay then true
  else match hay with
       | EmptyString => false
       | String _ rest => contains needle rest
       end.

Definition rev_string (s : string) : string :=
  String.string_of_list_ascii (rev (String.list_ascii_of_string s)).

(** [s.endswith(suffix)] *)
Definition endswith (s suffix : string) : bool :=
  String.prefix (rev_string suffix) (rev_string s).

(** ASCII characters for which [str.isspace] holds. *)
Definition isspace (c : ascii) : bool :=
  let n := Ascii.nat_of_ascii c in
  ((9 <=? n) && (n <=? 13) || (28 <=? n) && (n <=? 32))%nat.

Fixpoint lstrip (s : string) : string :=
  match s with
  | String c rest => if isspace c then lstrip rest else s
  | EmptyString => EmptyString
  end.

(** [s.strip()] *)
Definition strip (s : string) : string :=
  rev_string (lstrip (rev_string (lstrip s))).

(** [s.split()] : split on runs of whitespace, no empty fields.  [cur] holds
    the field being read, reversed. *)
Fixpoint split_ws_aux (s : string) (cur : list ascii) : list string :=
  let flush rest :=
    match cur with
    | [] => rest
    | _ => String.string_of_list_ascii (rev cur) :: rest
    end in
  match s with
  | EmptyString => flush []
  | String c rest =>
      if isspace c then flush (split_ws_aux rest [])
      else split_ws_aux rest (c :: cur)
  end.

Definition split_ws (s : string) : list string := split_ws_aux s [].

(** [s.split(sep)] for a one-character separator: empty fields are kept. *)
Fixpoint split_on_aux (sep : ascii) (s : string) (cur : list ascii) : list string :=
  match s with
  | EmptyString => [String.string_of_list_ascii (rev cur)]
  | String c rest =>
      if Ascii.eqb c sep then String.string_of_list_ascii (rev cur) :: split_on_aux sep rest []
      else split_on_aux sep rest (c :: cur)
  end.

Definition split_on (sep : ascii) (s : string) : list string := split_on_aux sep s [].

(** [sep.join(parts)] *)
Fixpoint join (sep : string) (parts : list string) : string :=
  match parts with
  | [] => ""
  | [p] => p
  | p :: rest => p +:+ sep +:+ join sep rest
  end.

(** [s[1:-1]] *)
Definition slice_1_m1 (s : string) : string :=
  match s with
  | EmptyString => ""
  | String _ rest => rev_string (match rev_string rest with
                                 | EmptyString => ""
                                 | String _ r => r
                                 end)
  end.

(** Iterating a text file: the lines, each with its newline kept. *)
Fixpoint lines_aux (s : string) (cur : list ascii) : list string :=
  match s with
  | EmptyString => match cur with [] => [] | _ => [String.string_of_list_ascii (rev cur)] end
  | String c rest =>
      if Ascii.eqb c "010" then String.string_of_list_ascii (rev (c :: cur)) :: lines_aux rest []
      else lines_aux rest (c :: cur)
  end.

Definition lines (s : string) : list string := lines_aux s [].

(** [str.lower] on ASCII letters. *)
Definition lower_ascii (c : ascii) : ascii :=
  let n := Ascii.nat_of_ascii c in
  if ((65 <=? n) && (n <=? 90))%nat then Ascii.ascii_of_nat (n + 32) else c.

Definition lower (s : string) : string :=
  String.string_of_list_ascii (map lower_ascii (String.list_ascii_of_string s)).

(** [s.replace(":", "")] *)
Definition remove_colons (s : string) : string :=
  String.string_of_list_ascii (filter (fun c => c ≠ ":"%char) (String.list_ascii_of_string s)).

(** [f"{n:02}"] for an integer. *)
Definition pad2 (n : Z) : string :=
  let s := pretty n in
  if (String.length s <? 2)%nat then "0" +:+ s else s.

(** [int(x)] on a float: truncation towards zero. *)
Definition int_of (x : Q) : Z := Z.quot (Qnum x) (Zpos (Qden x)).

(** Round half to even, to an integer. *)
Definition round_half_even (x : Q) : Z :=
  let n := Qnum x in
  let d := Zpos (Qden x) in
  let fl := n / d in
  let r := n mod d in
  match (2 * r) ?= d with
  | Lt => fl
  | Gt => fl + 1
  | Eq => if Z.even fl then fl else fl + 1
  end.

(** [f"{x:.2f}"]: the exact value of the float, rounded to two decimals;
    the sign is that of the float, also when it rounds to zero. *)
Definition format_2f (x : Q) : string :=
  let a := Z.abs (round_half_even (x * 100)) in
  (if Qnum x <? 0 then "-" else "") +:+ pretty (a / 100) +:+ "." +:+ pad2 (a mod 100).

(** [len(s)] of a [str]: the number of code points, which is the number of
    UTF-8 bytes that are not continuation bytes. *)
Definition len (s : string) : nat :=
  length (List.filter (fun c => let n := Ascii.nat_of_ascii c in
                                negb ((128 <=? n) && (n <? 192))%nat)
            (String.list_ascii_of_string s)).

(** The [time_string] of the source: [divmod(int(elapsed), 60)] rendered as
    [f"{minutes}:{seconds:02}s"]. *)
Definition time_string (elapsed_time : Q) : string :=
  let minutes := int_of elapsed_time / 60 in
  let seconds := int_of elapsed_time mod 60 in
  pretty minutes +:+ ":" +:+ pad2 seconds +:+ "s".

End PyStr.

(** ** Python floats *)

(** A Python [float] is a binary64 number.  The finite ones are rationals,
    and the model keeps a float as the rational it is: an arithmetic
    operation returns the exact result rounded to the nearest binary64
    number, ties to even, as IEEE 754 has it.  Infinities and NaN are left
    out: a result beyond the largest binary64 number is rounded as if the
    exponent had no upper bound. *)
Module PyFloat.

(** [2 ** e] *)
Definition pow2 (e : Z) : Q := (2 ^ e)%Q.

(** The exponent of a positive rational [n / d]: the [e] with
    [2 ** e <= n / d < 2 ** (e + 1)]. *)
Definition exponent (n d : Z) : Z :=
  let k := Z.log2 n - Z.log2 d in
  if (if 0 <=? k then d * 2 ^ k <=? n else d <=? n * 2 ^ (- k)) then k else k - 1.

(** A positive rational [n / d] rounded to 53 bits, or to the spacing of
    the subnormal numbers where that is coarser. *)
Definition nearest (n d : positive) : Q :=
  let q := Z.max (exponent (Zpos n) (Zpos d) - 52) (-1074) in
  let m := PyStr.round_half_even ((Zpos n # d) * pow2 (- q)) in
  (inject_Z m * pow2 q)%Q.

(** The binary64 number nearest to a rational. *)
Definition binary64 (x : Q) : Q :=
  match Qnum x with
  | Z0 => 0%Q
  | Zpos n => Qred (nearest n (Qden x))
  | Zneg n => Qred (- nearest n (Qden x))
  end.

(** [a + b] *)
Definition add (a b : Q) : Q := binary64 (a + b).

(** [a * b] *)
Definition mul (a b : Q) : Q := binary64 (a * b).

(** [a / b] *)
Definition div (a b : Q) : Q := binary64 (a / b).

End PyFloat.

(** ** Task status and the status table *)

Inductive TaskStatus :=
| NOT_STARTED
| RUNNING
| FINISHED
| FAILED
| CANCEL_REQUESTED.

#[global] Instance TaskStatus_eq_dec : EqDecision TaskStatus.
Proof. solve_decision. Defined.

Definition status_eqb (a b : TaskStatus) : bool := bool_decide (a = b).

(** [defaultdict(lambda: TaskStatus.NOT_STARTED)], in insertion order. *)
Definition StatusTable := list (string * TaskStatus).

Fixpoint find_status (task : string) (table : StatusTable) : option TaskStatus :=
  match table with
  | [] => None
  | (k, v) :: rest => if String.eqb k task then Some v else find_status task rest
  end.

(** The status a read of [task_status[task]] yields. *)
Definition status_of (task : string) (table : StatusTable) : TaskStatus :=
  default NOT_STARTED (find_status task table).

(** The table after a read of [task_status[task]]: a missing key is inserted
    with the default. *)
Definition touch (task : string) (table : StatusTable) : StatusTable :=
  match find_status task table with
  | Some _ => table
  | None => table ++ [(task, NOT_STARTED)]
  end.

(** [task_status[task] = status] *)
Fixpoint set_status (task : string) (status : TaskStatus) (table : StatusTable)
  : StatusTable :=
  match table with
  | [] => [(task, status)]
  | (k, v) :: rest =>
      if String.eqb k task then (k, status) :: rest
      else (k, v) :: set_status task status rest
  end.

(** [status in task_status.values()] *)
Definition in_values (status : TaskStatus) (table : StatusTable) : bool :=
  existsb (fun kv => status_eqb (snd kv) status) table.

(** ** Configuration and requests *)

(** An absolute Windows path: [drive] is [path.drive] (such as ["C:"]) and
    [tail] is [path.parts[1:]]. *)
Record Path := { drive : string; tail : list string }.

(** [str(path)] *)
Definition path_str (p : Path) : string :=
  drive p +:+ "\" +:+ PyStr.join "\" (tail p).

(** [path.name] *)
Definition path_name (p : Path) : string := List.last (tail p) "".

(** [path.parent] *)
Definition path_parent (p : Path) : Path :=
  {| drive := drive p; tail := removelast (tail p) |}.

(** [path / name] for a single component. *)
Definition path_join (p : Path) (name : string) : Path :=
  {| drive := drive p; tail := tail p ++ [name] |}.

Record BackupConfiguration := {
  name : string;
  icon : string;
  config_file : Path;
  wsl_distro : string;
  backup_schedule_hours : Z;
  log_file : Path;
  report_files : Path;
  report_paths : Path;
  report_excluded : Path;
  report_errors : Path;
  diff_file : Path;
  post_backup_script : Path;
  post_backup_wsl_distro : string;
  post_backup_schedule_hours : Z;
  backup_line_count_file : Path
}.

(** What travels on the two queues: the classes of [queue_requests.py], and
    [Other] for an object of any other class. *)
Inductive QueueItem :=
| StartBackup (config : BackupConfiguration) (is_scheduled : bool)
| StartPostBackup (config : BackupConfiguration) (is_scheduled : bool)
| CancelBackup (config : BackupConfiguration)
| CancelPostBackup (config : BackupConfiguration)
| EnableScheduledBackups (config : BackupConfiguration)
| DisableScheduledBackups (config : BackupConfiguration)
| AnalyzeLogs (config : BackupConfiguration) (editor : string)
| DiffLastBackups (config : BackupConfiguration) (editor : string)
| UpdateSystray (hover_text : option string) (icon : option string)
| Exit
| Other (class_name : string).

(** [type(item)] as an f-string prints it. *)
Definition type_repr (item : QueueItem) : string :=
  let cls n := "<class 'queue_requests." +:+ n +:+ "'>" in
  match item with
  | StartBackup _ _ => cls "StartBackup"
  | StartPostBackup _ _ => cls "StartPostBackup"
  | CancelBackup _ => cls "CancelBackup"
  | CancelPostBackup _ => cls "CancelPostBackup"
  | EnableScheduledBackups _ => cls "EnableScheduledBackups"
  | DisableScheduledBackups _ => cls "DisableScheduledBackups"
  | AnalyzeLogs _ _ => cls "AnalyzeLogs"
  | DiffLastBackups _ _ => cls "DiffLastBackups"
  | UpdateSystray _ _ => cls "UpdateSystray"
  | Exit => cls "Exit"
  | Other n => "<class '" +:+ n +:+ "'>"
  end.

(** Python exceptions the code can meet. *)
Inductive Exn :=
| CalledProcessError (returncode : Z) (cmd : list string)
| ValueError (msg : string)
| OSError (msg : string)
| UnicodeDecodeError (msg : string)
| TypeError (msg : string).

Definition is_CalledProcessError (e : Exn) : bool :=
  match e with CalledProcessError _ _ => true | _ => false end.

(** [str(ex)] *)
Definition exn_str (e : Exn) : string :=
  match e with
  | CalledProcessError rc cmd =>
      "Command '[" +:+ PyStr.join ", " (map (fun a => "'" +:+ a +:+ "'") cmd)
      +:+ "]' returned non-zero exit status " +:+ pretty rc +:+ "."
  | ValueError m | OSError m | UnicodeDecodeError m | TypeError m => m
  end.

(** ** Threads, scheduled jobs and external processes *)

(** [Thread(target=self.<method>, args=(queue_item,))] *)
Inductive Target :=
| target_run_backup
| target_run_post_backup
| target_analyze_logs
| target_diff_last_backups.

Record Thread := { target : Target; args : QueueItem }.

(** A job of the [schedule] module: every [every_hours] hours at minute
    [at_minute], put a scheduled start request for [job_config] on the input
    queue ([job_post_backup] tells which one); tagged with the configuration
    name. *)
Record Job := {
  tag : string;
  every_hours : Z;
  at_minute : string;
  job_post_backup : bool;
  job_config : BackupConfiguration
}.

Definition job_item (j : Job) : QueueItem :=
  if job_post_backup j then StartPostBackup (job_config j) true
  else StartBackup (job_config j) true.

(** One execution of a child process, as the loop over the lines that
    [process.stdout.readline] returns sees it.  Each [readline] blocks;
    [meanwhile] is what the dispatch loop gets from outside during that time,
    one list of arriving requests per iteration it performs.  After a line,
    the rest of the execution depends on whether [process.terminate()] was
    called for that line ([next true]) or not ([next false]).  [PExit] is the
    end of the output, with the exit code [process.wait()] reports. *)
Inductive Process :=
| PExit (meanwhile : list (list QueueItem)) (returncode : Z)
| PLine (meanwhile : list (list QueueItem)) (line : string) (next : bool → Process).

(** ** The platform *)

Class Platform := {
  (** [time()], at the n-th reading of a clock *)
  time_at : nat → Q;
  (** [str(datetime.now())], at the n-th reading of a clock *)
  now_str : nat → string;
  (** [datetime.now().strftime('%I:%M %p')] *)
  now_clock : nat → string;
  (** [shlex.split]; [None] when it raises [ValueError] *)
  shlex_split : string → option (list string);
  (** [subprocess.Popen] for the n-th process started; [None] when it raises
      [OSError] *)
  popen : nat → list string → option Process;
  (** [bytes.decode("utf-8")]; [None] when it raises [UnicodeDecodeError] *)
  decode_utf8 : string → option string;
  (** [int(text)]; [None] when it raises [ValueError] *)
  parse_int : string → option Z;
  (** [datetime.strptime(text, "%Y-%m-%d %H:%M:%S,%f")] in microseconds;
      [None] when it raises [ValueError] *)
  strptime : string → option Z;
  (** [traceback.format_exc()] while the exception is handled *)
  format_exc : Exn → string;
  (** whether [schedule.run_pending()] finds the job due at the n-th reading
      of a clock *)
  job_due : nat → Job → bool
}.

(** ** The world a method runs in *)

Record World := {
  task_status : StatusTable;
  last_sent_icon : option string;
  input_queue : list QueueItem;
  output_queue : list QueueItem;
  (** lines printed *)
  stdout : list string;
  files : gmap string string;
  (** paths of the files opened for writing so far *)
  written : list string;
  (** number of clock readings so far *)
  ticks : nat;
  (** processes started so far: the arguments, and the status table at that
      moment *)
  started : list (list string * StatusTable);
  (** calls of [sleep], in seconds *)
  slept : list Z;
  (** jobs registered with [schedule] *)
  jobs : list Job;
  (** threads started by the dispatch loop *)
  threads : list Thread;
  (** whether the dispatch loop has left its [while] *)
  loop_exited : bool
}.

Definition with_task_status (t : StatusTable) (w : World) : World :=
  {| task_status := t; last_sent_icon := last_sent_icon w;
     input_queue := input_queue w; output_queue := output_queue w;
     stdout := stdout w; files := files w; written := written w;
     ticks := ticks w;
     started := started w; slept := slept w; jobs := jobs w;
     threads := threads w; loop_exited := loop_exited w |}.

Definition with_last_sent_icon (i : option string) (w : World) : World :=
  {| task_status := task_status w; last_sent_icon := i;
     input_queue := input_queue w; output_queue := output_queue w;
     stdout := stdout w; files := files w; written := written w;
     ticks := ticks w;
     started := started w; slept := slept w; jobs := jobs w;
     threads := threads w; loop_exited := loop_exited w |}.

Definition with_input_queue (q : list QueueItem) (w : World) : World :=
  {| task_status := task_status w; last_sent_icon := last_sent_icon w;
     input_queue := q; output_queue := output_queue w;
     stdout := stdout w; files := files w; written := written w;
     ticks := ticks w;
     started := started w; slept := slept w; jobs := jobs w;
     threads := threads w; loop_exited := loop_exited w |}.

Definition with_output_queue (q : list QueueItem) (w : World) : World :=
  {| task_status := task_status w; last_sent_icon := last_sent_icon w;
     input_queue := input_queue w; output_queue := q;
     stdout := stdout w; files := files w; written := written w;
     ticks := ticks w;
     started := started w; slept := slept w; jobs := jobs w;
     threads := threads w; loop_exited := loop_exited w |}.

Definition with_stdout (o : list string) (w : World) : World :=
  {| task_status := task_status w; last_sent_icon := last_sent_icon w;
     input_queue := input_queue w; output_queue := output_queue w;
     stdout := o; files := files w; written := written w; ticks := ticks w;
     started := started w; slept := slept w; jobs := jobs w;
     threads := threads w; loop_exited := loop_exited w |}.

Definition with_files (f : gmap string string) (w : World) : World :=
  {| task_status := task_status w; last_sent_icon := last_sent_icon w;
     input_queue := input_queue w; output_queue := output_queue w;
     stdout := stdout w; files := f; written := written w; ticks := ticks w;
     started := started w; slept := slept w; jobs := jobs w;
     threads := threads w; loop_exited := loop_exited w |}.

Definition with_written (p : list string) (w : World) : World :=
  {| task_status := task_status w; last_sent_icon := last_sent_icon w;
     input_queue := input_queue w; output_queue := output_queue w;
     stdout := stdout w; files := files w; written := p; ticks := ticks w;
     started := started w; slept := slept w; jobs := jobs w;
     threads := threads w; loop_exited := loop_exited w |}.

Definition with_ticks (n : nat) (w : World) : World :=
  {| task_status := task_status w; last_sent_icon := last_sent_icon w;
     input_queue := input_queue w; output_queue := output_queue w;
     stdout := stdout w; files := files w; written := written w; ticks := n;
     started := started w; slept := slept w; jobs := jobs w;
     threads := threads w; loop_exited := loop_exited w |}.

Definition with_started (s : list (list string * StatusTable)) (w : World) : World :=
  {| task_status := task_status w; last_sent_icon := last_sent_icon w;
     input_queue := input_queue w; output_queue := output_queue w;
     stdout := stdout w; files := files w; written := written w;
     ticks := ticks w;
     started := s; slept := slept w; jobs := jobs w;
     threads := threads w; loop_exited := loop_exited w |}.

Definition with_slept (s : list Z) (w : World) : World :=
  {| task_status := task_status w; last_sent_icon := last_sent_icon w;
     input_queue := input_queue w; output_queue := output_queue w;
     stdout := stdout w; files := files w; written := written w;
     ticks := ticks w;
     started := started w; slept := s; jobs := jobs w;
     threads := threads w; loop_exited := loop_exited w |}.

Definition with_jobs (j : list Job) (w : World) : World :=
  {| task_status := task_status w; last_sent_icon := last_sent_icon w;
     input_queue := input_queue w; output_queue := output_queue w;
     stdout := stdout w; files := files w; written := written w;
     ticks := ticks w;
     started := started w; slept := slept w; jobs := j;
     threads := threads w; loop_exited := loop_exited w |}.

Definition with_threads (t : list Thread) (w : World) : World :=
  {| task_status := task_status w; last_sent_icon := last_sent_icon w;
     input_queue := input_queue w; output_queue := output_queue w;
     stdout := stdout w; files := files w; written := written w;
     ticks := ticks w;
     started := started w; slept := slept w; jobs := jobs w;
     threads := t; loop_exited := loop_exited w |}.

Definition with_loop_exited (b : bool) (w : World) : World :=
  {| task_status := task_status w; last_sent_icon := last_sent_icon w;
     input_queue := input_queue w; output_queue := output_queue w;
     stdout := stdout w; files := files w; written := written w;
     ticks := ticks w;
     started := started w; slept := slept w; jobs := jobs w;
     threads := threads w; loop_exited := b |}.

(** ** The monad of methods: state and exceptions *)

Inductive Result (A : Type) :=
| Ok (a : A)
| Raise (e : Exn).
Arguments Ok {A} a.
Arguments Raise {A} e.

Definition M (A : Type) : Type := World → World * Result A.

Definition ret {A} (a : A) : M A := fun w => (w, Ok a).

Definition raise {A} (e : Exn) : M A := fun w => (w, Raise e).

Definition bind {A B} (m : M A) (k : A → M B) : M B := fun w =>
  match m w with
  | (w', Ok a) => k a w'
  | (w', Raise e) => (w', Raise e)
  end.

(** [try: body  except <the exceptions handler answers>: ...]; a handler
    answering [None] does not catch the exception. *)
Definition try_except {A} (body : M A) (handler : Exn → option (M A)) : M A := fun w =>
  match body w with
  | (w', Ok a) => (w', Ok a)
  | (w', Raise e) =>
      match handler e with
      | Some h => h w'
      | None => (w', Raise e)
      end
  end.

Declare Scope py_scope.
Delimit Scope py_scope with py.
Notation "x <- m ;; k" := (bind m (fun x => k))
  (at level 20, m at level 99, k at level 200, only parsing) : py_scope.
Notation "m ;; k" := (bind m (fun _ => k))
  (at level 100, k at level 200, right associativity, only parsing) : py_scope.
Open Scope py_scope.

Definition get_world : M World := fun w => (w, Ok w).
Definition modify (f : World → World) : M unit := fun w => (f w, Ok tt).

(** [for x in xs: body(x)] *)
Fixpoint for_each {A} (xs : list A) (body : A → M unit) : M unit :=
  match xs with
  | [] => ret tt
  | x :: rest => body x ;; for_each rest body
  end.

Definition when (b : bool) (m : M unit) : M unit := if b then m else ret tt.

(** The world a method leaves and what it returned. *)
Definition world_after {A} (m : M A) (w : World) : World := fst (m w).
Definition result_of {A} (m : M A) (w : World) : Result A := snd (m w).

(** ** Methods of [BackgroundBackupThread] *)

Definition nl : string := String "010"%char "".

Definition error_ico : string := "./icons/error.ico".
Definition post_backup_ico : string := "./icons/post-backup.ico".
Definition backup_ico : string := "./icons/backup.ico".
Definition analyze_ico : string := "./icons/analyze.ico".
Definition logs_ico : string := "./icons/logs.ico".
Definition success_ico : string := "./icons/success.ico".
Definition drive_ico : string := "./icons/drive.ico".

Definition Qltb (a b : Q) : bool := negb (Qle_bool b a).

(** The loop of [update_systray] over [task_status.items()]: the first
    running task decides, and [break] ends the loop there even when none of
    the four words occurs in its title. *)
Fixpoint first_running_icon (table : StatusTable) : option string :=
  match table with
  | [] => None
  | (task, status) :: rest =>
      if status_eqb status RUNNING then
        if PyStr.contains "post-backup" task then Some post_backup_ico
        else if PyStr.contains "backup" task then Some backup_ico
        else if PyStr.contains "analysis" task then Some analyze_ico
        else if PyStr.contains "diff" task then Some logs_ico
        else None
      else first_running_icon rest
  end.

(** The branch [if icon is None] of [update_systray]. *)
Definition select_icon (table : StatusTable) : option string :=
  if in_values FAILED table then Some error_ico
  else if in_values RUNNING table then first_running_icon table
  else if in_values FINISHED table then Some success_ico
  else Some drive_ico.

(** [to_wsl_path]; [PurePosixPath()] of no parts prints as a dot. *)
Definition to_wsl_path (path : Path) : string :=
  "/mnt/" +:+ PyStr.lower (PyStr.remove_colons (drive path)) +:+ "/"
  +:+ match tail path with
      | [] => "."
      | parts => PyStr.join "/" parts
      end.

(** Log generation [i] as [rotate_logs] tests it:
    [log_file.parent / f"{log_file.name}.{i}"]. *)
Definition generation_path (log_file : Path) (i : Z) : string :=
  path_str (path_join (path_parent log_file) (path_name log_file +:+ "." +:+ pretty i)).

(** Log generation [i] as [rotate_logs] moves it: [str(log_file) + f".{i}"]. *)
Definition generation_str (log_file : Path) (i : Z) : string :=
  path_str log_file +:+ "." +:+ pretty i.

Section Methods.
Context `{platform : Platform}.

(** *** Primitive effects *)

Definition tick : M nat := fun w => (with_ticks (S (ticks w)) w, Ok (ticks w)).

(** [time()] *)
Definition time : M Q := n <- tick ;; ret (time_at n).

Definition print (line : string) : M unit :=
  modify (fun w => with_stdout (stdout w ++ [line]) w).

Definition sleep (seconds : Z) : M unit :=
  modify (fun w => with_slept (slept w ++ [seconds]) w).

(** [self.task_status[task]] *)
Definition read_status (task : string) : M TaskStatus := fun w =>
  (with_task_status (touch task (task_status w)) w, Ok (status_of task (task_status w))).

(** [self.task_status[task] = status] *)
Definition write_status (task : string) (status : TaskStatus) : M unit :=
  modify (fun w => with_task_status (set_status task status (task_status w)) w).

Definition put_input (item : QueueItem) : M unit :=
  modify (fun w => with_input_queue (input_queue w ++ [item]) w).

Definition put_output (item : QueueItem) : M unit :=
  modify (fun w => with_output_queue (output_queue w ++ [item]) w).

(** [subprocess.Popen(args)] *)
Definition Popen (args : list string) : M Process := fun w =>
  match popen (length (started w)) args with
  | Some p => (with_started (started w ++ [(args, task_status w)]) w, Ok p)
  | None => (w, Raise (OSError "Popen failed"))
  end.

Definition exists_file (path : string) : M bool := fun w =>
  (w, Ok (bool_decide (is_Some (files w !! path)))).

(** [Path.unlink] *)
Definition unlink (path : string) : M unit := fun w =>
  match files w !! path with
  | Some _ => (with_files (delete path (files w)) w, Ok tt)
  | None => (w, Raise (OSError "FileNotFoundError"))
  end.

(** [shutil.move] of a regular file *)
Definition move (src dst : string) : M unit := fun w =>
  match files w !! src with
  | Some content => (with_files (<[dst := content]> (delete src (files w))) w, Ok tt)
  | None => (w, Raise (OSError "FileNotFoundError"))
  end.

(** [open(path, "w")] and [write(content)] *)
Definition write_file (path content : string) : M unit :=
  modify (fun w => with_written (written w ++ [path])
                     (with_files (<[path := content]> (files w)) w)).

Definition read_file (path : string) : M string := fun w =>
  match files w !! path with
  | Some content => (w, Ok content)
  | None => (w, Raise (OSError "FileNotFoundError"))
  end.

(** *** update_systray, output *)

Definition update_systray (hover_text icon : option string) : M unit := fun w =>
  let icon :=
    match icon with
    | None => select_icon (task_status w)
    | Some _ => icon
    end in
  if bool_decide (icon = last_sent_icon w) then
    put_output (UpdateSystray hover_text None) w
  else
    put_output (UpdateSystray hover_text icon) (with_last_sent_icon icon w).

Definition output (line : string) : M unit :=
  n <- tick ;;
  print ("[" +:+ now_str n +:+ "] " +:+ line) ;;
  update_systray (Some line) None.

(** *** save_line_count, load_line_count, rotate_logs *)

Definition save_line_count (line_count_file : Path) (line_count : Z) : M unit :=
  write_file (path_str line_count_file) (pretty line_count).

Definition load_line_count (line_count_file : Path) : M Z :=
  e <- exists_file (path_str line_count_file) ;;
  if negb e then ret 0
  else
    text <- read_file (path_str line_count_file) ;;
    match parse_int text with
    | Some n => ret n
    | None => raise (ValueError "invalid literal for int() with base 10")
    end.

Definition rotate_logs (log_file : Path) : M unit :=
  e <- exists_file (generation_path log_file 9) ;;
  when e (unlink (generation_path log_file 9)) ;;
  for_each [8; 7; 6; 5; 4; 3; 2; 1] (fun i =>
    e <- exists_file (generation_path log_file i) ;;
    when e (move (generation_str log_file i) (generation_str log_file (i + 1)))) ;;
  e <- exists_file (path_str log_file) ;;
  when e (move (path_str log_file) (path_str log_file +:+ ".1")).

(** *** task_is_running *)

Definition task_is_running (task_title : string) : M bool :=
  s <- read_status task_title ;;
  match s with
  | RUNNING => ret true
  | CANCEL_REQUESTED => ret true
  | _ => ret false
  end.

(** *** What the dispatch loop runs itself *)

(** [schedule.clear(tag)] *)
Definition schedule_clear (t : string) : M unit :=
  modify (fun w => with_jobs (List.filter (fun j => negb (String.eqb (tag j) t)) (jobs w)) w).

(** [schedule.every(hours).hours.at(minute).do(...).tag(t)] *)
Definition schedule_every (hours : Z) (minute : string) (post : bool)
    (config : BackupConfiguration) : M unit :=
  modify (fun w => with_jobs (jobs w ++ [{| tag := name config; every_hours := hours;
                                            at_minute := minute; job_post_backup := post;
                                            job_config := config |}]) w).

(** [schedule.run_pending()]: every due job puts its request. *)
Definition run_pending : M unit :=
  n <- tick ;;
  w <- get_world ;;
  for_each (List.filter (job_due n) (jobs w)) (fun j => put_input (job_item j)).

Definition enable_scheduled_backups (config : BackupConfiguration) : M unit :=
  schedule_clear (name config) ;;
  schedule_every (backup_schedule_hours config) ":00" false config ;;
  schedule_every (post_backup_schedule_hours config) ":01" true config ;;
  output ("Enabled scheduled backups for " +:+ name config).

Definition disable_scheduled_backups (config : BackupConfiguration) : M unit :=
  schedule_clear (name config) ;;
  output ("Disabled scheduled backups for " +:+ name config).

Definition cancel_backup (config : BackupConfiguration) : M unit :=
  let task_title := name config +:+ " backup" in
  running <- task_is_running task_title ;;
  when running
    (write_status task_title CANCEL_REQUESTED ;;
     output ("Cancelled " +:+ name config +:+ " backup")).

Definition cancel_post_backup (config : BackupConfiguration) : M unit :=
  let task_title := name config +:+ " post-backup" in
  running <- task_is_running task_title ;;
  when running
    (write_status task_title CANCEL_REQUESTED ;;
     output ("Cancelled " +:+ name config +:+ " post-backup tasks")).

Definition queue_exit : M unit :=
  put_input Exit ;;
  put_output Exit ;;
  modify (fun w => with_task_status
                     (map (fun kv => (fst kv, CANCEL_REQUESTED)) (task_status w)) w).

(** [Thread(target=..., args=(queue_item,)).start()] *)
Definition start_thread (t : Target) (queue_item : QueueItem) : M unit :=
  modify (fun w => with_threads (threads w ++ [{| target := t; args := queue_item |}]) w).

(** How an iteration of the [while True] of [run] ends. *)
Inductive LoopCtl := Next | Break.

(** The [match queue_item] of [run]. *)
Definition dispatch (queue_item : QueueItem) : M LoopCtl :=
  match queue_item with
  | StartBackup _ _ => start_thread target_run_backup queue_item ;; ret Next
  | StartPostBackup _ _ => start_thread target_run_post_backup queue_item ;; ret Next
  | CancelBackup config => cancel_backup config ;; ret Next
  | CancelPostBackup config => cancel_post_backup config ;; ret Next
  | EnableScheduledBackups config => enable_scheduled_backups config ;; ret Next
  | DisableScheduledBackups config => disable_scheduled_backups config ;; ret Next
  | AnalyzeLogs _ _ => start_thread target_analyze_logs queue_item ;; ret Next
  | DiffLastBackups _ _ => start_thread target_diff_last_backups queue_item ;; ret Next
  | Exit => queue_exit ;; ret Break
  | _ => raise (TypeError ("Backup thread got unknown type in input queue: "
                           +:+ type_repr queue_item))
  end.

(** [self.input_queue.get(timeout=1)]: [arrivals] are the requests put from
    outside before the call returns; [None] stands for [Empty]. *)
Definition get (arrivals : list QueueItem) : M (option QueueItem) := fun w =>
  match input_queue w ++ arrivals with
  | [] => (with_input_queue [] w, Ok None)
  | queue_item :: rest => (with_input_queue rest w, Ok (Some queue_item))
  end.

(** The [try] block of an iteration. *)
Definition iteration_body (arrivals : list QueueItem) : M LoopCtl :=
  run_pending ;;
  got <- get arrivals ;;
  match got with
  | None => ret Next
  | Some queue_item => dispatch queue_item
  end.

(** One iteration of the [while True] of [run], with its [except Exception]. *)
Definition iteration (arrivals : list QueueItem) : M LoopCtl :=
  try_except (iteration_body arrivals)
    (fun ex => Some (
       output ("Error in background backup thread: " +:+ exn_str ex +:+ nl +:+ format_exc ex) ;;
       update_systray None (Some error_ico) ;;
       ret Next)).

(** The [while True] of [run] and the line after it, for as many iterations
    as [feed] has entries; an entry lists the requests arriving from outside
    during that iteration.  Once the loop has left, nothing more happens. *)
Fixpoint run_loop (feed : list (list QueueItem)) : M unit :=
  match feed with
  | [] => ret tt
  | arrivals :: rest =>
      w <- get_world ;;
      if loop_exited w then ret tt
      else
        ctl <- iteration arrivals ;;
        match ctl with
        | Break =>
            modify (with_loop_exited true) ;;
            output "Exiting background backup thread"
        | Next => run_loop rest
        end
  end.

Definition run (feed : list (list QueueItem)) : M unit :=
  output "Background backup thread started" ;;
  run_loop feed.

(** *** run_process_and_update_systray *)

(** The local variables of the line loop. *)
Record Progress := {
  line_count : Z;
  stats_output : string;
  last_update_time : Q
}.

(** [process.wait()] when no further line is read: the dispatch loop goes
    on until the process has exited. *)
Fixpoint wait (process : Process) : M Z :=
  match process with
  | PExit meanwhile returncode => run_loop meanwhile ;; ret returncode
  | PLine meanwhile _ next => run_loop meanwhile ;; wait (next false)
  end.

Definition is_stats_line (line : string) : bool :=
  PyStr.contains "Number of files: " line
  || PyStr.contains "Original size: " line
  || PyStr.contains "Deduplicated size: " line.

(** The statements of the loop body after the cancellation check. *)
Definition handle_line (title : string) (line_count_target : Z) (start_time : Q)
    (count : Z) (text : string) (st : Progress) : M Progress :=
  let line := PyStr.strip text in
  let stats :=
    if is_stats_line line
       && negb (PyStr.endswith line " 0" || PyStr.endswith line " 0 B")
    then stats_output st +:+ nl +:+ line
    else stats_output st in
  now <- time ;;
  if Qltb 1 (now - last_update_time st) then
    now2 <- time ;;
    let hover_text := "Running " +:+ title +:+ " (" +:+ PyStr.time_string (now2 - start_time) in
    let hover_text :=
      if 0 <? line_count_target
      then hover_text +:+ ", "
           +:+ PyStr.format_2f
                 (PyFloat.mul (PyFloat.div (inject_Z count) (inject_Z line_count_target))
                    100)
           +:+ "%"
      else hover_text in
    let hover_text := hover_text +:+ "):" +:+ nl +:+ line in
    update_systray (Some hover_text) None ;;
    now3 <- time ;;
    ret {| line_count := count; stats_output := stats; last_update_time := now3 |}
  else
    ret {| line_count := count; stats_output := stats;
           last_update_time := last_update_time st |}.

(** The [for] loop over the lines of [process.stdout.readline], which ends
    at the first empty line, followed by [process.wait()]; returns the locals
    and the exit code.  An exception in the body leaves the [with] block,
    which waits for the process. *)
Fixpoint read_lines (title : string) (line_count_target : Z) (start_time : Q)
    (process : Process) (st : Progress) : M (Progress * Z) :=
  match process with
  | PExit meanwhile returncode => run_loop meanwhile ;; ret (st, returncode)
  | PLine meanwhile raw next =>
      run_loop meanwhile ;;
      if String.eqb raw "" then
        returncode <- wait (next false) ;; ret (st, returncode)
      else
        let count := line_count st + 1 in
        status <- read_status title ;;
        let terminate := status_eqb status CANCEL_REQUESTED in
        match decode_utf8 raw with
        | None =>
            wait (next terminate) ;;
            raise (UnicodeDecodeError "'utf-8' codec can't decode bytes")
        | Some text =>
            st' <- handle_line title line_count_target start_time count text st ;;
            read_lines title line_count_target start_time (next terminate) st'
        end
  end.

(** From the first statement to the process being started. *)
Definition start_process (title command : string) : M (Q * list string * Process) :=
  write_status title RUNNING ;;
  output ("Running " +:+ title +:+ ": started") ;;
  start_time <- time ;;
  match shlex_split command with
  | None => raise (ValueError "No closing quotation")
  | Some command_parts =>
      process <- Popen command_parts ;;
      ret (start_time, command_parts, process)
  end.

(** From [elapsed_time = time() - start_time] after [process.wait()] to the
    end. *)
Definition finish_process (title : string) (command_parts : list string)
    (start_time : Q) (st : Progress) (returncode : Z) : M Z :=
  now <- time ;;
  let time_string := PyStr.time_string (now - start_time) in
  if negb (returncode =? 0) then
    write_status title FAILED ;;
    n <- tick ;;
    output ("Failed " +:+ title +:+ " at " +:+ now_clock n +:+ "!" +:+ nl
            +:+ "Return code: " +:+ pretty returncode +:+ " (in " +:+ time_string +:+ ")") ;;
    raise (CalledProcessError returncode command_parts)
  else
    n <- tick ;;
    let hover_text :=
      "Finished " +:+ title +:+ " at " +:+ now_clock n +:+ " in " +:+ time_string +:+ ":" in
    let hover_text :=
      if String.eqb (stats_output st) "" then hover_text
      else hover_text +:+ nl +:+ stats_output st in
    write_status title FINISHED ;;
    output hover_text ;;
    ret (line_count st).

Definition run_process_and_update_systray (title command : string)
    (line_count_target : Z) : M Z :=
  sp <- start_process title command ;;
  let '(start_time, command_parts, process) := sp in
  r <- read_lines title line_count_target start_time process
         {| line_count := 0; stats_output := ""; last_update_time := start_time |} ;;
  finish_process title command_parts start_time (fst r) (snd r).

(** *** run_backup, run_post_backup *)

Definition backup_command (config : BackupConfiguration) : string :=
  "wsl.exe -d " +:+ wsl_distro config +:+ " -- PATH=~/.local/bin:$PATH borgmatic "
  +:+ "--config " +:+ to_wsl_path (config_file config) +:+ " --verbosity 1 "
  +:+ "--log-file " +:+ to_wsl_path (log_file config) +:+ " --log-file-verbosity 2".

Definition post_backup_command (config : BackupConfiguration) : string :=
  "wsl.exe -d " +:+ post_backup_wsl_distro config +:+ " -- PATH=~/.local/bin:$PATH "
  +:+ to_wsl_path (post_backup_script config).

(** The [try] block of [run_backup]. *)
Definition run_backup_body (config : BackupConfiguration) : M unit :=
  let task_title := name config +:+ " backup" in
  running <- task_is_running task_title ;;
  if running then output (task_title +:+ " is already running, skipping")
  else
    rotate_logs (log_file config) ;;
    backup_lines <- load_line_count (backup_line_count_file config) ;;
    backup_lines <- run_process_and_update_systray task_title (backup_command config)
                      backup_lines ;;
    save_line_count (backup_line_count_file config) backup_lines.

Definition run_backup (config : BackupConfiguration) : M unit :=
  let task_title := name config +:+ " backup" in
  try_except (run_backup_body config)
    (fun ex =>
       if is_CalledProcessError ex then Some (ret tt)
       else Some (
         write_status task_title FAILED ;;
         output ("Error running backup for " +:+ name config +:+ ": " +:+ exn_str ex
                 +:+ nl +:+ format_exc ex))).

(** The [try] block of [run_post_backup]; [self.input_queue.put(request)]
    puts the request it was called with. *)
Definition run_post_backup_body (config : BackupConfiguration) (is_scheduled : bool)
  : M unit :=
  let task_title := name config +:+ " post-backup" in
  when is_scheduled (sleep 10) ;;
  running <- task_is_running task_title ;;
  if running then output (task_title +:+ " is already running, skipping")
  else
    let backup_task_title := name config +:+ " backup" in
    backup_running <- task_is_running backup_task_title ;;
    if backup_running then
      output (backup_task_title +:+ " is still running, delaying " +:+ task_title) ;;
      sleep 30 ;;
      put_input (StartPostBackup config is_scheduled)
    else
      run_process_and_update_systray task_title (post_backup_command config) 0 ;;
      ret tt.

Definition run_post_backup (config : BackupConfiguration) (is_scheduled : bool) : M unit :=
  let task_title := name config +:+ " post-backup" in
  try_except (run_post_backup_body config is_scheduled)
    (fun ex =>
       if is_CalledProcessError ex then Some (ret tt)
       else Some (
         write_status task_title FAILED ;;
         output ("Error running post-backup tasks for " +:+ name config +:+ ": "
                 +:+ exn_str ex +:+ nl +:+ format_exc ex))).

(** *** write_report, analyze_logs *)

Definition write_report (file : Path) (header : string) (lines : list string)
    (editor : string) : M unit :=
  write_file (path_str file) (header +:+ nl +:+ nl +:+ PyStr.join "" lines) ;;
  Popen [editor; path_str file] ;;
  ret tt.

(** [table[key] += delta] on a [defaultdict(float)] *)
Fixpoint add_time (key : string) (delta : Q) (table : list (string * Q))
  : list (string * Q) :=
  match table with
  | [] => [(key, PyFloat.add 0 delta)]
  | (k, v) :: rest =>
      if String.eqb k key then (k, PyFloat.add v delta) :: rest
      else (k, v) :: add_time key delta rest
  end.

(** ["/".join(path_components[:j])] for [j] from 1 to the number of
    components *)
Definition path_prefixes (log_file : string) : list string :=
  let path_components := PyStr.split_on "/" log_file in
  map (fun j => PyStr.join "/" (take j path_components))
      (seq 1 (length path_components)).

(** The accumulators of [analyze_logs]. *)
Record Scan := {
  file_backup_times : list (string * Q);
  path_backup_times : list (string * Q);
  error_lines : list string;
  excluded_files : list string
}.

(** The locals carried from one log line to the next. *)
Record Cursor := {
  previous_timestamp : option Z;
  previous_line : string
}.

(** [timedelta.total_seconds()] of a difference in microseconds: the
    quotient of two integers, as a float. *)
Definition total_seconds (microseconds : Z) : Q := PyFloat.binary64 (microseconds # 1000000).

(** The statements under [if len(file_flag) == 1]. *)
Definition accumulate (file_flag log_file : string) (backup_time : Q) (acc : Scan) : Scan :=
  if (PyStr.len file_flag =? 1)%nat && Qltb backup_time 600 then
    {| file_backup_times := add_time log_file backup_time (file_backup_times acc);
       path_backup_times :=
         foldl (fun table component => add_time component backup_time table)
               (path_backup_times acc) (path_prefixes log_file);
       error_lines := error_lines acc;
       excluded_files := excluded_files acc |}
  else acc.

(** The statements under [if i == 0]. *)
Definition collect (i : Z) (file_flag line : string) (prev_line : string) (acc : Scan) : Scan :=
  if i =? 0 then
    let excluded :=
      if String.eqb file_flag "-" then excluded_files acc ++ [line]
      else excluded_files acc in
    let errors :=
      if String.eqb file_flag "E" then error_lines acc ++ [prev_line]
      else error_lines acc in
    let errors :=
      if PyStr.contains "file changed while we read it!" line then errors ++ [line]
      else errors in
    {| file_backup_times := file_backup_times acc;
       path_backup_times := path_backup_times acc;
       error_lines := errors;
       excluded_files := excluded |}
  else acc.

(** One turn of [for line in log_file] in generation [i]. *)
Definition scan_line (i : Z) (line : string) (state : Scan * Cursor)
  : Result (Scan * Cursor) :=
  let '(acc, cur) := state in
  let parts := PyStr.split_ws line in
  if (length parts <? 5)%nat then Ok (acc, cur)
  else
    let timestamp_str := PyStr.slice_1_m1 (PyStr.join " " (take 2 parts)) +:+ "000" in
    match strptime timestamp_str with
    | None => Raise (ValueError ("time data does not match format: " +:+ timestamp_str))
    | Some timestamp =>
        let previous := default timestamp (previous_timestamp cur) in
        let file_flag := nth 3 parts "" in
        let log_file := PyStr.join " " (drop 4 parts) in
        let acc := accumulate file_flag log_file (total_seconds (timestamp - previous)) acc in
        let acc := collect i file_flag line (previous_line cur) acc in
        Ok (acc, {| previous_timestamp := Some timestamp; previous_line := line |})
    end.

(** [for line in log_file: ...] *)
Fixpoint scan_lines (i : Z) (lines : list string) (state : Scan * Cursor)
  : Result (Scan * Cursor) :=
  match lines with
  | [] => Ok state
  | line :: rest =>
      match scan_line i line state with
      | Ok state' => scan_lines i rest state'
      | Raise e => Raise e
      end
  end.

Definition log_file_path (config : BackupConfiguration) (i : Z) : string :=
  if i =? 0 then path_str (log_file config)
  else path_str (log_file config) +:+ "." +:+ pretty i.

(** [for i in range(0, 10): ...], from generation [i] on; returns the
    accumulators and [backup_count]. *)
Fixpoint scan_generations (config : BackupConfiguration) (generations : list Z)
    (acc : Scan) (backup_count : Z) : M (Scan * Z) :=
  match generations with
  | [] => ret (acc, backup_count)
  | i :: rest =>
      e <- exists_file (log_file_path config i) ;;
      if negb e then ret (acc, backup_count)
      else
        content <- read_file (log_file_path config i) ;;
        output ("Analyzing " +:+ log_file_path config i +:+ "...") ;;
        match scan_lines i (PyStr.lines content)
                (acc, {| previous_timestamp := None; previous_line := "" |}) with
        | Raise e => raise e
        | Ok (acc', _) => scan_generations config rest acc' (backup_count + 1)
        end
  end.

(** [sorted(table.items(), key=lambda x: x[1], reverse=True)]: stable, by
    descending time. *)
Fixpoint insert_desc (x : string * Q) (l : list (string * Q)) : list (string * Q) :=
  match l with
  | [] => [x]
  | y :: rest => if Qltb (snd x) (snd y) then y :: insert_desc x rest else x :: l
  end.

Definition sorted_desc (l : list (string * Q)) : list (string * Q) :=
  foldr insert_desc [] l.

(** [backup_time / backup_count] *)
Definition average (backup_count : Z) (entry : string * Q) : Q :=
  PyFloat.div (snd entry) (inject_Z backup_count).

(** [f"{backup_time / backup_count:.2f}s: {log_file_path}\n"] *)
Definition report_line (backup_count : Z) (entry : string * Q) : string :=
  PyStr.format_2f (average backup_count entry) +:+ "s: " +:+ fst entry +:+ nl.

(** The [try] block of [analyze_logs] up to the sorting; returns
    [sorted_files], [sorted_paths], the two collected lists and
    [backup_count]. *)
Definition analysis (config : BackupConfiguration)
  : M (list (string * Q) * list (string * Q) * Scan * Z) :=
  r <- scan_generations config [0; 1; 2; 3; 4; 5; 6; 7; 8; 9]
         {| file_backup_times := []; path_backup_times := [];
            error_lines := []; excluded_files := [] |} 0 ;;
  let '(acc, backup_count) := r in
  let backup_count := if backup_count =? 0 then 1 else backup_count in
  ret (sorted_desc (file_backup_times acc), sorted_desc (path_backup_times acc),
       acc, backup_count).

Definition analyze_logs_body (config : BackupConfiguration) (editor : string) : M unit :=
  let task_title := name config +:+ " analysis" in
  r <- analysis config ;;
  let '(sorted_files, sorted_paths, acc, backup_count) := r in
  write_report (report_files config)
    ("Average backup times for " +:+ name config +:+ " files ("
     +:+ pretty backup_count +:+ " backups analyzed):")
    (map (report_line backup_count) sorted_files) editor ;;
  write_report (report_paths config)
    ("Average backup times for " +:+ name config +:+ " paths ("
     +:+ pretty backup_count +:+ " backups analyzed):")
    (map (report_line backup_count) sorted_paths) editor ;;
  write_report (report_excluded config)
    ("Excluded files for " +:+ name config +:+ " (latest backup):")
    (excluded_files acc) editor ;;
  write_report (report_errors config)
    ("Errors for " +:+ name config +:+ " (latest backup):")
    (error_lines acc) editor ;;
  write_status task_title FINISHED ;;
  output ("Finished analyzing " +:+ name config +:+ " logs").

Definition analyze_logs (config : BackupConfiguration) (editor : string) : M unit :=
  let task_title := name config +:+ " analysis" in
  write_status task_title RUNNING ;;
  try_except (analyze_logs_body config editor)
    (fun ex => Some (
       write_status task_title FAILED ;;
       output ("Error analyzing logs for " +:+ name config +:+ ": " +:+ exn_str ex
               +:+ nl +:+ format_exc ex))).

(** *** diff_last_backups *)

(** Reading all the output of a process that is never asked to terminate. *)
Fixpoint communicate (process : Process) : M (string * Z) :=
  match process with
  | PExit meanwhile returncode => run_loop meanwhile ;; ret ("", returncode)
  | PLine meanwhile raw next =>
      run_loop meanwhile ;;
      r <- communicate (next false) ;;
      ret (raw +:+ fst r, snd r)
  end.

(** [subprocess.run(args, check=True, capture_output=True).stdout.decode("utf-8")] *)
Definition subprocess_run (command : string) : M string :=
  match shlex_split command with
  | None => raise (ValueError "No closing quotation")
  | Some command_parts =>
      process <- Popen command_parts ;;
      r <- communicate process ;;
      if negb (snd r =? 0) then raise (CalledProcessError (snd r) command_parts)
      else
        match decode_utf8 (fst r) with
        | None => raise (UnicodeDecodeError "'utf-8' codec can't decode bytes")
        | Some text => ret text
        end
  end.

(** [l[-3:-1]] *)
Definition slice_m3_m1 {A} (l : list A) : list A :=
  let l' := removelast l in
  drop (length l' - 2)%nat l'.

Definition diff_last_backups_body (config : BackupConfiguration) (editor : string) : M unit :=
  let task_title := name config +:+ " diff" in
  output ("Finding last two backups for " +:+ name config +:+ "...") ;;
  listing <- subprocess_run
    ("wsl.exe -d " +:+ wsl_distro config +:+ " -- PATH=~/.local/bin:$PATH borgmatic "
     +:+ "--config " +:+ to_wsl_path (config_file config) +:+ " borg rlist") ;;
  let last_two_lines := slice_m3_m1 (PyStr.split_on "010" listing) in
  let last_two_backups :=
    PyStr.join " " (map (fun line => hd "" (PyStr.split_on " " line)) last_two_lines) in
  output ("Running diff for " +:+ name config +:+ "...") ;;
  diff_output <- subprocess_run
    ("wsl.exe -d " +:+ wsl_distro config +:+ " -- PATH=~/.local/bin:$PATH borgmatic "
     +:+ "--config " +:+ to_wsl_path (config_file config) +:+ " borg diff "
     +:+ last_two_backups +:+ " --content-only") ;;
  write_report (diff_file config)
    ("Diff for last two " +:+ name config +:+ " backups (" +:+ last_two_backups +:+ "):")
    [diff_output] editor ;;
  write_status task_title FINISHED ;;
  output ("Finished diff for " +:+ name config).

Definition diff_last_backups (config : BackupConfiguration) (editor : string) : M unit :=
  let task_title := name config +:+ " diff" in
  write_status task_title RUNNING ;;
  try_except (diff_last_backups_body config editor)
    (fun ex => Some (
       write_status task_title FAILED ;;
       output ("Error running diff for " +:+ name config +:+ ": " +:+ exn_str ex
               +:+ nl +:+ format_exc ex))).

(** What a started thread executes: the target applied to the request. *)
Definition thread_body (t : Thread) : M unit :=
  match target t, args t with
  | target_run_backup, StartBackup config _ => run_backup config
  | target_run_post_backup, StartPostBackup config is_scheduled =>
      run_post_backup config is_scheduled
  | target_analyze_logs, AnalyzeLogs config editor => analyze_logs config editor
  | target_diff_last_backups, DiffLastBackups config editor =>
      diff_last_backups config editor
  | _, _ => raise (TypeError "AttributeError")
  end.

End Methods.

(** ** A concrete platform and concrete inputs, to run the model *)

Module Demo.

Fixpoint digits_value (s : string) (acc : Z) : option Z :=
  match s with
  | EmptyString => Some acc
  | String c rest =>
      let n := Z.of_nat (nat_of_ascii c) in
      if (48 <=? n) && (n <=? 57) then digits_value rest (10 * acc + (n - 48)) else None
  end.

(** Decimal text, with an optional minus sign, as an integer. *)
Definition int_of_text (s : string) : option Z :=
  match s with
  | EmptyString => None
  | String "-" (String c rest) => Z.opp <$> digits_value (String c rest) 0
  | _ => digits_value s 0
  end.

(** Days from 1970-01-01 to the given civil date. *)
Definition days_from_civil (y m d : Z) : Z :=
  let y' := if m <=? 2 then y - 1 else y in
  let era := y' / 400 in
  let yoe := y' - era * 400 in
  let doy := (153 * (if 2 <? m then m - 3 else m + 9) + 2) / 5 + d - 1 in
  let doe := yoe * 365 + yoe / 4 - yoe / 100 + doy in
  era * 146097 + doe - 719468.

(** Text of the form [2024-01-31 23:59:59,123456], in microseconds. *)
Definition timestamp_of_text (s : string) : option Z :=
  match PyStr.split_on " " s with
  | [date; clock] =>
      match PyStr.split_on "-" date, PyStr.split_on "," clock with
      | [y; m; d], [hms; f] =>
          match PyStr.split_on ":" hms with
          | [hh; mm; ss] =>
              y ← digits_value y 0; m ← digits_value m 0; d ← digits_value d 0;
              hh ← digits_value hh 0; mm ← digits_value mm 0; ss ← digits_value ss 0;
              f ← digits_value f 0;
              Some ((((days_from_civil y m d * 24 + hh) * 60 + mm) * 60 + ss) * 1000000 + f)
          | _ => None
          end
      | _, _ => None
      end
  | _ => None
  end.

(** A platform whose clocks advance by half a second per reading and which
    starts the processes [processes] tells. *)
Definition platform_with (processes : nat → list string → option Process) : Platform :=
  {| time_at := fun n => (Z.of_nat n # 2)%Q;
     now_str := fun n => "2024-05-01 10:00:00." +:+ pretty n;
     now_clock := fun _ => "10:00 AM";
     shlex_split := fun command => Some (PyStr.split_ws command);
     popen := processes;
     decode_utf8 := Some;
     parse_int := int_of_text;
     strptime := timestamp_of_text;
     format_exc := fun _ => "Traceback (most recent call last): ...";
     job_due := fun _ _ => false |}.

Definition in_logs (file : string) : Path := {| drive := "C:"; tail := ["logs"; file] |}.

Definition alpha : BackupConfiguration :=
  {| name := "Alpha"; icon := "alpha.ico";
     config_file := {| drive := "C:"; tail := ["config"; "borgmatic-alpha.yml"] |};
     wsl_distro := "Ubuntu"; backup_schedule_hours := 2;
     log_file := in_logs "borgmatic-alpha.log";
     report_files := in_logs "alpha-files.txt";
     report_paths := in_logs "alpha-paths.txt";
     report_excluded := in_logs "alpha-excluded.txt";
     report_errors := in_logs "alpha-errors.txt";
     diff_file := in_logs "alpha-diff.txt";
     post_backup_script := {| drive := "C:"; tail := ["config"; "post-backup-alpha.sh"] |};
     post_backup_wsl_distro := "Ubuntu"; post_backup_schedule_hours := 6;
     backup_line_count_file := in_logs "lines-alpha.txt" |}.

Definition empty_world : World :=
  {| task_status := []; last_sent_icon := None; input_queue := []; output_queue := [];
     stdout := []; files := ∅; written := []; ticks := 0; started := []; slept := []; jobs := [];
     threads := []; loop_exited := false |}.

Definition world_with_status (table : StatusTable) : World :=
  with_task_status table empty_world.

(** A process that prints the given lines and exits with the given code,
    whatever is asked of it; nothing arrives at the dispatch loop meanwhile. *)
Fixpoint prints (lines : list string) (returncode : Z) : Process :=
  match lines with
  | [] => PExit [] returncode
  | l :: rest => PLine [] l (fun _ => prints rest returncode)
  end.

End Demo.

(** ** Vocabulary of the specification *)

(** [isActive]: the status is RUNNING or CANCEL_REQUESTED. *)
Definition is_active (s : TaskStatus) : Prop := s = RUNNING ∨ s = CANCEL_REQUESTED.

(** Some task of the table has the status. *)
Definition some_task_is (s : TaskStatus) (table : StatusTable) : Prop :=
  ∃ task, (task, s) ∈ table.

(** [task] is the first running task of the table, in its order. *)
Definition first_running (task : string) (table : StatusTable) : Prop :=
  ∃ before after,
    table = before ++ (task, RUNNING) :: after
    ∧ ∀ kv, kv ∈ before → kv.2 ≠ RUNNING.

(** The identity of the task a start request starts. *)
Definition start_title (item : QueueItem) : option string :=
  match item with
  | StartBackup config _ => Some (name config +:+ " backup")
  | StartPostBackup config _ => Some (name config +:+ " post-backup")
  | _ => None
  end.

(** The thread the dispatch loop starts for a start request. *)
Definition start_thread_of (item : QueueItem) : Thread :=
  match item with
  | StartPostBackup _ _ => {| target := target_run_post_backup; args := item |}
  | _ => {| target := target_run_backup; args := item |}
  end.

(** The exit code of a process that is left alone from now on. *)
Fixpoint exit_code (process : Process) : Z :=
  match process with
  | PExit _ returncode => returncode
  | PLine _ _ next => exit_code (next false)
  end.

(** [observed process n returncode]: reading the output of the process to
    its end meets [n] lines, then the process exits with the code.  The end
    is the exit of the process or the empty line that [iter] takes for it. *)
Inductive observed : Process → Z → Z → Prop :=
| observed_exit meanwhile returncode :
    observed (PExit meanwhile returncode) 0 returncode
| observed_sentinel meanwhile next :
    observed (PLine meanwhile "" next) 0 (exit_code (next false))
| observed_line meanwhile raw next asked n returncode :
    raw ≠ "" →
    observed (next asked) n returncode →
    observed (PLine meanwhile raw next) (n + 1) returncode.

(** [rename src dst] in the words of the specification: done only if [src]
    exists. *)
Definition spec_rename (src dst : string) (fs : gmap string string) : gmap string string :=
  match fs !! src with
  | Some content => <[dst := content]> (delete src fs)
  | None => fs
  end.

(** The list [k, k-1, ..., 1]. *)
Fixpoint down_from (k : nat) : list Z :=
  match k with
  | O => []
  | S k' => Z.of_nat k :: down_from k'
  end.

(** [rotate(logPath)] in the words of the specification: delete generation
    9 if it exists; for i from 8 down to 1 rename generation i to i+1 if it
    exists; rename the un-suffixed file to generation 1 if it exists. *)
Definition spec_rotate (log : string) (fs : gmap string string) : gmap string string :=
  let generation i := log +:+ "." +:+ pretty i in
  let fs := delete (generation 9) fs in
  let fs := foldl (fun fs i => spec_rename (generation i) (generation (i + 1)) fs)
                  fs (down_from 8) in
  spec_rename log (generation 1) fs.

(** A method leaves an observation of the world as it was. *)
Definition preserves {A X} (observe : World → X) (m : M A) : Prop :=
  ∀ w, observe (fst (m w)) = observe w.

(** An observation of the world that only depends on the files, the writes
    and the processes started (and so is blind to clocks, printing, the
    queues, the status table, sleeping, the jobs and the threads). *)
Record insensitive {X} (observe : World → X) : Prop := {
  ins_task_status : ∀ x w, observe (with_task_status x w) = observe w;
  ins_last_sent_icon : ∀ x w, observe (with_last_sent_icon x w) = observe w;
  ins_input_queue : ∀ x w, observe (with_input_queue x w) = observe w;
  ins_output_queue : ∀ x w, observe (with_output_queue x w) = observe w;
  ins_stdout : ∀ x w, observe (with_stdout x w) = observe w;
  ins_ticks : ∀ x w, observe (with_ticks x w) = observe w;
  ins_slept : ∀ x w, observe (with_slept x w) = observe w;
  ins_jobs : ∀ x w, observe (with_jobs x w) = observe w;
  ins_threads : ∀ x w, observe (with_threads x w) = observe w;
  ins_loop_exited : ∀ x w, observe (with_loop_exited x w) = observe w
}.

#[global] Instance is_active_dec (s : TaskStatus) : Decision (is_active s).
Proof. unfold is_active. apply _. Defined.

(** The request is of a kind the [match] of [run] has a case for. *)
Definition recognised (item : QueueItem) : bool :=
  match item with
  | UpdateSystray _ _ | Other _ => false
  | _ => true
  end.

(** Descending by average time. *)
Definition descending_by_average (backup_count : Z) (a b : string * Q) : Prop :=
  (average backup_count b <= average backup_count a)%Q.

(** ** The model at work *)

Module Scenarios.
Import Demo.

(** A backup of three lines, the second a statistics line, exiting with 0. *)
Definition three_lines : Platform :=
  platform_with (fun _ _ =>
    Some (prints ["Creating archive" +:+ nl; "Number of files: 12" +:+ nl; "done" +:+ nl] 0)).

(** A backup of two lines, exiting with 1. *)
Definition failing : Platform :=
  platform_with (fun _ _ => Some (prints ["Creating archive" +:+ nl; "error" +:+ nl] 1)).

(** A backup that is cancelled while its second line is awaited, does not
    mind, prints the line and exits with 0. *)
Definition cancelled_but_fine : Platform :=
  platform_with (fun _ _ =>
    Some (PLine [] ("Creating archive" +:+ nl) (fun _ =>
          PLine [[CancelBackup alpha]] ("done" +:+ nl) (fun _ => PExit [] 0)))).

(** No process can be started. *)
Definition no_processes : Platform := platform_with (fun _ _ => None).

Definition backup_running : World := world_with_status [("Alpha backup", RUNNING)].

Definition all_ten_logs : World :=
  with_files
    (list_to_map
       (("C:\logs\borgmatic-alpha.log", "current")
        :: map (fun i => ("C:\logs\borgmatic-alpha.log." +:+ pretty i, "old " +:+ pretty i))
             [1; 2; 3; 4; 5; 6; 7; 8; 9]))
    empty_world.

(** The stages of the backup of three lines. *)
Definition three_lines_started : World * Result (Q * list string * Process) :=
  Eval vm_compute in
    start_process (platform := three_lines) "Alpha backup" (backup_command alpha) empty_world.

Definition three_lines_start : Q :=
  Eval vm_compute in
    match three_lines_started.2 with Ok (start, _, _) => start | Raise _ => 0%Q end.

Definition three_lines_parts : list string :=
  Eval vm_compute in
    match three_lines_started.2 with Ok (_, parts, _) => parts | Raise _ => [] end.

Definition three_lines_process : Process :=
  Eval vm_compute in
    match three_lines_started.2 with Ok (_, _, p) => p | Raise _ => PExit [] 0 end.

Definition three_lines_read : World * Result (Progress * Z) :=
  Eval vm_compute in
    read_lines (platform := three_lines) "Alpha backup" 0 three_lines_start
      three_lines_process
      {| line_count := 0; stats_output := ""; last_update_time := three_lines_start |}
      three_lines_started.1.

Definition three_lines_progress : Progress :=
  Eval vm_compute in
    match three_lines_read.2 with
    | Ok (st, _) => st
    | Raise _ => {| line_count := 0; stats_output := ""; last_update_time := 0%Q |}
    end.

(** The stages of the cancelled backup. *)
Definition cancelled_loaded : World * Result Z :=
  Eval vm_compute in
    load_line_count (platform := cancelled_but_fine) (backup_line_count_file alpha)
      (world_after (task_is_running "Alpha backup" ;; rotate_logs (log_file alpha))
         empty_world).

Definition cancelled_started : World * Result (Q * list string * Process) :=
  Eval vm_compute in
    start_process (platform := cancelled_but_fine) "Alpha backup" (backup_command alpha)
      cancelled_loaded.1.

Definition cancelled_start : Q :=
  Eval vm_compute in
    match cancelled_started.2 with Ok (start, _, _) => start | Raise _ => 0%Q end.

Definition cancelled_parts : list string :=
  Eval vm_compute in
    match cancelled_started.2 with Ok (_, parts, _) => parts | Raise _ => [] end.

Definition cancelled_process : Process :=
  Eval vm_compute in
    match cancelled_started.2 with Ok (_, _, p) => p | Raise _ => PExit [] 0 end.

Definition cancelled_read : World * Result (Progress * Z) :=
  Eval vm_compute in
    read_lines (platform := cancelled_but_fine) "Alpha backup" 0 cancelled_start
      cancelled_process
      {| line_count := 0; stats_output := ""; last_update_time := cancelled_start |}
      cancelled_started.1.

Definition cancelled_progress : Progress :=
  Eval vm_compute in
    match cancelled_read.2 with
    | Ok (st, _) => st
    | Raise _ => {| line_count := 0; stats_output := ""; last_update_time := 0%Q |}
    end.

(** A log of four items and a line that is not an item. *)
Definition sample_log : string :=
  "[2024-05-01 10:00:00,000] INFO A /home/a.txt" +:+ nl
  +:+ "[2024-05-01 10:00:10,000] INFO A /home/b.txt" +:+ nl
  +:+ "[2024-05-01 10:00:20,000] INFO M /home/a.txt" +:+ nl
  +:+ "[2024-05-01 10:11:20,000] INFO A /home/c.txt" +:+ nl
  +:+ "plain text" +:+ nl.

End Scenarios.

(** ** Vocabulary for the further properties *)

(** The two jobs [enable_scheduled_backups] registers for a configuration:
    the backup at minute 0 and the post-backup tasks at minute 1. *)
Definition jobs_of (config : BackupConfiguration) : list Job :=
  [ {| tag := name config; every_hours := backup_schedule_hours config;
       at_minute := ":00"; job_post_backup := false; job_config := config |};
    {| tag := name config; every_hours := post_backup_schedule_hours config;
       at_minute := ":01"; job_post_backup := true; job_config := config |} ].

(** The jobs that carry a tag, in the order of registration. *)
Definition tagged (t : string) (js : list Job) : list Job :=
  List.filter (fun j => String.eqb (tag j) t) js.

(** The task has come to an end: its status is FINISHED or FAILED. *)
Definition settled (s : TaskStatus) : Prop := s = FINISHED ∨ s = FAILED.

(** A log line that goes to the report of excluded files: an item line
    (five fields or more) whose flag is a minus sign. *)
Definition is_excluded_line (line : string) : bool :=
  let parts := PyStr.split_ws line in
  (5 <=? length parts)%nat && String.eqb (nth 3 parts "") "-".

(** The text [analyze_logs] hands to [strptime] for a log line. *)
Definition timestamp_text (line : string) : string :=
  PyStr.slice_1_m1 (PyStr.join " " (take 2 (PyStr.split_ws line))) +:+ "000".

(** Generation [i] of a log: the un-suffixed log for 0. *)
Definition generation_file (log_file : Path) (i : Z) : string :=
  if i =? 0 then path_str log_file else generation_str log_file i.

(** [rotate_logs] called [k] times in a row, as [k] backups call it. *)
Fixpoint rotations (k : nat) (log_file : Path) : M unit :=
  match k with
  | O => ret tt
  | S k' => rotate_logs log_file ;; rotations k' log_file
  end.

(** The target of the thread fits the request it is given: the method finds
    the attributes it reads. *)
Definition fits (t : Thread) : Prop :=
  match target t, args t with
  | target_run_backup, StartBackup _ _
  | target_run_post_backup, StartPostBackup _ _
  | target_analyze_logs, AnalyzeLogs _ _
  | target_diff_last_backups, DiffLastBackups _ _ => True
  | _, _ => False
  end.

(** The threads the dispatch loop starts for a request. *)
Definition threads_for (item : QueueItem) : list Thread :=
  match item with
  | StartBackup _ _ => [{| target := target_run_backup; args := item |}]
  | StartPostBackup _ _ => [{| target := target_run_post_backup; args := item |}]
  | AnalyzeLogs _ _ => [{| target := target_analyze_logs; args := item |}]
  | DiffLastBackups _ _ => [{| target := target_diff_last_backups; args := item |}]
  | _ => []
  end.

(** The exit code of a process that is asked to terminate at every line
    read from now on. *)
Fixpoint exit_code_when_asked (process : Process) : Z :=
  match process with
  | PExit _ returncode => returncode
  | PLine _ raw next =>
      if String.eqb raw "" then exit_code (next false)
      else exit_code_when_asked (next true)
  end.

(** Nothing arrives at the dispatch loop while the process, left alone,
    produces its output. *)
Fixpoint undisturbed (process : Process) : Prop :=
  match process with
  | PExit meanwhile _ => meanwhile = []
  | PLine meanwhile _ next => meanwhile = [] ∧ undisturbed (next false)
  end.

(** The icons the messages of a queue carry, in order. *)
Definition icons_sent (queue : list QueueItem) : list string :=
  omap (fun item => match item with UpdateSystray _ icon => icon | _ => None end) queue.

(** No element is followed by an equal one. *)
Fixpoint adjacent_distinct (l : list string) : Prop :=
  match l with
  | a :: rest => match rest with b :: _ => a ≠ b | [] => True end ∧ adjacent_distinct rest
  | [] => True
  end.

(** [last_sent_icon] is what it is named after, and no icon was sent twice in
    a row. *)
Definition icon_bookkeeping (w : World) : Prop :=
  last_sent_icon w = last (icons_sent (output_queue w))
  ∧ adjacent_distinct (icons_sent (output_queue w)).

(** The titles the workers give the tasks of a configuration of that name. *)
Definition task_titles (n : string) : list string :=
  [n +:+ " backup"; n +:+ " post-backup"; n +:+ " analysis"; n +:+ " diff"].

(** ** [configuration.py] *)

(** [BasicBackupConfiguration]: a configuration without file paths. *)
Module Basic.
Record BasicBackupConfiguration := {
  name : string;
  icon : string;
  wsl_distro : string;
  backup_schedule_hours : Z;
  post_backup_wsl_distro : string;
  post_backup_schedule_hours : Z
}.
End Basic.

(** An element of the list [Configuration] is given: the [isinstance] test
    of the loop tells the two classes apart. *)
Inductive AnyBackupConfiguration :=
| Full (configuration : BackupConfiguration)
| Basic (configuration : Basic.BasicBackupConfiguration).

(** The [BackupConfiguration] built from a basic one, with generated file
    paths.  [directory / text] is [path_join]: the text is one path
    component, as it is for a name without path separators or a colon. *)
Definition full_backup_configuration (config_dir logs_dir reports_dir : Path)
    (configuration : Basic.BasicBackupConfiguration) : BackupConfiguration :=
  let lowered := PyStr.lower (Basic.name configuration) in
  {| name := Basic.name configuration;
     icon := Basic.icon configuration;
     config_file := path_join config_dir ("borgmatic-" +:+ lowered +:+ ".yml");
     wsl_distro := Basic.wsl_distro configuration;
     backup_schedule_hours := Basic.backup_schedule_hours configuration;
     log_file := path_join logs_dir ("borgmatic-" +:+ lowered +:+ ".log");
     report_files := path_join reports_dir (lowered +:+ "-files.txt");
     report_paths := path_join reports_dir (lowered +:+ "-paths.txt");
     report_excluded := path_join reports_dir (lowered +:+ "-excluded.txt");
     report_errors := path_join reports_dir (lowered +:+ "-errors.txt");
     diff_file := path_join reports_dir (lowered +:+ "-diff.txt");
     post_backup_script := path_join config_dir ("post-backup-" +:+ lowered +:+ ".sh");
     post_backup_wsl_distro := Basic.post_backup_wsl_distro configuration;
     post_backup_schedule_hours := Basic.post_backup_schedule_hours configuration;
     backup_line_count_file := path_join logs_dir ("lines-" +:+ lowered +:+ ".txt") |}.

(** [Configuration] and its [__init__]. *)
Module Configuration.
Record Configuration := {
  editor : string;
  config_dir : Path;
  logs_dir : Path;
  reports_dir : Path;
  log_file : Path;
  backup_configurations : list BackupConfiguration
}.

Definition init (editor : string) (config_dir logs_dir reports_dir log_file : Path)
    (backup_configurations : list AnyBackupConfiguration) : Configuration :=
  {| editor := editor; config_dir := config_dir; logs_dir := logs_dir;
     reports_dir := reports_dir; log_file := log_file;
     backup_configurations :=
       foldl (fun configurations configuration =>
                match configuration with
                | Full c => configurations ++ [c]
                | Basic b =>
                    configurations
                    ++ [full_backup_configuration config_dir logs_dir reports_dir b]
                end)
             [] backup_configurations |}.
End Configuration.

(** The files [analyze_logs] and [diff_last_backups] write for a
    configuration. *)
Definition report_paths_of (config : BackupConfiguration) : list Path :=
  [report_files config; report_paths config; report_excluded config;
   report_errors config; diff_file config].

(** What [str(directory / text)] puts before the text. *)
Definition directory_text (directory : Path) : string :=
  drive directory +:+ "\" +:+
  match tail directory with
  | [] => ""
  | parts => PyStr.join "\" parts +:+ "\"
  end.

(** ** [systray.py]: the thread that updates the icon *)

Module Systray.

(** What the methods of [BorgmaticSystray] below read and change.  The two
    queues are named as the class names them: [input_queue] is what the
    systray reads, [output_queue] what it writes.  [SysTrayIcon.update]
    belongs to a library: its calls are recorded, with the arguments in the
    order of the call (icon first), and it is taken not to raise. *)
Record Tray := {
  input_queue : list QueueItem;
  output_queue : list QueueItem;
  updates : list (option string * option string);
  stdout : list string;
  thread_exited : bool
}.

Definition with_input_queue (q : list QueueItem) (t : Tray) : Tray :=
  {| input_queue := q; output_queue := output_queue t; updates := updates t;
     stdout := stdout t; thread_exited := thread_exited t |}.

(** [self.update(icon, hover_text)] *)
Definition update (icon hover_text : option string) (t : Tray) : Tray :=
  {| input_queue := input_queue t; output_queue := output_queue t;
     updates := updates t ++ [(icon, hover_text)];
     stdout := stdout t; thread_exited := thread_exited t |}.

Definition print (line : string) (t : Tray) : Tray :=
  {| input_queue := input_queue t; output_queue := output_queue t;
     updates := updates t; stdout := stdout t ++ [line];
     thread_exited := thread_exited t |}.

Definition queue_exit (t : Tray) : Tray :=
  {| input_queue := input_queue t ++ [Exit]; output_queue := output_queue t ++ [Exit];
     updates := updates t; stdout := stdout t; thread_exited := thread_exited t |}.

(** The [match queue_item] of [systray_update_thread]. *)
Definition handle (queue_item : QueueItem) (t : Tray) : Tray * Result LoopCtl :=
  match queue_item with
  | UpdateSystray hover_text icon => (update icon hover_text t, Ok Next)
  | Exit => (queue_exit t, Ok Break)
  | _ => (t, Raise (TypeError ("Systray got unknown type in input queue: "
                               +:+ type_repr queue_item)))
  end.

Section Thread.
Context {platform : Platform}.

(** One iteration of the [while True] of [systray_update_thread], with its
    [except Exception]; [arrivals] are the requests put from outside before
    [get] returns.  An empty queue is [continue]. *)
Definition iteration (arrivals : list QueueItem) (t : Tray) : Tray * LoopCtl :=
  match input_queue t ++ arrivals with
  | [] => (with_input_queue [] t, Next)
  | queue_item :: rest =>
      match handle queue_item (with_input_queue rest t) with
      | (t', Ok ctl) => (t', ctl)
      | (t', Raise ex) =>
          let message := "Error in systray: " +:+ exn_str ex +:+ nl +:+ format_exc ex in
          (update (Some error_ico) (Some message) (print message t'), Next)
      end
  end.

(** [systray_update_thread], for as many iterations as [feed] has entries. *)
Fixpoint systray_update_thread (feed : list (list QueueItem)) (t : Tray) : Tray :=
  match feed with
  | [] => t
  | arrivals :: rest =>
      if thread_exited t then t
      else
        match iteration arrivals t with
        | (t', Break) =>
            {| input_queue := input_queue t'; output_queue := output_queue t';
               updates := updates t'; stdout := stdout t'; thread_exited := true |}
        | (t', Next) => systray_update_thread rest t'
        end
  end.

End Thread.

(** The loop of [start]: scheduled backups are enabled for every
    configuration. *)
Definition start (backup_configurations : list BackupConfiguration) (t : Tray) : Tray :=
  foldl (fun t config =>
           {| input_queue := input_queue t;
              output_queue := output_queue t ++ [EnableScheduledBackups config];
              updates := updates t; stdout := stdout t;
              thread_exited := thread_exited t |})
        t backup_configurations.

(** The request a menu entry of a configuration puts on the output queue;
    entry 6, which opens the editor on the configuration file, puts none. *)
Definition menu_request (editor : string) (config : BackupConfiguration) (entry : nat)
  : option QueueItem :=
  match entry with
  | 0 => Some (StartBackup config false)
  | 1 => Some (CancelBackup config)
  | 2 => Some (StartPostBackup config false)
  | 3 => Some (CancelPostBackup config)
  | 4 => Some (EnableScheduledBackups config)
  | 5 => Some (DisableScheduledBackups config)
  | 7 => Some (AnalyzeLogs config editor)
  | 8 => Some (DiffLastBackups config editor)
  | _ => None
  end%nat.

End Systray.

(** The request is an Exit. *)
Definition is_exit (queue_item : QueueItem) : bool :=
  match queue_item with Exit => true | _ => false end.

(** What the systray thread shows for a request it takes: the update it
    calls, or the error it reports for a request of a kind it does not know.
    An Exit shows nothing. *)
Definition shown_for `{platform : Platform} (queue_item : QueueItem)
  : list (option string * option string) :=
  match queue_item with
  | UpdateSystray hover_text icon => [(icon, hover_text)]
  | Exit => []
  | _ =>
      let ex := TypeError ("Systray got unknown type in input queue: "
                           +:+ type_repr queue_item) in
      [(Some error_ico, Some ("Error in systray: " +:+ exn_str ex +:+ nl +:+ format_exc ex))]
  end.

(** The request is of a kind the systray thread has a case for. *)
Definition systray_knows (queue_item : QueueItem) : bool :=
  match queue_item with
  | UpdateSystray _ _ | Exit => true
  | _ => false
  end.

(** Every request on the output queue is of a kind the systray thread has a
    case for. *)
Definition output_known (w : World) : bool := forallb systray_knows (output_queue w).

(** A field of a log line: not empty, of ASCII characters, and without white
    space. *)
Definition is_word (s : string) : Prop :=
  s ≠ ""
  ∧ Forall (fun c => PyStr.isspace c = false ∧ (Ascii.nat_of_ascii c < 128)%nat)
      (String.list_ascii_of_string s).

(** All a process prints when it is never asked to terminate. *)
Fixpoint output_of (process : Process) : string :=
  match process with
  | PExit _ _ => ""
  | PLine _ raw next => raw +:+ output_of (next false)
  end.

(** The archive names [diff_last_backups] takes from the listing: the first
    field of each of the two lines before the last. *)
Definition last_two_backups (listing : string) : string :=
  PyStr.join " "
    (map (fun line => hd "" (PyStr.split_on " " line))
         (slice_m3_m1 (PyStr.split_on "010" listing))).

(** The character does not occur in the text. *)
Definition without (c : ascii) (s : string) : Prop :=
  Forall (fun x => x ≠ c) (String.list_ascii_of_string s).

(** ** Further inputs to run the model on *)

Module Cases.
Import Demo Scenarios.

(** The line-count file of [alpha] holds text that is not a number. *)
Definition unreadable_lines : World :=
  with_files {[ "C:\logs\lines-alpha.txt" := "many" ]} empty_world.

(** The words of the command that lists the archives of [alpha]. *)
Definition alpha_list_parts : list string :=
  Eval vm_compute in
    PyStr.split_ws
      ("wsl.exe -d " +:+ wsl_distro alpha +:+ " -- PATH=~/.local/bin:$PATH borgmatic "
       +:+ "--config " +:+ to_wsl_path (config_file alpha) +:+ " borg rlist").

(** A current log whose third line has a first field pair that is no
    timestamp. *)
Definition malformed_log : World :=
  with_files
    {[ "C:\logs\borgmatic-alpha.log" :=
         "plain text" +:+ nl
         +:+ "[2024-05-01 10:00:00,000] INFO A /home/a.txt" +:+ nl
         +:+ "[yesterday at-noon] INFO A /home/b.txt" +:+ nl ]}
    empty_world.

(** A current log with one excluded item, and an older log with another. *)
Definition excluding_logs : World :=
  with_files
    {[ "C:\logs\borgmatic-alpha.log" :=
         "[2024-05-01 10:00:00,000] INFO A /home/a.txt" +:+ nl
         +:+ "[2024-05-01 10:00:01,000] INFO - /home/cache" +:+ nl
         +:+ "[2024-05-01 10:00:02,000] INFO x /home/b.txt" +:+ nl;
       "C:\logs\borgmatic-alpha.log.1" :=
         "[2024-04-30 10:00:00,000] INFO - /home/old-cache" +:+ nl ]}
    empty_world.

Definition excluding_analysis : World * Result unit :=
  Eval vm_compute in
    analyze_logs_body (platform := three_lines) alpha "notepad.exe" excluding_logs.

(** A second configuration, generated from a basic one. *)
Definition beta : BackupConfiguration :=
  full_backup_configuration
    {| drive := "C:"; tail := ["config"] |} {| drive := "C:"; tail := ["logs"] |}
    {| drive := "C:"; tail := ["reports"] |}
    {| Basic.name := "Beta"; Basic.icon := "beta.ico"; Basic.wsl_distro := "Debian";
       Basic.backup_schedule_hours := 4; Basic.post_backup_wsl_distro := "Debian";
       Basic.post_backup_schedule_hours := 12 |}.

(** A systray whose queue holds an update, an object of an unknown class, an
    Exit and a late update. *)
Definition busy_tray : Systray.Tray :=
  {| Systray.input_queue :=
       [UpdateSystray (Some "Running Alpha backup") (Some backup_ico); Other "int"; Exit;
        UpdateSystray (Some "late") None];
     Systray.output_queue := []; Systray.updates := []; Systray.stdout := [];
     Systray.thread_exited := false |}.

Definition fresh_tray : Systray.Tray :=
  {| Systray.input_queue := []; Systray.output_queue := []; Systray.updates := [];
     Systray.stdout := []; Systray.thread_exited := false |}.

(** The time of ten o'clock on the first of May 2024, in microseconds. *)
Definition ten_o_clock : Z :=
  Eval vm_compute in default 0 (timestamp_of_text "2024-05-01 10:00:00,000000").

End Cases.

(** ** The log analysis in the words of the specification *)

(** An item line of a log: a line of five fields or more, with the
    timestamp it carries, in microseconds, its flag and its path. *)
Record Item := {
  item_time : Z;
  item_flag : string;
  item_path : string
}.

(** The non-empty prefixes of a list, the shortest first. *)
Fixpoint prefixes {A} (l : list A) : list (list A) :=
  match l with
  | [] => []
  | x :: rest => [x] :: map (cons x) (prefixes rest)
  end.

(** Every prefix of the component list of a path, as a path. *)
Definition spec_prefixes (path : string) : list string :=
  map (PyStr.join "/") (prefixes (PyStr.split_on "/" path)).

(** A charge to a path is a charge to every prefix of it. *)
Definition spec_prefix_charges (charges : list (string * Q)) : list (string * Q) :=
  flat_map (fun c => map (fun prefix => (prefix, c.2)) (spec_prefixes c.1)) charges.

(** The keys charged, in the order in which they are first charged. *)
Definition spec_keys (charges : list (string * Q)) : list string :=
  foldl (fun seen c => if bool_decide (c.1 ∈ seen) then seen else seen ++ [c.1]) [] charges.

(** The total of a key: the deltas charged to it, added to 0.0 one after
    the other in the order of the charges. *)
Definition spec_total (key : string) (charges : list (string * Q)) : Q :=
  foldl PyFloat.add 0%Q (map snd (List.filter (fun c => String.eqb c.1 key) charges)).

(** The totals of all keys charged. *)
Definition spec_totals (charges : list (string * Q)) : list (string * Q) :=
  map (fun key => (key, spec_total key charges)) (spec_keys charges).

(** The contents of the files at [paths], from the first up to the first
    that is missing. *)
Fixpoint present_texts (paths : list string) (fs : gmap string string) : list string :=
  match paths with
  | [] => []
  | p :: rest =>
      match fs !! p with
      | Some text => text :: present_texts rest fs
      | None => []
      end
  end.

(** The log generations the analyzer scans: the current log and its
    numbered generations up to the first missing one. *)
Definition scanned_logs (config : BackupConfiguration) (fs : gmap string string)
  : list string :=
  present_texts (map (log_file_path config) [0; 1; 2; 3; 4; 5; 6; 7; 8; 9]) fs.

Section SpecAnalysis.
Context {platform : Platform}.

(** The item a line is, if it has five fields or more and its timestamp
    parses. *)
Definition item_of_line (line : string) : option Item :=
  let parts := PyStr.split_ws line in
  if (length parts <? 5)%nat then None
  else
    match strptime (timestamp_text line) with
    | None => None
    | Some timestamp =>
        Some {| item_time := timestamp; item_flag := nth 3 parts "";
                item_path := PyStr.join " " (drop 4 parts) |}
    end.

(** Each item with its delta: the seconds from the timestamp of the item
    before it ([previous]; the first item of a log has none and gets 0). *)
Fixpoint spec_deltas (previous : option Z) (items : list Item) : list (Item * Q) :=
  match items with
  | [] => []
  | item :: rest =>
      (item, total_seconds (item_time item - default (item_time item) previous))
      :: spec_deltas (Some (item_time item)) rest
  end.

(** The delta of an item is accumulated: its flag is a single character
    and the delta is under 600 seconds. *)
Definition spec_accumulated (c : Item * Q) : bool :=
  (PyStr.len (item_flag c.1) =? 1)%nat && Qltb c.2 600.

(** What the items from [previous] on charge: the path and the delta of
    each item whose delta is accumulated, in the order of the log. *)
Definition spec_charges_from (previous : option Z) (items : list Item)
  : list (string * Q) :=
  map (fun c => (item_path c.1, c.2)) (List.filter spec_accumulated (spec_deltas previous items)).

(** What a log charges. *)
Definition spec_charges (text : string) : list (string * Q) :=
  spec_charges_from None (omap item_of_line (PyStr.lines text)).

End SpecAnalysis.

(** [table[key] += delta] for each charge in turn. *)
Definition charge_all (table : list (string * Q)) (charges : list (string * Q))
  : list (string * Q) :=
  foldl (fun t c => add_time c.1 c.2 t) table charges.

(** ** The workers as threads *)

(** [run] starts every worker in a thread of its own, and the threads share
    the thread object: the status table, the queues, the files.  Here a
    worker is written as the sequence of calls it makes; a call is one step
    of its thread, and between two steps of a thread the other threads take
    theirs. *)

(** A call a worker makes on the thread object, the platform or the process
    it supervises.  [call_blocked] is a [readline] or a [wait] on the
    process: the worker is blocked while the dispatch loop performs the
    iterations [meanwhile]. *)
Inductive Call :=
| call_sleep (seconds : Z)
| call_task_is_running (task_title : string)
| call_output (line : string)
| call_put_input (item : QueueItem)
| call_rotate_logs (log_file : Path)
| call_load_line_count (line_count_file : Path)
| call_save_line_count (line_count_file : Path) (line_count : Z)
| call_set_status (task : string) (status : TaskStatus)
| call_get_status (task : string)
| call_time
| call_now
| call_Popen (args : list string)
| call_blocked (meanwhile : list (list QueueItem))
| call_update_systray (hover_text icon : option string).

(** What a call returns. *)
Definition answer (c : Call) : Type :=
  match c with
  | call_task_is_running _ => bool
  | call_load_line_count _ => Z
  | call_get_status _ => TaskStatus
  | call_time => Q
  | call_now => nat
  | call_Popen _ => Process
  | _ => unit
  end.

(** A worker: it has returned or raised, or it makes a call and goes on
    with what the call returned or raised. *)
Inductive Prog (A : Type) : Type :=
| Return (r : Result A)
| Step (c : Call) (k : Result (answer c) → Prog A).
Arguments Return {A} r.
Arguments Step {A} c k.

Definition call (c : Call) : Prog (answer c) := Step c Return.

(** Sequencing: an exception ends the sequence. *)
Fixpoint and_then {A B} (p : Prog A) (k : A → Prog B) : Prog B :=
  match p with
  | Return (Ok a) => k a
  | Return (Raise e) => Return (Raise e)
  | Step c k' => Step c (fun r => and_then (k' r) k)
  end.

(** [try: body  except ...], as [try_except]. *)
Fixpoint try_steps {A} (body : Prog A) (handler : Exn → option (Prog A)) : Prog A :=
  match body with
  | Return (Ok a) => Return (Ok a)
  | Return (Raise e) =>
      match handler e with
      | Some h => h
      | None => Return (Raise e)
      end
  | Step c k => Step c (fun r => try_steps (k r) handler)
  end.

Declare Scope steps_scope.
Delimit Scope steps_scope with steps.
Notation "x <- p ;; k" := (and_then p (fun x => k))
  (at level 20, p at level 99, k at level 200, only parsing) : steps_scope.
Notation "p ;; k" := (and_then p (fun _ => k))
  (at level 100, k at level 200, right associativity, only parsing) : steps_scope.

Definition returns {A} (a : A) : Prog A := Return (Ok a).
Definition raises {A} (e : Exn) : Prog A := Return (Raise e).

Section Workers.
Context `{platform : Platform}.
Local Open Scope steps_scope.

(** What a call does to the world: the method or primitive of the
    sequential model. *)
Definition perform (c : Call) : M (answer c) :=
  match c with
  | call_sleep seconds => sleep seconds
  | call_task_is_running task_title => task_is_running task_title
  | call_output line => output line
  | call_put_input item => put_input item
  | call_rotate_logs log_file => rotate_logs log_file
  | call_load_line_count line_count_file => load_line_count line_count_file
  | call_save_line_count line_count_file line_count =>
      save_line_count line_count_file line_count
  | call_set_status task status => write_status task status
  | call_get_status task => read_status task
  | call_time => time
  | call_now => tick
  | call_Popen args => Popen args
  | call_blocked meanwhile => run_loop meanwhile
  | call_update_systray hover_text icon => update_systray hover_text icon
  end.

(** [wait] *)
Fixpoint wait_steps (process : Process) : Prog Z :=
  match process with
  | PExit meanwhile returncode => call (call_blocked meanwhile) ;; returns returncode
  | PLine meanwhile _ next => call (call_blocked meanwhile) ;; wait_steps (next false)
  end.

(** [handle_line] *)
Definition handle_line_steps (title : string) (line_count_target : Z) (start_time : Q)
    (count : Z) (text : string) (st : Progress) : Prog Progress :=
  let line := PyStr.strip text in
  let stats :=
    if is_stats_line line
       && negb (PyStr.endswith line " 0" || PyStr.endswith line " 0 B")
    then stats_output st +:+ nl +:+ line
    else stats_output st in
  now <- call call_time ;;
  if Qltb 1 (now - last_update_time st) then
    now2 <- call call_time ;;
    let hover_text := "Running " +:+ title +:+ " (" +:+ PyStr.time_string (now2 - start_time) in
    let hover_text :=
      if 0 <? line_count_target
      then hover_text +:+ ", "
           +:+ PyStr.format_2f
                 (PyFloat.mul (PyFloat.div (inject_Z count) (inject_Z line_count_target))
                    100)
           +:+ "%"
      else hover_text in
    let hover_text := hover_text +:+ "):" +:+ nl +:+ line in
    call (call_update_systray (Some hover_text) None) ;;
    now3 <- call call_time ;;
    returns {| line_count := count; stats_output := stats; last_update_time := now3 |}
  else
    returns {| line_count := count; stats_output := stats;
               last_update_time := last_update_time st |}.

(** [read_lines] *)
Fixpoint read_lines_steps (title : string) (line_count_target : Z) (start_time : Q)
    (process : Process) (st : Progress) : Prog (Progress * Z) :=
  match process with
  | PExit meanwhile returncode => call (call_blocked meanwhile) ;; returns (st, returncode)
  | PLine meanwhile raw next =>
      call (call_blocked meanwhile) ;;
      if String.eqb raw "" then
        returncode <- wait_steps (next false) ;; returns (st, returncode)
      else
        let count := line_count st + 1 in
        status <- call (call_get_status title) ;;
        let terminate := status_eqb status CANCEL_REQUESTED in
        match decode_utf8 raw with
        | None =>
            wait_steps (next terminate) ;;
            raises (UnicodeDecodeError "'utf-8' codec can't decode bytes")
        | Some text =>
            st' <- handle_line_steps title line_count_target start_time count text st ;;
            read_lines_steps title line_count_target start_time (next terminate) st'
        end
  end.

(** [start_process] *)
Definition start_process_steps (title command : string) : Prog (Q * list string * Process) :=
  call (call_set_status title RUNNING) ;;
  call (call_output ("Running " +:+ title +:+ ": started")) ;;
  start_time <- call call_time ;;
  match shlex_split command with
  | None => raises (ValueError "No closing quotation")
  | Some command_parts =>
      process <- call (call_Popen command_parts) ;;
      returns (start_time, command_parts, process)
  end.

(** [finish_process] *)
Definition finish_process_steps (title : string) (command_parts : list string)
    (start_time : Q) (st : Progress) (returncode : Z) : Prog Z :=
  now <- call call_time ;;
  let time_string := PyStr.time_string (now - start_time) in
  if negb (returncode =? 0) then
    call (call_set_status title FAILED) ;;
    n <- call call_now ;;
    call (call_output ("Failed " +:+ title +:+ " at " +:+ now_clock n +:+ "!" +:+ nl
            +:+ "Return code: " +:+ pretty returncode +:+ " (in " +:+ time_string +:+ ")")) ;;
    raises (CalledProcessError returncode command_parts)
  else
    n <- call call_now ;;
    let hover_text :=
      "Finished " +:+ title +:+ " at " +:+ now_clock n +:+ " in " +:+ time_string +:+ ":" in
    let hover_text :=
      if String.eqb (stats_output st) "" then hover_text
      else hover_text +:+ nl +:+ stats_output st in
    call (call_set_status title FINISHED) ;;
    call (call_output hover_text) ;;
    returns (line_count st).

(** [run_process_and_update_systray] *)
Definition run_process_steps (title command : string) (line_count_target : Z) : Prog Z :=
  sp <- start_process_steps title command ;;
  let '(start_time, command_parts, process) := sp in
  r <- read_lines_steps title line_count_target start_time process
         {| line_count := 0; stats_output := ""; last_update_time := start_time |} ;;
  finish_process_steps title command_parts start_time (fst r) (snd r).

(** [run_backup] *)
Definition run_backup_body_steps (config : BackupConfiguration) : Prog unit :=
  let task_title := name config +:+ " backup" in
  running <- call (call_task_is_running task_title) ;;
  if running then call (call_output (task_title +:+ " is already running, skipping"))
  else
    call (call_rotate_logs (log_file config)) ;;
    backup_lines <- call (call_load_line_count (backup_line_count_file config)) ;;
    backup_lines <- run_process_steps task_title (backup_command config) backup_lines ;;
    call (call_save_line_count (backup_line_count_file config) backup_lines).

Definition run_backup_steps (config : BackupConfiguration) : Prog unit :=
  let task_title := name config +:+ " backup" in
  try_steps (run_backup_body_steps config)
    (fun ex =>
       if is_CalledProcessError ex then Some (returns tt)
       else Some (
         call (call_set_status task_title FAILED) ;;
         call (call_output ("Error running backup for " +:+ name config +:+ ": "
                            +:+ exn_str ex +:+ nl +:+ format_exc ex)))).

(** [run_post_backup] *)
Definition run_post_backup_body_steps (config : BackupConfiguration) (is_scheduled : bool)
  : Prog unit :=
  let task_title := name config +:+ " post-backup" in
  (if is_scheduled then call (call_sleep 10) else returns tt) ;;
  running <- call (call_task_is_running task_title) ;;
  if running then call (call_output (task_title +:+ " is already running, skipping"))
  else
    let backup_task_title := name config +:+ " backup" in
    backup_running <- call (call_task_is_running backup_task_title) ;;
    if backup_running then
      call (call_output (backup_task_title +:+ " is still running, delaying " +:+ task_title)) ;;
      call (call_sleep 30) ;;
      call (call_put_input (StartPostBackup config is_scheduled))
    else
      run_process_steps task_title (post_backup_command config) 0 ;;
      returns tt.

Definition run_post_backup_steps (config : BackupConfiguration) (is_scheduled : bool)
  : Prog unit :=
  let task_title := name config +:+ " post-backup" in
  try_steps (run_post_backup_body_steps config is_scheduled)
    (fun ex =>
       if is_CalledProcessError ex then Some (returns tt)
       else Some (
         call (call_set_status task_title FAILED) ;;
         call (call_output ("Error running post-backup tasks for " +:+ name config +:+ ": "
                            +:+ exn_str ex +:+ nl +:+ format_exc ex)))).

(** The steps of a worker taken one after the other, with no step of
    another thread in between. *)
Fixpoint in_one_go {A} (p : Prog A) : M A :=
  match p with
  | Return r => fun w => (w, r)
  | Step c k => fun w => let (w', r) := perform c w in in_one_go (k r) w'
  end.

(** A step a thread has taken: the call, and the world before and after. *)
Record Event := {
  actor : nat;
  made : Call;
  before : World;
  after : World
}.

(** The threads of [pool], each with what it still has to do, run as
    [schedule] tells: each entry names the thread that takes the next step
    (a thread that has ended takes none).  Returns the steps taken, in
    order, and the threads and the world at the end. *)
Fixpoint run_threads (schedule : list nat) (pool : list (Prog unit)) (w : World)
  : list Event * list (Prog unit) * World :=
  match schedule with
  | [] => ([], pool, w)
  | i :: later =>
      match pool !! i with
      | Some (Step c k) =>
          let (w', r) := perform c w in
          let '(events, pool', w'') := run_threads later (<[i := k r]> pool) w' in
          ({| actor := i; made := c; before := w; after := w' |} :: events, pool', w'')
      | _ => run_threads later pool w
      end
  end.

(** The steps of thread [i] among the steps taken. *)
Definition steps_of (i : nat) (events : list Event) : list Event :=
  filter (fun e => actor e = i) events.

End Workers.

Section Runs.
Context `{platform : Platform}.

(** [took p events p']: a thread that had [p] to do has taken the steps
    [events], each in the world it found (whatever the other threads made
    of it in between), and has [p'] left to do. *)
Fixpoint took {A} (p : Prog A) (events : list Event) (p' : Prog A) {struct events}
  : Prop :=
  match events with
  | [] => p' = p
  | e :: later =>
      match p with
      | Return _ => False
      | Step c k =>
          made e = c
          ∧ after e = (perform c (before e)).1
          ∧ took (k (perform c (before e)).2) later p'
      end
  end.

(** A monitor reads the steps of a thread in order and keeps a state;
    [None] is an alarm. *)
Fixpoint watch {S} (monitor : S → Event → option S) (s : S) (events : list Event)
  : option S :=
  match events with
  | [] => Some s
  | e :: later =>
      match monitor s e with
      | Some s' => watch monitor s' later
      | None => None
      end
  end.

(** In every world it may find at each of its steps, the thread sets off no
    alarm, and it ends only in a state [final] allows. *)
Fixpoint obeys {S A} (monitor : S → Event → option S) (final : S → Prop) (s : S)
    (p : Prog A) : Prop :=
  match p with
  | Return _ => final s
  | Step c k =>
      ∀ (i : nat) (w : World),
        match monitor s {| actor := i; made := c; before := w; after := (perform c w).1 |} with
        | Some s' => obeys monitor final s' (k (perform c w).2)
        | None => False
        end
  end.

(** Every call the thread makes, in any world, is one of [allowed]. *)
Fixpoint makes_only {A} (allowed : Call → Prop) (p : Prog A) : Prop :=
  match p with
  | Return _ => True
  | Step c k => allowed c ∧ ∀ r, makes_only allowed (k r)
  end.

End Runs.

(** The monitor of a worker of [run_post_backup]: whether it has read the
    status of the backup task, and what it found. *)
Inductive Guard := unread | passed | blocked.

Definition guard_monitor (primary : string) (s : Guard) (e : Event) : option Guard :=
  match made e with
  | call_task_is_running task_title =>
      if String.eqb task_title primary then
        match s with
        | unread =>
            Some (if bool_decide (is_active (status_of primary (task_status (before e))))
                  then blocked else passed)
        | _ => None
        end
      else Some s
  | call_Popen _ => match s with passed => Some s | _ => None end
  | _ => Some s
  end.

(** The monitor of a worker of a start request: how far the handling of
    the request has come. *)
Inductive Handling := not_checked | skipping | skipped | cleared | marked | started_one.

Definition start_monitor (title : string) (s : Handling) (e : Event) : option Handling :=
  match s, made e with
  | not_checked, call_sleep _ => Some not_checked
  | not_checked, call_task_is_running task_title =>
      if String.eqb task_title title then
        Some (if bool_decide (is_active (status_of title (task_status (before e))))
              then skipping else cleared)
      else None
  | skipping, call_output line =>
      if String.eqb line (title +:+ " is already running, skipping") then Some skipped
      else None
  | (not_checked | skipping | skipped), _ => None
  | _, call_task_is_running task_title =>
      if String.eqb task_title title then None else Some s
  | cleared, call_set_status task RUNNING =>
      if String.eqb task title then Some marked else None
  | marked, call_Popen _ => Some started_one
  | _, call_set_status _ RUNNING => None
  | _, call_Popen _ => None
  | _, _ => Some s
  end.

(** A worker does not end between its check and the message. *)
Definition handled (s : Handling) : Prop := s ≠ not_checked ∧ s ≠ skipping.

Section StartWorkers.
Context `{platform : Platform}.

(** The worker the dispatch loop starts for a start request. *)
Definition start_worker (item : QueueItem) : option (Prog unit) :=
  match item with
  | StartBackup config _ => Some (run_backup_steps config)
  | StartPostBackup config is_scheduled => Some (run_post_backup_steps config is_scheduled)
  | _ => None
  end.

End StartWorkers.

(** The calls of the supervisor once the process is started, of
    [save_line_count] after it and of the handlers of the two workers. *)
Definition after_start (c : Call) : Prop :=
  match c with
  | call_blocked _ | call_get_status _ | call_time | call_now
  | call_update_systray _ _ | call_output _ | call_save_line_count _ _ => True
  | call_set_status _ status => status ≠ RUNNING
  | _ => False
  end.

(** The calls of the supervisor. *)
Definition supervising (c : Call) : Prop :=
  match c with
  | call_set_status _ _ | call_Popen _ => True
  | _ => after_start c
  end.

(** The call starts a process. *)
Definition is_Popen (c : Call) : Prop :=
  match c with
  | call_Popen _ => True
  | _ => False
  end.

Module Rounding.
Import Demo Scenarios.

(** Two generations of the log of [alpha]: in the current one an item ten
    milliseconds after the first, one ten seconds later, one after a gap of
    more than eleven minutes, one whose flag has two characters and a line
    that is not an item; in the older one deltas of 0.1, 0.2 and 0.3
    seconds. *)
Definition two_generations : World :=
  with_files
    {[ "C:\logs\borgmatic-alpha.log" :=
         "[2024-05-01 10:00:00,000] INFO A /home/a.txt" +:+ nl
         +:+ "[2024-05-01 10:00:00,010] INFO A /home/b.txt" +:+ nl
         +:+ "[2024-05-01 10:00:10,010] INFO M /home/a.txt" +:+ nl
         +:+ "[2024-05-01 10:11:20,010] INFO A /home/c.txt" +:+ nl
         +:+ "[2024-05-01 10:11:21,010] INFO AB /home/d.txt" +:+ nl
         +:+ "plain text" +:+ nl;
       "C:\logs\borgmatic-alpha.log.1" :=
         "[2024-04-30 10:00:00,000] INFO A /home/a.txt" +:+ nl
         +:+ "[2024-04-30 10:00:00,100] INFO A /srv/e.txt" +:+ nl
         +:+ "[2024-04-30 10:00:00,300] INFO A /srv/e.txt" +:+ nl
         +:+ "[2024-04-30 10:00:00,600] INFO A /srv/f.txt" +:+ nl ]}
    empty_world.

Definition two_generations_analysed
  : World * Result (list (string * Q) * list (string * Q) * Scan * Z) :=
  Eval vm_compute in analysis (platform := three_lines) alpha two_generations.

Definition analysed_files : list (string * Q) :=
  Eval vm_compute in
    match two_generations_analysed.2 with Ok (files, _, _, _) => files | Raise _ => [] end.

Definition analysed_paths : list (string * Q) :=
  Eval vm_compute in
    match two_generations_analysed.2 with Ok (_, paths, _, _) => paths | Raise _ => [] end.

Definition analysed_scan : Scan :=
  Eval vm_compute in
    match two_generations_analysed.2 with
    | Ok (_, _, acc, _) => acc
    | Raise _ => {| file_backup_times := []; path_backup_times := [];
                    error_lines := []; excluded_files := [] |}
    end.

Definition two_generations_reported : World * Result unit :=
  Eval vm_compute in
    analyze_logs_body (platform := three_lines) alpha "notepad.exe" two_generations.

End Rounding.

(** ** Threads at work *)

Module Races.
Import Demo Scenarios.

(** The requests to run the backup of Alpha and its post-backup tasks now,
    as the menu puts them. *)
Definition both_requests : list QueueItem :=
  [StartBackup alpha false; StartPostBackup alpha false].

(** The dispatch loop has taken both requests. *)
Definition both_started : World :=
  Eval vm_compute in
    world_after (run (platform := three_lines) [both_requests; []]) empty_world.

(** The workers of the two requests. *)
Definition both_workers : list (Prog unit) :=
  [run_backup_steps (platform := three_lines) alpha;
   run_post_backup_steps (platform := three_lines) alpha false].

(** The backup worker (thread 0) checks its task and rotates the logs, the
    post-backup worker (thread 1) makes its two checks, the backup worker
    goes on until its process is started, then the post-backup worker goes
    on until its process is started. *)
Definition overtaking : list nat := [0; 0; 1; 1; 0; 0; 0; 0; 0; 1; 1; 1; 1]%nat.

(** Two requests to run the backup of Alpha now, taken by the dispatch
    loop, and their workers. *)
Definition twice_started : World :=
  Eval vm_compute in
    world_after (run (platform := three_lines)
                   [[StartBackup alpha false; StartBackup alpha false]; []])
      empty_world.

Definition twice : list (Prog unit) :=
  [run_backup_steps (platform := three_lines) alpha;
   run_backup_steps (platform := three_lines) alpha].

(** Both workers check the task before either marks it. *)
Definition both_checking : list nat := [0; 1; 0; 0; 0; 0; 0; 0; 1; 1; 1; 1; 1; 1]%nat.

Definition analysis_running : World := world_with_status [("Alpha analysis", RUNNING)].

End Races.

(** ** Proofs *)

(** *** The status table *)

Lemma status_eqb_true (a b : TaskStatus) : status_eqb a b = true ↔ a = b.
Proof. unfold status_eqb. apply bool_decide_eq_true. Qed.

Lemma status_eqb_false (a b : TaskStatus) : status_eqb a b = false ↔ a ≠ b.
Proof. unfold status_eqb. apply bool_decide_eq_false. Qed.

Lemma in_values_true (s : TaskStatus) (table : StatusTable) :
  in_values s table = true ↔ some_task_is s table.
Proof.
  unfold in_values, some_task_is. rewrite existsb_exists. split.
  - intros [[k v] [Hin Heq]]. apply status_eqb_true in Heq. simpl in Heq. subst v.
    exists k. by apply list_elem_of_In.
  - intros [k Hin]. exists (k, s). split; [by apply list_elem_of_In|].
    by apply status_eqb_true.
Qed.

Lemma in_values_false (s : TaskStatus) (table : StatusTable) :
  in_values s table = false ↔ ¬ some_task_is s table.
Proof.
  rewrite <- in_values_true. destruct (in_values s table); split; congruence.
Qed.

(** The icon the loop of [update_systray] picks for a title. *)
Lemma first_running_icon_at (task : string) (table : StatusTable) :
  first_running task table →
  first_running_icon table =
    if PyStr.contains "post-backup" task then Some post_backup_ico
    else if PyStr.contains "backup" task then Some backup_ico
    else if PyStr.contains "analysis" task then Some analyze_ico
    else if PyStr.contains "diff" task then Some logs_ico
    else None.
Proof.
  intros (before & after & -> & Hbefore).
  induction before as [|[k v] before IH]; simpl.
  - done.
  - assert (v ≠ RUNNING) as Hv by (apply (Hbefore (k, v)); left).
    apply status_eqb_false in Hv. rewrite Hv.
    apply IH. intros kv Hkv. apply Hbefore. by right.
Qed.

(** *** Strings and paths *)

Lemma append_cons (x : ascii) (a b : string) : String x a +:+ b = String x (a +:+ b).
Proof. reflexivity. Qed.

Lemma append_assoc (a b c : string) : (a +:+ b) +:+ c = a +:+ (b +:+ c).
Proof. induction a as [|x a IH]; [done|]. by rewrite !append_cons, IH. Qed.

Lemma append_empty_r (a : string) : a +:+ "" = a.
Proof. induction a as [|x a IH]; [done|]. by rewrite append_cons, IH. Qed.

Lemma length_append (a b : string) :
  String.length (a +:+ b) = (String.length a + String.length b)%nat.
Proof. induction a as [|x a IH]; [done|]. rewrite append_cons. simpl. by rewrite IH. Qed.

Lemma append_neq_self (a b : string) : b ≠ "" → a +:+ b ≠ a.
Proof.
  intros Hb Heq. apply (f_equal String.length) in Heq.
  rewrite length_append in Heq. destruct b; [done|]. simpl in Heq. lia.
Qed.

Lemma join_cons (sep a : string) (l : list string) :
  l ≠ [] → PyStr.join sep (a :: l) = a +:+ sep +:+ PyStr.join sep l.
Proof. by destruct l. Qed.

Lemma join_suffix_last (sep s : string) (l : list string) :
  PyStr.join sep (removelast l ++ [List.last l "" +:+ s]) = PyStr.join sep l +:+ s.
Proof.
  induction l as [|a l IH]; [done|].
  destruct l as [|b l]; [done|].
  change (removelast (a :: b :: l)) with (a :: removelast (b :: l)).
  change (List.last (a :: b :: l) "") with (List.last (b :: l) "").
  rewrite (join_cons sep a (b :: l)) by done.
  rewrite !append_assoc, <- IH.
  rewrite <- app_comm_cons. apply join_cons.
  intros [_ ?]%app_eq_nil. done.
Qed.

(** The two ways [rotate_logs] writes the path of a generation agree. *)
Lemma generation_path_str (log_file : Path) (i : Z) :
  generation_path log_file i = generation_str log_file i.
Proof.
  unfold generation_path, generation_str, path_str, path_join, path_parent, path_name.
  simpl. by rewrite join_suffix_last, !append_assoc.
Qed.

Lemma generation_str_inj (log_file : Path) (i j : Z) :
  generation_str log_file i = generation_str log_file j → i = j.
Proof.
  unfold generation_str. intros H.
  apply String.app_inj in H. apply (String.app_inj ".") in H.
  by apply pretty_Z_inj in H.
Qed.

Lemma generation_str_not_log (log_file : Path) (i : Z) :
  generation_str log_file i ≠ path_str log_file.
Proof. unfold generation_str. by apply append_neq_self. Qed.

(** *** Reading an item line *)

Lemma string_of_list_of_string (s : string) :
  String.string_of_list_ascii (String.list_ascii_of_string s) = s.
Proof. induction s as [|c s IH]; simpl; by rewrite ?IH. Qed.

Lemma list_of_string_of_list (l : list ascii) :
  String.list_ascii_of_string (String.string_of_list_ascii l) = l.
Proof. induction l as [|c l IH]; simpl; by rewrite ?IH. Qed.

Lemma list_of_append (a b : string) :
  String.list_ascii_of_string (a +:+ b)
  = String.list_ascii_of_string a ++ String.list_ascii_of_string b.
Proof. induction a as [|c a IH]; [done|]. rewrite append_cons. simpl. by rewrite IH. Qed.

Lemma rev_string_involutive (s : string) : PyStr.rev_string (PyStr.rev_string s) = s.
Proof.
  unfold PyStr.rev_string. rewrite list_of_string_of_list, rev_involutive.
  apply string_of_list_of_string.
Qed.

Lemma rev_string_snoc (s : string) (c : ascii) :
  PyStr.rev_string (s +:+ String c "") = String c (PyStr.rev_string s).
Proof. unfold PyStr.rev_string. rewrite list_of_append. simpl. by rewrite rev_unit. Qed.

Lemma slice_brackets (first last : ascii) (s : string) :
  PyStr.slice_1_m1 (String first (s +:+ String last "")) = s.
Proof.
  unfold PyStr.slice_1_m1. rewrite rev_string_snoc. apply rev_string_involutive.
Qed.

Lemma split_ws_aux_field (s rest : string) (cur : list ascii) :
  Forall (fun c => PyStr.isspace c = false) (String.list_ascii_of_string s) →
  PyStr.split_ws_aux (s +:+ rest) cur
  = PyStr.split_ws_aux rest (rev (String.list_ascii_of_string s) ++ cur).
Proof.
  revert cur. induction s as [|c s IH]; intros cur Hs; [done|].
  simpl in Hs. apply Forall_cons in Hs as [Hc Hs].
  rewrite append_cons. simpl. rewrite Hc, IH by done. by rewrite <- app_assoc.
Qed.

Lemma split_ws_aux_space (rest : string) (cur : list ascii) :
  PyStr.split_ws_aux (String " " rest) cur
  = match cur with
    | [] => PyStr.split_ws_aux rest []
    | _ => String.string_of_list_ascii (rev cur) :: PyStr.split_ws_aux rest []
    end.
Proof. done. Qed.

Lemma split_ws_fields (fields : list string) :
  Forall is_word fields → PyStr.split_ws (PyStr.join " " fields +:+ nl) = fields.
Proof.
  unfold PyStr.split_ws. induction fields as [|a fields IH]; intros Hw; [done|].
  apply Forall_cons in Hw as [[Ha Hchars] Hw].
  apply Forall_and in Hchars as [Hchars _].
  assert (String.string_of_list_ascii
            (rev (rev (String.list_ascii_of_string a) ++ [])) = a) as Hback.
  { by rewrite app_nil_r, rev_involutive, string_of_list_of_string. }
  assert (rev (String.list_ascii_of_string a) ++ [] ≠ []) as Hcur.
  { rewrite app_nil_r. destruct a as [|c a]; [done|]. simpl.
    intros H. by apply app_eq_nil in H as [_ ?]. }
  destruct fields as [|b fields].
  - simpl PyStr.join. rewrite split_ws_aux_field by done. simpl.
    destruct (rev _ ++ []) eqn:E; [done|]. by rewrite Hback.
  - rewrite join_cons by done. rewrite !append_assoc.
    rewrite split_ws_aux_field by done.
    change (" " +:+ PyStr.join " " (b :: fields) +:+ nl)
      with (String " " (PyStr.join " " (b :: fields) +:+ nl)).
    rewrite split_ws_aux_space, IH by done.
    destruct (rev _ ++ []) eqn:E; [done|]. by rewrite Hback.
Qed.

(** *** The listing of archives *)

Lemma split_on_aux_field (sep : ascii) (s rest : string) (cur : list ascii) :
  without sep s →
  PyStr.split_on_aux sep (s +:+ rest) cur
  = PyStr.split_on_aux sep rest (rev (String.list_ascii_of_string s) ++ cur).
Proof.
  revert cur. induction s as [|c s IH]; intros cur Hs; [done|].
  unfold without in Hs. simpl in Hs. apply Forall_cons in Hs as [Hc Hs].
  rewrite append_cons. simpl.
  apply Ascii.eqb_neq in Hc. rewrite Hc, IH by done. by rewrite <- app_assoc.
Qed.

Lemma split_on_aux_sep (sep : ascii) (rest : string) (cur : list ascii) :
  PyStr.split_on_aux sep (String sep rest) cur
  = String.string_of_list_ascii (rev cur) :: PyStr.split_on_aux sep rest [].
Proof. simpl. by rewrite Ascii.eqb_refl. Qed.

Lemma split_on_first (sep : ascii) (s rest : string) :
  without sep s →
  PyStr.split_on sep (s +:+ String sep rest) = s :: PyStr.split_on sep rest.
Proof.
  intros Hs. unfold PyStr.split_on.
  rewrite split_on_aux_field, split_on_aux_sep by done.
  by rewrite app_nil_r, rev_involutive, string_of_list_of_string.
Qed.

Lemma split_on_lines (lines : list string) :
  Forall (without "010") lines →
  PyStr.split_on "010" (PyStr.join "" (map (fun line => line +:+ nl) lines))
  = lines ++ [""].
Proof.
  induction lines as [|line lines IH]; intros Hl; [done|].
  apply Forall_cons in Hl as [Hline Hl].
  assert (PyStr.join "" (map (fun line => line +:+ nl) (line :: lines))
          = line +:+ String "010" (PyStr.join "" (map (fun line => line +:+ nl) lines)))
    as ->.
  { simpl map. destruct lines as [|b lines]; [done|].
    rewrite join_cons by done. unfold nl. by rewrite !append_assoc. }
  rewrite split_on_first by done. by rewrite IH.
Qed.

Lemma slice_last_two {A} (earlier : list A) (a b last : A) :
  slice_m3_m1 (earlier ++ [a; b; last]) = [a; b].
Proof.
  unfold slice_m3_m1.
  replace (earlier ++ [a; b; last]) with ((earlier ++ [a; b]) ++ [last])
    by (by rewrite <- app_assoc).
  rewrite removelast_last, length_app. simpl.
  replace (length earlier + 2 - 2)%nat with (length earlier) by lia.
  by rewrite drop_app_length.
Qed.

Section Proofs.
Context `{platform : Platform}.

(** *** update_systray *)

Lemma update_systray_effect (hover_text icon : option string) (w : World) :
  let chosen := match icon with None => select_icon (task_status w) | Some _ => icon end in
  update_systray hover_text icon w =
    (with_output_queue
       (output_queue w ++
          [UpdateSystray hover_text
             (if bool_decide (chosen = last_sent_icon w) then None else chosen)])
       (with_last_sent_icon chosen w), Ok tt).
Proof.
  simpl. unfold update_systray, put_output, modify.
  case_bool_decide as Heq; [|done].
  rewrite Heq. by destruct w.
Qed.

(** C8. When no icon is given, [update_systray] selects it from the status
    table by precedence: a FAILED task gives the error icon; otherwise, if a
    task is RUNNING, the title of the first running task is searched for
    "post-backup", "backup", "analysis" and "diff" in this order; otherwise a
    FINISHED task gives the success icon; otherwise the idle icon.  The
    message put on the output queue carries the hover text as given, and the
    icon only if it differs from the last icon sent. *)
Theorem icon_precedence_and_publication (w : World) (hover_text : option string) :
  let table := task_status w in
  let chosen := select_icon table in
  let w' := world_after (update_systray hover_text None) w in
  (some_task_is FAILED table → chosen = Some error_ico)
  ∧ (¬ some_task_is FAILED table →
     ∀ task, first_running task table →
       (PyStr.contains "post-backup" task = true → chosen = Some post_backup_ico)
       ∧ (PyStr.contains "post-backup" task = false →
          PyStr.contains "backup" task = true → chosen = Some backup_ico)
       ∧ (PyStr.contains "post-backup" task = false →
          PyStr.contains "backup" task = false →
          PyStr.contains "analysis" task = true → chosen = Some analyze_ico)
       ∧ (PyStr.contains "post-backup" task = false →
          PyStr.contains "backup" task = false →
          PyStr.contains "analysis" task = false →
          PyStr.contains "diff" task = true → chosen = Some logs_ico))
  ∧ (¬ some_task_is FAILED table → ¬ some_task_is RUNNING table →
     some_task_is FINISHED table → chosen = Some success_ico)
  ∧ (¬ some_task_is FAILED table → ¬ some_task_is RUNNING table →
     ¬ some_task_is FINISHED table → chosen = Some drive_ico)
  ∧ (chosen ≠ last_sent_icon w →
     output_queue w' = output_queue w ++ [UpdateSystray hover_text chosen])
  ∧ (chosen = last_sent_icon w →
     output_queue w' = output_queue w ++ [UpdateSystray hover_text None])
  ∧ last_sent_icon w' = chosen.
Proof.
  intros table chosen w'. subst chosen w'. unfold world_after.
  rewrite update_systray_effect. unfold select_icon. simpl. fold table.
  assert (∀ task, ¬ some_task_is FAILED table → first_running task table →
          (if in_values FAILED table then Some error_ico
           else if in_values RUNNING table then first_running_icon table
           else if in_values FINISHED table then Some success_ico
           else Some drive_ico)
          = if PyStr.contains "post-backup" task then Some post_backup_ico
            else if PyStr.contains "backup" task then Some backup_ico
            else if PyStr.contains "analysis" task then Some analyze_ico
            else if PyStr.contains "diff" task then Some logs_ico
            else None) as Hrun.
  { intros task Hf Hfirst. apply in_values_false in Hf. rewrite Hf.
    assert (in_values RUNNING table = true) as ->.
    { apply in_values_true. destruct Hfirst as (b & a & Heq & _). exists task.
      rewrite Heq. apply list_elem_of_In, in_app_iff. right. by left. }
    by apply first_running_icon_at. }
  split; [|split; [|split; [|split; [|split; [|split]]]]].
  - intros Hf. apply in_values_true in Hf. by rewrite Hf.
  - intros Hf task Hfirst. rewrite (Hrun task Hf Hfirst).
    repeat split.
    + by intros ->.
    + by intros -> ->.
    + by intros -> -> ->.
    + by intros -> -> -> ->.
  - intros Hf Hr Hfin. apply in_values_false in Hf, Hr. apply in_values_true in Hfin.
    by rewrite Hf, Hr, Hfin.
  - intros Hf Hr Hfin. apply in_values_false in Hf, Hr, Hfin.
    by rewrite Hf, Hr, Hfin.
  - intros Hne. by rewrite bool_decide_eq_false_2.
  - intros Heq. by rewrite bool_decide_eq_true_2.
  - done.
Qed.

(** *** Running methods *)

Lemma bind_ok {A B} (m : M A) (k : A → M B) (w w' : World) (a : A) :
  m w = (w', Ok a) → bind m k w = k a w'.
Proof. intros H. unfold bind. by rewrite H. Qed.

Lemma bind_raise {A B} (m : M A) (k : A → M B) (w w' : World) (e : Exn) :
  m w = (w', Raise e) → bind m k w = (w', Raise e).
Proof. intros H. unfold bind. by rewrite H. Qed.

Lemma with_files_same (w : World) : with_files (files w) w = w.
Proof. by destruct w. Qed.

Lemma with_files_twice (f g : gmap string string) (w : World) :
  with_files f (with_files g w) = with_files f w.
Proof. done. Qed.

(** *** rotate_logs *)

Lemma guarded_unlink (path : string) (w : World) :
  (e <- exists_file path ;; when e (unlink path)) w
  = (with_files (delete path (files w)) w, Ok tt).
Proof.
  unfold bind, exists_file, when, unlink.
  destruct (files w !! path) as [c|] eqn:E.
  - rewrite bool_decide_eq_true_2 by eauto. by rewrite E.
  - rewrite bool_decide_eq_false_2 by (intros [? ?]; congruence).
    rewrite delete_id by done. by rewrite with_files_same.
Qed.

Lemma guarded_move (src dst : string) (w : World) :
  (e <- exists_file src ;; when e (move src dst)) w
  = (with_files (spec_rename src dst (files w)) w, Ok tt).
Proof.
  unfold bind, exists_file, when, move, spec_rename.
  destruct (files w !! src) as [c|] eqn:E.
  - rewrite bool_decide_eq_true_2 by eauto. by rewrite E.
  - rewrite bool_decide_eq_false_2 by (intros [? ?]; congruence).
    by rewrite with_files_same.
Qed.

Lemma for_each_moves (log_file : Path) (l : list Z) (w : World) :
  for_each l (fun i =>
    e <- exists_file (generation_path log_file i) ;;
    when e (move (generation_str log_file i) (generation_str log_file (i + 1)))) w
  = (with_files
       (foldl (fun fs i => spec_rename (generation_str log_file i)
                             (generation_str log_file (i + 1)) fs) (files w) l) w,
     Ok tt).
Proof.
  revert w. induction l as [|i l IH]; intros w; simpl.
  - by rewrite with_files_same.
  - erewrite bind_ok; [|rewrite generation_path_str; apply guarded_move].
    rewrite IH. done.
Qed.

Lemma guarded_unlink_then {B} (path : string) (k : M B) (w : World) :
  (e <- exists_file path ;; when e (unlink path) ;; k) w
  = k (with_files (delete path (files w)) w).
Proof.
  pose proof (guarded_unlink path w) as H. unfold bind in *.
  destruct (exists_file path w) as [w1 [e|]]; [|done].
  destruct (when e (unlink path) w1) as [w2 [[]|]]; by inversion H.
Qed.

Lemma guarded_move_then {B} (src dst : string) (k : M B) (w : World) :
  (e <- exists_file src ;; when e (move src dst) ;; k) w
  = k (with_files (spec_rename src dst (files w)) w).
Proof.
  pose proof (guarded_move src dst w) as H. unfold bind in *.
  destruct (exists_file src w) as [w1 [e|]]; [|done].
  destruct (when e (move src dst) w1) as [w2 [[]|]]; by inversion H.
Qed.

Lemma rotate_logs_spec (log_file : Path) (w : World) :
  rotate_logs log_file w
  = (with_files (spec_rotate (path_str log_file) (files w)) w, Ok tt).
Proof.
  unfold rotate_logs.
  rewrite generation_path_str, guarded_unlink_then.
  erewrite bind_ok; [|apply for_each_moves].
  rewrite guarded_move. done.
Qed.

Lemma spec_rename_lookup (src dst p : string) (fs : gmap string string) :
  src ≠ dst → fs !! dst = None →
  spec_rename src dst fs !! p
  = if decide (p = dst) then fs !! src
    else if decide (p = src) then None else fs !! p.
Proof.
  intros Hne Hdst. unfold spec_rename.
  destruct (fs !! src) as [c|] eqn:E; repeat case_decide; simplify_map_eq; done.
Qed.

(** Renaming generation [k] to [k+1], ..., 1 to 2 when generation [k+1] is
    free shifts every generation up by one and frees generation 1. *)
Lemma shift_chain (g : Z → string) (k : nat) (fs : gmap string string) :
  (∀ i j, 1 ≤ i ≤ Z.of_nat k + 1 → 1 ≤ j ≤ Z.of_nat k + 1 → g i = g j → i = j) →
  fs !! g (Z.of_nat k + 1) = None →
  let fs' := foldl (fun fs i => spec_rename (g i) (g (i + 1)) fs) fs (down_from k) in
  (∀ i, 1 ≤ i ≤ Z.of_nat k → fs' !! g (i + 1) = fs !! g i)
  ∧ fs' !! g 1 = None
  ∧ (∀ p, (∀ i, 1 ≤ i ≤ Z.of_nat k + 1 → p ≠ g i) → fs' !! p = fs !! p).
Proof.
  revert fs. induction k as [|k IH]; intros fs Hinj Hfree fs'.
  - subst fs'. simpl. split; [intros; lia|]. split; [done|done].
  - subst fs'. cbn [down_from foldl].
    set (n := Z.of_nat (S k)) in *.
    assert (Z.of_nat k + 1 = n) as Hn by (subst n; lia).
    set (fs1 := spec_rename (g n) (g (n + 1)) fs).
    assert (g n ≠ g (n + 1)) as Hsd by (intros H; apply Hinj in H; lia).
    assert (∀ p, fs1 !! p = if decide (p = g (n + 1)) then fs !! g n
                             else if decide (p = g n) then None else fs !! p) as Hfs1.
    { intros p. by apply spec_rename_lookup. }
    destruct (IH fs1) as (Hshift & Hone & Hother).
    { intros i j Hi Hj. apply Hinj; lia. }
    { rewrite Hn, Hfs1. rewrite decide_False by done. by rewrite decide_True. }
    split; [|split].
    + intros i Hi. destruct (decide (i = n)) as [->|Hin].
      * rewrite Hother.
        -- rewrite Hfs1. by rewrite decide_True.
        -- intros j Hj Heq. apply Hinj in Heq; lia.
      * rewrite Hshift by lia. rewrite Hfs1.
        rewrite decide_False by (intros Heq; apply Hinj in Heq; lia).
        rewrite decide_False by (intros Heq; apply Hinj in Heq; lia). done.
    + done.
    + intros p Hp. rewrite Hother by (intros i Hi; apply Hp; lia).
      rewrite Hfs1. rewrite decide_False by (apply Hp; lia).
      rewrite decide_False by (apply Hp; lia). done.
Qed.

Lemma spec_rotate_lookup (log_file : Path) (fs : gmap string string) :
  let log := path_str log_file in
  let fs' := spec_rotate log fs in
  fs' !! log = None
  ∧ fs' !! generation_str log_file 1 = fs !! log
  ∧ (∀ i, 1 ≤ i ≤ 8 →
       fs' !! generation_str log_file (i + 1) = fs !! generation_str log_file i)
  ∧ (∀ p, p ≠ log → (∀ i, 1 ≤ i ≤ 9 → p ≠ generation_str log_file i) →
       fs' !! p = fs !! p).
Proof.
  intros log fs'. subst fs'. unfold spec_rotate.
  change (fun i => log +:+ "." +:+ pretty i) with (generation_str log_file).
  cbv zeta.
  set (g := generation_str log_file).
  set (fs0 := delete (g 9) fs).
  destruct (shift_chain g 8 fs0) as (Hshift & Hone & Hother).
  { intros i j _ _. apply generation_str_inj. }
  { apply lookup_delete_eq. }
  set (fs1 := foldl _ fs0 (down_from 8)) in *.
  assert (log ≠ g 1) as Hlog1 by (intros H; symmetry in H; by apply generation_str_not_log in H).
  assert (∀ p, spec_rename log (g 1) fs1 !! p
               = if decide (p = g 1) then fs1 !! log
                 else if decide (p = log) then None else fs1 !! p) as Hlast.
  { intros p. by apply spec_rename_lookup. }
  assert (fs1 !! log = fs !! log) as Hkeep.
  { rewrite Hother.
    - subst fs0. apply lookup_delete_ne. apply generation_str_not_log.
    - intros i _ H. symmetry in H. by apply generation_str_not_log in H. }
  split; [|split; [|split]].
  - rewrite Hlast. rewrite decide_False by done. by rewrite decide_True.
  - rewrite Hlast. by rewrite decide_True.
  - intros i Hi. rewrite Hlast.
    rewrite decide_False by (intros H; apply generation_str_inj in H; lia).
    rewrite decide_False by apply generation_str_not_log.
    rewrite Hshift by (simpl; lia).
    subst fs0. apply lookup_delete_ne. intros H; apply generation_str_inj in H; lia.
  - intros p Hplog Hp. rewrite Hlast.
    rewrite decide_False by (apply Hp; lia).
    rewrite decide_False by done.
    rewrite Hother by (intros i Hi; apply Hp; simpl in Hi; lia).
    subst fs0. apply lookup_delete_ne. intros H. symmetry in H. revert H. apply Hp. lia.
Qed.

Lemma elem_of_down_from (k : nat) (i : Z) : i ∈ down_from k → 1 ≤ i ≤ Z.of_nat k.
Proof.
  induction k as [|k IH]; simpl.
  - by intros ?%elem_of_nil.
  - intros [->|H]%elem_of_cons; [lia|]. apply IH in H. lia.
Qed.

Lemma renames_of_nothing (g : Z → string) (l : list Z) (fs : gmap string string) :
  (∀ i, i ∈ l → fs !! g i = None) →
  foldl (fun fs i => spec_rename (g i) (g (i + 1)) fs) fs l = fs.
Proof.
  induction l as [|i l IH]; intros H; simpl; [done|].
  unfold spec_rename at 2. rewrite H by left.
  apply IH. intros j Hj. apply H. by right.
Qed.

Lemma spec_rotate_nothing (log_file : Path) (fs : gmap string string) :
  fs !! path_str log_file = None →
  (∀ i, 1 ≤ i ≤ 9 → fs !! generation_str log_file i = None) →
  spec_rotate (path_str log_file) fs = fs.
Proof.
  intros Hlog Hgen. unfold spec_rotate.
  change (fun i => path_str log_file +:+ "." +:+ pretty i) with (generation_str log_file).
  cbv zeta. rewrite delete_id by (apply Hgen; lia).
  rewrite renames_of_nothing.
  - unfold spec_rename. by rewrite Hlog.
  - intros i Hi%elem_of_down_from. apply Hgen. simpl in Hi. lia.
Qed.

(** C5. [rotate_logs] never raises, and does what the specification words
    as: delete generation 9 if it exists, then for i from 8 down to 1 rename
    generation i to i+1 if it exists, then rename the un-suffixed log to
    generation 1 if it exists.  Afterwards the un-suffixed log does not
    exist, generation 1 holds what the log held, generation i+1 holds what
    generation i held (so what generation 9 held is gone), and no other file
    has changed; with none of the ten files present nothing changes at all. *)
Theorem rotate_logs_shifts_generations (log_file : Path) (w : World) :
  let log := path_str log_file in
  let w' := world_after (rotate_logs log_file) w in
  result_of (rotate_logs log_file) w = Ok tt
  ∧ w' = with_files (spec_rotate log (files w)) w
  ∧ files w' !! log = None
  ∧ files w' !! generation_str log_file 1 = files w !! log
  ∧ (∀ i, 1 ≤ i ≤ 8 →
       files w' !! generation_str log_file (i + 1) = files w !! generation_str log_file i)
  ∧ (∀ p, p ≠ log → (∀ i, 1 ≤ i ≤ 9 → p ≠ generation_str log_file i) →
       files w' !! p = files w !! p)
  ∧ (files w !! log = None →
     (∀ i, 1 ≤ i ≤ 9 → files w !! generation_str log_file i = None) →
     w' = w).
Proof.
  intros log w'. subst w'. unfold world_after, result_of.
  rewrite rotate_logs_spec. simpl.
  destruct (spec_rotate_lookup log_file (files w)) as (H0 & H1 & Hshift & Hother).
  repeat split; try done.
  intros Hlog Hgen. fold log. subst log.
  rewrite spec_rotate_nothing by done. apply with_files_same.
Qed.

(** *** Frame rules *)

Lemma preserves_ret {A X} (f : World → X) (a : A) : preserves f (ret a).
Proof. by intros w. Qed.

Lemma preserves_raise {A X} (f : World → X) (e : Exn) : preserves f (raise e : M A).
Proof. by intros w. Qed.

Lemma preserves_bind {A B X} (f : World → X) (m : M A) (k : A → M B) :
  preserves f m → (∀ a, preserves f (k a)) → preserves f (bind m k).
Proof.
  intros Hm Hk w. unfold bind. specialize (Hm w).
  destruct (m w) as [w1 [a|e]]; simpl in *; [|done].
  by rewrite Hk.
Qed.

Lemma preserves_try_except {A X} (f : World → X) (body : M A)
    (handler : Exn → option (M A)) :
  preserves f body →
  (∀ e h, handler e = Some h → preserves f h) →
  preserves f (try_except body handler).
Proof.
  intros Hb Hh w. unfold try_except. specialize (Hb w).
  destruct (body w) as [w1 [a|e]]; simpl in *; [done|].
  destruct (handler e) as [h|] eqn:E; [|done].
  by rewrite (Hh e h E).
Qed.

Lemma preserves_for_each {A X} (f : World → X) (xs : list A) (body : A → M unit) :
  (∀ x, preserves f (body x)) → preserves f (for_each xs body).
Proof.
  intros Hb. induction xs as [|x xs IH]; simpl.
  - apply preserves_ret.
  - apply preserves_bind; [apply Hb|by intros _].
Qed.

Lemma preserves_when {X} (f : World → X) (b : bool) (m : M unit) :
  preserves f m → preserves f (when b m).
Proof. destruct b; [done|intros _; apply preserves_ret]. Qed.

Lemma preserves_modify {X} (f : World → X) (g : World → World) :
  (∀ w, f (g w) = f w) → preserves f (modify g).
Proof. intros H w. apply H. Qed.

(** Structural steps of a frame proof. *)
Ltac frame_step :=
  lazymatch goal with
  | |- preserves _ (bind _ _) => apply preserves_bind; [|intros ?]
  | |- preserves _ (ret _) => apply preserves_ret
  | |- preserves _ (raise _) => apply preserves_raise
  | |- preserves _ (when _ _) => apply preserves_when
  | |- preserves _ (for_each _ _) => apply preserves_for_each; intros ?
  | |- preserves _ (modify _) => apply preserves_modify; intros ?; reflexivity
  | |- preserves _ (try_except _ _) =>
      apply preserves_try_except;
      [|let e := fresh "e" in let h := fresh "h" in let H := fresh "H" in
        intros e h H; repeat case_match; inversion H; subst; clear H]
  | |- preserves _ (if ?b then _ else _) => destruct b
  | |- preserves _ (match ?x with _ => _ end) => destruct x
  | |- preserves _ (let '(_, _) := ?x in _) => destruct x
  end.

(** What does not touch the files, the processes started or the status
    table: clocks, printing, sleeping, the queues. *)
Lemma preserves_tick {X} (f : World → X) :
  (∀ n w, f (with_ticks n w) = f w) → preserves f tick.
Proof. intros H w. apply H. Qed.

Lemma preserves_time {X} (f : World → X) :
  (∀ n w, f (with_ticks n w) = f w) → preserves f time.
Proof. intros H. unfold time. frame_step; [by apply preserves_tick|frame_step]. Qed.

Lemma preserves_update_systray {X} (f : World → X) (hover_text icon : option string) :
  (∀ q w, f (with_output_queue q w) = f w) →
  (∀ i w, f (with_last_sent_icon i w) = f w) →
  preserves f (update_systray hover_text icon).
Proof. intros Hq Hi w. rewrite update_systray_effect. simpl. by rewrite Hq, Hi. Qed.

Lemma preserves_output {X} (f : World → X) (line : string) :
  (∀ n w, f (with_ticks n w) = f w) →
  (∀ o w, f (with_stdout o w) = f w) →
  (∀ q w, f (with_output_queue q w) = f w) →
  (∀ i w, f (with_last_sent_icon i w) = f w) →
  preserves f (output line).
Proof.
  intros Ht Ho Hq Hi. unfold output, print.
  frame_step; [by apply preserves_tick|].
  frame_step; [apply preserves_modify; intros; apply Ho|].
  by apply preserves_update_systray.
Qed.

Lemma files_insensitive : insensitive files.
Proof. by split. Qed.

Lemma started_insensitive : insensitive started.
Proof. by split. Qed.

Lemma written_insensitive : insensitive written.
Proof. by split. Qed.

(** A primitive that only touches what the observation is blind to. *)
Ltac frame_prim H :=
  let w := fresh "w" in
  intros w;
  cbv [tick time print sleep read_status write_status put_input put_output
       exists_file read_file get schedule_clear schedule_every start_thread
       modify ret raise bind fst];
  repeat case_match;
  rewrite ?(ins_task_status _ H), ?(ins_last_sent_icon _ H), ?(ins_input_queue _ H),
    ?(ins_output_queue _ H), ?(ins_stdout _ H), ?(ins_ticks _ H), ?(ins_slept _ H),
    ?(ins_jobs _ H), ?(ins_threads _ H), ?(ins_loop_exited _ H);
  reflexivity.

Ltac frame H := repeat frame_step; try (frame_prim H); eauto.

Section Insensitive.
Context {X : Type} (f : World → X) (Hf : insensitive f).

Lemma frame_update_systray (hover_text icon : option string) :
  preserves f (update_systray hover_text icon).
Proof.
  intros w. rewrite update_systray_effect. simpl.
  by rewrite (ins_output_queue _ Hf), (ins_last_sent_icon _ Hf).
Qed.

Lemma frame_output (line : string) : preserves f (output line).
Proof. unfold output. frame Hf. apply frame_update_systray. Qed.

Lemma frame_task_is_running (task : string) : preserves f (task_is_running task).
Proof. unfold task_is_running. frame Hf. Qed.

Lemma frame_run_pending : preserves f run_pending.
Proof. unfold run_pending, get_world. frame Hf. Qed.

Lemma frame_dispatch (queue_item : QueueItem) : preserves f (dispatch queue_item).
Proof.
  unfold dispatch, cancel_backup, cancel_post_backup, enable_scheduled_backups,
    disable_scheduled_backups, queue_exit.
  destruct queue_item; frame Hf; try apply frame_output; try apply frame_task_is_running.
Qed.

Lemma frame_get (arrivals : list QueueItem) : preserves f (get arrivals).
Proof.
  intros w. unfold get. destruct (input_queue w ++ arrivals); simpl;
    apply (ins_input_queue _ Hf).
Qed.

Lemma frame_iteration (arrivals : list QueueItem) : preserves f (iteration arrivals).
Proof.
  unfold iteration, iteration_body.
  frame Hf; try apply frame_output; try apply frame_update_systray;
    try apply frame_run_pending; try apply frame_dispatch; try apply frame_get.
Qed.

Lemma frame_run_loop (feed : list (list QueueItem)) : preserves f (run_loop feed).
Proof.
  induction feed as [|arrivals rest IH]; simpl.
  - apply preserves_ret.
  - unfold get_world.
    frame_step; [by intros w|].
    frame_step; [apply preserves_ret|].
    frame_step; [apply frame_iteration|].
    frame_step; [done|].
    frame Hf. apply frame_output.
Qed.

Lemma frame_wait (process : Process) : preserves f (wait process).
Proof.
  induction process as [meanwhile rc|meanwhile raw next IH]; simpl.
  - frame Hf. apply frame_run_loop.
  - frame Hf. apply frame_run_loop.
Qed.

Lemma frame_handle_line (title : string) (target : Z) (start : Q) (count : Z)
    (text : string) (st : Progress) :
  preserves f (handle_line title target start count text st).
Proof. unfold handle_line. frame Hf. apply frame_update_systray. Qed.

Lemma frame_read_lines (title : string) (target : Z) (start : Q) (process : Process)
    (st : Progress) :
  preserves f (read_lines title target start process st).
Proof.
  revert st. induction process as [meanwhile rc|meanwhile raw next IH]; intros st; simpl.
  - frame Hf. apply frame_run_loop.
  - frame Hf; try apply frame_run_loop; try apply frame_wait;
      try apply frame_handle_line.
Qed.

Lemma frame_finish_process (title : string) (parts : list string) (start : Q)
    (st : Progress) (rc : Z) :
  preserves f (finish_process title parts start st rc).
Proof. unfold finish_process. frame Hf; apply frame_output. Qed.

End Insensitive.

(** *** Reading and writing the status table *)

Lemma touch_known (task : string) (table : StatusTable) (s : TaskStatus) :
  find_status task table = Some s → touch task table = table.
Proof. intros H. unfold touch. by rewrite H. Qed.

Lemma touch_active (task : string) (table : StatusTable) :
  is_active (status_of task table) → touch task table = table.
Proof.
  unfold status_of, touch. destruct (find_status task table); [done|].
  simpl. intros [?|?]; discriminate.
Qed.

Lemma find_status_app (task : string) (a b : StatusTable) :
  find_status task (a ++ b)
  = match find_status task a with Some s => Some s | None => find_status task b end.
Proof.
  induction a as [|[k v] a IH]; simpl; [done|].
  by destruct (String.eqb k task).
Qed.

Lemma status_of_touch (task other : string) (table : StatusTable) :
  status_of task (touch other table) = status_of task table.
Proof.
  unfold touch, status_of.
  destruct (find_status other table) eqn:E; [done|].
  rewrite find_status_app. destruct (find_status task table) eqn:E2; [done|].
  simpl. by destruct (String.eqb other task).
Qed.

Lemma find_status_set (task other : string) (s : TaskStatus) (table : StatusTable) :
  find_status task (set_status other s table)
  = if String.eqb other task then Some s else find_status task table.
Proof.
  induction table as [|[k v] table IH]; simpl.
  - done.
  - destruct (String.eqb k other) eqn:E; simpl.
    + apply String.eqb_eq in E. subst k.
      by destruct (String.eqb other task).
    + rewrite IH. destruct (String.eqb k task) eqn:E2; [|done].
      apply String.eqb_eq in E2. subst k. by rewrite String.eqb_sym, E.
Qed.

Lemma status_of_set_same (task : string) (s : TaskStatus) (table : StatusTable) :
  status_of task (set_status task s table) = s.
Proof. unfold status_of. by rewrite find_status_set, String.eqb_refl. Qed.

Lemma status_of_set_other (task other : string) (s : TaskStatus) (table : StatusTable) :
  other ≠ task → status_of task (set_status other s table) = status_of task table.
Proof.
  intros Hne. unfold status_of. rewrite find_status_set.
  by apply String.eqb_neq in Hne as ->.
Qed.

Lemma task_is_running_effect (task : string) (w : World) :
  task_is_running task w
  = (with_task_status (touch task (task_status w)) w,
     Ok (bool_decide (is_active (status_of task (task_status w))))).
Proof.
  unfold task_is_running, bind, read_status.
  destruct (status_of task (task_status w)); simpl; f_equal; f_equal;
    symmetry; first [apply bool_decide_eq_true_2|apply bool_decide_eq_false_2];
    unfold is_active; intuition discriminate.
Qed.

Lemma with_task_status_same (w : World) : with_task_status (task_status w) w = w.
Proof. by destruct w. Qed.

Lemma task_is_running_active (task : string) (w : World) :
  is_active (status_of task (task_status w)) → task_is_running task w = (w, Ok true).
Proof.
  intros H. rewrite task_is_running_effect, touch_active by done.
  by rewrite with_task_status_same, bool_decide_eq_true_2.
Qed.

Lemma output_effect (line : string) (w : World) :
  let chosen := select_icon (task_status w) in
  output line w
  = (with_output_queue
       (output_queue w ++
          [UpdateSystray (Some line)
             (if bool_decide (chosen = last_sent_icon w) then None else chosen)])
       (with_last_sent_icon chosen
          (with_stdout (stdout w ++ ["[" +:+ now_str (ticks w) +:+ "] " +:+ line])
             (with_ticks (S (ticks w)) w))), Ok tt).
Proof. simpl. unfold output, bind, tick, print, modify. by rewrite update_systray_effect. Qed.

(** *** Start requests for an active task *)

Lemma run_backup_skips (config : BackupConfiguration) (w : World) :
  is_active (status_of (name config +:+ " backup") (task_status w)) →
  run_backup config w
  = output ((name config +:+ " backup") +:+ " is already running, skipping") w.
Proof.
  intros H. unfold run_backup, try_except, run_backup_body.
  erewrite bind_ok by (by apply task_is_running_active).
  cbv beta iota. rewrite !output_effect. done.
Qed.

Lemma run_post_backup_skips (config : BackupConfiguration) (is_scheduled : bool)
    (w : World) :
  is_active (status_of (name config +:+ " post-backup") (task_status w)) →
  run_post_backup config is_scheduled w
  = output ((name config +:+ " post-backup") +:+ " is already running, skipping")
      (if is_scheduled then with_slept (slept w ++ [10]) w else w).
Proof.
  intros H. unfold run_post_backup, try_except, run_post_backup_body.
  set (w0 := if is_scheduled then _ else w).
  assert (when is_scheduled (sleep 10) w = (w0, Ok tt)) as Hs
    by (subst w0; by destruct is_scheduled).
  erewrite bind_ok by exact Hs.
  erewrite bind_ok by (apply task_is_running_active; subst w0; by destruct is_scheduled).
  cbv beta iota. rewrite !output_effect. done.
Qed.

(** *** Processes started by the supervisor *)

Lemma start_process_started (title command : string) (w : World) :
  match start_process title command w with
  | (w1, Ok (_, parts, _)) =>
      started w1 = started w ++ [(parts, set_status title RUNNING (task_status w))]
      ∧ files w1 = files w
  | (w1, Raise _) => started w1 = started w ∧ files w1 = files w
  end.
Proof.
  unfold start_process, bind, write_status, modify, time, tick, ret, raise, Popen.
  rewrite output_effect. simpl.
  destruct (shlex_split command) as [parts|]; [|done].
  simpl. by destruct (popen _ parts).
Qed.

Lemma run_process_started (title command : string) (target : Z) (w : World) :
  let w' := world_after (run_process_and_update_systray title command target) w in
  files w' = files w
  ∧ (started w' = started w
     ∨ ∃ parts, started w' = started w
                  ++ [(parts, set_status title RUNNING (task_status w))]).
Proof.
  unfold world_after, run_process_and_update_systray.
  pose proof (start_process_started title command w) as Hs.
  destruct (start_process title command w) as [w1 [[[start parts] p]|e]] eqn:E.
  - rewrite (bind_ok _ _ _ _ _ E). destruct Hs as [Hs Hf].
    assert (∀ {X} (f : World → X), insensitive f →
            f (fst (bind (read_lines title target start p
                            {| line_count := 0; stats_output := "";
                               last_update_time := start |})
                      (fun r => finish_process title parts start r.1 r.2) w1)) = f w1)
      as Hrest.
    { intros X f Hf'. apply (preserves_bind f); [by apply frame_read_lines|].
      intros r. by apply frame_finish_process. }
    rewrite (Hrest _ files files_insensitive), (Hrest _ started started_insensitive).
    split; [done|]. right. by exists parts.
  - rewrite (bind_raise _ _ _ _ _ E). simpl. intuition.
Qed.

Lemma try_except_observe {A X} (f : World → X) (body : M A)
    (handler : Exn → option (M A)) (w : World) :
  (∀ e h, handler e = Some h → preserves f h) →
  f (fst (try_except body handler w)) = f (fst (body w)).
Proof.
  intros Hh. unfold try_except. destruct (body w) as [w1 [a|e]]; [done|].
  destruct (handler e) as [h|] eqn:E; [|done]. simpl. by apply (Hh e h).
Qed.

Lemma backup_handler_frame {X} (f : World → X) (title line : string) (e : Exn)
    (h : M unit) :
  insensitive f →
  (if is_CalledProcessError e then Some (ret tt)
   else Some (write_status title FAILED ;; output line)) = Some h →
  preserves f h.
Proof.
  intros Hf H. destruct (is_CalledProcessError e); inversion H; subst.
  - apply preserves_ret.
  - frame Hf. by apply frame_output.
Qed.

Lemma frame_load_line_count {X} (f : World → X) (file : Path) :
  preserves f (load_line_count file).
Proof.
  intros w. unfold load_line_count, bind, exists_file, read_file.
  repeat case_match; simplify_eq; simpl; done.
Qed.

Lemma title_backup_ne_post_backup (n : string) : n +:+ " post-backup" ≠ n +:+ " backup".
Proof. intros H. apply String.app_inj in H. discriminate. Qed.

(** C7. When [run_post_backup] runs while its own task is not active and
    the backup task of the configuration is active, it puts a "delaying"
    message on the output queue, sleeps 30 seconds (after the 10 seconds of
    a scheduled request), puts the request it was given back on the input
    queue, starts no process and leaves the status of every task as it
    was. *)
Theorem post_backup_is_requeued_while_backup_active
    (config : BackupConfiguration) (is_scheduled : bool) (w : World) :
  let follow_up := name config +:+ " post-backup" in
  let primary := name config +:+ " backup" in
  let w' := world_after (run_post_backup config is_scheduled) w in
  ¬ is_active (status_of follow_up (task_status w)) →
  is_active (status_of primary (task_status w)) →
  result_of (run_post_backup config is_scheduled) w = Ok tt
  ∧ (∃ icon, output_queue w'
             = output_queue w
               ++ [UpdateSystray
                     (Some (primary +:+ " is still running, delaying " +:+ follow_up)) icon])
  ∧ slept w' = slept w ++ (if is_scheduled then [10] else []) ++ [30]
  ∧ input_queue w' = input_queue w ++ [StartPostBackup config is_scheduled]
  ∧ started w' = started w
  ∧ ∀ task, status_of task (task_status w') = status_of task (task_status w).
Proof.
  intros follow_up primary w' Hf Hp. subst w'. unfold world_after, result_of.
  unfold run_post_backup, try_except, run_post_backup_body. fold follow_up primary.
  set (w0 := if is_scheduled then with_slept (slept w ++ [10]) w else w).
  assert (when is_scheduled (sleep 10) w = (w0, Ok tt)) as Hs
    by (subst w0; by destruct is_scheduled).
  assert (task_status w0 = task_status w) as Ht0 by (subst w0; by destruct is_scheduled).
  rewrite (bind_ok _ _ _ _ _ Hs).
  rewrite (bind_ok _ _ _ _ _ (task_is_running_effect follow_up w0)).
  rewrite Ht0, bool_decide_eq_false_2 by done.
  set (w1 := with_task_status _ w0).
  rewrite (bind_ok _ _ _ _ _ (task_is_running_effect primary w1)).
  assert (status_of primary (task_status w1) = status_of primary (task_status w)) as Hp1
    by (subst w1; simpl; apply status_of_touch).
  rewrite Hp1, bool_decide_eq_true_2 by done.
  unfold bind. rewrite output_effect. simpl.
  split; [done|]. split; [subst w0; destruct is_scheduled; simpl; eauto|].
  split; [subst w0; destruct is_scheduled; simpl; by rewrite <- ?app_assoc|].
  split; [subst w0; by destruct is_scheduled|].
  split; [subst w0; by destruct is_scheduled|].
  intros task. rewrite touch_active by (rewrite status_of_touch; done).
  apply status_of_touch.
Qed.

(** *** The dispatch loop *)

(** A primitive that leaves the observed field alone, by computation. *)
Ltac frame_field :=
  repeat frame_step;
  try (let w := fresh "w" in
       intros w;
       cbv [tick time print sleep read_status write_status put_input put_output
            exists_file read_file get schedule_clear schedule_every start_thread
            modify ret raise bind fst get_world];
       repeat case_match; reflexivity).

Lemma loop_exited_output (line : string) : preserves loop_exited (output line).
Proof. apply preserves_output; by intros. Qed.

Lemma input_queue_output (line : string) : preserves input_queue (output line).
Proof. apply preserves_output; by intros. Qed.

Lemma loop_exited_task_is_running (task : string) :
  preserves loop_exited (task_is_running task).
Proof. intros w. by rewrite task_is_running_effect. Qed.

Lemma input_queue_task_is_running (task : string) :
  preserves input_queue (task_is_running task).
Proof. intros w. by rewrite task_is_running_effect. Qed.

Lemma loop_exited_dispatch (queue_item : QueueItem) :
  preserves loop_exited (dispatch queue_item).
Proof.
  unfold dispatch, cancel_backup, cancel_post_backup, enable_scheduled_backups,
    disable_scheduled_backups, queue_exit.
  destruct queue_item; frame_field;
    try apply loop_exited_output; try apply loop_exited_task_is_running.
Qed.

Lemma input_queue_dispatch (queue_item : QueueItem) :
  queue_item ≠ Exit → preserves input_queue (dispatch queue_item).
Proof.
  intros Hne.
  unfold dispatch, cancel_backup, cancel_post_backup, enable_scheduled_backups,
    disable_scheduled_backups.
  destruct queue_item; try done; frame_field;
    try apply input_queue_output; try apply input_queue_task_is_running.
Qed.

Lemma dispatch_break (queue_item : QueueItem) (w : World) :
  result_of (dispatch queue_item) w = Ok Break ↔ queue_item = Exit.
Proof.
  unfold result_of. split.
  - destruct queue_item; try done; unfold dispatch, bind;
      repeat case_match; simpl; intros; simplify_eq.
  - intros ->. done.
Qed.

Lemma dispatch_unrecognised (queue_item : QueueItem) (w : World) :
  recognised queue_item = false →
  dispatch queue_item w
  = (w, Raise (TypeError ("Backup thread got unknown type in input queue: "
                          +:+ type_repr queue_item))).
Proof. by destruct queue_item. Qed.

Lemma for_each_put_input (js : list Job) (w : World) :
  for_each js (fun j => put_input (job_item j)) w
  = (with_input_queue (input_queue w ++ map job_item js) w, Ok tt).
Proof.
  revert w. induction js as [|j js IH]; intros w; simpl.
  - rewrite app_nil_r. by destruct w.
  - unfold bind, put_input at 1, modify. rewrite IH. simpl.
    by rewrite <- app_assoc.
Qed.

Lemma run_pending_effect (w : World) :
  run_pending w
  = (with_input_queue
       (input_queue w ++ map job_item (List.filter (job_due (ticks w)) (jobs w)))
       (with_ticks (S (ticks w)) w), Ok tt).
Proof. unfold run_pending, bind, tick, get_world. simpl. by rewrite for_each_put_input. Qed.

Lemma job_item_not_exit (j : Job) : job_item j ≠ Exit.
Proof. unfold job_item. by destruct (job_post_backup j). Qed.

(** The handler of [except Exception] in [run]. *)
Lemma loop_handler_effect (ex : Exn) (w : World) :
  let text := "Error in background backup thread: " +:+ exn_str ex +:+ nl +:+ format_exc ex in
  let w' := world_after (output text ;; update_systray None (Some error_ico) ;; ret Next) w in
  result_of (output text ;; update_systray None (Some error_ico) ;; ret Next) w = Ok Next
  ∧ stdout w' = stdout w ++ ["[" +:+ now_str (ticks w) +:+ "] " +:+ text]
  ∧ (∃ icon1 icon2,
       output_queue w' = output_queue w
                         ++ [UpdateSystray (Some text) icon1; UpdateSystray None icon2]
       ∧ (icon2 = Some error_ico ∨ icon1 = Some error_ico
          ∨ last_sent_icon w = Some error_ico))
  ∧ last_sent_icon w' = Some error_ico
  ∧ input_queue w' = input_queue w
  ∧ loop_exited w' = loop_exited w.
Proof.
  intros text w'. subst w'. unfold world_after, result_of, bind.
  rewrite output_effect. cbv beta iota zeta. rewrite update_systray_effect.
  simpl. repeat split; try done.
  eexists _, _. split; [by rewrite <- app_assoc|].
  repeat case_bool_decide; eauto.
  right. right. congruence.
Qed.

Lemma iteration_body_cases (arrivals : list QueueItem) (w : World) :
  let w1 := with_ticks (S (ticks w)) w in
  let queue := (input_queue w ++ map job_item (List.filter (job_due (ticks w)) (jobs w)))
               ++ arrivals in
  iteration_body arrivals w
  = match queue with
    | [] => (with_input_queue [] w1, Ok Next)
    | queue_item :: rest => dispatch queue_item (with_input_queue rest w1)
    end.
Proof.
  simpl. unfold iteration_body.
  rewrite (bind_ok _ _ _ _ _ (run_pending_effect w)).
  unfold bind, get. simpl. by destruct ((_ ++ _) ++ arrivals).
Qed.

Lemma exit_in_queue (w : World) (arrivals : list QueueItem) :
  Exit ∈ (input_queue w ++ map job_item (List.filter (job_due (ticks w)) (jobs w)))
         ++ arrivals →
  Exit ∈ input_queue w ++ arrivals.
Proof.
  rewrite !elem_of_app. intros [[H|H]|H]; [by left| |by right].
  apply list_elem_of_fmap in H as (j & Hj & _). symmetry in Hj.
  by apply job_item_not_exit in Hj.
Qed.

(** An iteration never raises; it leaves the loop only for an Exit request
    taken from the queue, and otherwise leaves no Exit in the queue that was
    not there or did not arrive. *)
Lemma iteration_outcome (arrivals : list QueueItem) (w : World) :
  ∃ w1 ctl, iteration arrivals w = (w1, Ok ctl)
            ∧ loop_exited w1 = loop_exited w
            ∧ (ctl = Break → Exit ∈ input_queue w ++ arrivals)
            ∧ (ctl = Next → Exit ∈ input_queue w1 → Exit ∈ input_queue w ++ arrivals).
Proof.
  unfold iteration, try_except. rewrite iteration_body_cases.
  set (queue := (_ ++ _) ++ arrivals).
  pose proof (exit_in_queue w arrivals) as Hq. fold queue in Hq.
  destruct queue as [|queue_item rest] eqn:Eq.
  { eexists _, _. split; [done|]. simpl. split; [done|]. split; [done|].
    by intros _ ?%elem_of_nil. }
  set (w1 := with_input_queue rest _).
  pose proof (loop_exited_dispatch queue_item w1) as Hle.
  pose proof (dispatch_break queue_item w1) as Hbr. unfold result_of in Hbr.
  assert (queue_item = Exit ∨ queue_item ≠ Exit) as [->|Hne]
    by (destruct queue_item; (by left) || (by right)).
  { eexists _, _. split; [done|]. split; [done|]. split; [|done].
    intros _. apply Hq. left. }
  pose proof (input_queue_dispatch queue_item Hne w1) as Hiq.
  destruct (dispatch queue_item w1) as [w2 [ctl|e]]; simpl in *.
  - eexists _, _. split; [done|]. split; [done|]. split.
    + intros ->. exfalso. apply Hne. by apply Hbr.
    + intros _ Hin. apply Hq. right. by rewrite <- Hiq.
  - destruct (loop_handler_effect e w2) as (Hr & _ & _ & _ & Hi & Hl).
    unfold world_after, result_of in *.
    destruct (bind (output _) _ w2) as [w3 r]. simpl in *. subst r.
    eexists _, _. split; [done|]. split; [congruence|]. split; [done|].
    intros _ Hin. apply Hq. right. by rewrite <- Hiq, <- Hi.
Qed.

Lemma run_loop_exit (feed : list (list QueueItem)) (w : World) :
  loop_exited (world_after (run_loop feed) w) = true →
  loop_exited w = true ∨ Exit ∈ input_queue w ++ concat feed.
Proof.
  revert w. induction feed as [|arrivals rest IH]; intros w; unfold world_after; simpl.
  - by left.
  - unfold bind at 1, get_world.
    destruct (loop_exited w) eqn:El; [by left|].
    destruct (iteration_outcome arrivals w) as (w1 & ctl & Hi & Hl & Hb & Hn).
    rewrite (bind_ok _ _ _ _ _ Hi). intros H. right.
    rewrite app_assoc. apply elem_of_app.
    destruct ctl.
    + apply IH in H as [H|H]; [congruence|].
      apply elem_of_app in H as [H|H]; [left; by apply Hn|by right].
    + left. by apply Hb.
Qed.


(** *** The supervisor *)

Lemma run_loop_returns (feed : list (list QueueItem)) (w : World) :
  result_of (run_loop feed) w = Ok tt.
Proof.
  revert w. induction feed as [|arrivals rest IH]; intros w; unfold result_of; simpl.
  - done.
  - unfold bind at 1, get_world. destruct (loop_exited w); [done|].
    destruct (iteration_outcome arrivals w) as (w1 & ctl & Hi & _).
    rewrite (bind_ok _ _ _ _ _ Hi). destruct ctl; [apply IH|].
    unfold bind, modify. by rewrite output_effect.
Qed.

Lemma run_loop_then {B} (feed : list (list QueueItem)) (k : M B) (w : World) :
  (run_loop feed ;; k) w = k (world_after (run_loop feed) w).
Proof.
  pose proof (run_loop_returns feed w) as H. unfold result_of, world_after, bind in *.
  destruct (run_loop feed w) as [w1 r]. simpl in *. by subst r.
Qed.

Lemma wait_returns (process : Process) (w : World) :
  result_of (wait process) w = Ok (exit_code process).
Proof.
  revert w. induction process as [meanwhile rc|meanwhile raw next IH]; intros w;
    unfold result_of; simpl; rewrite run_loop_then; [done|apply IH].
Qed.

Lemma handle_line_returns (title : string) (target : Z) (start : Q) (count : Z)
    (text : string) (st : Progress) (w : World) :
  ∃ st', result_of (handle_line title target start count text st) w = Ok st'
         ∧ line_count st' = count.
Proof.
  unfold result_of, handle_line, bind, time, tick, ret. simpl.
  destruct (Qltb _ _); [|by eexists].
  rewrite update_systray_effect. simpl. by eexists.
Qed.

(** The count the line loop returns is the number of lines it has read up
    to the end of the output, and the code is the exit code met there. *)
Lemma read_lines_observed (title : string) (target : Z) (start : Q) (process : Process)
    (st0 st : Progress) (rc : Z) (w w1 : World) :
  read_lines title target start process st0 w = (w1, Ok (st, rc)) →
  observed process (line_count st - line_count st0) rc.
Proof.
  revert st0 w. induction process as [meanwhile code|meanwhile raw next IH];
    intros st0 w; simpl; rewrite run_loop_then.
  - intros H. inversion H; subst. rewrite Z.sub_diag. constructor.
  - set (w0 := world_after (run_loop meanwhile) w).
    destruct (String.eqb raw "") eqn:Eraw.
    + apply String.eqb_eq in Eraw. subst raw.
      pose proof (wait_returns (next false) w0) as Hw. unfold result_of, bind in *.
      destruct (wait (next false) w0) as [w2 r]. simpl in Hw. subst r.
      intros H. inversion H; subst. rewrite Z.sub_diag. constructor.
    + apply String.eqb_neq in Eraw.
      unfold bind at 1, read_status.
      destruct (decode_utf8 raw) as [text|].
      2: { unfold bind. destruct (wait _ _) as [w2 [c|e]]; simpl; intros H; inversion H. }
      set (asked := status_eqb _ _). set (w2 := with_task_status _ w0).
      destruct (handle_line_returns title target start (line_count st0 + 1) text st0 w2)
        as (st' & Hh & Hc).
      unfold result_of, bind in *.
      destruct (handle_line title target start (line_count st0 + 1) text st0 w2)
        as [w3 r]. simpl in Hh. subst r.
      intros H. apply IH in H.
      replace (line_count st - line_count st0)
        with ((line_count st - line_count st') + 1) by lia.
      by apply observed_line with (asked := asked).
Qed.

Lemma finish_process_effect (title : string) (parts : list string) (start : Q)
    (st : Progress) (rc : Z) (w : World) :
  let w' := world_after (finish_process title parts start st rc) w in
  let time_string := PyStr.time_string (time_at (ticks w) - start) in
  let clock := now_clock (S (ticks w)) in
  files w' = files w
  ∧ (rc ≠ 0 →
     result_of (finish_process title parts start st rc) w
     = Raise (CalledProcessError rc parts)
     ∧ task_status w' = set_status title FAILED (task_status w)
     ∧ ∃ icon, output_queue w'
               = output_queue w
                 ++ [UpdateSystray
                       (Some ("Failed " +:+ title +:+ " at " +:+ clock +:+ "!" +:+ nl
                              +:+ "Return code: " +:+ pretty rc
                              +:+ " (in " +:+ time_string +:+ ")")) icon])
  ∧ (rc = 0 →
     result_of (finish_process title parts start st rc) w = Ok (line_count st)
     ∧ task_status w' = set_status title FINISHED (task_status w)
     ∧ ∃ icon, output_queue w'
               = output_queue w
                 ++ [UpdateSystray
                       (Some (let hover_text :=
                                "Finished " +:+ title +:+ " at " +:+ clock +:+ " in "
                                +:+ time_string +:+ ":" in
                              if String.eqb (stats_output st) "" then hover_text
                              else hover_text +:+ nl +:+ stats_output st)) icon]).
Proof.
  intros w' time_string clock. subst w'. unfold world_after, result_of.
  unfold finish_process, bind, time, tick, ret, raise, write_status, modify.
  cbv beta iota zeta. simpl fst. simpl snd.
  destruct (rc =? 0) eqn:E; cbn [negb]; cbv beta iota; rewrite output_effect; simpl.
  - apply Z.eqb_eq in E. split; [done|]. split; [done|]. intros _. eauto.
  - apply Z.eqb_neq in E. split; [done|]. split; [|done]. intros _. eauto.
Qed.

Lemma start_process_time (title command : string) (w w0 : World) (start : Q)
    (parts : list string) (process : Process) :
  start_process title command w = (w0, Ok (start, parts, process)) →
  start = time_at (S (ticks w)) ∧ shlex_split command = Some parts.
Proof.
  unfold start_process, bind, write_status, modify, time, tick, ret, raise, Popen.
  rewrite output_effect. simpl.
  destruct (shlex_split command) as [parts'|]; [|done].
  simpl. destruct (popen _ parts'); [|done]. intros H. by inversion H.
Qed.

Lemma wait_never_raises (process : Process) (w : World) :
  ∃ w', wait process w = (w', Ok (exit_code process)).
Proof.
  pose proof (wait_returns process w) as H. unfold result_of in H.
  destruct (wait process w) as [w' r]. simpl in H. subst r. by exists w'.
Qed.

(** The line loop raises nothing but the decoding error. *)
Lemma read_lines_raises (title : string) (target : Z) (start : Q) (process : Process)
    (st : Progress) (w w' : World) (e : Exn) :
  read_lines title target start process st w = (w', Raise e) →
  is_CalledProcessError e = false.
Proof.
  revert st w. induction process as [meanwhile code|meanwhile raw next IH];
    intros st w; simpl; rewrite run_loop_then.
  - done.
  - set (w0 := world_after (run_loop meanwhile) w).
    destruct (String.eqb raw "").
    + destruct (wait_never_raises (next false) w0) as [w1 Hw].
      by rewrite (bind_ok _ _ _ _ _ Hw).
    + unfold bind at 1, read_status.
      set (asked := status_eqb _ _). set (w2 := with_task_status _ w0).
      destruct (decode_utf8 raw) as [text|].
      * destruct (handle_line_returns title target start (line_count st + 1) text st w2)
          as (st' & Hh & _).
        unfold result_of, bind in *.
        destruct (handle_line title target start (line_count st + 1) text st w2)
          as [w3 r]. simpl in Hh. subst r. apply IH.
      * destruct (wait_never_raises (next asked) w2) as [w1 Hw].
        rewrite (bind_ok _ _ _ _ _ Hw). intros H. by inversion H.
Qed.

Lemma start_process_raises (title command : string) (w w' : World) (e : Exn) :
  start_process title command w = (w', Raise e) → is_CalledProcessError e = false.
Proof.
  unfold start_process, bind, write_status, modify, time, tick, ret, raise, Popen.
  rewrite output_effect. simpl.
  destruct (shlex_split command) as [parts|]; [|intros H; by inversion H].
  simpl. destruct (popen _ parts); [done|]. intros H. by inversion H.
Qed.

(** However an invocation of the supervisor ends, a returned line count
    comes with the status FINISHED and a [CalledProcessError] with a non-zero
    code and the status FAILED. *)
Lemma run_process_outcome (title command : string) (target : Z) (w : World) :
  match run_process_and_update_systray title command target w with
  | (w', Ok _) => status_of title (task_status w') = FINISHED
  | (w', Raise (CalledProcessError rc _)) =>
      rc ≠ 0 ∧ status_of title (task_status w') = FAILED
  | (w', Raise _) => True
  end.
Proof.
  unfold run_process_and_update_systray. unfold bind at 1.
  pose proof (start_process_raises title command w) as Hsr.
  destruct (start_process title command w) as [w0 [[[start parts] p]|e]].
  2: { specialize (Hsr w0 e eq_refl). by destruct e. }
  unfold bind at 1.
  pose proof (read_lines_raises title target start p
                {| line_count := 0; stats_output := ""; last_update_time := start |} w0)
    as Hrr.
  destruct (read_lines _ _ _ _ _ w0) as [w1 [[st rc]|e]].
  2: { specialize (Hrr w1 e eq_refl). by destruct e. }
  simpl fst. simpl snd.
  destruct (finish_process_effect title parts start st rc w1) as (_ & Hfail & Hfin).
  unfold world_after, result_of in *.
  destruct (finish_process title parts start st rc w1) as [w2 r]. simpl in *.
  destruct (decide (rc = 0)) as [Hrc|Hrc].
  - destruct (Hfin Hrc) as (-> & Ht & _). rewrite Ht. apply status_of_set_same.
  - destruct (Hfail Hrc) as (-> & Ht & _). rewrite Ht. split; [done|].
    apply status_of_set_same.
Qed.

Lemma run_process_returned (title command : string) (target lines : Z) (w w' : World) :
  run_process_and_update_systray title command target w = (w', Ok lines) →
  status_of title (task_status w') = FINISHED.
Proof.
  intros H. pose proof (run_process_outcome title command target w) as Ho.
  by rewrite H in Ho.
Qed.


(** *** run_backup and the line-count file *)

Lemma run_backup_body_start (config : BackupConfiguration) (w : World) :
  let title := name config +:+ " backup" in
  ¬ is_active (status_of title (task_status w)) →
  let w2 := with_files (spec_rotate (path_str (log_file config)) (files w))
              (with_task_status (touch title (task_status w)) w) in
  world_after (task_is_running title ;; rotate_logs (log_file config)) w = w2
  ∧ run_backup_body config w
    = (backup_lines <- load_line_count (backup_line_count_file config) ;;
       backup_lines <- run_process_and_update_systray title (backup_command config)
                         backup_lines ;;
       save_line_count (backup_line_count_file config) backup_lines) w2.
Proof.
  intros title Hna w2. unfold world_after, run_backup_body. fold title.
  rewrite !(bind_ok _ _ _ _ _ (task_is_running_effect title w)).
  rewrite bool_decide_eq_false_2 by done.
  by rewrite rotate_logs_spec, (bind_ok _ _ _ _ _ (rotate_logs_spec _ _)).
Qed.

Lemma run_process_written (title command : string) (target : Z) (w : World) :
  written (world_after (run_process_and_update_systray title command target) w)
  = written w.
Proof.
  unfold world_after, run_process_and_update_systray.
  apply (preserves_bind written).
  - intros w0. unfold start_process, bind, write_status, modify, time, tick, ret, raise,
      Popen. rewrite output_effect. simpl.
    destruct (shlex_split command) as [parts|]; [|done].
    simpl. by destruct (popen _ parts).
  - intros [[start parts] process]. apply (preserves_bind written).
    + apply frame_read_lines, written_insensitive.
    + intros r. apply frame_finish_process, written_insensitive.
Qed.

(** What the [try] block of [run_backup] does to the line-count file: it
    opens it for writing only as its last step, with the task FINISHED, and
    otherwise leaves its contents alone unless the file is one of the logs
    that are rotated. *)
Lemma run_backup_body_files (config : BackupConfiguration) (w : World) :
  let title := name config +:+ " backup" in
  let file := path_str (backup_line_count_file config) in
  let apart :=
    file ≠ path_str (log_file config)
    ∧ ∀ i, 1 ≤ i ≤ 9 → file ≠ generation_str (log_file config) i in
  match run_backup_body config w with
  | (wb, Ok _) =>
      (written wb = written w ∧ (apart → files wb !! file = files w !! file))
      ∨ (written wb = written w ++ [file] ∧ status_of title (task_status wb) = FINISHED)
  | (wb, Raise _) =>
      written wb = written w ∧ (apart → files wb !! file = files w !! file)
  end.
Proof.
  intros title file apart.
  destruct (decide (is_active (status_of title (task_status w)))) as [Ha|Hna].
  { unfold run_backup_body. fold title.
    rewrite (bind_ok _ _ _ _ _ (task_is_running_active title w Ha)).
    rewrite output_effect. by left. }
  destruct (run_backup_body_start config w Hna) as [_ ->]. fold title.
  set (w2 := with_files _ _).
  assert (written w2 = written w) as Hw2 by done.
  assert (apart → files w2 !! file = files w !! file) as H2.
  { intros [Hlog Hgen]. subst w2. simpl.
    by destruct (spec_rotate_lookup (log_file config) (files w)) as (_ & _ & _ & ->). }
  pose proof (frame_load_line_count files (backup_line_count_file config) w2) as Hl.
  pose proof (frame_load_line_count written (backup_line_count_file config) w2) as Hlw.
  destruct (load_line_count (backup_line_count_file config) w2) as [w3 [n|e]] eqn:El.
  2: { rewrite (bind_raise _ _ _ _ _ El). simpl in *. rewrite Hl, Hlw. by split. }
  rewrite (bind_ok _ _ _ _ _ El). simpl in Hl, Hlw.
  pose proof (run_process_started title (backup_command config) n w3) as [Hp _].
  pose proof (run_process_written title (backup_command config) n w3) as Hpw.
  pose proof (run_process_returned title (backup_command config) n) as Hfin.
  unfold world_after in Hp, Hpw.
  destruct (run_process_and_update_systray title (backup_command config) n w3)
    as [w4 [lc|e]] eqn:Ep.
  - rewrite (bind_ok _ _ _ _ _ Ep). right. simpl in *.
    split; [by rewrite Hpw, Hlw|]. by apply (Hfin lc w3).
  - rewrite (bind_raise _ _ _ _ _ Ep). simpl in *. rewrite Hp, Hpw, Hl, Hlw. by split.
Qed.


(** C10. Let the backup task of a configuration be started, and let its
    status be CANCEL_REQUESTED when the output of its process has been read
    to the end.  If the process exits with code 0, the supervisor sets the
    status to FINISHED, publishes the success text and returns the number of
    lines read, and [run_backup] writes that number to the line-count file.
    If the process exits with another code, the status is FAILED and the
    files are left as they were when the process was started. *)
Theorem cancelled_backup_exiting_zero_finishes (config : BackupConfiguration)
    (w wl w0 w1 : World) (target : Z) (start : Q) (parts : list string)
    (process : Process) (st : Progress) (rc : Z) :
  let title := name config +:+ " backup" in
  let file := path_str (backup_line_count_file config) in
  let supervisor := run_process_and_update_systray title (backup_command config) target in
  let w' := world_after (run_backup config) w in
  ¬ is_active (status_of title (task_status w)) →
  load_line_count (backup_line_count_file config)
    (world_after (task_is_running title ;; rotate_logs (log_file config)) w)
  = (wl, Ok target) →
  start_process title (backup_command config) wl = (w0, Ok (start, parts, process)) →
  read_lines title target start process
    {| line_count := 0; stats_output := ""; last_update_time := start |} w0
  = (w1, Ok (st, rc)) →
  status_of title (task_status w1) = CANCEL_REQUESTED →
  (rc = 0 →
     status_of title (task_status w') = FINISHED
     ∧ result_of supervisor wl = Ok (line_count st)
     ∧ files w' !! file = Some (pretty (line_count st))
     ∧ ∃ icon,
         output_queue w'
         = output_queue w1
           ++ [UpdateSystray
                 (Some (let hover_text :=
                          "Finished " +:+ title +:+ " at " +:+ now_clock (S (ticks w1))
                          +:+ " in "
                          +:+ PyStr.time_string (time_at (ticks w1) - start) +:+ ":" in
                        if String.eqb (stats_output st) "" then hover_text
                        else hover_text +:+ nl +:+ stats_output st)) icon])
  ∧ (rc ≠ 0 →
     status_of title (task_status w') = FAILED
     ∧ result_of supervisor wl = Raise (CalledProcessError rc parts)
     ∧ files w' = files wl).
Proof.
  intros title file supervisor w' Hna Hload Hstart Hread Hcancel.
  subst supervisor w'.
  destruct (run_backup_body_start config w Hna) as [Hw2 Hbody].
  fold title in Hw2, Hbody. rewrite Hw2 in Hload.
  rewrite (bind_ok _ _ _ _ _ Hload) in Hbody.
  assert (run_process_and_update_systray title (backup_command config) target wl
          = finish_process title parts start st rc w1) as Hsup.
  { unfold run_process_and_update_systray.
    rewrite (bind_ok _ _ _ _ _ Hstart). cbv beta iota.
    by rewrite (bind_ok _ _ _ _ _ Hread). }
  destruct (finish_process_effect title parts start st rc w1) as (Hfiles & Hfail & Hfin).
  unfold world_after, result_of in *.
  assert (files w1 = files wl) as Hf1.
  { pose proof (start_process_started title (backup_command config) wl) as Hs.
    rewrite Hstart in Hs. destruct Hs as [_ Hs].
    pose proof (frame_read_lines files files_insensitive title target start process
                  {| line_count := 0; stats_output := ""; last_update_time := start |} w0)
      as Hr.
    rewrite Hread in Hr. simpl in Hr. congruence. }
  split.
  - intros Hrc. destruct (Hfin Hrc) as (Hr & Ht & Hq).
    destruct (finish_process title parts start st rc w1) as [w2 r] eqn:E.
    simpl in *. subst r.
    assert (run_backup config w
            = (with_written (written w2 ++ [file])
                 (with_files (<[file := pretty (line_count st)]> (files w2)) w2), Ok tt))
      as Hrun.
    { unfold run_backup, try_except. rewrite Hbody.
      by rewrite (bind_ok _ _ _ _ _ Hsup). }
    rewrite Hrun, Hsup. simpl.
    rewrite Ht. split; [apply status_of_set_same|]. split; [done|].
    split; [apply lookup_insert_eq|done].
  - intros Hrc. destruct (Hfail Hrc) as (Hr & Ht & Hq).
    destruct (finish_process title parts start st rc w1) as [w2 r] eqn:E.
    simpl in *. subst r.
    assert (run_backup config w = (w2, Ok tt)) as Hrun.
    { unfold run_backup, try_except. rewrite Hbody.
      by rewrite (bind_raise _ _ _ _ _ Hsup). }
    rewrite Hrun, Hsup. simpl.
    split; [by rewrite Ht, status_of_set_same|]. split; [done|]. congruence.
Qed.

(** *** Joining one more part *)

Lemma join_snoc (sep x : string) (l : list string) :
  l ≠ [] → PyStr.join sep (l ++ [x]) = PyStr.join sep l +:+ sep +:+ x.
Proof.
  induction l as [|a l IH]; [done|]. intros _.
  destruct l as [|b l]; [done|].
  rewrite <- app_comm_cons.
  rewrite (join_cons sep a ((b :: l) ++ [x])) by done.
  rewrite (join_cons sep a (b :: l)) by done.
  rewrite IH by done. by rewrite !append_assoc.
Qed.

(** *** Rounding to binary64 is monotone *)

Lemma round_half_even_floor (x : Q) :
  Qfloor x ≤ PyStr.round_half_even x ≤ Qfloor x + 1.
Proof.
  unfold PyStr.round_half_even, Qfloor. destruct x as [n d]. simpl.
  destruct (2 * (n mod Z.pos d) ?= Z.pos d); [destruct (Z.even _)|..]; lia.
Qed.

Lemma round_half_even_mono (x y : Q) :
  (x <= y)%Q → PyStr.round_half_even x ≤ PyStr.round_half_even y.
Proof.
  intros Hxy. pose proof (Qfloor_resp_le x y Hxy) as Hf.
  pose proof (round_half_even_floor x) as Hx. pose proof (round_half_even_floor y) as Hy.
  destruct (Z.eq_dec (Qfloor x) (Qfloor y)) as [Heq|Hne]; [|lia].
  clear Hx Hy Hf. revert Hxy Heq.
  unfold PyStr.round_half_even, Qfloor, Qle. destruct x as [n d], y as [n' d']. simpl.
  intros Hxy Heq. rewrite <- Heq.
  pose proof (Z.div_mod n (Z.pos d) ltac:(lia)) as Hn.
  pose proof (Z.div_mod n' (Z.pos d') ltac:(lia)) as Hn'.
  pose proof (Z.mod_pos_bound n (Z.pos d) ltac:(lia)) as Hr.
  pose proof (Z.mod_pos_bound n' (Z.pos d') ltac:(lia)) as Hr'.
  rewrite <- Heq in Hn'.
  set (f := n / Z.pos d) in *. set (r := n mod Z.pos d) in *.
  set (r' := n' mod Z.pos d') in *.
  assert (r * Z.pos d' ≤ r' * Z.pos d) as Hrr by nia.
  destruct (Z.compare_spec (2 * r) (Z.pos d)), (Z.compare_spec (2 * r') (Z.pos d'));
    try (destruct (Z.even f)); try lia; nia.
Qed.

Lemma round_half_even_Z (z : Z) : PyStr.round_half_even (inject_Z z) = z.
Proof.
  unfold PyStr.round_half_even, inject_Z. simpl.
  rewrite Z.mod_1_r, Z.div_1_r. simpl. done.
Qed.

Lemma pow2_pos (e : Z) : (0 < PyFloat.pow2 e)%Q.
Proof. by apply Qpower_0_lt. Qed.

Lemma pow2_add (a b : Z) : (PyFloat.pow2 (a + b) == PyFloat.pow2 a * PyFloat.pow2 b)%Q.
Proof. by apply Qpower_plus. Qed.

Lemma pow2_mono (a b : Z) : a ≤ b → (PyFloat.pow2 a <= PyFloat.pow2 b)%Q.
Proof. intros H. by apply Qpower_le_compat_l. Qed.

Lemma pow2_Z (e : Z) : 0 ≤ e → (PyFloat.pow2 e == inject_Z (2 ^ e))%Q.
Proof. intros H. unfold PyFloat.pow2. by rewrite Zpower_Qpower. Qed.

Lemma pow2_cancel (e : Z) : (PyFloat.pow2 e * PyFloat.pow2 (- e) == 1)%Q.
Proof. rewrite <- pow2_add, Z.add_opp_diag_r. reflexivity. Qed.

(** Comparing with a power of two. *)
Lemma pow2_le_iff (k : Z) (x : Q) :
  (PyFloat.pow2 k <= x)%Q ↔ (1 <= x * PyFloat.pow2 (- k))%Q.
Proof.
  pose proof (pow2_pos k) as Hk. pose proof (pow2_pos (- k)) as Hk'.
  pose proof (pow2_cancel k) as Hc.
  set (p := PyFloat.pow2 k) in *. set (p' := PyFloat.pow2 (- k)) in *.
  split; intros H.
  - assert (p * p' <= x * p')%Q by (apply Qmult_le_compat_r; [done|by apply Qlt_le_weak]).
    lra.
  - assert (1 * p <= x * p' * p)%Q by (apply Qmult_le_compat_r; [done|by apply Qlt_le_weak]).
    assert (x * p' * p == x * (p * p'))%Q by ring.
    assert (x * (p * p') == x)%Q by (rewrite Hc; ring).
    lra.
Qed.

Lemma exponent_test (n d : positive) (k : Z) :
  (if 0 <=? k then Z.pos d * 2 ^ k <=? Z.pos n else Z.pos d <=? Z.pos n * 2 ^ (- k)) = true
  ↔ (PyFloat.pow2 k <= Z.pos n # d)%Q.
Proof.
  destruct (Z.leb_spec 0 k) as [Hk|Hk].
  - rewrite pow2_Z by done. unfold Qle. simpl. rewrite Z.leb_le.
    assert (0 < 2 ^ k) by (by apply Z.pow_pos_nonneg). lia.
  - rewrite pow2_le_iff, pow2_Z by lia. unfold Qle. simpl. rewrite Z.leb_le.
    assert (0 < 2 ^ (- k)) by (apply Z.pow_pos_nonneg; lia). lia.
Qed.

Lemma exponent_spec (n d : positive) :
  let e := PyFloat.exponent (Z.pos n) (Z.pos d) in
  (PyFloat.pow2 e <= Z.pos n # d)%Q ∧ (Z.pos n # d < PyFloat.pow2 (e + 1))%Q.
Proof.
  intros e. subst e. unfold PyFloat.exponent.
  set (k := Z.log2 (Z.pos n) - Z.log2 (Z.pos d)).
  pose proof (Z.log2_spec (Z.pos n) ltac:(lia)) as [Hn1 Hn2].
  pose proof (Z.log2_spec (Z.pos d) ltac:(lia)) as [Hd1 Hd2].
  pose proof (Z.log2_nonneg (Z.pos n)) as Hln. pose proof (Z.log2_nonneg (Z.pos d)) as Hld.
  assert (Z.pos n # d < PyFloat.pow2 (k + 1))%Q as Hupper.
  { apply Qnot_le_lt. intros H. apply (exponent_test n d (k + 1)) in H.
    destruct (Z.leb_spec 0 (k + 1)) as [Hk|Hk]; apply Z.leb_le in H.
    - assert (2 ^ Z.log2 (Z.pos d) * 2 ^ (k + 1) = 2 ^ Z.succ (Z.log2 (Z.pos n))) as Hp.
      { rewrite <- Z.pow_add_r by lia. f_equal. lia. }
      nia.
    - assert (2 ^ Z.succ (Z.log2 (Z.pos n)) * 2 ^ (- (k + 1)) = 2 ^ Z.log2 (Z.pos d)) as Hp.
      { rewrite <- Z.pow_add_r by lia. f_equal. lia. }
      assert (0 < 2 ^ (- (k + 1))) by (apply Z.pow_pos_nonneg; lia). nia. }
  assert (PyFloat.pow2 (k - 1) <= Z.pos n # d)%Q as Hlower.
  { apply exponent_test.
    destruct (Z.leb_spec 0 (k - 1)) as [Hk|Hk]; apply Z.leb_le.
    - assert (2 ^ Z.succ (Z.log2 (Z.pos d)) * 2 ^ (k - 1) = 2 ^ Z.log2 (Z.pos n)) as Hp.
      { rewrite <- Z.pow_add_r by lia. f_equal. lia. }
      assert (0 < 2 ^ (k - 1)) by (apply Z.pow_pos_nonneg; lia). nia.
    - assert (2 ^ Z.log2 (Z.pos n) * 2 ^ (- (k - 1)) = 2 ^ Z.succ (Z.log2 (Z.pos d))) as Hp.
      { rewrite <- Z.pow_add_r by lia. f_equal. lia. }
      assert (0 < 2 ^ (- (k - 1))) by (apply Z.pow_pos_nonneg; lia). nia. }
  destruct (if 0 <=? k then _ else _) eqn:E.
  - split; [by apply exponent_test|done].
  - split; [done|]. replace (k - 1 + 1) with k by lia.
    apply Qnot_le_lt. intros H. apply exponent_test in H. congruence.
Qed.

Lemma pow2_lt_inv (a b : Z) : (PyFloat.pow2 a < PyFloat.pow2 b)%Q → a < b.
Proof. intros H. by apply (Qpower_lt_compat_l_inv 2). Qed.

Lemma inject_Z_le (a b : Z) : a ≤ b → (inject_Z a <= inject_Z b)%Q.
Proof. intros H. by rewrite <- Zle_Qle. Qed.

Lemma nearest_bounds (n d : positive) :
  let e := PyFloat.exponent (Z.pos n) (Z.pos d) in
  (0 <= PyFloat.nearest n d)%Q
  ∧ (PyFloat.nearest n d <= PyFloat.pow2 (e + 1))%Q
  ∧ (-1074 ≤ e - 52 → (PyFloat.pow2 e <= PyFloat.nearest n d)%Q).
Proof.
  intros e. destruct (exponent_spec n d) as [Hlo Hhi]. fold e in Hlo, Hhi.
  unfold PyFloat.nearest. fold e.
  set (q := Z.max (e - 52) (-1074)).
  set (x := ((Z.pos n # d) * PyFloat.pow2 (- q))%Q).
  pose proof (pow2_pos q) as Hq. pose proof (pow2_pos (- q)) as Hq'.
  assert (0 <= x)%Q as Hx0.
  { subst x. apply Qmult_le_0_compat; [done|by apply Qlt_le_weak]. }
  assert (0 ≤ PyStr.round_half_even x) as Hm0.
  { change 0 with (PyStr.round_half_even 0). by apply round_half_even_mono. }
  assert (x <= PyFloat.pow2 (e + 1 - q))%Q as Hx1.
  { subst x.
    assert (PyFloat.pow2 (e + 1 - q) == PyFloat.pow2 (e + 1) * PyFloat.pow2 (- q))%Q as ->.
    { rewrite <- pow2_add. by replace (e + 1 + - q) with (e + 1 - q) by lia. }
    apply Qmult_le_compat_r; [by apply Qlt_le_weak|by apply Qlt_le_weak]. }
  split; [|split].
  - apply Qmult_le_0_compat; [by apply (inject_Z_le 0)|by apply Qlt_le_weak].
  - destruct (Z.le_gt_cases 0 (e + 1 - q)) as [Hpos|Hneg].
    + assert (PyStr.round_half_even x ≤ 2 ^ (e + 1 - q)) as Hm.
      { rewrite <- (round_half_even_Z (2 ^ (e + 1 - q))).
        apply round_half_even_mono. by rewrite <- pow2_Z. }
      assert (PyFloat.pow2 (e + 1) == PyFloat.pow2 (e + 1 - q) * PyFloat.pow2 q)%Q as ->.
      { rewrite <- pow2_add. by replace (e + 1 - q + q) with (e + 1) by lia. }
      apply Qmult_le_compat_r; [|by apply Qlt_le_weak].
      rewrite pow2_Z by done. by apply inject_Z_le.
    + assert (PyStr.round_half_even x ≤ 0) as Hm.
      { change 0 with (PyStr.round_half_even (1 # 2)). apply round_half_even_mono.
        apply Qle_trans with (PyFloat.pow2 (e + 1 - q)); [done|].
        apply Qle_trans with (PyFloat.pow2 (-1)); [apply pow2_mono; lia|done]. }
      replace (PyStr.round_half_even x) with 0 by lia.
      rewrite Qmult_0_l. by apply Qlt_le_weak, pow2_pos.
  - intros Hnormal. assert (q = e - 52) as Hqe by lia.
    assert (2 ^ 52 ≤ PyStr.round_half_even x) as Hm.
    { rewrite <- (round_half_even_Z (2 ^ 52)). apply round_half_even_mono.
      rewrite <- pow2_Z by done. subst x.
      assert (PyFloat.pow2 52 == PyFloat.pow2 e * PyFloat.pow2 (- q))%Q as ->.
      { rewrite <- pow2_add. by replace (e + - q) with 52 by lia. }
      apply Qmult_le_compat_r; [done|by apply Qlt_le_weak]. }
    assert (PyFloat.pow2 e == PyFloat.pow2 52 * PyFloat.pow2 q)%Q as ->.
    { rewrite <- pow2_add. by replace (52 + q) with e by lia. }
    apply Qmult_le_compat_r; [|by apply Qlt_le_weak].
    rewrite pow2_Z by done. by apply inject_Z_le.
Qed.

Lemma nearest_mono (n d n' d' : positive) :
  (Z.pos n # d <= Z.pos n' # d')%Q → (PyFloat.nearest n d <= PyFloat.nearest n' d')%Q.
Proof.
  intros Hle.
  destruct (exponent_spec n d) as [Hlo Hhi]. destruct (exponent_spec n' d') as [Hlo' Hhi'].
  destruct (nearest_bounds n d) as (_ & Hup & _).
  destruct (nearest_bounds n' d') as (_ & _ & Hdown).
  set (e := PyFloat.exponent (Z.pos n) (Z.pos d)) in *.
  set (e' := PyFloat.exponent (Z.pos n') (Z.pos d')) in *.
  assert (e ≤ e') as He.
  { assert (e < e' + 1); [|lia]. apply pow2_lt_inv.
    eapply Qle_lt_trans; [exact Hlo|]. eapply Qle_lt_trans; [exact Hle|done]. }
  destruct (Z.eq_dec (Z.max (e - 52) (-1074)) (Z.max (e' - 52) (-1074))) as [Heq|Hne].
  - unfold PyFloat.nearest. fold e e'. rewrite <- Heq.
    set (q := Z.max (e - 52) (-1074)).
    apply Qmult_le_compat_r; [|by apply Qlt_le_weak, pow2_pos].
    apply inject_Z_le, round_half_even_mono.
    apply Qmult_le_compat_r; [done|by apply Qlt_le_weak, pow2_pos].
  - apply Qle_trans with (PyFloat.pow2 (e + 1)); [done|].
    apply Qle_trans with (PyFloat.pow2 e'); [apply pow2_mono; lia|].
    apply Hdown. lia.
Qed.

Lemma binary64_value (x : Q) :
  (PyFloat.binary64 x
   == match Qnum x with
      | Z0 => 0
      | Zpos n => PyFloat.nearest n (Qden x)
      | Zneg n => - PyFloat.nearest n (Qden x)
      end)%Q.
Proof. unfold PyFloat.binary64. destruct (Qnum x); [done|apply Qred_correct..]. Qed.

(** Rounding to binary64 keeps the order. *)
Lemma binary64_mono (x y : Q) : (x <= y)%Q → (PyFloat.binary64 x <= PyFloat.binary64 y)%Q.
Proof.
  intros Hxy. rewrite (binary64_value x), (binary64_value y).
  destruct x as [[|n|n] d], y as [[|n'|n'] d']; simpl;
    try (exfalso; revert Hxy; unfold Qle; simpl; lia);
    try apply Qle_refl;
    try (pose proof (nearest_bounds n d) as (H0 & _));
    try (pose proof (nearest_bounds n' d') as (H0' & _));
    try lra.
  - by apply nearest_mono.
  - assert (PyFloat.nearest n' d' <= PyFloat.nearest n d)%Q; [|lra].
    apply nearest_mono. revert Hxy. unfold Qle. simpl. lia.
Qed.

Lemma float_div_mono (a b c : Q) :
  (0 < c)%Q → (a <= b)%Q → (PyFloat.div a c <= PyFloat.div b c)%Q.
Proof.
  intros Hc Hab. apply binary64_mono. unfold Qdiv.
  apply Qmult_le_compat_r; [done|]. by apply Qlt_le_weak, Qinv_lt_0_compat.
Qed.

(** *** Sorting by descending time *)

Lemma Qltb_true (a b : Q) : Qltb a b = true ↔ (a < b)%Q.
Proof.
  unfold Qltb. rewrite negb_true_iff. split.
  - intros H. apply Qnot_le_lt. intros Hle. apply Qle_bool_iff in Hle. congruence.
  - intros H. destruct (Qle_bool b a) eqn:E; [|done].
    apply Qle_bool_iff in E. by apply Qlt_not_le in H.
Qed.

Lemma Qltb_false (a b : Q) : Qltb a b = false ↔ (b <= a)%Q.
Proof.
  unfold Qltb. rewrite negb_false_iff. apply Qle_bool_iff.
Qed.

Lemma insert_desc_perm (x : string * Q) (l : list (string * Q)) :
  insert_desc x l ≡ₚ x :: l.
Proof.
  induction l as [|y l IH]; simpl; [done|].
  destruct (Qltb x.2 y.2); [|done].
  rewrite IH. apply perm_swap.
Qed.

Lemma sorted_desc_perm (l : list (string * Q)) : sorted_desc l ≡ₚ l.
Proof.
  induction l as [|x l IH]; simpl; [done|].
  unfold sorted_desc in *. simpl. by rewrite insert_desc_perm, IH.
Qed.

Lemma insert_desc_sorted (x : string * Q) (l : list (string * Q)) :
  StronglySorted (fun a b => (b.2 <= a.2)%Q) l →
  StronglySorted (fun a b => (b.2 <= a.2)%Q) (insert_desc x l).
Proof.
  induction 1 as [|y l Hs IH Hall]; simpl.
  - repeat constructor.
  - destruct (Qltb x.2 y.2) eqn:E.
    + apply Qltb_true in E. constructor; [done|].
      rewrite insert_desc_perm. constructor; [by apply Qlt_le_weak|done].
    + apply Qltb_false in E. constructor; [by constructor|].
      constructor; [done|].
      eapply Forall_impl; [exact Hall|]. intros z Hz. simpl in Hz.
      by apply Qle_trans with (y := y.2).
Qed.

Lemma sorted_desc_sorted (l : list (string * Q)) :
  StronglySorted (fun a b => (b.2 <= a.2)%Q) (sorted_desc l).
Proof.
  induction l as [|x l IH]; simpl; [constructor|].
  by apply insert_desc_sorted.
Qed.

Lemma sorted_by_average (backup_count : Z) (l : list (string * Q)) :
  0 < backup_count →
  StronglySorted (fun a b => (b.2 <= a.2)%Q) l →
  StronglySorted (descending_by_average backup_count) l.
Proof.
  intros Hpos. induction 1 as [|y l Hs IH Hall]; constructor; [done|].
  eapply Forall_impl; [exact Hall|]. intros z Hz.
  unfold descending_by_average, average.
  apply float_div_mono; [|done]. unfold Qlt. simpl. lia.
Qed.

(** *** The log analysis *)

Lemma collect_times (i : Z) (file_flag line prev : string) (acc : Scan) :
  file_backup_times (collect i file_flag line prev acc) = file_backup_times acc
  ∧ path_backup_times (collect i file_flag line prev acc) = path_backup_times acc.
Proof. unfold collect. by destruct (i =? 0). Qed.

Lemma write_report_effect (file : Path) (header : string) (lines : list string)
    (editor : string) (w w' : World) :
  write_report file header lines editor w = (w', Ok tt) →
  files w' = <[path_str file := header +:+ nl +:+ nl +:+ PyStr.join "" lines]> (files w).
Proof.
  unfold write_report, bind, write_file, modify, Popen. simpl.
  destruct (popen _ _); [|done]. intros H. by inversion H.
Qed.

(** *** The prefixes of a path *)

Lemma take_prefixes {A} (l : list A) :
  map (fun j => take j l) (seq 1 (length l)) = prefixes l.
Proof.
  induction l as [|x l IH]; simpl; [done|]. f_equal.
  rewrite <- IH, <- seq_shift, !map_map. done.
Qed.

Lemma path_prefixes_spec (log_file : string) : path_prefixes log_file = spec_prefixes log_file.
Proof.
  unfold path_prefixes, spec_prefixes. rewrite <- take_prefixes. by rewrite map_map.
Qed.

(** *** Tables of totals *)

Lemma charge_all_app (table : list (string * Q)) (a b : list (string * Q)) :
  charge_all table (a ++ b) = charge_all (charge_all table a) b.
Proof. apply foldl_app. Qed.

Lemma spec_keys_snoc (charges : list (string * Q)) (c : string * Q) :
  spec_keys (charges ++ [c])
  = if bool_decide (c.1 ∈ spec_keys charges) then spec_keys charges
    else spec_keys charges ++ [c.1].
Proof. unfold spec_keys. by rewrite foldl_app. Qed.

Lemma spec_keys_elem (charges : list (string * Q)) (key : string) :
  key ∈ spec_keys charges ↔ ∃ c, c ∈ charges ∧ c.1 = key.
Proof.
  induction charges as [|c charges IH] using rev_ind.
  - split; [by intros ?%elem_of_nil|by intros (c & ?%elem_of_nil & _)].
  - rewrite spec_keys_snoc. case_bool_decide as Hin.
    + rewrite IH. split.
      * intros (c' & Hc' & <-). exists c'. split; [|done]. apply elem_of_app. by left.
      * intros (c' & [Hc'|Hc']%elem_of_app & <-); [by exists c'|].
        apply list_elem_of_singleton in Hc' as ->. by apply IH.
    + rewrite elem_of_app, IH, list_elem_of_singleton. split.
      * intros [(c' & Hc' & <-) | ->].
        -- exists c'. split; [|done]. apply elem_of_app. by left.
        -- exists c. split; [|done]. apply elem_of_app. right. by apply list_elem_of_singleton.
      * intros (c' & [Hc'|Hc']%elem_of_app & <-); [left; by exists c'|].
        apply list_elem_of_singleton in Hc' as ->. by right.
Qed.

Lemma spec_keys_NoDup (charges : list (string * Q)) : NoDup (spec_keys charges).
Proof.
  induction charges as [|c charges IH] using rev_ind; [constructor|].
  rewrite spec_keys_snoc. case_bool_decide as Hin; [done|].
  apply NoDup_app. split; [done|]. split; [|apply NoDup_singleton].
  intros k Hk ->%list_elem_of_singleton. done.
Qed.

Lemma spec_total_snoc (key : string) (charges : list (string * Q)) (c : string * Q) :
  spec_total key (charges ++ [c])
  = if String.eqb c.1 key then PyFloat.add (spec_total key charges) c.2
    else spec_total key charges.
Proof.
  unfold spec_total. rewrite List.filter_app, map_app, foldl_app. simpl.
  destruct (String.eqb c.1 key); simpl; [done|]. by rewrite ?app_nil_r.
Qed.

Lemma spec_total_unknown (key : string) (charges : list (string * Q)) :
  key ∉ spec_keys charges → spec_total key charges = 0%Q.
Proof.
  intros Hno. unfold spec_total.
  replace (List.filter (fun c => String.eqb c.1 key) charges) with (@nil (string * Q)); [done|].
  symmetry. induction charges as [|c charges IH]; simpl; [done|].
  destruct (String.eqb_spec c.1 key) as [Heq|Hne].
  - destruct Hno. apply spec_keys_elem. exists c. split; [left|done].
  - apply IH. intros Hin. apply Hno. apply spec_keys_elem.
    apply spec_keys_elem in Hin as (c' & Hc' & Hk). exists c'. split; [by right|done].
Qed.

(** [add_time] on a table that lists each key once. *)
Lemma add_time_map (key : string) (delta : Q) (keys : list string) (f : string → Q) :
  NoDup keys →
  add_time key delta (map (fun k => (k, f k)) keys)
  = if bool_decide (key ∈ keys)
    then map (fun k => (k, if String.eqb key k then PyFloat.add (f k) delta else f k)) keys
    else map (fun k => (k, f k)) keys ++ [(key, PyFloat.add 0 delta)].
Proof.
  induction 1 as [|k keys Hk Hnd IH]; simpl; [done|].
  destruct (String.eqb_spec k key) as [->|Hne].
  - rewrite bool_decide_eq_true_2 by left. rewrite String.eqb_refl. f_equal.
    apply map_ext_in. intros k' Hin%list_elem_of_In.
    destruct (String.eqb_spec key k') as [->|]; done.
  - rewrite IH. case_bool_decide as Hin.
    + rewrite bool_decide_eq_true_2 by (by right).
      destruct (String.eqb_spec key k); [congruence|done].
    + rewrite bool_decide_eq_false_2; [done|].
      intros [?|?]%elem_of_cons; [congruence|done].
Qed.

Lemma spec_totals_snoc (charges : list (string * Q)) (c : string * Q) :
  spec_totals (charges ++ [c]) = add_time c.1 c.2 (spec_totals charges).
Proof.
  unfold spec_totals. rewrite add_time_map by apply spec_keys_NoDup.
  rewrite spec_keys_snoc. case_bool_decide as Hin.
  - apply map_ext. intros k. by rewrite spec_total_snoc.
  - rewrite map_app. simpl. f_equal.
    + apply map_ext_in. intros k Hk%list_elem_of_In. rewrite spec_total_snoc.
      destruct (String.eqb_spec c.1 k) as [Heq|]; [|done]. by rewrite Heq in Hin.
    + rewrite spec_total_snoc, String.eqb_refl. by rewrite spec_total_unknown.
Qed.

Lemma charge_all_totals (charges : list (string * Q)) :
  charge_all [] charges = spec_totals charges.
Proof.
  induction charges as [|c charges IH] using rev_ind; [done|].
  by rewrite charge_all_app, IH, spec_totals_snoc.
Qed.

(** *** Scanning the logs *)

Lemma charge_all_prefixes (table : list (string * Q)) (path : string) (delta : Q) :
  foldl (fun t component => add_time component delta t) table (path_prefixes path)
  = charge_all table (spec_prefix_charges [(path, delta)]).
Proof.
  unfold spec_prefix_charges, charge_all. simpl. rewrite app_nil_r, path_prefixes_spec.
  generalize (spec_prefixes path). intros l. revert table.
  induction l as [|p l IH]; intros table; simpl; [done|]. apply IH.
Qed.

Lemma spec_prefix_charges_app (a b : list (string * Q)) :
  spec_prefix_charges (a ++ b) = spec_prefix_charges a ++ spec_prefix_charges b.
Proof. apply flat_map_app. Qed.

Lemma scan_line_item (i : Z) (line : string) (acc acc1 : Scan) (cur cur1 : Cursor) :
  scan_line i line (acc, cur) = Ok (acc1, cur1) →
  match item_of_line line with
  | None => acc1 = acc ∧ cur1 = cur
  | Some item =>
      let delta :=
        total_seconds (item_time item - default (item_time item) (previous_timestamp cur)) in
      previous_timestamp cur1 = Some (item_time item)
      ∧ file_backup_times acc1
        = file_backup_times (accumulate (item_flag item) (item_path item) delta acc)
      ∧ path_backup_times acc1
        = path_backup_times (accumulate (item_flag item) (item_path item) delta acc)
  end.
Proof.
  unfold scan_line, item_of_line, timestamp_text.
  destruct (length (PyStr.split_ws line) <? 5)%nat; [by intros [= <- <-]|].
  destruct (strptime _) as [timestamp|]; [|done].
  intros [= <- <-]. cbn [previous_timestamp item_time item_flag item_path].
  split; [done|]. apply collect_times.
Qed.

Lemma scan_lines_tables (i : Z) (lines : list string) (acc acc' : Scan) (cur cur' : Cursor) :
  scan_lines i lines (acc, cur) = Ok (acc', cur') →
  let charges := spec_charges_from (previous_timestamp cur) (omap item_of_line lines) in
  file_backup_times acc' = charge_all (file_backup_times acc) charges
  ∧ path_backup_times acc'
    = charge_all (path_backup_times acc) (spec_prefix_charges charges).
Proof.
  revert acc cur. induction lines as [|line lines IH]; intros acc cur; cbn [scan_lines].
  { intros [= <- <-]. done. }
  destruct (scan_line i line (acc, cur)) as [[acc1 cur1]|e] eqn:E; [|done].
  intros H. apply IH in H as [Hf Hp]. apply scan_line_item in E.
  cbn [omap list_omap]. destruct (item_of_line line) as [item|].
  2:{ destruct E as [-> ->]. done. }
  destruct E as (Hc & Hf1 & Hp1). rewrite Hc in Hf, Hp. rewrite Hf1 in Hf. rewrite Hp1 in Hp.
  clear Hc Hf1 Hp1.
  unfold spec_charges_from in *. cbn [spec_deltas List.filter].
  set (delta := total_seconds _) in *.
  set (rest := map _ (List.filter _ (spec_deltas (Some (item_time item)) _))) in *.
  unfold accumulate in Hf, Hp.
  destruct (spec_accumulated (item, delta)) eqn:Ha; unfold spec_accumulated in Ha;
    cbn [fst snd] in Ha; rewrite Ha in Hf, Hp; cbn [map fst snd]; fold rest.
  - cbn [file_backup_times path_backup_times] in Hf, Hp. split; [done|].
    rewrite Hp, charge_all_prefixes.
    change ((item_path item, delta) :: rest) with ([(item_path item, delta)] ++ rest).
    by rewrite spec_prefix_charges_app, charge_all_app.
  - done.
Qed.

Lemma scan_generations_tables (config : BackupConfiguration) (generations : list Z)
    (acc acc' : Scan) (n n' : Z) (w w' : World) :
  scan_generations config generations acc n w = (w', Ok (acc', n')) →
  let logs := present_texts (map (log_file_path config) generations) (files w) in
  let charges := flat_map spec_charges logs in
  n' = n + Z.of_nat (length logs)
  ∧ file_backup_times acc' = charge_all (file_backup_times acc) charges
  ∧ path_backup_times acc'
    = charge_all (path_backup_times acc) (spec_prefix_charges charges).
Proof.
  revert acc n w. induction generations as [|i rest IH]; intros acc n w;
    cbn [scan_generations map present_texts].
  - intros [= <- <- <-]. simpl. split; [lia|done].
  - unfold bind at 1, exists_file.
    destruct (files w !! log_file_path config i) as [content|] eqn:E.
    + rewrite bool_decide_eq_true_2 by eauto. cbn [negb].
      unfold bind at 1, read_file. rewrite E.
      unfold bind at 1. rewrite output_effect.
      set (w1 := with_output_queue _ _).
      destruct (scan_lines _ _ _) as [[acc1 cur]|e] eqn:Es; [|done].
      apply scan_lines_tables in Es as [Hf Hp]. cbn [previous_timestamp] in Hf, Hp.
      intros H. apply IH in H as (Hn & Hf' & Hp'). subst w1. simpl in Hn, Hf', Hp'.
      cbn [length]. fold (spec_charges content) in Hf, Hp.
      split; [lia|].
      set (older := present_texts _ _) in *.
      change (flat_map spec_charges (content :: older))
        with (spec_charges content ++ flat_map spec_charges older).
      rewrite spec_prefix_charges_app, !charge_all_app, <- Hf, <- Hp. done.
    + rewrite bool_decide_eq_false_2 by (intros [? ?]; congruence). cbn [negb].
      intros [= <- <- <-]. simpl. split; [lia|done].
Qed.

(** C6. When the scan of the log generations succeeds, the count of backups
    is the number of generations scanned (the current log and its numbered
    generations up to the first missing one), or 1 if there is none.  The
    per-file totals are exactly these: for every item line of a scanned log
    whose flag is one character long and whose delta from the previous
    timestamp of the same log is under 600 seconds (the first item of a log
    has delta 0), the delta is added, in binary64 and in the order of the
    logs, to the total of its path.  The per-prefix totals are the same with
    every such delta added to the total of every prefix of the component
    list of the path.  No other line and no delta of 600 seconds or more
    changes a total.  The two results are the totals sorted by descending
    total, which for a positive count is descending order of the average,
    total divided by count in binary64; and each line of the two reports
    carries that average, printed with two decimals. *)
Theorem analyzer_accumulates_and_averages (config : BackupConfiguration) (w w' : World)
    (sorted_files sorted_paths : list (string * Q)) (acc : Scan) (backup_count : Z) :
  analysis config w = (w', Ok (sorted_files, sorted_paths, acc, backup_count)) →
  let logs := scanned_logs config (files w) in
  let charges := flat_map spec_charges logs in
  backup_count = Z.max 1 (Z.of_nat (length logs))
  ∧ file_backup_times acc = spec_totals charges
  ∧ path_backup_times acc = spec_totals (spec_prefix_charges charges)
  ∧ sorted_files ≡ₚ file_backup_times acc
  ∧ sorted_paths ≡ₚ path_backup_times acc
  ∧ StronglySorted (descending_by_average backup_count) sorted_files
  ∧ StronglySorted (descending_by_average backup_count) sorted_paths
  ∧ ∀ (editor : string) (w'' : World),
      analyze_logs_body config editor w = (w'', Ok tt) →
      let line entry :=
        PyStr.format_2f (PyFloat.div entry.2 (inject_Z backup_count))
        +:+ "s: " +:+ entry.1 +:+ nl in
      (path_str (report_files config) ≠ path_str (report_paths config) →
       path_str (report_files config) ≠ path_str (report_excluded config) →
       path_str (report_files config) ≠ path_str (report_errors config) →
       files w'' !! path_str (report_files config)
       = Some ("Average backup times for " +:+ name config +:+ " files ("
               +:+ pretty backup_count +:+ " backups analyzed):" +:+ nl +:+ nl
               +:+ PyStr.join "" (map line sorted_files)))
      ∧ (path_str (report_paths config) ≠ path_str (report_excluded config) →
         path_str (report_paths config) ≠ path_str (report_errors config) →
         files w'' !! path_str (report_paths config)
         = Some ("Average backup times for " +:+ name config +:+ " paths ("
                 +:+ pretty backup_count +:+ " backups analyzed):" +:+ nl +:+ nl
                 +:+ PyStr.join "" (map line sorted_paths))).
Proof.
  intros Ha logs charges. pose proof Ha as Hanalysis. revert Ha.
  unfold analysis. unfold bind at 1.
  destruct (scan_generations config _ _ 0 w) as [w1 [[acc1 n]|e]] eqn:E; [|done].
  apply scan_generations_tables in E as (Hn & Hf & Hp).
  fold (scanned_logs config (files w)) in Hn, Hf, Hp. fold logs in Hn, Hf, Hp.
  fold charges in Hf, Hp. cbn [file_backup_times path_backup_times] in Hf, Hp.
  rewrite charge_all_totals in Hf, Hp.
  intros H. inversion H; subst; clear H.
  set (count := if _ =? 0 then 1 else _) in *.
  assert (count = Z.max 1 (Z.of_nat (length logs))) as Hcount.
  { subst count. destruct (Z.eqb_spec (0 + Z.of_nat (length logs)) 0); lia. }
  assert (0 < count) as Hpos by lia.
  split; [done|]. split; [done|]. split; [done|].
  split; [apply sorted_desc_perm|]. split; [apply sorted_desc_perm|].
  split; [by apply sorted_by_average, sorted_desc_sorted|].
  split; [by apply sorted_by_average, sorted_desc_sorted|].
  intros editor w''. unfold analyze_logs_body.
  rewrite (bind_ok _ _ _ _ _ Hanalysis). cbv beta iota.
  unfold bind at 1.
  destruct (write_report (report_files config) _ _ editor w') as [w2 [[]|e]] eqn:E1;
    [|done].
  unfold bind at 1.
  destruct (write_report (report_paths config) _ _ editor w2) as [w3 [[]|e]] eqn:E2;
    [|done].
  unfold bind at 1.
  destruct (write_report (report_excluded config) _ _ editor w3) as [w4 [[]|e]] eqn:E3;
    [|done].
  unfold bind at 1.
  destruct (write_report (report_errors config) _ _ editor w4) as [w5 [[]|e]] eqn:E4;
    [|done].
  apply write_report_effect in E1, E2, E3, E4.
  unfold bind, write_status, modify. rewrite output_effect.
  intros H. inversion H; subst; clear H. simpl.
  rewrite E4, E3, E2, E1. split.
  - intros H2 H3 H4. rewrite !lookup_insert_ne by done.
    rewrite lookup_insert_eq. by rewrite !append_assoc.
  - intros H3 H4. rewrite !lookup_insert_ne by done.
    rewrite lookup_insert_eq. by rewrite !append_assoc.
Qed.

(** *** Cancel requests *)

(** The common shape of [cancel_backup] and [cancel_post_backup]. *)
Lemma cancel_effect (title msg : string) (w : World) :
  (running <- task_is_running title ;;
   when running (write_status title CANCEL_REQUESTED ;; output msg)) w
  = if bool_decide (is_active (status_of title (task_status w)))
    then output msg (with_task_status (set_status title CANCEL_REQUESTED (task_status w)) w)
    else (with_task_status (touch title (task_status w)) w, Ok tt).
Proof.
  unfold bind at 1. rewrite task_is_running_effect.
  case_bool_decide as Ha; simpl; [|done].
  rewrite touch_active by done. by rewrite with_task_status_same.
Qed.

(** X1 (cancel_backup, cancel_post_backup).  A cancel request never raises.
    For an active task (RUNNING or CANCEL_REQUESTED) it sets the status of
    that task to CANCEL_REQUESTED and publishes the message; for a task that
    is not active it publishes and prints nothing and leaves the status as it
    was.  Either way the task is active afterwards exactly if it was before,
    the status of every other task is as before, and no process, file,
    thread, job or queued request is touched: cancelling is only a mark that
    the supervisor of the task reads. *)
Theorem cancel_marks_only_an_active_task (post : bool) (config : BackupConfiguration)
    (w : World) :
  let title := name config +:+ (if post then " post-backup" else " backup") in
  let message :=
    "Cancelled " +:+ name config +:+ (if post then " post-backup tasks" else " backup") in
  let cancel := if post then cancel_post_backup config else cancel_backup config in
  let w' := world_after cancel w in
  result_of cancel w = Ok tt
  ∧ (is_active (status_of title (task_status w)) →
       status_of title (task_status w') = CANCEL_REQUESTED
       ∧ ∃ icon, output_queue w' = output_queue w ++ [UpdateSystray (Some message) icon])
  ∧ (¬ is_active (status_of title (task_status w)) →
       status_of title (task_status w') = status_of title (task_status w)
       ∧ output_queue w' = output_queue w ∧ stdout w' = stdout w)
  ∧ (is_active (status_of title (task_status w')) ↔ is_active (status_of title (task_status w)))
  ∧ (∀ other, other ≠ title →
       status_of other (task_status w') = status_of other (task_status w))
  ∧ started w' = started w ∧ files w' = files w ∧ written w' = written w
  ∧ input_queue w' = input_queue w ∧ threads w' = threads w ∧ jobs w' = jobs w.
Proof.
  intros title message cancel w'.
  assert (cancel w
          = if bool_decide (is_active (status_of title (task_status w)))
            then output message
                   (with_task_status (set_status title CANCEL_REQUESTED (task_status w)) w)
            else (with_task_status (touch title (task_status w)) w, Ok tt)) as Hrun.
  { subst cancel title message. destruct post; apply cancel_effect. }
  unfold result_of. subst w'. unfold world_after. rewrite Hrun. clear Hrun.
  case_bool_decide as Ha.
  - rewrite output_effect. simpl. rewrite status_of_set_same.
    split_and!; try done.
    + intros _. split; [done|]. eauto.
    + split; [done|]. intros _. by right.
    + intros other Hne. by apply status_of_set_other.
  - simpl. rewrite status_of_touch.
    split_and!; try done.
    intros other _. apply status_of_touch.
Qed.

(** *** Exit *)

Lemma find_status_elem (task : string) (table : StatusTable) :
  is_Some (find_status task table) ↔ task ∈ table.*1.
Proof.
  induction table as [|[k v] table IH]; simpl.
  - split; [by intros [? ?]|by intros ?%elem_of_nil].
  - destruct (String.eqb k task) eqn:E.
    + apply String.eqb_eq in E. subst. split; [intros _; left|by eauto].
    + apply String.eqb_neq in E. rewrite IH, elem_of_cons. simpl.
      split; [by right|]. intros [?|?]; [congruence|done].
Qed.

Lemma find_status_all (s : TaskStatus) (task : string) (table : StatusTable) :
  find_status task (map (fun kv => (fst kv, s)) table)
  = (fun _ => s) <$> find_status task table.
Proof.
  induction table as [|[k v] table IH]; simpl; [done|].
  by destruct (String.eqb k task).
Qed.

Lemma in_values_all (s s' : TaskStatus) (table : StatusTable) :
  s ≠ s' → in_values s (map (fun kv => (fst kv, s')) table) = false.
Proof.
  intros Hne. unfold in_values. induction table as [|[k v] table IH]; simpl; [done|].
  rewrite IH. unfold status_eqb. by rewrite bool_decide_eq_false_2.
Qed.

(** X2 (queue_exit).  Handling Exit never raises.  It puts an Exit request
    at the end of both queues and sets every task the table knows to
    CANCEL_REQUESTED, keeping the keys and their order; a task the table has
    never seen still reads as NOT_STARTED.  Hence every known task is active
    afterwards, a start request for a known backup task is skipped without
    starting a process, and the icon chosen from the table is the idle icon
    even if a task had failed.  No process, file, thread or job is touched. *)
Theorem queue_exit_cancels_every_known_task (w : World) :
  let w' := world_after queue_exit w in
  result_of queue_exit w = Ok tt
  ∧ input_queue w' = input_queue w ++ [Exit]
  ∧ output_queue w' = output_queue w ++ [Exit]
  ∧ (task_status w').*1 = (task_status w).*1
  ∧ (∀ task, task ∈ (task_status w).*1 →
       status_of task (task_status w') = CANCEL_REQUESTED)
  ∧ (∀ task, task ∉ (task_status w).*1 →
       status_of task (task_status w') = NOT_STARTED)
  ∧ (∀ config, (name config +:+ " backup") ∈ (task_status w).*1 →
       started (world_after (run_backup config) w') = started w'
       ∧ task_status (world_after (run_backup config) w') = task_status w')
  ∧ select_icon (task_status w') = Some drive_ico
  ∧ started w' = started w ∧ files w' = files w ∧ written w' = written w
  ∧ threads w' = threads w ∧ jobs w' = jobs w.
Proof.
  intros w'. subst w'. unfold result_of, world_after.
  cbv [queue_exit put_input put_output modify bind]. simpl.
  set (table' := map _ (task_status w)).
  assert (∀ task, task ∈ (task_status w).*1 → status_of task table' = CANCEL_REQUESTED)
    as Hknown.
  { intros task [s Hs]%find_status_elem. unfold status_of. subst table'.
    by rewrite find_status_all, Hs. }
  split_and!; try done.
  - subst table'. rewrite <- list_fmap_compose. by apply list_fmap_ext.
  - intros task Hno. unfold status_of. subst table'. rewrite find_status_all.
    destruct (find_status task (task_status w)) eqn:E; [|done].
    destruct Hno. apply find_status_elem. by rewrite E.
  - intros config Hin. rewrite run_backup_skips by (simpl; rewrite Hknown by done; by right).
    rewrite output_effect. done.
  - unfold select_icon. subst table'. by rewrite !in_values_all.
Qed.

(** *** Scheduled backups *)

Lemma tagged_cleared (t t' : string) (js : list Job) :
  tagged t (List.filter (fun j => negb (String.eqb (tag j) t')) js)
  = if String.eqb t t' then [] else tagged t js.
Proof.
  unfold tagged. induction js as [|j js IH]; simpl.
  - by destruct (String.eqb t t').
  - destruct (String.eqb (tag j) t') eqn:E1; simpl.
    + rewrite IH. destruct (String.eqb t t') eqn:E2; [done|].
      apply String.eqb_eq in E1. subst t'.
      by rewrite String.eqb_sym, E2.
    + rewrite IH. destruct (String.eqb (tag j) t) eqn:E3; [|done].
      apply String.eqb_eq in E3. subst t. by rewrite E1.
Qed.

Lemma tagged_app (t : string) (a b : list Job) :
  tagged t (a ++ b) = tagged t a ++ tagged t b.
Proof. apply List.filter_app. Qed.

Lemma tagged_jobs_of (t : string) (config : BackupConfiguration) :
  tagged t (jobs_of config) = if String.eqb t (name config) then jobs_of config else [].
Proof.
  unfold tagged, jobs_of. simpl. rewrite (String.eqb_sym (name config) t).
  by destruct (String.eqb t (name config)).
Qed.

Lemma cleared_twice (t : string) (js : list Job) :
  List.filter (fun j => negb (String.eqb (tag j) t))
    (List.filter (fun j => negb (String.eqb (tag j) t)) js)
  = List.filter (fun j => negb (String.eqb (tag j) t)) js.
Proof.
  induction js as [|j js IH]; simpl; [done|].
  destruct (String.eqb (tag j) t) eqn:E; simpl; [done|]. by rewrite E, IH.
Qed.

Lemma enable_jobs (config : BackupConfiguration) (w : World) :
  jobs (world_after (enable_scheduled_backups config) w)
  = List.filter (fun j => negb (String.eqb (tag j) (name config))) (jobs w)
    ++ jobs_of config.
Proof.
  unfold world_after, enable_scheduled_backups.
  cbv [schedule_clear schedule_every modify bind]. rewrite output_effect. simpl.
  by rewrite <- app_assoc.
Qed.

Lemma disable_jobs (config : BackupConfiguration) (w : World) :
  jobs (world_after (disable_scheduled_backups config) w)
  = List.filter (fun j => negb (String.eqb (tag j) (name config))) (jobs w).
Proof.
  unfold world_after, disable_scheduled_backups.
  cbv [schedule_clear modify bind]. by rewrite output_effect.
Qed.

(** X3 (enable_scheduled_backups, disable_scheduled_backups).  Neither
    raises.  After enabling, the jobs tagged with the name of the
    configuration are exactly its two jobs, the backup at minute 0 and the
    post-backup tasks at minute 1, whatever was registered before; after
    disabling there is none.  Jobs of every other name are kept, in their
    order.  Enabling twice registers what enabling once does, disabling after
    enabling leaves what disabling alone leaves, and enabling another
    configuration of the same name replaces the two jobs by those of the
    other one.  The requests the two jobs put are scheduled start requests
    (the flag is set), the backup first. *)
Theorem scheduling_replaces_the_jobs_of_a_name (config : BackupConfiguration) (w : World) :
  let enabled := world_after (enable_scheduled_backups config) w in
  let disabled := world_after (disable_scheduled_backups config) w in
  result_of (enable_scheduled_backups config) w = Ok tt
  ∧ result_of (disable_scheduled_backups config) w = Ok tt
  ∧ tagged (name config) (jobs enabled) = jobs_of config
  ∧ tagged (name config) (jobs disabled) = []
  ∧ (∀ t, t ≠ name config →
       tagged t (jobs enabled) = tagged t (jobs w)
       ∧ tagged t (jobs disabled) = tagged t (jobs w))
  ∧ jobs (world_after (enable_scheduled_backups config) enabled) = jobs enabled
  ∧ jobs (world_after (disable_scheduled_backups config) enabled) = jobs disabled
  ∧ (∀ other, name other = name config →
       tagged (name config) (jobs (world_after (enable_scheduled_backups other) enabled))
       = jobs_of other)
  ∧ map job_item (jobs_of config) = [StartBackup config true; StartPostBackup config true].
Proof.
  intros enabled disabled. subst enabled disabled.
  split_and!.
  - unfold result_of, enable_scheduled_backups.
    cbv [schedule_clear schedule_every modify bind]. by rewrite output_effect.
  - unfold result_of, disable_scheduled_backups.
    cbv [schedule_clear modify bind]. by rewrite output_effect.
  - rewrite enable_jobs, tagged_app, tagged_cleared, tagged_jobs_of.
    by rewrite String.eqb_refl.
  - rewrite disable_jobs, tagged_cleared. by rewrite String.eqb_refl.
  - intros t Hne. apply String.eqb_neq in Hne.
    rewrite enable_jobs, disable_jobs, tagged_app, tagged_cleared, tagged_jobs_of, Hne.
    by rewrite app_nil_r.
  - rewrite !enable_jobs, List.filter_app, cleared_twice.
    replace (List.filter _ (jobs_of config)) with (@nil Job); [by rewrite app_nil_r|].
    unfold jobs_of. simpl. by rewrite String.eqb_refl.
  - rewrite disable_jobs, enable_jobs, disable_jobs, List.filter_app, cleared_twice.
    replace (List.filter _ (jobs_of config)) with (@nil Job); [by rewrite app_nil_r|].
    unfold jobs_of. simpl. by rewrite String.eqb_refl.
  - intros other Hname. rewrite enable_jobs, tagged_app, tagged_cleared, tagged_jobs_of.
    by rewrite Hname, String.eqb_refl.
  - done.
Qed.

(** *** The line count *)

Lemma load_line_count_effect (file : Path) (w : World) :
  load_line_count file w
  = (w, match files w !! path_str file with
        | None => Ok 0
        | Some text =>
            match parse_int text with
            | Some n => Ok n
            | None => Raise (ValueError "invalid literal for int() with base 10")
            end
        end).
Proof.
  unfold load_line_count, bind, exists_file, read_file.
  destruct (files w !! path_str file) as [text|] eqn:E.
  - rewrite bool_decide_eq_true_2 by done. simpl. rewrite E.
    by destruct (parse_int text).
  - rewrite bool_decide_eq_false_2 by (by intros [? ?]). done.
Qed.

(** X5 (run_backup, load_line_count).  A line-count file whose text [int]
    does not parse fails the backup before anything is started: for a task
    that is not active, [run_backup] returns without raising, the task is
    FAILED, an error message is published, no process is started and no file
    is opened for writing.  The logs have been rotated all the same (rotation
    comes first in the code), and the line-count file, when it is not one of
    the log files, still holds the unreadable text, so the next start request
    fails the same way. *)
Theorem unreadable_line_count_fails_the_backup (config : BackupConfiguration)
    (text : string) (w : World) :
  let title := name config +:+ " backup" in
  let lines := path_str (backup_line_count_file config) in
  ¬ is_active (status_of title (task_status w)) →
  lines ≠ path_str (log_file config) →
  (∀ i, 1 ≤ i ≤ 9 → lines ≠ generation_str (log_file config) i) →
  files w !! lines = Some text →
  parse_int text = None →
  let w' := world_after (run_backup config) w in
  result_of (run_backup config) w = Ok tt
  ∧ status_of title (task_status w') = FAILED
  ∧ (∃ message icon, output_queue w' = output_queue w ++ [UpdateSystray (Some message) icon])
  ∧ started w' = started w
  ∧ written w' = written w
  ∧ files w' = spec_rotate (path_str (log_file config)) (files w)
  ∧ files w' !! lines = Some text
  ∧ result_of (run_backup config) w' = Ok tt
  ∧ started (world_after (run_backup config) w') = started w.
Proof.
  intros title lines Hidle Hlog Hgen Hfile Hparse.
  assert (∀ v : World,
    ¬ is_active (status_of title (task_status v)) →
    files v !! lines = Some text →
    ∃ message icon,
      run_backup config v
      = (with_output_queue (output_queue v ++ [UpdateSystray (Some message) icon])
           (with_last_sent_icon
              (select_icon (set_status title FAILED (touch title (task_status v))))
              (with_stdout (stdout v ++ ["[" +:+ now_str (ticks v) +:+ "] " +:+ message])
                 (with_ticks (S (ticks v))
                    (with_task_status (set_status title FAILED (touch title (task_status v)))
                       (with_files (spec_rotate (path_str (log_file config)) (files v)) v))))),
         Ok tt)) as Hrun.
  { intros v Hv Hfv. eexists _, _.
    unfold run_backup, try_except, run_backup_body.
    erewrite bind_ok by apply task_is_running_effect.
    rewrite bool_decide_eq_false_2 by done. cbv beta iota.
    erewrite bind_ok by apply rotate_logs_spec.
    erewrite bind_raise.
    2:{ rewrite load_line_count_effect. simpl.
        destruct (spec_rotate_lookup (log_file config) (files v)) as (_ & _ & _ & Hother).
        rewrite Hother by done. fold lines. rewrite Hfv, Hparse. reflexivity. }
    cbv beta iota. simpl is_CalledProcessError. cbv beta iota.
    unfold bind at 1. unfold write_status at 1. unfold modify at 1. cbv beta iota.
    rewrite output_effect. reflexivity. }
  intros w'.
  destruct (Hrun w Hidle Hfile) as (message & icon & Hw).
  assert (files w' !! lines = Some text) as Hkept.
  { subst w'. unfold world_after. rewrite Hw. simpl.
    destruct (spec_rotate_lookup (log_file config) (files w)) as (_ & _ & _ & Hother).
    by rewrite Hother. }
  assert (status_of title (task_status w') = FAILED) as Hfailed.
  { subst w'. unfold world_after. rewrite Hw. simpl. apply status_of_set_same. }
  destruct (Hrun w') as (message' & icon' & Hw').
  { rewrite Hfailed. intros [?|?]; discriminate. }
  { done. }
  unfold result_of.
  split_and!; try done.
  - by rewrite Hw.
  - subst w'. unfold world_after. rewrite Hw. simpl. eauto.
  - subst w'. unfold world_after. by rewrite Hw.
  - subst w'. unfold world_after. by rewrite Hw.
  - subst w'. unfold world_after. by rewrite Hw.
  - by rewrite Hw'.
  - unfold world_after at 1. rewrite Hw'. simpl. subst w'. unfold world_after. by rewrite Hw.
Qed.

(** *** How the workers end *)

Lemma bind_ok_inv {A B} (m : M A) (k : A → M B) (w w' : World) (b : B) :
  bind m k w = (w', Ok b) → ∃ w1 a, m w = (w1, Ok a) ∧ k a w1 = (w', Ok b).
Proof. unfold bind. destruct (m w) as [w1 [a|e]]; [eauto|done]. Qed.

(** The handler of the two start workers: [CalledProcessError] is let go,
    anything else marks the task FAILED. *)
Lemma start_handler_outcome (title : string) (text : Exn → string) (body : M unit)
    (w : World) :
  match body w with
  | (w', Ok _) => settled (status_of title (task_status w'))
  | (w', Raise (CalledProcessError _ _)) => settled (status_of title (task_status w'))
  | (w', Raise _) => True
  end →
  let m := try_except body
             (fun ex =>
                if is_CalledProcessError ex then Some (ret tt)
                else Some (write_status title FAILED ;;
                           output (text ex))) in
  result_of m w = Ok tt ∧ settled (status_of title (task_status (world_after m w))).
Proof.
  intros H m. subst m. unfold result_of, world_after, try_except.
  destruct (body w) as [w1 [[]|e]]; [done|].
  destruct e; simpl; try done;
    unfold bind, write_status, modify; rewrite output_effect; simpl;
    (split; [done|]); right; apply status_of_set_same.
Qed.

Lemma run_backup_body_outcome (config : BackupConfiguration) (w : World) :
  let title := name config +:+ " backup" in
  ¬ is_active (status_of title (task_status w)) →
  match run_backup_body config w with
  | (w', Ok _) => status_of title (task_status w') = FINISHED
  | (w', Raise (CalledProcessError _ _)) => status_of title (task_status w') = FAILED
  | (w', Raise _) => True
  end.
Proof.
  intros title Hidle. unfold run_backup_body.
  erewrite bind_ok by apply task_is_running_effect.
  rewrite bool_decide_eq_false_2 by done. cbv beta iota.
  erewrite bind_ok by apply rotate_logs_spec.
  unfold bind at 1. rewrite load_line_count_effect.
  set (w1 := with_files _ _).
  assert (∀ n, match (backup_lines <- run_process_and_update_systray title
                                        (backup_command config) n ;;
                      save_line_count (backup_line_count_file config) backup_lines) w1 with
               | (w', Ok _) => status_of title (task_status w') = FINISHED
               | (w', Raise (CalledProcessError _ _)) =>
                   status_of title (task_status w') = FAILED
               | (w', Raise _) => True
               end) as Hrun.
  { intros n. unfold bind.
    pose proof (run_process_outcome title (backup_command config) n w1) as Ho.
    destruct (run_process_and_update_systray _ _ _ w1) as [w2 [lines|e]].
    - done.
    - destruct e; try done. by destruct Ho. }
  destruct (files w1 !! _) as [text|]; [destruct (parse_int text)|]; try apply Hrun.
  done.
Qed.

Lemma run_post_backup_body_outcome (config : BackupConfiguration) (is_scheduled : bool)
    (w : World) :
  let title := name config +:+ " post-backup" in
  ¬ is_active (status_of title (task_status w)) →
  ¬ is_active (status_of (name config +:+ " backup") (task_status w)) →
  match run_post_backup_body config is_scheduled w with
  | (w', Ok _) => status_of title (task_status w') = FINISHED
  | (w', Raise (CalledProcessError _ _)) => status_of title (task_status w') = FAILED
  | (w', Raise _) => True
  end.
Proof.
  intros title Hidle Hbackup. unfold run_post_backup_body.
  set (w0 := if is_scheduled then with_slept (slept w ++ [10]) w else w).
  assert (when is_scheduled (sleep 10) w = (w0, Ok tt)) as Hs
    by (subst w0; by destruct is_scheduled).
  assert (task_status w0 = task_status w) as Ht by (subst w0; by destruct is_scheduled).
  erewrite bind_ok by exact Hs.
  erewrite bind_ok by apply task_is_running_effect.
  rewrite Ht, bool_decide_eq_false_2 by done. cbv beta iota.
  erewrite bind_ok by apply task_is_running_effect.
  cbn [task_status with_task_status].
  rewrite status_of_touch, bool_decide_eq_false_2 by done.
  cbv beta iota. unfold bind.
  set (w1 := with_task_status _ (with_task_status _ w0)).
  pose proof (run_process_outcome title (post_backup_command config) 0 w1) as Ho.
  destruct (run_process_and_update_systray _ _ _ w1) as [w2 [lines|e]].
  - done.
  - destruct e; try done. by destruct Ho.
Qed.

(** X6 (run_backup, run_post_backup).  The two start workers never raise:
    every exception of their [try] block is caught.  A worker that gets past
    its guards (the task is not active, and for the post-backup tasks the
    backup is not active either) leaves its task FINISHED or FAILED, never
    RUNNING or CANCEL_REQUESTED, so the task can be started again. *)
Theorem start_workers_settle_their_task (config : BackupConfiguration)
    (is_scheduled : bool) (w : World) :
  let backup := name config +:+ " backup" in
  let post_backup := name config +:+ " post-backup" in
  (result_of (run_backup config) w = Ok tt
   ∧ (¬ is_active (status_of backup (task_status w)) →
        settled (status_of backup (task_status (world_after (run_backup config) w)))))
  ∧ (result_of (run_post_backup config is_scheduled) w = Ok tt
     ∧ (¬ is_active (status_of post_backup (task_status w)) →
        ¬ is_active (status_of backup (task_status w)) →
        settled (status_of post_backup
                   (task_status (world_after (run_post_backup config is_scheduled) w))))).
Proof.
  intros backup post_backup. split.
  - destruct (decide (is_active (status_of backup (task_status w)))) as [Ha|Hidle].
    + split; [|done]. unfold result_of. rewrite run_backup_skips by done.
      by rewrite output_effect.
    + pose proof (run_backup_body_outcome config w Hidle) as Hb.
      edestruct (start_handler_outcome backup
                   (fun ex => "Error running backup for " +:+ name config +:+ ": "
                              +:+ exn_str ex +:+ nl +:+ format_exc ex)
                   (run_backup_body config) w) as [Hr Hs].
      { destruct (run_backup_body config w) as [w1 [[]|e]]; [by left|].
        destruct e; try done. by right. }
      split; [|intros _]; [exact Hr|exact Hs].
  - destruct (decide (is_active (status_of post_backup (task_status w)))) as [Ha|Hidle].
    { split; [|done]. unfold result_of. rewrite run_post_backup_skips by done.
      by rewrite output_effect. }
    destruct (decide (is_active (status_of backup (task_status w)))) as [Hb|Hfree].
    { split; [|done]. unfold result_of, run_post_backup, try_except, run_post_backup_body.
      set (w0 := if is_scheduled then with_slept (slept w ++ [10]) w else w).
      assert (when is_scheduled (sleep 10) w = (w0, Ok tt)) as Hs
        by (subst w0; by destruct is_scheduled).
      assert (task_status w0 = task_status w) as Ht by (subst w0; by destruct is_scheduled).
      erewrite bind_ok by exact Hs.
      erewrite bind_ok by apply task_is_running_effect.
      rewrite Ht, bool_decide_eq_false_2 by done. cbv beta iota.
      erewrite bind_ok by apply task_is_running_effect.
      cbn [task_status with_task_status].
      rewrite status_of_touch, bool_decide_eq_true_2 by done.
      cbv beta iota. unfold bind at 1. rewrite output_effect. done. }
    pose proof (run_post_backup_body_outcome config is_scheduled w Hidle Hfree) as Hb.
    edestruct (start_handler_outcome post_backup
                 (fun ex => "Error running post-backup tasks for " +:+ name config +:+ ": "
                            +:+ exn_str ex +:+ nl +:+ format_exc ex)
                 (run_post_backup_body config is_scheduled) w) as [Hr Hs].
    { destruct (run_post_backup_body config is_scheduled w) as [w1 [[]|e]]; [by left|].
      destruct e; try done. by right. }
    split; [|intros _ _]; [exact Hr|exact Hs].
Qed.

(** *** The report workers *)

Section ReportFrames.
Context {X : Type} (f : World → X) (Hf : insensitive f).

Lemma frame_read_file (path : string) : preserves f (read_file path).
Proof. intros w. unfold read_file. by destruct (files w !! path). Qed.

Lemma frame_scan_generations (config : BackupConfiguration) (generations : list Z)
    (acc : Scan) (n : Z) :
  preserves f (scan_generations config generations acc n).
Proof.
  revert acc n. induction generations as [|i rest IH]; intros acc n; simpl.
  - apply preserves_ret.
  - frame Hf; [apply frame_read_file|by apply frame_output].
Qed.

Lemma frame_analysis (config : BackupConfiguration) : preserves f (analysis config).
Proof. unfold analysis. frame Hf. apply frame_scan_generations. Qed.

Lemma frame_communicate (process : Process) : preserves f (communicate process).
Proof.
  induction process as [meanwhile rc|meanwhile raw next IH]; simpl.
  - frame Hf. by apply frame_run_loop.
  - frame Hf. by apply frame_run_loop.
Qed.

End ReportFrames.

Lemma commands_insensitive : insensitive (fun w => (started w).*1).
Proof. by split. Qed.

Lemma write_report_ok (file : Path) (header : string) (lines : list string)
    (editor : string) (w w' : World) :
  write_report file header lines editor w = (w', Ok tt) →
  written w' = written w ++ [path_str file]
  ∧ (started w').*1 = (started w).*1 ++ [[editor; path_str file]].
Proof.
  unfold write_report, bind, write_file, modify, Popen. simpl.
  destruct (popen _ _); [|done]. intros H. inversion H. simpl.
  by rewrite fmap_app.
Qed.

Lemma subprocess_run_ok (command text : string) (w w' : World) :
  subprocess_run command w = (w', Ok text) →
  written w' = written w
  ∧ ∃ parts, shlex_split command = Some parts
             ∧ (started w').*1 = (started w).*1 ++ [parts].
Proof.
  unfold subprocess_run. destruct (shlex_split command) as [parts|]; [|done].
  unfold bind at 1, Popen. destruct (popen _ parts) as [p|]; [|done].
  set (w0 := with_started _ w).
  pose proof (frame_communicate written written_insensitive p w0) as Hw.
  pose proof (frame_communicate _ commands_insensitive p w0) as Hs.
  unfold bind. destruct (communicate p w0) as [w1 [r|e]]; [|done]. simpl in Hw, Hs.
  destruct (negb (snd r =? 0)); [done|].
  destruct (decode_utf8 (fst r)); [|done].
  intros H. inversion H. subst. split; [done|]. exists parts. split; [done|].
  rewrite Hs. by rewrite fmap_app.
Qed.

Lemma settle_finished (title line : string) (w w' : World) :
  (write_status title FINISHED ;; output line) w = (w', Ok tt) →
  status_of title (task_status w') = FINISHED
  ∧ written w' = written w ∧ (started w').*1 = (started w).*1.
Proof.
  unfold bind, write_status, modify. rewrite output_effect. intros H. inversion H.
  simpl. by rewrite status_of_set_same.
Qed.

(** A report worker: mark the task RUNNING, run the body, and mark the task
    FAILED on any exception. *)
Lemma report_worker_outcome (title : string) (text : Exn → string) (body : M unit)
    (w : World) :
  let m := write_status title RUNNING ;;
           try_except body
             (fun ex => Some (write_status title FAILED ;; output (text ex))) in
  let w0 := with_task_status (set_status title RUNNING (task_status w)) w in
  result_of m w = Ok tt
  ∧ match body w0 with
    | (w1, Ok _) => world_after m w = w1
    | (_, Raise _) => status_of title (task_status (world_after m w)) = FAILED
    end.
Proof.
  intros m w0.
  assert (m w = try_except body
                  (fun ex => Some (write_status title FAILED ;; output (text ex))) w0)
    as Hm by reflexivity.
  unfold result_of, world_after. rewrite Hm. clear Hm.
  unfold try_except. destruct (body w0) as [w1 [[]|e]]; [done|].
  unfold bind, write_status, modify. rewrite output_effect. simpl.
  by rewrite status_of_set_same.
Qed.

Lemma analyze_logs_outcome (config : BackupConfiguration) (editor : string) (w : World) :
  let title := name config +:+ " analysis" in
  let w0 := with_task_status (set_status title RUNNING (task_status w)) w in
  result_of (analyze_logs config editor) w = Ok tt
  ∧ match analyze_logs_body config editor w0 with
    | (w1, Ok _) => world_after (analyze_logs config editor) w = w1
    | (_, Raise _) =>
        status_of title (task_status (world_after (analyze_logs config editor) w)) = FAILED
    end.
Proof.
  exact (report_worker_outcome (name config +:+ " analysis")
           (fun ex => "Error analyzing logs for " +:+ name config +:+ ": "
                      +:+ exn_str ex +:+ nl +:+ format_exc ex)
           (analyze_logs_body config editor) w).
Qed.

Lemma diff_last_backups_outcome (config : BackupConfiguration) (editor : string)
    (w : World) :
  let title := name config +:+ " diff" in
  let w0 := with_task_status (set_status title RUNNING (task_status w)) w in
  result_of (diff_last_backups config editor) w = Ok tt
  ∧ match diff_last_backups_body config editor w0 with
    | (w1, Ok _) => world_after (diff_last_backups config editor) w = w1
    | (_, Raise _) =>
        status_of title (task_status (world_after (diff_last_backups config editor) w))
        = FAILED
    end.
Proof.
  exact (report_worker_outcome (name config +:+ " diff")
           (fun ex => "Error running diff for " +:+ name config +:+ ": "
                      +:+ exn_str ex +:+ nl +:+ format_exc ex)
           (diff_last_backups_body config editor) w).
Qed.

(** X7 (analyze_logs, diff_last_backups, write_report).  The two report
    workers never raise and, whatever the status of the task was when they
    were called (they have no guard), leave it FINISHED or FAILED.  A
    FINISHED analysis has opened the four report files for writing, in the
    order files, paths, excluded, errors, and nothing else, and has started
    the editor on each of them and no other process; a FINISHED diff has
    started two commands and then the editor on the diff file, the only file
    it has opened for writing. *)
Theorem report_workers_settle_their_task (config : BackupConfiguration) (editor : string)
    (w : World) :
  let analysis_title := name config +:+ " analysis" in
  let diff_title := name config +:+ " diff" in
  let a := world_after (analyze_logs config editor) w in
  let d := world_after (diff_last_backups config editor) w in
  let reports := [report_files config; report_paths config; report_excluded config;
                  report_errors config] in
  (result_of (analyze_logs config editor) w = Ok tt
   ∧ settled (status_of analysis_title (task_status a))
   ∧ (status_of analysis_title (task_status a) = FINISHED →
        written a = written w ++ map path_str reports
        ∧ (started a).*1
          = (started w).*1 ++ map (fun file => [editor; path_str file]) reports))
  ∧ (result_of (diff_last_backups config editor) w = Ok tt
     ∧ settled (status_of diff_title (task_status d))
     ∧ (status_of diff_title (task_status d) = FINISHED →
          written d = written w ++ [path_str (diff_file config)]
          ∧ ∃ list_command diff_command,
              (started d).*1
              = (started w).*1
                ++ [list_command; diff_command; [editor; path_str (diff_file config)]])).
Proof.
  intros analysis_title diff_title a d reports. split.
  - destruct (analyze_logs_outcome config editor w) as [Hr Hb].
    fold analysis_title a in Hb.
    split; [exact Hr|].
    set (w0 := with_task_status _ w) in Hb.
    destruct (analyze_logs_body config editor w0) as [w1 [[]|e]] eqn:Hbody.
    2: { rewrite Hb. split; [by right|done]. }
    subst w1.
    unfold analyze_logs_body in Hbody.
    apply bind_ok_inv in Hbody as (w1 & [[[sorted_files sorted_paths] acc] n] & Ha & Hbody).
    apply bind_ok_inv in Hbody as (w2 & [] & H1%write_report_ok & Hbody).
    apply bind_ok_inv in Hbody as (w3 & [] & H2%write_report_ok & Hbody).
    apply bind_ok_inv in Hbody as (w4 & [] & H3%write_report_ok & Hbody).
    apply bind_ok_inv in Hbody as (w5 & [] & H4%write_report_ok & Hbody).
    apply settle_finished in Hbody as (Hs & Hw & Hc).
    pose proof (frame_analysis written written_insensitive config w0) as Haw.
    pose proof (frame_analysis _ commands_insensitive config w0) as Hac.
    rewrite Ha in Haw, Hac. simpl in Haw, Hac.
    destruct H1 as [H1 H1'], H2 as [H2 H2'], H3 as [H3 H3'], H4 as [H4 H4'].
    split; [by left|]. intros _. split.
    + rewrite Hw, H4, H3, H2, H1, Haw. subst reports. simpl.
      by rewrite <- !app_assoc.
    + rewrite Hc, H4', H3', H2', H1', Hac. subst reports. simpl.
      by rewrite <- !app_assoc.
  - destruct (diff_last_backups_outcome config editor w) as [Hr Hb].
    fold diff_title d in Hb.
    split; [exact Hr|].
    set (w0 := with_task_status _ w) in Hb.
    destruct (diff_last_backups_body config editor w0) as [w1 [[]|e]] eqn:Hbody.
    2: { rewrite Hb. split; [by right|done]. }
    subst w1.
    unfold diff_last_backups_body in Hbody.
    apply bind_ok_inv in Hbody as (w1 & [] & Ho1 & Hbody).
    apply bind_ok_inv in Hbody as (w2 & listing & H1%subprocess_run_ok & Hbody).
    apply bind_ok_inv in Hbody as (w3 & [] & Ho2 & Hbody).
    apply bind_ok_inv in Hbody as (w4 & diff_output & H2%subprocess_run_ok & Hbody).
    apply bind_ok_inv in Hbody as (w5 & [] & H3%write_report_ok & Hbody).
    apply settle_finished in Hbody as (Hs & Hw & Hc).
    rewrite output_effect in Ho1, Ho2. inversion Ho1 as [Hw1]. inversion Ho2 as [Hw3].
    destruct H1 as (H1 & c1 & _ & H1'), H2 as (H2 & c2 & _ & H2'), H3 as [H3 H3'].
    split; [by left|]. intros _. split.
    + rewrite Hw, H3, H2. subst w3. simpl. rewrite H1. by subst w1.
    + exists c1, c2. rewrite Hc, H3', H2'. subst w3. simpl. rewrite H1'. subst w1. simpl.
      by rewrite <- !app_assoc.
Qed.

Lemma communicate_returns (process : Process) (w : World) :
  ∃ w' text, communicate process w = (w', Ok (text, exit_code process)).
Proof.
  revert w. induction process as [meanwhile rc|meanwhile raw next IH]; intros w; simpl;
    rewrite run_loop_then.
  - by eexists _, _.
  - destruct (IH false (world_after (run_loop meanwhile) w)) as (w' & text & H).
    unfold bind. rewrite H. by eexists _, _.
Qed.

(** X8 (diff_last_backups).  When the command that lists the archives exits
    with a non-zero code, the diff is given up at once: the task is FAILED,
    the error published names the command and the code, the listing is the
    only process started (no diff, no editor), and no file is written. *)
Theorem failed_listing_fails_the_diff (config : BackupConfiguration) (editor : string)
    (parts : list string) (process : Process) (w : World) :
  let title := name config +:+ " diff" in
  let list_command :=
    "wsl.exe -d " +:+ wsl_distro config +:+ " -- PATH=~/.local/bin:$PATH borgmatic "
    +:+ "--config " +:+ to_wsl_path (config_file config) +:+ " borg rlist" in
  shlex_split list_command = Some parts →
  popen (length (started w)) parts = Some process →
  exit_code process ≠ 0 →
  let w' := world_after (diff_last_backups config editor) w in
  let error := CalledProcessError (exit_code process) parts in
  result_of (diff_last_backups config editor) w = Ok tt
  ∧ status_of title (task_status w') = FAILED
  ∧ (started w').*1 = (started w).*1 ++ [parts]
  ∧ written w' = written w
  ∧ files w' = files w
  ∧ ∃ before icon,
      output_queue w'
      = before ++ [UpdateSystray
                     (Some ("Error running diff for " +:+ name config +:+ ": "
                            +:+ exn_str error +:+ nl +:+ format_exc error)) icon].
Proof.
  intros title list_command Hsplit Hpopen Hcode w' error.
  set (w0 := with_task_status (set_status title RUNNING (task_status w)) w).
  assert (∃ w3, diff_last_backups_body config editor w0 = (w3, Raise error)
                ∧ written w3 = written w ∧ files w3 = files w
                ∧ (started w3).*1 = (started w).*1 ++ [parts]) as (w3 & Hbody & Hw & Hf & Hs).
  { unfold diff_last_backups_body.
    erewrite bind_ok by apply output_effect.
    set (w1 := with_output_queue _ _).
    unfold bind at 1, subprocess_run. fold list_command. rewrite Hsplit.
    unfold bind at 1, Popen.
    change (length (started w1)) with (length (started w)). rewrite Hpopen.
    set (w2 := with_started _ w1).
    destruct (communicate_returns process w2) as (w3 & text & Hc).
    pose proof (frame_communicate written written_insensitive process w2) as Hw.
    pose proof (frame_communicate files files_insensitive process w2) as Hf.
    pose proof (frame_communicate _ commands_insensitive process w2) as Hs.
    unfold bind at 1. rewrite Hc in *. cbv beta iota. cbn [fst snd].
    apply Z.eqb_neq in Hcode. rewrite Hcode. simpl in *.
    exists w3. split; [done|]. split; [done|]. split; [done|].
    rewrite Hs. by rewrite fmap_app. }
  assert (diff_last_backups config editor w
          = (write_status title FAILED ;;
             output ("Error running diff for " +:+ name config +:+ ": "
                     +:+ exn_str error +:+ nl +:+ format_exc error)) w3) as Hrun.
  { unfold diff_last_backups. unfold bind at 1, write_status at 1, modify at 1.
    cbv beta iota. fold title w0. unfold try_except. by rewrite Hbody. }
  subst w'. unfold result_of, world_after. rewrite Hrun.
  unfold bind, write_status, modify. rewrite output_effect. simpl.
  rewrite status_of_set_same. split_and!; try done. eauto.
Qed.

(** *** The analysis: malformed lines, excluded files *)

Lemma scan_generations_cons (config : BackupConfiguration) (i : Z) (rest : list Z)
    (acc : Scan) (n : Z) :
  scan_generations config (i :: rest) acc n
  = (e <- exists_file (log_file_path config i) ;;
     if negb e then ret (acc, n)
     else
       content <- read_file (log_file_path config i) ;;
       output ("Analyzing " +:+ log_file_path config i +:+ "...") ;;
       match scan_lines i (PyStr.lines content)
               (acc, {| previous_timestamp := None; previous_line := "" |}) with
       | Raise e => raise e
       | Ok (acc', _) => scan_generations config rest acc' (n + 1)
       end).
Proof. done. Qed.

Lemma scan_lines_raise (i : Z) (lines : list string) (line : string) (state : Scan * Cursor) :
  line ∈ lines →
  (5 ≤ length (PyStr.split_ws line))%nat →
  strptime (timestamp_text line) = None →
  ∃ e, scan_lines i lines state = Raise e.
Proof.
  intros Hin Hlen Htime. revert state.
  induction lines as [|l lines IH]; intros state; [by apply elem_of_nil in Hin|].
  simpl. destruct (scan_line i l state) as [state'|e] eqn:E; [|by eexists].
  apply elem_of_cons in Hin as [->|Hin]; [|by apply IH].
  exfalso. unfold scan_line in E. destruct state as [acc cur].
  apply Nat.ltb_ge in Hlen. rewrite Hlen in E.
  unfold timestamp_text in Htime. by rewrite Htime in E.
Qed.

(** X9 (analyze_logs).  One line of the current log that has five fields or
    more and whose first two fields are not a timestamp [strptime] accepts
    makes the whole analysis fail: the task is FAILED, no report is written
    and no editor is started, wherever the line stands in the log and
    whatever the other lines and the older logs hold. *)
Theorem malformed_log_line_fails_the_analysis (config : BackupConfiguration)
    (editor content line : string) (w : World) :
  let title := name config +:+ " analysis" in
  files w !! path_str (log_file config) = Some content →
  line ∈ PyStr.lines content →
  (5 ≤ length (PyStr.split_ws line))%nat →
  strptime (timestamp_text line) = None →
  let w' := world_after (analyze_logs config editor) w in
  result_of (analyze_logs config editor) w = Ok tt
  ∧ status_of title (task_status w') = FAILED
  ∧ written w' = written w
  ∧ started w' = started w
  ∧ files w' = files w.
Proof.
  intros title Hfile Hin Hlen Htime w'.
  set (w0 := with_task_status (set_status title RUNNING (task_status w)) w).
  assert (∃ w1 e, analyze_logs_body config editor w0 = (w1, Raise e)
                  ∧ written w1 = written w ∧ started w1 = started w
                  ∧ files w1 = files w) as (w1 & e & Hbody & Hw & Hs & Hf).
  { destruct (scan_lines_raise 0 (PyStr.lines content) line
                ({| file_backup_times := []; path_backup_times := [];
                    error_lines := []; excluded_files := [] |},
                 {| previous_timestamp := None; previous_line := "" |}) Hin Hlen Htime)
      as [e He].
    assert (∃ w1, analysis config w0 = (w1, Raise e)) as [w1 Ha].
    { unfold analysis. rewrite scan_generations_cons.
      change (log_file_path config 0) with (path_str (log_file config)).
      unfold bind at 1 2, exists_file.
      change (files w0) with (files w). rewrite Hfile.
      rewrite bool_decide_eq_true_2 by eauto. cbn [negb]. cbv beta iota.
      unfold bind at 1, read_file. change (files w0) with (files w). rewrite Hfile.
      cbv beta iota. unfold bind at 1. rewrite output_effect. cbv beta iota.
      rewrite He. by eexists. }
    exists w1, e. split; [unfold analyze_logs_body; by rewrite (bind_raise _ _ _ _ _ Ha)|].
    pose proof (frame_analysis written written_insensitive config w0) as H1.
    pose proof (frame_analysis started started_insensitive config w0) as H2.
    pose proof (frame_analysis files files_insensitive config w0) as H3.
    rewrite Ha in H1, H2, H3. done. }
  assert (analyze_logs config editor w
          = (write_status title FAILED ;;
             output ("Error analyzing logs for " +:+ name config +:+ ": " +:+ exn_str e
                     +:+ nl +:+ format_exc e)) w1) as Hrun.
  { unfold analyze_logs. unfold bind at 1, write_status at 1, modify at 1.
    cbv beta iota. fold title w0. unfold try_except. by rewrite Hbody. }
  subst w'. unfold result_of, world_after. rewrite Hrun.
  unfold bind, write_status, modify. rewrite output_effect. simpl.
  by rewrite status_of_set_same.
Qed.

Lemma accumulate_lists (file_flag log_file : string) (backup_time : Q) (acc : Scan) :
  error_lines (accumulate file_flag log_file backup_time acc) = error_lines acc
  ∧ excluded_files (accumulate file_flag log_file backup_time acc) = excluded_files acc.
Proof. unfold accumulate. by destruct (_ && _). Qed.

Lemma scan_line_lists (i : Z) (line : string) (acc acc' : Scan) (cur cur' : Cursor) :
  scan_line i line (acc, cur) = Ok (acc', cur') →
  excluded_files acc'
  = excluded_files acc ++ (if (i =? 0) && is_excluded_line line then [line] else [])
  ∧ (i ≠ 0 → error_lines acc' = error_lines acc).
Proof.
  unfold scan_line, is_excluded_line.
  destruct (length (PyStr.split_ws line) <? 5)%nat eqn:El.
  - intros H. inversion H. subst.
    apply Nat.ltb_lt in El.
    replace (5 <=? length (PyStr.split_ws line))%nat with false
      by (symmetry; apply Nat.leb_gt; lia).
    rewrite andb_false_r, app_nil_r. done.
  - apply Nat.ltb_ge in El.
    replace (5 <=? length (PyStr.split_ws line))%nat with true
      by (symmetry; by apply Nat.leb_le).
    destruct (strptime _) as [timestamp|]; [|done].
    intros H. inversion H. subst. clear H.
    set (a := accumulate _ _ _ acc).
    destruct (accumulate_lists (nth 3 (PyStr.split_ws line) "")
                (PyStr.join " " (drop 4 (PyStr.split_ws line)))
                (total_seconds (timestamp - default timestamp (previous_timestamp cur)))
                acc) as [He Hx].
    fold a in He, Hx. unfold collect.
    destruct (i =? 0) eqn:Ei; simpl.
    + rewrite Hx. split; [destruct (String.eqb _ "-"); by rewrite ?app_nil_r|].
      apply Z.eqb_eq in Ei. by intros ?.
    + rewrite Hx, He, app_nil_r. done.
Qed.

Lemma scan_lines_lists (i : Z) (lines : list string) (acc acc' : Scan) (cur cur' : Cursor) :
  scan_lines i lines (acc, cur) = Ok (acc', cur') →
  excluded_files acc'
  = excluded_files acc
    ++ (if i =? 0 then List.filter is_excluded_line lines else [])
  ∧ (i ≠ 0 → error_lines acc' = error_lines acc).
Proof.
  revert acc cur. induction lines as [|l lines IH]; intros acc cur; cbn [scan_lines].
  - intros H. inversion H. subst.
    split; [destruct (i =? 0); simpl; by rewrite app_nil_r|done].
  - destruct (scan_line i l (acc, cur)) as [[acc1 cur1]|e] eqn:E; [|done].
    intros H. apply IH in H as [Hx He].
    apply scan_line_lists in E as [Hx1 He1].
    split.
    + rewrite Hx, Hx1, <- app_assoc. f_equal.
      destruct (i =? 0); simpl; [|done]. by destruct (is_excluded_line l).
    + intros Hi. by rewrite He, He1.
Qed.

Lemma scan_generations_lists (config : BackupConfiguration) (generations : list Z)
    (acc acc' : Scan) (n n' : Z) (w w' : World) :
  (∀ i, i ∈ generations → i ≠ 0) →
  scan_generations config generations acc n w = (w', Ok (acc', n')) →
  excluded_files acc' = excluded_files acc ∧ error_lines acc' = error_lines acc.
Proof.
  revert acc n w. induction generations as [|i rest IH]; intros acc n w Hgen; simpl.
  - intros H. by inversion H.
  - unfold bind at 1, exists_file.
    destruct (files w !! log_file_path config i) as [content|] eqn:E.
    + rewrite bool_decide_eq_true_2 by eauto. simpl.
      unfold bind at 1, read_file. rewrite E.
      unfold bind at 1. rewrite output_effect.
      destruct (scan_lines _ _ _) as [[acc1 cur]|e] eqn:Es; [|done].
      intros H. apply IH in H as [Hx He]; [|intros j Hj; apply Hgen; by right].
      apply scan_lines_lists in Es as [Hx1 He1].
      assert (i ≠ 0) as Hi by (apply Hgen; left).
      apply Z.eqb_neq in Hi as Hi'. rewrite Hi', app_nil_r in Hx1.
      by rewrite Hx, He, Hx1, He1.
    + rewrite bool_decide_eq_false_2 by (intros [? ?]; congruence). simpl.
      intros H. by inversion H.
Qed.

(** X10 (analyze_logs).  When the analysis goes through, the report of
    excluded files holds its header and, in the order of the log, the lines
    of the current log that have five fields or more and a minus sign as
    flag, each as it stands in the log; without a current log it holds the
    header only.  The older logs add nothing to it, nor to the list of
    errors: scanning a log of a generation other than 0 leaves both lists as
    they were. *)
Theorem excluded_report_lists_the_current_log (config : BackupConfiguration)
    (editor : string) (w w' : World) :
  analyze_logs_body config editor w = (w', Ok tt) →
  path_str (report_excluded config) ≠ path_str (report_errors config) →
  let current :=
    match files w !! path_str (log_file config) with
    | Some content => PyStr.lines content
    | None => []
    end in
  let header := "Excluded files for " +:+ name config +:+ " (latest backup):" in
  files w' !! path_str (report_excluded config)
  = Some (header +:+ nl +:+ nl +:+ PyStr.join "" (List.filter is_excluded_line current))
  ∧ ∀ (i : Z) (lines : list string) (acc acc' : Scan) (cur cur' : Cursor),
      i ≠ 0 → scan_lines i lines (acc, cur) = Ok (acc', cur') →
      excluded_files acc' = excluded_files acc ∧ error_lines acc' = error_lines acc.
Proof.
  intros Hbody Hne current header. split.
  2: { intros i lines acc acc' cur cur' Hi Hs.
       apply scan_lines_lists in Hs as [Hx He].
       apply Z.eqb_neq in Hi as Hi'. rewrite Hi', app_nil_r in Hx. split; [done|by apply He]. }
  unfold analyze_logs_body in Hbody.
  apply bind_ok_inv in Hbody as (w1 & [[[sorted_files sorted_paths] acc] n] & Ha & Hbody).
  assert (excluded_files acc = List.filter is_excluded_line current) as Hexcluded.
  { clear Hbody. unfold analysis in Ha.
    apply bind_ok_inv in Ha as (w0 & [acc0 n0] & Hscan & Hret).
    inversion Hret. subst. clear Hret.
    rewrite scan_generations_cons in Hscan.
    change (log_file_path config 0) with (path_str (log_file config)) in Hscan.
    unfold bind at 1, exists_file in Hscan. subst current.
    destruct (files w !! path_str (log_file config)) as [content|] eqn:E.
    - rewrite bool_decide_eq_true_2 in Hscan by eauto.
      cbn [negb] in Hscan. cbv beta iota in Hscan.
      unfold bind at 1, read_file in Hscan. rewrite E in Hscan.
      unfold bind at 1 in Hscan. rewrite output_effect in Hscan.
      cbv beta iota in Hscan.
      destruct (scan_lines 0 _ _) as [[acc1 cur]|e] eqn:Es; [|done].
      apply scan_generations_lists in Hscan as [Hx _].
      + apply scan_lines_lists in Es as [Hx1 _]. by rewrite Hx, Hx1.
      + intros i Hi ->.
        repeat (apply elem_of_cons in Hi as [Hi|Hi]; [discriminate|]).
        by apply elem_of_nil in Hi.
    - rewrite bool_decide_eq_false_2 in Hscan by (intros [? ?]; congruence).
      simpl in Hscan. by inversion Hscan. }
  apply bind_ok_inv in Hbody as (w2 & [] & H1 & Hbody).
  apply bind_ok_inv in Hbody as (w3 & [] & H2 & Hbody).
  apply bind_ok_inv in Hbody as (w4 & [] & H3%write_report_effect & Hbody).
  apply bind_ok_inv in Hbody as (w5 & [] & H4%write_report_effect & Hbody).
  unfold bind, write_status, modify in Hbody. rewrite output_effect in Hbody.
  inversion Hbody as [Hw']. simpl. rewrite H4, lookup_insert_ne by done.
  by rewrite H3, lookup_insert_eq, Hexcluded.
Qed.

(** *** Rotating more than once *)

Lemma rotation_step (log_file : Path) (fs : gmap string string) :
  let fs' := spec_rotate (path_str log_file) fs in
  fs' !! generation_file log_file 0 = None
  ∧ (∀ i, 0 ≤ i ≤ 8 →
       fs' !! generation_file log_file (i + 1) = fs !! generation_file log_file i)
  ∧ (∀ p, (∀ i, 0 ≤ i ≤ 9 → p ≠ generation_file log_file i) → fs' !! p = fs !! p).
Proof.
  intros fs'. destruct (spec_rotate_lookup log_file fs) as (H0 & H1 & Hs & Ho).
  split; [done|]. split.
  - intros i Hi. unfold generation_file.
    destruct (i =? 0) eqn:E.
    + apply Z.eqb_eq in E. subst i. done.
    + apply Z.eqb_neq in E. replace (i + 1 =? 0) with false by (symmetry; lia).
      apply Hs. lia.
  - intros p Hp. apply Ho.
    + apply (Hp 0). lia.
    + intros i Hi. specialize (Hp i). unfold generation_file in Hp.
      replace (i =? 0) with false in Hp by (symmetry; lia). apply Hp. lia.
Qed.

(** X11 (rotate_logs).  Rotation composes: after [k] rotations in a row,
    which never raise, generation [i + k] holds what generation [i] held
    (the un-suffixed log counting as generation 0) as long as [i + k] is at
    most 9, the generations below [k] do not exist, and no other file has
    changed.  So what a backup logged is generation [k] after [k] further
    backups, and is gone after ten. *)
Theorem repeated_rotation_ages_the_logs (k : nat) (log_file : Path) (w : World) :
  let w' := world_after (rotations k log_file) w in
  result_of (rotations k log_file) w = Ok tt
  ∧ (∀ i, 0 ≤ i → i + Z.of_nat k ≤ 9 →
       files w' !! generation_file log_file (i + Z.of_nat k)
       = files w !! generation_file log_file i)
  ∧ (∀ j, 0 ≤ j < Z.of_nat k → j ≤ 9 → files w' !! generation_file log_file j = None)
  ∧ (∀ p, (∀ i, 0 ≤ i ≤ 9 → p ≠ generation_file log_file i) →
       files w' !! p = files w !! p).
Proof.
  revert w. induction k as [|k IH]; intros w w'; subst w'.
  - unfold world_after, result_of. simpl. split; [done|]. split.
    + intros i _ _. by rewrite Z.add_0_r.
    + split; [intros; lia|done].
  - unfold world_after, result_of. cbn [rotations].
    rewrite (bind_ok _ _ _ _ _ (rotate_logs_spec log_file w)).
    set (w1 := with_files _ w).
    destruct (IH w1) as (Hr & Hshift & Hnone & Hother).
    destruct (rotation_step log_file (files w)) as (H0 & H1 & Ho).
    unfold world_after, result_of in *. split; [done|]. split; [|split].
    + intros i Hi Hk.
      replace (i + Z.of_nat (S k)) with ((i + 1) + Z.of_nat k) by lia.
      rewrite Hshift by lia. apply H1. lia.
    + intros j Hj H9. destruct (decide (j = Z.of_nat k)) as [->|Hne].
      * replace (Z.of_nat k) with (0 + Z.of_nat k) by lia.
        rewrite Hshift by lia. exact H0.
      * apply Hnone; lia.
    + intros p Hp. rewrite Hother by done. by apply Ho.
Qed.

(** *** What the dispatch loop does itself *)

Lemma threads_output (line : string) : preserves threads (output line).
Proof. apply preserves_output; by intros. Qed.

Lemma threads_task_is_running (task : string) : preserves threads (task_is_running task).
Proof. intros w. by rewrite task_is_running_effect. Qed.

Lemma dispatch_threads (queue_item : QueueItem) (w : World) :
  threads (world_after (dispatch queue_item) w) = threads w ++ threads_for queue_item.
Proof.
  assert (∀ m : M LoopCtl, preserves threads m →
            threads (world_after m w) = threads w ++ []) as Hkeep.
  { intros m Hm. rewrite app_nil_r. apply Hm. }
  unfold dispatch, cancel_backup, cancel_post_backup, enable_scheduled_backups,
    disable_scheduled_backups, queue_exit.
  destruct queue_item; try done; apply Hkeep; frame_field;
    try apply threads_output; try apply threads_task_is_running.
Qed.

Lemma slept_output (line : string) : preserves slept (output line).
Proof. apply preserves_output; by intros. Qed.

Lemma slept_task_is_running (task : string) : preserves slept (task_is_running task).
Proof. intros w. by rewrite task_is_running_effect. Qed.

Lemma slept_dispatch (queue_item : QueueItem) : preserves slept (dispatch queue_item).
Proof.
  unfold dispatch, cancel_backup, cancel_post_backup, enable_scheduled_backups,
    disable_scheduled_backups, queue_exit.
  destruct queue_item; frame_field;
    try apply slept_output; try apply slept_task_is_running.
Qed.

Lemma iteration_threads (arrivals : list QueueItem) (w : World) :
  let w' := world_after (iteration arrivals) w in
  slept w' = slept w
  ∧ ∃ new, threads w' = threads w ++ new ∧ Forall fits new.
Proof.
  intros w'. subst w'. unfold world_after, iteration, try_except.
  rewrite iteration_body_cases.
  destruct ((_ ++ _) ++ arrivals) as [|queue_item rest].
  { simpl. split; [done|]. exists []. split; [by rewrite app_nil_r|constructor]. }
  set (w1 := with_input_queue rest _).
  pose proof (dispatch_threads queue_item w1) as Ht.
  pose proof (slept_dispatch queue_item w1) as Hs.
  assert (Forall fits (threads_for queue_item)) as Hfits
    by (destruct queue_item; repeat constructor).
  unfold world_after in Ht.
  destruct (dispatch queue_item w1) as [w2 [ctl|e]]; simpl in Ht, Hs.
  - simpl. split; [done|]. by exists (threads_for queue_item).
  - unfold bind. rewrite output_effect. cbv beta iota.
    rewrite update_systray_effect. simpl.
    split; [done|]. by exists (threads_for queue_item).
Qed.

Lemma run_loop_cons (arrivals : list QueueItem) (rest : list (list QueueItem))
    (w : World) :
  run_loop (arrivals :: rest) w
  = if loop_exited w then (w, Ok tt)
    else (ctl <- iteration arrivals ;;
          match ctl with
          | Break => modify (with_loop_exited true) ;;
                     output "Exiting background backup thread"
          | Next => run_loop rest
          end) w.
Proof. simpl. unfold bind at 1, get_world. by destruct (loop_exited w). Qed.

Lemma run_loop_threads (feed : list (list QueueItem)) (w : World) :
  let w' := world_after (run_loop feed) w in
  slept w' = slept w
  ∧ ∃ new, threads w' = threads w ++ new ∧ Forall fits new.
Proof.
  revert w. induction feed as [|arrivals rest IH]; intros w; unfold world_after.
  - simpl. split; [done|]. exists []. split; [by rewrite app_nil_r|constructor].
  - rewrite run_loop_cons. destruct (loop_exited w).
    { simpl. split; [done|]. exists []. split; [by rewrite app_nil_r|constructor]. }
    destruct (iteration_outcome arrivals w) as (w1 & ctl & Hi & _).
    destruct (iteration_threads arrivals w) as (Hs & new & Ht & Hfits).
    unfold world_after in Hs, Ht. rewrite Hi in Hs, Ht. simpl in Hs, Ht.
    rewrite (bind_ok _ _ _ _ _ Hi). destruct ctl.
    + destruct (IH w1) as (Hs' & new' & Ht' & Hfits'). unfold world_after in Hs', Ht'.
      split; [congruence|]. exists (new ++ new').
      rewrite Ht', Ht, <- app_assoc. split; [done|]. by apply Forall_app.
    + unfold bind, modify. rewrite output_effect. simpl.
      split; [done|]. by exists new.
Qed.

(** X12 (run).  The dispatch loop does no work itself.  However long it
    runs and whatever arrives, [run] returns without raising, starts no
    process, opens no file for writing, leaves every file as it is and never
    sleeps; all it does for a start, analysis or diff request is to start a
    thread.  Every thread it starts has the target that fits its request: the
    backup worker for StartBackup, the post-backup worker for
    StartPostBackup, the analyzer for AnalyzeLogs, the diff worker for
    DiffLastBackups. *)
Theorem dispatch_loop_only_starts_threads (feed : list (list QueueItem)) (w : World) :
  let w' := world_after (run feed) w in
  result_of (run feed) w = Ok tt
  ∧ started w' = started w
  ∧ written w' = written w
  ∧ files w' = files w
  ∧ slept w' = slept w
  ∧ (∃ new, threads w' = threads w ++ new ∧ Forall fits new)
  ∧ (∀ item v, threads (world_after (dispatch item) v) = threads v ++ threads_for item).
Proof.
  intros w'. subst w'. unfold result_of, world_after, run.
  rewrite (bind_ok _ _ _ _ _ (output_effect _ w)).
  set (w0 := with_output_queue _ _).
  pose proof (run_loop_returns feed w0) as Hr.
  pose proof (frame_run_loop started started_insensitive feed w0) as H1.
  pose proof (frame_run_loop written written_insensitive feed w0) as H2.
  pose proof (frame_run_loop files files_insensitive feed w0) as H3.
  destruct (run_loop_threads feed w0) as (H4 & H5).
  unfold result_of, world_after in *.
  split_and!; try done. apply dispatch_threads.
Qed.

(** *** Cancelling is cooperative *)

Lemma task_status_output (line : string) : preserves task_status (output line).
Proof. apply preserves_output; by intros. Qed.

Lemma status_of_known (task : string) (table : StatusTable) :
  status_of task table ≠ NOT_STARTED → task ∈ table.*1.
Proof.
  unfold status_of. intros H. apply find_status_elem.
  by destruct (find_status task table).
Qed.

(** The dispatch loop writes no status but CANCEL_REQUESTED. *)
Lemma dispatch_status (queue_item : QueueItem) (task : string) (w : World) :
  let w' := world_after (dispatch queue_item) w in
  status_of task (task_status w') = status_of task (task_status w)
  ∨ status_of task (task_status w') = CANCEL_REQUESTED.
Proof.
  intros w'. subst w'. unfold world_after.
  assert (∀ title msg,
            let cancel := (running <- task_is_running title ;;
                           when running (write_status title CANCEL_REQUESTED ;; output msg)) in
            status_of task (task_status ((cancel ;; ret Next) w).1)
            = status_of task (task_status w)
            ∨ status_of task (task_status ((cancel ;; ret Next) w).1) = CANCEL_REQUESTED)
    as Hcancel.
  { intros title msg cancel.
    assert ((cancel ;; ret Next) w
            = if bool_decide (is_active (status_of title (task_status w)))
              then ((output msg
                       (with_task_status
                          (set_status title CANCEL_REQUESTED (task_status w)) w)).1, Ok Next)
              else (with_task_status (touch title (task_status w)) w, Ok Next)) as ->.
    { unfold bind at 1. subst cancel. rewrite cancel_effect.
      case_bool_decide; [|done]. by rewrite output_effect. }
    case_bool_decide.
    - rewrite output_effect. simpl.
      destruct (decide (title = task)) as [->|Hne].
      + right. apply status_of_set_same.
      + left. by apply status_of_set_other.
    - simpl. left. apply status_of_touch. }
  assert (∀ m : M unit, preserves task_status m →
            status_of task (task_status ((m ;; ret Next) w).1)
            = status_of task (task_status w)
            ∨ status_of task (task_status ((m ;; ret Next) w).1) = CANCEL_REQUESTED)
    as Hkeep.
  { intros m Hm. left. specialize (Hm w). unfold bind.
    destruct (m w) as [w1 [[]|e]]; simpl in *; by rewrite Hm. }
  destruct queue_item; simpl dispatch.
  - apply Hkeep. frame_field.
  - apply Hkeep. frame_field.
  - apply Hcancel.
  - apply Hcancel.
  - apply Hkeep. unfold enable_scheduled_backups. frame_field. apply task_status_output.
  - apply Hkeep. unfold disable_scheduled_backups. frame_field. apply task_status_output.
  - apply Hkeep. frame_field.
  - apply Hkeep. frame_field.
  - by left.
  - unfold bind, queue_exit, bind, put_input, put_output, modify. simpl.
    unfold status_of. rewrite find_status_all.
    destruct (find_status task (task_status w)); simpl; [by right|by left].
  - by left.
Qed.

Lemma iteration_status (arrivals : list QueueItem) (task : string) (w : World) :
  let w' := world_after (iteration arrivals) w in
  status_of task (task_status w') = status_of task (task_status w)
  ∨ status_of task (task_status w') = CANCEL_REQUESTED.
Proof.
  intros w'. subst w'. unfold world_after, iteration, try_except.
  rewrite iteration_body_cases.
  destruct ((_ ++ _) ++ arrivals) as [|queue_item rest]; [by left|].
  set (w1 := with_input_queue rest _).
  pose proof (dispatch_status queue_item task w1) as Hd. unfold world_after in Hd.
  destruct (dispatch queue_item w1) as [w2 [ctl|e]]; [exact Hd|].
  unfold bind. rewrite output_effect. cbv beta iota.
  rewrite update_systray_effect. exact Hd.
Qed.

Lemma run_loop_status (feed : list (list QueueItem)) (task : string) (w : World) :
  let w' := world_after (run_loop feed) w in
  status_of task (task_status w') = status_of task (task_status w)
  ∨ status_of task (task_status w') = CANCEL_REQUESTED.
Proof.
  revert w. induction feed as [|arrivals rest IH]; intros w; unfold world_after.
  - by left.
  - rewrite run_loop_cons. destruct (loop_exited w); [by left|].
    destruct (iteration_outcome arrivals w) as (w1 & ctl & Hi & _).
    pose proof (iteration_status arrivals task w) as Hs.
    unfold world_after in Hs. rewrite Hi in Hs. simpl in Hs.
    rewrite (bind_ok _ _ _ _ _ Hi). destruct ctl.
    + destruct (IH w1) as [H|H]; unfold world_after in H; [|by right].
      rewrite H. exact Hs.
    + unfold bind, modify. rewrite output_effect. exact Hs.
Qed.

Lemma handle_line_status (title : string) (target : Z) (start : Q) (count : Z)
    (text : string) (st : Progress) :
  preserves task_status (handle_line title target start count text st).
Proof.
  intros w. unfold handle_line, bind, time, tick, ret. simpl.
  destruct (Qltb _ _); [|done]. by rewrite update_systray_effect.
Qed.

(** X13 (run_process_and_update_systray, run).  Cancelling is a mark that
    only the supervisor acts on.  Whatever the dispatch loop handles, the
    status of a task afterwards is what it was or CANCEL_REQUESTED: the loop
    never takes a cancel request back.  So from a line at which the task is
    CANCEL_REQUESTED on, the supervisor asks the process to terminate at
    every line it reads, whatever arrives meanwhile, and the exit code it
    gets is that of the process so treated.  And when the task is not
    CANCEL_REQUESTED and nothing arrives at the dispatch loop while the
    process runs, the process is never asked to terminate. *)
Theorem cancel_request_reaches_the_process (title : string) (target : Z) (start : Q) :
  (∀ (feed : list (list QueueItem)) (task : string) (w : World),
     let w' := world_after (run_loop feed) w in
     status_of task (task_status w') = status_of task (task_status w)
     ∨ status_of task (task_status w') = CANCEL_REQUESTED)
  ∧ (∀ (process : Process) (st st' : Progress) (returncode : Z) (w w' : World),
       status_of title (task_status w) = CANCEL_REQUESTED →
       read_lines title target start process st w = (w', Ok (st', returncode)) →
       returncode = exit_code_when_asked process
       ∧ status_of title (task_status w') = CANCEL_REQUESTED)
  ∧ (∀ (process : Process) (st st' : Progress) (returncode : Z) (w w' : World),
       status_of title (task_status w) ≠ CANCEL_REQUESTED →
       undisturbed process →
       read_lines title target start process st w = (w', Ok (st', returncode)) →
       returncode = exit_code process
       ∧ status_of title (task_status w') = status_of title (task_status w)).
Proof.
  assert (∀ meanwhile w, status_of title (task_status w) = CANCEL_REQUESTED →
            status_of title (task_status (world_after (run_loop meanwhile) w))
            = CANCEL_REQUESTED) as Hsticky.
  { intros meanwhile w Hc.
    destruct (run_loop_status meanwhile title w) as [Hs|Hs]; [by rewrite Hs|done]. }
  assert (∀ process w, status_of title (task_status w) = CANCEL_REQUESTED →
            ∃ w1, wait process w = (w1, Ok (exit_code process))
                  ∧ status_of title (task_status w1) = CANCEL_REQUESTED) as Hwait.
  { intros process. induction process as [meanwhile code|meanwhile raw next IH];
      intros w Hc; simpl; rewrite run_loop_then.
    - eexists. split; [done|]. by apply Hsticky.
    - apply IH. by apply Hsticky. }
  split; [apply run_loop_status|]. split.
  - intros process. induction process as [meanwhile code|meanwhile raw next IH];
      intros st st' returncode w w' Hc; simpl; rewrite run_loop_then;
      set (w0 := world_after (run_loop meanwhile) w);
      assert (status_of title (task_status w0) = CANCEL_REQUESTED) as Hc0
        by (by apply Hsticky).
    + intros H. inversion H. by subst.
    + destruct (String.eqb raw "").
      * destruct (Hwait (next false) w0 Hc0) as (w1 & Hw & Hc1).
        rewrite (bind_ok _ _ _ _ _ Hw). intros H. inversion H. by subst.
      * unfold bind at 1, read_status. rewrite Hc0.
        change (status_eqb CANCEL_REQUESTED CANCEL_REQUESTED) with true.
        set (w2 := with_task_status _ w0).
        assert (status_of title (task_status w2) = CANCEL_REQUESTED) as Hc2
          by (subst w2; simpl; by rewrite status_of_touch).
        destruct (decode_utf8 raw) as [text|].
        2: { destruct (wait_never_raises (next true) w2) as [w3 Hw].
             by rewrite (bind_ok _ _ _ _ _ Hw). }
        destruct (handle_line_returns title target start (line_count st + 1) text st w2)
          as (st1 & Hh & _).
        pose proof (handle_line_status title target start (line_count st + 1) text st w2)
          as Hk.
        unfold result_of in Hh. unfold bind.
        destruct (handle_line title target start (line_count st + 1) text st w2)
          as [w3 r]. simpl in Hh. cbn [fst] in Hk. subst r.
        apply IH. by rewrite Hk.
  - assert (∀ process w, undisturbed process →
              wait process w = (w, Ok (exit_code process))) as Hleft.
    { intros process. induction process as [meanwhile code|meanwhile raw next IH];
        intros w Hq; simpl in Hq |- *.
      - by subst meanwhile.
      - destruct Hq as [-> Hq]. simpl run_loop.
        change ((ret tt ;; wait (next false)) w) with (wait (next false) w). by apply IH. }
    intros process. induction process as [meanwhile code|meanwhile raw next IH];
      intros st st' returncode w w' Hc Hquiet; simpl in Hquiet |- *.
    + subst meanwhile. simpl. unfold bind. simpl. intros H. inversion H. by subst.
    + destruct Hquiet as [-> Hquiet]. simpl run_loop.
      assert (∀ k : M (Progress * Z), (ret tt ;; k) w = k w) as -> by done.
      destruct (String.eqb raw "").
      * rewrite (bind_ok _ _ _ _ _ (Hleft (next false) w Hquiet)).
        intros H. inversion H. by subst.
      * unfold bind at 1, read_status.
        replace (status_eqb (status_of title (task_status w)) CANCEL_REQUESTED)
          with false by (symmetry; by apply bool_decide_eq_false_2).
        set (w2 := with_task_status _ w).
        assert (status_of title (task_status w2) = status_of title (task_status w)) as Hc2
          by (subst w2; simpl; by rewrite status_of_touch).
        destruct (decode_utf8 raw) as [text|].
        2: { rewrite (bind_ok _ _ _ _ _ (Hleft (next false) w2 Hquiet)). done. }
        destruct (handle_line_returns title target start (line_count st + 1) text st w2)
          as (st1 & Hh & _).
        pose proof (handle_line_status title target start (line_count st + 1) text st w2)
          as Hk.
        unfold result_of in Hh. unfold bind.
        destruct (handle_line title target start (line_count st + 1) text st w2)
          as [w3 r]. simpl in Hh. cbn [fst] in Hk. subst r.
        intros H. apply IH in H as [Hrc Hs]; [|by rewrite Hk, Hc2|done].
        split; [done|]. by rewrite Hs, Hk, Hc2.
Qed.

(** *** The bookkeeping of the icon *)

Lemma adjacent_distinct_snoc (l : list string) (x : string) :
  adjacent_distinct l → last l ≠ Some x → adjacent_distinct (l ++ [x]).
Proof.
  induction l as [|a l IH]; simpl; [done|].
  intros [Ha Hl] Hlast. destruct l as [|b l]; simpl in *.
  - split; [|done]. intros ->. by apply Hlast.
  - split; [done|]. apply IH; [done|]. exact Hlast.
Qed.


Lemma prefix_app (s rest : string) : String.prefix s (s +:+ rest) = true.
Proof.
  induction s as [|c s IH]; simpl.
  - by destruct rest.
  - by destruct (Ascii.ascii_dec c c).
Qed.

Lemma contains_unfold (needle hay : string) :
  PyStr.contains needle hay
  = if String.prefix needle hay then true
    else match hay with
         | EmptyString => false
         | String _ rest => PyStr.contains needle rest
         end.
Proof. by destruct hay. Qed.

Lemma contains_app (needle before after : string) :
  PyStr.contains needle (before +:+ needle +:+ after) = true.
Proof.
  induction before as [|c before IH].
  - change ("" +:+ needle +:+ after) with (needle +:+ after).
    by rewrite contains_unfold, prefix_app.
  - rewrite append_cons, contains_unfold, IH. by destruct (String.prefix _ _).
Qed.

Lemma contains_suffix (needle before : string) :
  PyStr.contains needle (before +:+ needle) = true.
Proof.
  pose proof (contains_app needle before "") as H. by rewrite append_empty_r in H.
Qed.

Lemma contains_word (n word : string) :
  PyStr.contains word (n +:+ " " +:+ word) = true.
Proof. rewrite <- append_assoc. apply contains_suffix. Qed.

Lemma first_running_icon_titled (table : StatusTable) :
  (∀ task, (task, RUNNING) ∈ table → ∃ n, task ∈ task_titles n) →
  in_values RUNNING table = true →
  is_Some (first_running_icon table).
Proof.
  induction table as [|[task status] table IH]; intros Htitled Hrunning; [done|].
  simpl. unfold status_eqb. case_bool_decide as Hs.
  - subst status. destruct (Htitled task) as [n Hn]; [left|].
    unfold task_titles in Hn.
    assert (PyStr.contains "post-backup" task = true
            ∨ PyStr.contains "backup" task = true
            ∨ PyStr.contains "analysis" task = true
            ∨ PyStr.contains "diff" task = true) as Hword.
    { repeat (apply elem_of_cons in Hn as [->|Hn]);
        [right; left; exact (contains_word n "backup")
        |left; exact (contains_word n "post-backup")
        |right; right; left; exact (contains_word n "analysis")
        |right; right; right; exact (contains_word n "diff")
        |by apply elem_of_nil in Hn]. }
    destruct (PyStr.contains "post-backup" task); [done|].
    destruct (PyStr.contains "backup" task); [done|].
    destruct (PyStr.contains "analysis" task); [done|].
    destruct (PyStr.contains "diff" task); [done|].
    destruct Hword as [?|[?|[?|?]]]; discriminate.
  - apply IH.
    + intros t Ht. apply Htitled. by right.
    + simpl in Hrunning. unfold status_eqb in Hrunning.
      by rewrite bool_decide_eq_false_2 in Hrunning.
Qed.

(** X15 (update_systray).  There is always an icon to show for the tasks
    the workers create: when the title of every RUNNING task of the table is
    one the workers build from a configuration name (the name followed by
    " backup", " post-backup", " analysis" or " diff"), the selection from the
    table yields an icon, whatever the name is. *)
Theorem an_icon_is_always_chosen (table : StatusTable) :
  (∀ task, (task, RUNNING) ∈ table → ∃ n, task ∈ task_titles n) →
  is_Some (select_icon table).
Proof.
  intros Htitled. unfold select_icon.
  destruct (in_values FAILED table); [done|].
  destruct (in_values RUNNING table) eqn:Hr; [by apply first_running_icon_titled|].
  by destruct (in_values FINISHED table).
Qed.

(** *** Generated file paths *)

Lemma append_suffix_inj (a b s t : string) :
  String.length s = String.length t → a +:+ s = b +:+ t → a = b ∧ s = t.
Proof.
  revert b. induction a as [|x a IH]; intros b Hlen Heq.
  - destruct b as [|y b]; [done|].
    apply (f_equal String.length) in Heq. rewrite !length_append in Heq.
    simpl in Heq. lia.
  - destruct b as [|y b].
    + apply (f_equal String.length) in Heq. rewrite !length_append in Heq.
      simpl in Heq. lia.
    + rewrite !append_cons in Heq. injection Heq as -> Heq.
      apply IH in Heq as [-> ->]; done.
Qed.

Lemma ends_differ (a b s t : string) :
  String.length s = String.length t → s ≠ t → a +:+ s ≠ b +:+ t.
Proof. intros Hlen Hne Heq. by apply append_suffix_inj in Heq as [_ ?]. Qed.

Lemma path_join_str (directory : Path) (text : string) :
  path_str (path_join directory text) = directory_text directory +:+ text.
Proof.
  unfold path_str, path_join, directory_text. simpl.
  destruct (tail directory) as [|a l] eqn:E.
  - simpl. by rewrite !append_assoc.
  - rewrite join_snoc by done. by rewrite !append_assoc.
Qed.

Lemma generated_ends_txt (directory : Path) (stem : string) :
  path_str (path_join directory (stem +:+ ".txt"))
  = (directory_text directory +:+ stem) +:+ ".txt".
Proof. by rewrite path_join_str, append_assoc. Qed.

Lemma digit_text (i : Z) : 1 ≤ i ≤ 9 → String.length (pretty i) = 1%nat ∧ pretty i ≠ "t".
Proof.
  intros Hi.
  assert (i = 1 ∨ i = 2 ∨ i = 3 ∨ i = 4 ∨ i = 5 ∨ i = 6 ∨ i = 7 ∨ i = 8 ∨ i = 9)
    as Hcases by lia.
  repeat (destruct Hcases as [->|Hcases]; [by vm_compute|]). subst i. by vm_compute.
Qed.

Lemma init_loop (config_dir logs_dir reports_dir : Path)
    (given : list AnyBackupConfiguration) (done_so_far : list BackupConfiguration) :
  foldl (fun configurations configuration =>
           match configuration with
           | Full c => configurations ++ [c]
           | Basic b =>
               configurations ++ [full_backup_configuration config_dir logs_dir reports_dir b]
           end) done_so_far given
  = done_so_far
    ++ map (fun entry =>
              match entry with
              | Full c => c
              | Basic b => full_backup_configuration config_dir logs_dir reports_dir b
              end) given.
Proof.
  revert done_so_far. induction given as [|entry given IH]; intros done_so_far; simpl.
  - by rewrite app_nil_r.
  - rewrite IH. destruct entry; by rewrite <- app_assoc.
Qed.

(** X16 (Configuration.__init__).  [Configuration] keeps the configurations
    of its list in their order, a full one as it is given and a basic one
    replaced by the configuration generated from it.  In a generated
    configuration the five report files have five different paths, and
    neither a report file nor the line-count file is the log file or one of
    its nine older generations: what the analysis, the diff or a finished
    backup writes never replaces a log, and rotating the logs never moves the
    line count away. *)
Theorem generated_paths_are_apart (config_dir logs_dir reports_dir : Path)
    (configuration : Basic.BasicBackupConfiguration) :
  let config := full_backup_configuration config_dir logs_dir reports_dir configuration in
  NoDup (map path_str (report_paths_of config))
  ∧ (∀ file i, file ∈ backup_line_count_file config :: report_paths_of config →
       0 ≤ i ≤ 9 → path_str file ≠ generation_file (log_file config) i)
  ∧ (∀ (editor : string) (main_log : Path) (given : list AnyBackupConfiguration),
       Configuration.backup_configurations
         (Configuration.init editor config_dir logs_dir reports_dir main_log given)
       = map (fun entry =>
                match entry with
                | Full c => c
                | Basic b => full_backup_configuration config_dir logs_dir reports_dir b
                end) given).
Proof.
  intros config.
  set (lowered := PyStr.lower (Basic.name configuration)).
  split; [|split].
  - change (map path_str (report_paths_of config))
      with (map (fun text => path_str (path_join reports_dir (lowered +:+ text)))
              ["-files.txt"; "-paths.txt"; "-excluded.txt"; "-errors.txt"; "-diff.txt"]).
    apply NoDup_fmap_2.
    + intros a b H. rewrite !path_join_str in H.
      apply String.app_inj in H. by apply String.app_inj in H.
    + apply (bool_decide_unpack _). by vm_compute.
  - intros file i Hfile Hi.
    assert (∃ a, path_str file = a +:+ ".txt") as [a Ha].
    { subst config. unfold report_paths_of in Hfile. simpl in Hfile.
      repeat (apply elem_of_cons in Hfile as [->|Hfile]);
        [exists (directory_text logs_dir +:+ "lines-" +:+ lowered)
        |exists (directory_text reports_dir +:+ lowered +:+ "-files")
        |exists (directory_text reports_dir +:+ lowered +:+ "-paths")
        |exists (directory_text reports_dir +:+ lowered +:+ "-excluded")
        |exists (directory_text reports_dir +:+ lowered +:+ "-errors")
        |exists (directory_text reports_dir +:+ lowered +:+ "-diff")
        |by apply elem_of_nil in Hfile];
        rewrite path_join_str; fold lowered; by rewrite !append_assoc. }
    assert (path_str (log_file config)
            = (directory_text logs_dir +:+ "borgmatic-" +:+ lowered) +:+ ".log") as Hlog.
    { subst config. simpl. rewrite path_join_str. fold lowered. by rewrite !append_assoc. }
    rewrite Ha. unfold generation_file, generation_str. rewrite Hlog.
    destruct (i =? 0) eqn:Ei.
    + by apply ends_differ.
    + apply Z.eqb_neq in Ei. destruct (digit_text i) as [Hlen Hne]; [lia|].
      change (a +:+ ".txt") with (a +:+ ".tx" +:+ "t").
      rewrite <- (append_assoc a).
      rewrite <- (append_assoc _ "." (pretty i)).
      apply ends_differ; [by rewrite Hlen|done].
  - intros editor main_log given. unfold Configuration.init. simpl.
    by rewrite init_loop.
Qed.

(** *** The systray thread *)

Lemma systray_iteration_shows (arrivals rest : list QueueItem) (queue_item : QueueItem)
    (t : Systray.Tray) :
  Systray.input_queue t ++ arrivals = queue_item :: rest →
  is_exit queue_item = false →
  ∃ t', Systray.iteration arrivals t = (t', Next)
        ∧ Systray.updates t' = Systray.updates t ++ shown_for queue_item
        ∧ Systray.input_queue t' = rest
        ∧ Systray.output_queue t' = Systray.output_queue t
        ∧ Systray.thread_exited t' = Systray.thread_exited t.
Proof.
  intros Hq Hne. unfold Systray.iteration. rewrite Hq.
  destruct queue_item; try discriminate Hne; by eexists.
Qed.

Lemma systray_iteration_exits (arrivals rest : list QueueItem) (t : Systray.Tray) :
  Systray.input_queue t ++ arrivals = Exit :: rest →
  ∃ t', Systray.iteration arrivals t = (t', Break)
        ∧ Systray.updates t' = Systray.updates t
        ∧ Systray.input_queue t' = rest ++ [Exit]
        ∧ Systray.output_queue t' = Systray.output_queue t ++ [Exit].
Proof. intros Hq. unfold Systray.iteration. rewrite Hq. by eexists. Qed.


(** *** Scheduled backups are enabled by default *)

Lemma systray_start_queue (configs : list BackupConfiguration) (t : Systray.Tray) :
  Systray.output_queue (Systray.start configs t)
  = Systray.output_queue t ++ map EnableScheduledBackups configs.
Proof.
  unfold Systray.start.
  revert t. induction configs as [|c configs IH]; intros t; cbn [foldl map].
  - by rewrite app_nil_r.
  - rewrite IH. simpl. by rewrite <- app_assoc.
Qed.

Lemma enable_iteration (config : BackupConfiguration) (rest : list QueueItem) (w : World) :
  input_queue w = EnableScheduledBackups config :: rest →
  ∃ w1 extra,
    iteration [] w = (w1, Ok Next)
    ∧ jobs w1
      = List.filter (fun j => negb (String.eqb (tag j) (name config))) (jobs w)
        ++ jobs_of config
    ∧ input_queue w1 = rest ++ extra
    ∧ loop_exited w1 = loop_exited w.
Proof.
  intros Hq. unfold iteration, try_except. rewrite iteration_body_cases.
  rewrite Hq. rewrite app_nil_r. simpl app.
  set (extra := map job_item _). cbv beta iota.
  set (w0 := with_input_queue (rest ++ extra) _).
  pose proof (enable_jobs config w0) as Hj.
  pose proof (input_queue_dispatch (EnableScheduledBackups config) ltac:(done) w0) as Hi.
  pose proof (loop_exited_dispatch (EnableScheduledBackups config) w0) as Hl.
  assert (dispatch (EnableScheduledBackups config) w0
          = ((enable_scheduled_backups config w0).1, Ok Next)) as Hd.
  { simpl. unfold bind.
    assert (result_of (enable_scheduled_backups config) w0 = Ok tt) as Hr.
    { unfold result_of, enable_scheduled_backups.
      cbv [schedule_clear schedule_every modify bind]. by rewrite output_effect. }
    unfold result_of in Hr.
    destruct (enable_scheduled_backups config w0) as [w1 r]. simpl in Hr. by subst r. }
  rewrite Hd in *. simpl in Hi, Hl. unfold world_after in Hj.
  eexists _, extra. split; [done|]. split; [exact Hj|]. split; [exact Hi|exact Hl].
Qed.

Lemma enabling_in_turn (configs : list BackupConfiguration) (registered : list Job) :
  NoDup (map name configs) →
  (∀ j, j ∈ registered → tag j ∉ map name configs) →
  foldl (fun js config =>
           List.filter (fun j => negb (String.eqb (tag j) (name config))) js
           ++ jobs_of config) registered configs
  = registered ++ flat_map jobs_of configs.
Proof.
  revert registered. induction configs as [|c configs IH]; intros registered Hnd Hfresh; simpl.
  - by rewrite app_nil_r.
  - apply NoDup_cons in Hnd as [Hc Hnd].
    assert (List.filter (fun j => negb (String.eqb (tag j) (name c))) registered = registered)
      as ->.
    { clear IH. induction registered as [|j js IHj]; simpl; [done|].
      destruct (String.eqb (tag j) (name c)) eqn:E; simpl.
      - apply String.eqb_eq in E. destruct (Hfresh j); [left|]. rewrite E. left.
      - rewrite IHj; [done|]. intros k Hk. apply Hfresh. by right. }
    rewrite IH; [by rewrite <- app_assoc|done|].
    intros j [Hj|Hj]%elem_of_app.
    + intros Hin. apply (Hfresh j Hj). by right.
    + unfold jobs_of in Hj.
      repeat (apply elem_of_cons in Hj as [->|Hj]); try done.
      by apply elem_of_nil in Hj.
Qed.

(** X18 (BorgmaticSystray.start, run, enable_scheduled_backups).  [start]
    puts one EnableScheduledBackups request per configuration on the output
    queue of the systray, in the order of the configurations.  When the
    dispatch loop finds these requests on its input queue, with no job
    registered yet and configurations of pairwise different names, then
    after as many iterations as there are configurations the jobs registered
    are the two jobs of each configuration, in that order, and the loop has
    not raised. *)
Theorem scheduled_backups_are_enabled_by_default (configs : list BackupConfiguration)
    (t : Systray.Tray) (w : World) :
  let w' := world_after (run_loop (replicate (length configs) [])) w in
  Systray.output_queue t = [] →
  input_queue w = Systray.output_queue (Systray.start configs t) →
  NoDup (map name configs) →
  jobs w = [] →
  loop_exited w = false →
  Systray.output_queue (Systray.start configs t) = map EnableScheduledBackups configs
  ∧ jobs w' = flat_map jobs_of configs
  ∧ result_of (run_loop (replicate (length configs) [])) w = Ok tt
  ∧ loop_exited w' = false.
Proof.
  intros w' Hempty Hq Hnd Hjobs Hrun. subst w'.
  rewrite systray_start_queue, Hempty in *. simpl in Hq.
  split; [done|].
  assert (∀ cs extra v,
            input_queue v = map EnableScheduledBackups cs ++ extra →
            loop_exited v = false →
            let v' := world_after (run_loop (replicate (length cs) [])) v in
            jobs v'
            = foldl (fun js config =>
                       List.filter (fun j => negb (String.eqb (tag j) (name config))) js
                       ++ jobs_of config) (jobs v) cs
            ∧ loop_exited v' = false) as Hloop.
  { clear. intros cs. induction cs as [|c cs IH]; intros extra v Hv Hl; [done|].
    unfold world_after. cbn [length replicate]. rewrite run_loop_cons, Hl.
    destruct (enable_iteration c (map EnableScheduledBackups cs ++ extra) v Hv)
      as (v1 & extra' & Hi & Hj & Hq1 & Hl1).
    rewrite (bind_ok _ _ _ _ _ Hi).
    destruct (IH (extra ++ extra') v1) as [Hj' Hl'].
    { by rewrite Hq1, <- app_assoc. }
    { congruence. }
    unfold world_after in Hj', Hl'. simpl. by rewrite Hj', Hj. }
  destruct (Hloop configs [] w) as [Hj Hl]; [by rewrite app_nil_r|done|].
  split; [|split; [apply run_loop_returns|done]].
  rewrite Hj, Hjobs. rewrite enabling_in_turn; [done|done|].
  by intros j ?%elem_of_nil.
Qed.

Lemma dispatch_next (queue_item : QueueItem) (w : World) :
  recognised queue_item = true → is_exit queue_item = false →
  result_of (dispatch queue_item) w = Ok Next.
Proof.
  intros Hknown Hexit.
  assert (∀ m : M unit, result_of m w = Ok tt → result_of (m ;; ret Next) w = Ok Next)
    as Hthen.
  { intros m Hm. unfold result_of, bind in *. destruct (m w) as [w1 r]. simpl in Hm.
    by subst r. }
  assert (∀ title msg,
            result_of (running <- task_is_running title ;;
                       when running (write_status title CANCEL_REQUESTED ;; output msg)) w
            = Ok tt) as Hcancel.
  { intros title msg. unfold result_of. rewrite cancel_effect.
    case_bool_decide; [by rewrite output_effect|done]. }
  destruct queue_item; try discriminate; simpl dispatch; apply Hthen; try done.
  - apply Hcancel.
  - apply Hcancel.
  - unfold result_of, enable_scheduled_backups.
    cbv [schedule_clear schedule_every modify bind]. by rewrite output_effect.
  - unfold result_of, disable_scheduled_backups.
    cbv [schedule_clear modify bind]. by rewrite output_effect.
Qed.

(** X19 (BorgmaticSystray.__init__, run).  Every request a menu entry puts
    is of a kind the dispatch loop has a case for: handling it neither raises
    nor ends the loop.  A start request from the menu is for the
    configuration of the entry and is never marked as scheduled, so
    post-backup tasks started from the menu do not wait the ten seconds that
    scheduled ones wait. *)
Theorem menu_requests_are_known (editor : string) (config : BackupConfiguration)
    (entry : nat) (queue_item : QueueItem) :
  Systray.menu_request editor config entry = Some queue_item →
  recognised queue_item = true
  ∧ (∀ w, result_of (dispatch queue_item) w = Ok Next)
  ∧ (∀ c is_scheduled, queue_item = StartBackup c is_scheduled
                       ∨ queue_item = StartPostBackup c is_scheduled →
                       c = config ∧ is_scheduled = false).
Proof.
  intros H.
  assert (recognised queue_item = true ∧ is_exit queue_item = false) as [Hknown Hexit].
  { do 9 (destruct entry as [|entry]; [simpl in H; by simplify_eq|]). done. }
  split; [done|]. split; [intros w; by apply dispatch_next|].
  do 9 (destruct entry as [|entry];
        [simpl in H; simplify_eq; try (intros c s [?|?]; by simplify_eq)|]).
  done.
Qed.

(** *** What reaches the systray *)

Lemma known_put (queue_item : QueueItem) :
  systray_knows queue_item = true → preserves output_known (put_output queue_item).
Proof.
  intros Hk w. unfold output_known, put_output, modify. simpl.
  rewrite forallb_app. simpl. by rewrite Hk, !andb_true_r.
Qed.

Lemma known_update_systray (hover_text icon : option string) :
  preserves output_known (update_systray hover_text icon).
Proof.
  intros w. rewrite update_systray_effect. unfold output_known. simpl.
  rewrite forallb_app. simpl. by rewrite !andb_true_r.
Qed.

Lemma known_output (line : string) : preserves output_known (output line).
Proof.
  intros w. rewrite output_effect. unfold output_known. simpl.
  rewrite forallb_app. simpl. by rewrite !andb_true_r.
Qed.

Lemma known_task_is_running (task : string) : preserves output_known (task_is_running task).
Proof. intros w. by rewrite task_is_running_effect. Qed.

Lemma known_dispatch (queue_item : QueueItem) : preserves output_known (dispatch queue_item).
Proof.
  unfold dispatch, cancel_backup, cancel_post_backup, enable_scheduled_backups,
    disable_scheduled_backups, queue_exit.
  destruct queue_item; frame_field;
    try apply known_output; try apply known_task_is_running; by apply known_put.
Qed.

Lemma known_run_loop (feed : list (list QueueItem)) : preserves output_known (run_loop feed).
Proof.
  induction feed as [|arrivals rest IH]; simpl.
  - apply preserves_ret.
  - unfold get_world. frame_step; [by intros w|].
    frame_step; [apply preserves_ret|].
    frame_step.
    + unfold iteration, iteration_body, run_pending, get_world.
      frame_field; try apply known_output; try apply known_update_systray;
        try apply known_dispatch.
      intros w. unfold get. by destruct (input_queue w ++ arrivals).
    + frame_step; [done|]. frame_field. apply known_output.
Qed.

Lemma known_wait (process : Process) : preserves output_known (wait process).
Proof.
  induction process as [meanwhile rc|meanwhile raw next IH]; simpl;
    frame_field; first [apply known_run_loop|apply IH].
Qed.

Lemma known_run_process (title command : string) (target : Z) :
  preserves output_known (run_process_and_update_systray title command target).
Proof.
  assert (∀ start process st,
            preserves output_known (read_lines title target start process st)) as Hread.
  { intros start process. induction process as [meanwhile rc|meanwhile raw next IH];
      intros st; simpl.
    - frame_field. apply known_run_loop.
    - frame_field; try apply known_run_loop; try apply known_wait; try done.
      unfold handle_line. frame_field. apply known_update_systray. }
  unfold run_process_and_update_systray, start_process, finish_process.
  frame_field; try apply known_output; try apply Hread.
  intros w. unfold Popen. by destruct (popen _ _).
Qed.

Lemma known_run_backup (config : BackupConfiguration) :
  preserves output_known (run_backup config).
Proof.
  unfold run_backup, run_backup_body, save_line_count, write_file.
  frame_field; try apply known_output; try apply known_task_is_running;
    try apply known_run_process.
  - intros w. by rewrite rotate_logs_spec.
  - intros w. by rewrite load_line_count_effect.
Qed.

Lemma known_run_post_backup (config : BackupConfiguration) (is_scheduled : bool) :
  preserves output_known (run_post_backup config is_scheduled).
Proof.
  unfold run_post_backup, run_post_backup_body.
  frame_field; try apply known_output; try apply known_task_is_running;
    try apply known_run_process.
Qed.

Lemma known_write_report (file : Path) (header : string) (lines : list string)
    (editor : string) :
  preserves output_known (write_report file header lines editor).
Proof.
  unfold write_report, write_file. frame_field.
  intros w. unfold Popen. by destruct (popen _ _).
Qed.

Lemma known_analyze_logs (config : BackupConfiguration) (editor : string) :
  preserves output_known (analyze_logs config editor).
Proof.
  assert (∀ generations acc n,
            preserves output_known (scan_generations config generations acc n)) as Hscan.
  { intros generations. induction generations as [|i rest IH]; intros acc n; simpl.
    - apply preserves_ret.
    - frame_field; try apply known_output; try done.
      intros w. unfold read_file. by destruct (files w !! _). }
  unfold analyze_logs, analyze_logs_body, analysis.
  frame_field; try apply known_output; try apply known_write_report; try apply Hscan.
Qed.

Lemma known_diff_last_backups (config : BackupConfiguration) (editor : string) :
  preserves output_known (diff_last_backups config editor).
Proof.
  assert (∀ process, preserves output_known (communicate process)) as Hcomm.
  { intros process. induction process as [meanwhile rc|meanwhile raw next IH]; simpl;
      frame_field; try apply known_run_loop; try done. }
  assert (∀ command, preserves output_known (subprocess_run command)) as Hrun.
  { intros command. unfold subprocess_run. frame_field; try apply Hcomm.
    intros w. unfold Popen. by destruct (popen _ _). }
  unfold diff_last_backups, diff_last_backups_body.
  frame_field; try apply known_output; try apply known_write_report; try apply Hrun.
Qed.

(** X20 (update_systray, queue_exit, and every method that calls them).
    The backup thread sends the systray nothing but what the systray knows:
    whatever the dispatch loop and the four workers do, they put only
    UpdateSystray and Exit requests on the output queue.  So if the queue
    holds nothing else before [run] or a worker, it holds nothing else
    afterwards, and the systray thread never meets a request of unknown kind
    from the backup thread. *)
Theorem systray_is_sent_what_it_knows (feed : list (list QueueItem)) (t : Thread)
    (w : World) :
  Forall (fun queue_item => systray_knows queue_item = true) (output_queue w) →
  Forall (fun queue_item => systray_knows queue_item = true)
    (output_queue (world_after (run feed) w))
  ∧ Forall (fun queue_item => systray_knows queue_item = true)
      (output_queue (world_after (thread_body t) w)).
Proof.
  intros Hw.
  assert (∀ v, Forall (fun queue_item => systray_knows queue_item = true) (output_queue v)
               ↔ output_known v = true) as Hiff.
  { intros v. unfold output_known.
    induction (output_queue v) as [|queue_item queue IH]; simpl.
    - split; [done|constructor].
    - rewrite Forall_cons, andb_true_iff, IH. done. }
  assert (preserves output_known (run feed)) as Hrun.
  { unfold run. frame_field; [apply known_output|apply known_run_loop]. }
  assert (preserves output_known (thread_body t)) as Hbody.
  { unfold thread_body.
    destruct (target t), (args t); try apply preserves_raise;
      [apply known_run_backup|apply known_run_post_backup
      |apply known_analyze_logs|apply known_diff_last_backups]. }
  apply Hiff in Hw. split; apply Hiff; unfold world_after.
  - by rewrite Hrun.
  - by rewrite Hbody.
Qed.

(** X21 (analyze_logs).  An item line of a log is read back field by field.
    For a line made of a bracketed timestamp in two fields, a level, a flag
    and a path, joined by single spaces and ended by a newline, where the
    path may itself consist of several fields, the analyzer hands [strptime]
    the timestamp without its brackets and with three zeros added, and
    accounts the line under the flag as written and under the path as
    written, spaces included. *)
Theorem item_line_is_read_back (i : Z) (date clock level flag : string)
    (path_fields : list string) (acc : Scan) (cur : Cursor) (timestamp : Z) :
  let path := PyStr.join " " path_fields in
  let line :=
    PyStr.join " " (("[" +:+ date) :: (clock +:+ "]") :: level :: flag :: path_fields)
    +:+ nl in
  Forall is_word [date; clock; level; flag] →
  Forall is_word path_fields →
  path_fields ≠ [] →
  strptime (date +:+ " " +:+ clock +:+ "000") = Some timestamp →
  timestamp_text line = date +:+ " " +:+ clock +:+ "000"
  ∧ scan_line i line (acc, cur)
    = Ok (collect i flag line (previous_line cur)
            (accumulate flag path
               (total_seconds (timestamp - default timestamp (previous_timestamp cur)))
               acc),
          {| previous_timestamp := Some timestamp; previous_line := line |}).
Proof.
  intros path line Hfields Hpath Hsome Htime.
  apply Forall_cons in Hfields as [Hdate Hfields].
  apply Forall_cons in Hfields as [Hclock Hfields].
  apply Forall_cons in Hfields as [Hlevel Hfields].
  apply Forall_cons in Hfields as [Hflag _].
  assert (is_word ("[" +:+ date)) as Hopen.
  { destruct Hdate as [_ Hd]. split; [done|]. rewrite append_cons. simpl.
    constructor; [|done]. split; [done|]. by apply Nat.ltb_lt. }
  assert (is_word (clock +:+ "]")) as Hclose.
  { destruct Hclock as [Hne Hc]. split.
    - destruct clock; [done|]. by rewrite append_cons.
    - rewrite list_of_append. apply Forall_app. split; [done|].
      repeat constructor. }
  assert (PyStr.split_ws line
          = ("[" +:+ date) :: (clock +:+ "]") :: level :: flag :: path_fields) as Hsplit.
  { subst line. apply split_ws_fields. by repeat (apply Forall_cons; split). }
  assert (timestamp_text line = date +:+ " " +:+ clock +:+ "000") as Htext.
  { unfold timestamp_text. rewrite Hsplit. simpl take. simpl PyStr.join.
    replace (("[" +:+ date) +:+ " " +:+ clock +:+ "]")
      with (String "[" ((date +:+ " " +:+ clock) +:+ String "]" ""))
      by (by rewrite !append_assoc).
    rewrite slice_brackets. by rewrite !append_assoc. }
  split; [done|].
  unfold scan_line. rewrite Hsplit.
  replace (length _ <? 5)%nat with false
    by (symmetry; apply Nat.ltb_ge; destruct path_fields; [done|simpl; lia]).
  unfold timestamp_text in Htext. rewrite Hsplit in Htext. rewrite Htext, Htime.
  done.
Qed.

Lemma communicate_output (process : Process) (w : World) :
  ∃ w', communicate process w = (w', Ok (output_of process, exit_code process)).
Proof.
  revert w. induction process as [meanwhile rc|meanwhile raw next IH]; intros w; simpl;
    rewrite run_loop_then.
  - by eexists.
  - destruct (IH false (world_after (run_loop meanwhile) w)) as (w' & H).
    unfold bind. rewrite H. by eexists.
Qed.

Lemma subprocess_run_text (command text : string) (w w' : World) :
  subprocess_run command w = (w', Ok text) →
  ∃ parts process,
    shlex_split command = Some parts
    ∧ popen (length (started w)) parts = Some process
    ∧ exit_code process = 0
    ∧ decode_utf8 (output_of process) = Some text.
Proof.
  unfold subprocess_run. destruct (shlex_split command) as [parts|]; [|done].
  unfold bind at 1, Popen. destruct (popen _ parts) as [p|] eqn:Hp; [|done].
  destruct (communicate_output p (with_started (started w ++ [(parts, task_status w)]) w))
    as [w1 Hc].
  unfold bind. rewrite Hc. simpl.
  destruct (exit_code p =? 0) eqn:Hz; [|done]. simpl.
  destruct (decode_utf8 (output_of p)) as [t|] eqn:Hd; [|done].
  intros H. inversion H. subst. apply Z.eqb_eq in Hz. by exists parts, p.
Qed.

(** X22 (diff_last_backups).  The diff compares the last two archives of the
    listing.  When the listing consists of lines that each end with a
    newline, and each of the last two lines starts with the archive name
    followed by a space, the names taken are those two, in the order of the
    listing, whatever the earlier lines hold.  And when the body of
    [diff_last_backups] returns, the listing it took the names from is the
    decoded output of the first command, which exited with 0; the names are
    in the second command; and the report holds the names in its header and,
    after an empty line, the decoded output of the second command. *)
Theorem diff_compares_the_last_two_archives (config : BackupConfiguration)
    (editor : string) :
  (∀ (earlier : list string) (a b rest_a rest_b : string),
     Forall (without "010") earlier →
     without " " a → without "010" a → without "010" rest_a →
     without " " b → without "010" b → without "010" rest_b →
     last_two_backups
       (PyStr.join "" (map (fun line => line +:+ nl)
                         (earlier ++ [a +:+ " " +:+ rest_a; b +:+ " " +:+ rest_b])))
     = a +:+ " " +:+ b)
  ∧ (∀ (w w' : World),
       diff_last_backups_body config editor w = (w', Ok tt) →
       ∃ (listing diff_output : string) (list_process diff_process : Process)
         (list_parts diff_parts : list string),
         shlex_split
           ("wsl.exe -d " +:+ wsl_distro config +:+ " -- PATH=~/.local/bin:$PATH borgmatic "
            +:+ "--config " +:+ to_wsl_path (config_file config) +:+ " borg rlist")
         = Some list_parts
         ∧ popen (length (started w)) list_parts = Some list_process
         ∧ exit_code list_process = 0
         ∧ decode_utf8 (output_of list_process) = Some listing
         ∧ shlex_split
             ("wsl.exe -d " +:+ wsl_distro config
              +:+ " -- PATH=~/.local/bin:$PATH borgmatic "
              +:+ "--config " +:+ to_wsl_path (config_file config) +:+ " borg diff "
              +:+ last_two_backups listing +:+ " --content-only")
           = Some diff_parts
         ∧ popen (S (length (started w))) diff_parts = Some diff_process
         ∧ exit_code diff_process = 0
         ∧ decode_utf8 (output_of diff_process) = Some diff_output
         ∧ files w' !! path_str (diff_file config)
           = Some (("Diff for last two " +:+ name config +:+ " backups ("
                    +:+ last_two_backups listing +:+ "):") +:+ nl +:+ nl +:+ diff_output)).
Proof.
  split.
  - intros earlier a b rest_a rest_b He Ha Hal Hra Hb Hbl Hrb.
    assert (∀ x r, without "010" x → without "010" r → without "010" (x +:+ " " +:+ r))
      as Hline.
    { intros x r Hx Hr. unfold without. rewrite !list_of_append.
      apply Forall_app. split; [done|]. apply Forall_app. split; [|done].
      by repeat constructor. }
    unfold last_two_backups. rewrite split_on_lines.
    2: { apply Forall_app. split; [done|]. repeat constructor; by apply Hline. }
    rewrite <- app_assoc. simpl app. rewrite slice_last_two. simpl map.
    change (a +:+ " " +:+ rest_a) with (a +:+ String " " rest_a).
    change (b +:+ " " +:+ rest_b) with (b +:+ String " " rest_b).
    by rewrite !split_on_first.
  - intros w w' Hbody. unfold diff_last_backups_body in Hbody.
    apply bind_ok_inv in Hbody as (w1 & [] & Ho1 & Hbody).
    apply bind_ok_inv in Hbody as (w2 & listing & H1 & Hbody).
    apply bind_ok_inv in Hbody as (w3 & [] & Ho2 & Hbody).
    apply bind_ok_inv in Hbody as (w4 & diff_output & H2 & Hbody).
    apply bind_ok_inv in Hbody as (w5 & [] & H3 & Hbody).
    pose proof (subprocess_run_ok _ _ _ _ H1) as (_ & c1 & Hc1 & Hs1).
    apply subprocess_run_text in H1 as (p1 & q1 & Hsplit1 & Hpopen1 & Hcode1 & Hdec1).
    apply subprocess_run_text in H2 as (p2 & q2 & Hsplit2 & Hpopen2 & Hcode2 & Hdec2).
    apply write_report_effect in H3.
    unfold bind, write_status, modify in Hbody. rewrite output_effect in Hbody.
    inversion Hbody as [Hw']. rewrite output_effect in Ho1, Ho2.
    inversion Ho1 as [Hw1]. inversion Ho2 as [Hw3].
    assert (length (started w1) = length (started w)) as Hl1 by (by subst w1).
    assert (length (started w3) = S (length (started w))) as Hl3.
    { subst w3. simpl.
      rewrite <- (length_fmap fst (started w2)), Hs1, length_app, length_fmap, Hl1.
      simpl. lia. }
    rewrite Hl1 in Hpopen1. rewrite Hl3 in Hpopen2.
    exists listing, diff_output, q1, q2, p1, p2.
    split_and!; try done.
    simpl. by rewrite H3, lookup_insert_eq.
Qed.

(** *** Who sleeps *)

Lemma slept_update_systray (hover_text icon : option string) :
  preserves slept (update_systray hover_text icon).
Proof. intros w. by rewrite update_systray_effect. Qed.

Lemma slept_run_loop (feed : list (list QueueItem)) : preserves slept (run_loop feed).
Proof. intros w. by destruct (run_loop_threads feed w) as [H _]. Qed.

Lemma slept_wait (process : Process) : preserves slept (wait process).
Proof.
  induction process as [meanwhile rc|meanwhile raw next IH]; simpl;
    frame_field; first [apply slept_run_loop|apply IH].
Qed.

Lemma slept_run_process (title command : string) (target : Z) :
  preserves slept (run_process_and_update_systray title command target).
Proof.
  assert (∀ start process st,
            preserves slept (read_lines title target start process st)) as Hread.
  { intros start process. induction process as [meanwhile rc|meanwhile raw next IH];
      intros st; simpl.
    - frame_field. apply slept_run_loop.
    - frame_field; try apply slept_run_loop; try apply slept_wait; try done.
      unfold handle_line. frame_field. apply slept_update_systray. }
  unfold run_process_and_update_systray, start_process, finish_process.
  frame_field; try apply slept_output; try apply Hread.
  intros w. unfold Popen. by destruct (popen _ _).
Qed.

Lemma slept_write_report (file : Path) (header : string) (lines : list string)
    (editor : string) :
  preserves slept (write_report file header lines editor).
Proof.
  unfold write_report, write_file. frame_field.
  intros w. unfold Popen. by destruct (popen _ _).
Qed.

(** X23 (run_backup, run_post_backup, analyze_logs, diff_last_backups).
    Only the post-backup worker sleeps.  A backup, an analysis and a diff
    never call [sleep], whatever happens.  The post-backup worker sleeps 10
    seconds first if and only if its request is a scheduled one, and 30
    seconds more if and only if it then finds its own task not active and the
    backup active, that is, when it puts its request back; it sleeps at no
    other time. *)
Theorem only_the_post_backup_worker_sleeps (config : BackupConfiguration)
    (is_scheduled : bool) (editor : string) (w : World) :
  let delayed :=
    bool_decide (¬ is_active (status_of (name config +:+ " post-backup") (task_status w))
                 ∧ is_active (status_of (name config +:+ " backup") (task_status w))) in
  slept (world_after (run_backup config) w) = slept w
  ∧ slept (world_after (analyze_logs config editor) w) = slept w
  ∧ slept (world_after (diff_last_backups config editor) w) = slept w
  ∧ slept (world_after (run_post_backup config is_scheduled) w)
    = slept w ++ (if is_scheduled then [10] else []) ++ (if delayed then [30] else []).
Proof.
  intros delayed. split_and!.
  - assert (preserves slept (run_backup config)) as H; [|apply H].
    unfold run_backup, run_backup_body, save_line_count, write_file.
    frame_field; try apply slept_output; try apply slept_task_is_running;
      try apply slept_run_process.
    + intros v. by rewrite rotate_logs_spec.
    + intros v. by rewrite load_line_count_effect.
  - assert (preserves slept (analyze_logs config editor)) as H; [|apply H].
    assert (∀ generations acc n,
              preserves slept (scan_generations config generations acc n)) as Hscan.
    { intros generations. induction generations as [|i rest IH]; intros acc n; simpl.
      - apply preserves_ret.
      - frame_field; try apply slept_output; try done.
        intros v. unfold read_file. by destruct (files v !! _). }
    unfold analyze_logs, analyze_logs_body, analysis.
    frame_field; try apply slept_output; try apply slept_write_report; try apply Hscan.
  - assert (preserves slept (diff_last_backups config editor)) as H; [|apply H].
    assert (∀ process, preserves slept (communicate process)) as Hcomm.
    { intros process. induction process as [meanwhile rc|meanwhile raw next IH]; simpl;
        frame_field; try apply slept_run_loop; try done. }
    assert (∀ command, preserves slept (subprocess_run command)) as Hrun.
    { intros command. unfold subprocess_run. frame_field; try apply Hcomm.
      intros v. unfold Popen. by destruct (popen _ _). }
    unfold diff_last_backups, diff_last_backups_body.
    frame_field; try apply slept_output; try apply slept_write_report; try apply Hrun.
  - set (post_backup := name config +:+ " post-backup") in *.
    set (backup := name config +:+ " backup") in *.
    set (w0 := if is_scheduled then with_slept (slept w ++ [10]) w else w).
    assert (slept w0 = slept w ++ (if is_scheduled then [10] else [])) as Hs0.
    { subst w0. destruct is_scheduled; [done|]. by rewrite app_nil_r. }
    assert (task_status w0 = task_status w) as Ht0 by (subst w0; by destruct is_scheduled).
    destruct (decide (is_active (status_of post_backup (task_status w)))) as [Hpost|Hpost].
    { unfold world_after. rewrite run_post_backup_skips by done. fold w0.
      rewrite output_effect. simpl. rewrite Hs0.
      subst delayed. rewrite bool_decide_eq_false_2 by tauto. by rewrite app_nil_r. }
    set (handler := fun ex : Exn =>
           if is_CalledProcessError ex then Some (ret tt)
           else Some (write_status post_backup FAILED ;;
                      output ("Error running post-backup tasks for " +:+ name config +:+ ": "
                              +:+ exn_str ex +:+ nl +:+ format_exc ex))).
    set (w2 := with_task_status
                 (touch backup (touch post_backup (task_status w0))) w0).
    assert (slept w2 = slept w0) as Hs2 by done.
    assert (∀ branch_delay branch_run : M unit,
              try_except
                (when is_scheduled (sleep 10) ;;
                 running <- task_is_running post_backup ;;
                 if running then output (post_backup +:+ " is already running, skipping")
                 else
                   backup_running <- task_is_running backup ;;
                   if backup_running then branch_delay else branch_run) handler w
              = try_except
                  (if bool_decide (is_active (status_of backup (task_status w)))
                   then branch_delay else branch_run) handler w2) as Hpeel.
    { intros branch_delay branch_run. unfold try_except.
      assert (when is_scheduled (sleep 10) w = (w0, Ok tt)) as Hsl
        by (subst w0; by destruct is_scheduled).
      erewrite bind_ok by exact Hsl.
      erewrite bind_ok by apply task_is_running_effect.
      rewrite Ht0, bool_decide_eq_false_2 by done. cbv beta iota.
      erewrite bind_ok by apply task_is_running_effect.
      cbn [task_status with_task_status]. rewrite status_of_touch, <- Ht0. done. }
    unfold world_after, run_post_backup, run_post_backup_body. fold post_backup backup handler.
    rewrite Hpeel.
    destruct (decide (is_active (status_of backup (task_status w)))) as [Hb|Hb].
    + rewrite bool_decide_eq_true_2 by done.
      subst delayed. rewrite bool_decide_eq_true_2 by done.
      unfold try_except, bind. rewrite output_effect. simpl.
      by rewrite Hs0, <- app_assoc.
    + rewrite bool_decide_eq_false_2 by done.
      subst delayed. rewrite bool_decide_eq_false_2 by tauto.
      assert (preserves slept
                (try_except
                   (run_process_and_update_systray post_backup (post_backup_command config) 0 ;;
                    ret tt) handler)) as Hp.
      { subst handler. frame_field; try apply slept_run_process; try apply slept_output. }
      rewrite Hp, Hs2, Hs0. by rewrite app_nil_r.
Qed.

(** *** Reaching the Exit *)

Lemma iteration_takes_the_head (arrivals rest : list QueueItem) (queue_item : QueueItem)
    (w : World) :
  input_queue w = queue_item :: rest →
  is_exit queue_item = false →
  ∃ w1 later,
    iteration arrivals w = (w1, Ok Next)
    ∧ input_queue w1 = rest ++ later
    ∧ loop_exited w1 = loop_exited w.
Proof.
  intros Hq Hne.
  assert (queue_item ≠ Exit) as Hne' by (intros ->; discriminate).
  unfold iteration, try_except. rewrite iteration_body_cases, Hq.
  rewrite <- !app_comm_cons, <- app_assoc. cbv beta iota zeta.
  set (later := map job_item _ ++ arrivals).
  set (w0 := with_input_queue (rest ++ later) _).
  pose proof (input_queue_dispatch queue_item Hne' w0) as Hi.
  pose proof (loop_exited_dispatch queue_item w0) as Hl.
  pose proof (dispatch_break queue_item w0) as Hb. unfold result_of in Hb.
  destruct (dispatch queue_item w0) as [w1 [ctl|e]]; simpl in Hi, Hl, Hb.
  - destruct ctl; [|by destruct Hne'; apply Hb].
    by exists w1, later.
  - destruct (loop_handler_effect e w1) as (Hr & _ & _ & _ & Hi' & Hl').
    unfold world_after, result_of in *.
    destruct (bind (output _) _ w1) as [w2 r]. simpl in *. subst r.
    exists w2, later. split; [done|]. split; congruence.
Qed.

Lemma iteration_takes_exit (arrivals rest : list QueueItem) (w : World) :
  input_queue w = Exit :: rest →
  ∃ w1, iteration arrivals w = (w1, Ok Break)
        ∧ output_queue w1 = output_queue w ++ [Exit]
        ∧ task_status w1 = map (fun kv => (kv.1, CANCEL_REQUESTED)) (task_status w).
Proof.
  intros Hq. unfold iteration, try_except. rewrite iteration_body_cases, Hq.
  rewrite <- !app_comm_cons. cbv beta iota zeta. by eexists.
Qed.

(** X24 (run, queue_exit).  The dispatch loop reaches the Exit.  When an
    Exit stands in the input queue behind requests that are not Exits, the
    loop, given more iterations than there are such requests, takes them one
    by one, whatever they are and whatever arrives or falls due meanwhile,
    then takes the Exit and leaves: it has put an Exit on the output queue
    for the systray, every task the table knows is CANCEL_REQUESTED, and the
    last message published says that the thread is exiting. *)
Theorem dispatch_loop_leaves_at_exit (before after : list QueueItem)
    (feed : list (list QueueItem)) (w : World) :
  Forall (fun queue_item => is_exit queue_item = false) before →
  loop_exited w = false →
  input_queue w = before ++ Exit :: after →
  (length before < length feed)%nat →
  let w' := world_after (run_loop feed) w in
  loop_exited w' = true
  ∧ Exit ∈ output_queue w'
  ∧ (∀ task, task ∈ (task_status w').*1 →
       status_of task (task_status w') = CANCEL_REQUESTED)
  ∧ ∃ icon, last (output_queue w')
            = Some (UpdateSystray (Some "Exiting background backup thread") icon).
Proof.
  revert after feed w. induction before as [|queue_item before IH];
    intros after feed w Hbefore Hrun Hqueue Hfeed w'; subst w';
    (destruct feed as [|arrivals feed]; [simpl in Hfeed; lia|]);
    unfold world_after; rewrite run_loop_cons, Hrun.
  - destruct (iteration_takes_exit arrivals after w Hqueue) as (w1 & Hi & Hout & Hst).
    rewrite (bind_ok _ _ _ _ _ Hi). unfold bind, modify. rewrite output_effect. simpl.
    split; [done|]. split; [|split].
    + rewrite Hout. apply elem_of_app. left. apply elem_of_app. right. left.
    + intros task Hin. rewrite Hst in Hin |- *.
      unfold status_of. rewrite find_status_all.
      rewrite <- list_fmap_compose in Hin.
      assert (task ∈ (task_status w).*1) as Hin' by done.
      apply find_status_elem in Hin' as [s Hs]. by rewrite Hs.
    + eexists. by rewrite last_snoc.
  - apply Forall_cons in Hbefore as [Hitem Hbefore].
    destruct (iteration_takes_the_head arrivals (before ++ Exit :: after) queue_item w)
      as (w1 & later & Hi & Hq1 & Hl1); [done|done|].
    rewrite (bind_ok _ _ _ _ _ Hi).
    apply (IH (after ++ later) feed w1); [done|congruence| |simpl in Hfeed; lia].
    rewrite Hq1, <- app_assoc. done.
Qed.

(** *** Asking about a task *)

(** X25 (task_is_running, queue_exit).  [task_is_running] answers whether
    the status is RUNNING or CANCEL_REQUESTED and changes the status of no
    task, but it is not without effect: the status table being a
    [defaultdict], asking about a task the table does not know adds the task
    at the end, with NOT_STARTED; a task the table knows adds nothing.  The
    difference shows at Exit: a task that was only asked about is
    CANCEL_REQUESTED afterwards, so that a start request for it is skipped,
    while a task never asked about still reads NOT_STARTED. *)
Theorem asking_makes_a_task_known (task : string) (w : World) :
  let asked := world_after (task_is_running task) w in
  result_of (task_is_running task) w
  = Ok (bool_decide (is_active (status_of task (task_status w))))
  ∧ (∀ other, status_of other (task_status asked) = status_of other (task_status w))
  ∧ (task ∈ (task_status w).*1 → asked = w)
  ∧ (task ∉ (task_status w).*1 →
       task_status asked = task_status w ++ [(task, NOT_STARTED)]
       ∧ status_of task (task_status (world_after queue_exit asked)) = CANCEL_REQUESTED
       ∧ status_of task (task_status (world_after queue_exit w)) = NOT_STARTED).
Proof.
  intros asked. subst asked. unfold result_of, world_after.
  rewrite task_is_running_effect. simpl. split; [done|]. split; [|split].
  - intros other. apply status_of_touch.
  - intros [s Hs]%find_status_elem. rewrite (touch_known _ _ _ Hs).
    apply with_task_status_same.
  - intros Hno.
    assert (find_status task (task_status w) = None) as Hnone.
    { destruct (find_status task (task_status w)) eqn:E; [|done].
      destruct Hno. apply find_status_elem. by rewrite E. }
    unfold touch. rewrite Hnone. split; [done|].
    cbv [queue_exit put_input put_output modify bind]. simpl.
    unfold status_of. rewrite !find_status_all, find_status_app, Hnone. simpl.
    by rewrite String.eqb_refl.
Qed.

(** *** Paths inside WSL *)

Lemma lower_keeps_no_colon (c : ascii) : c ≠ ":"%char → PyStr.lower_ascii c ≠ ":"%char.
Proof.
  intros Hc. unfold PyStr.lower_ascii.
  destruct ((65 <=? Ascii.nat_of_ascii c) && (Ascii.nat_of_ascii c <=? 90))%nat eqn:E;
    [|done].
  apply andb_true_iff in E as [Hlo%Nat.leb_le Hhi%Nat.leb_le].
  intros Heq. apply (f_equal Ascii.nat_of_ascii) in Heq.
  rewrite Ascii.nat_ascii_embedding in Heq by lia.
  change (Ascii.nat_of_ascii ":") with 58%nat in Heq. lia.
Qed.

(** X26 (to_wsl_path).  The WSL path starts with [/mnt/] and the drive in
    lower case, in which no colon is left.  It follows the Windows path
    component by component: below a directory that is not the root of its
    drive, the path of an entry is the path of the directory, a slash and
    the entry.  The root of a drive is the exception: it is written with a
    dot after the slash, as an empty [PurePosixPath] prints, and the dot is
    gone in the path of an entry of the root. *)
Theorem wsl_path_follows_the_windows_path (directory : Path) (text : string) :
  let mount := "/mnt/" +:+ PyStr.lower (PyStr.remove_colons (drive directory)) in
  without ":" (PyStr.lower (PyStr.remove_colons (drive directory)))
  ∧ (tail directory ≠ [] →
       to_wsl_path (path_join directory text) = to_wsl_path directory +:+ "/" +:+ text)
  ∧ (tail directory = [] →
       to_wsl_path directory = mount +:+ "/."
       ∧ to_wsl_path (path_join directory text) = mount +:+ "/" +:+ text).
Proof.
  intros mount. subst mount. split; [|split].
  - unfold without, PyStr.lower, PyStr.remove_colons.
    rewrite !String.list_ascii_of_string_of_list_ascii.
    apply Forall_forall. intros c (y & -> & Hy)%list_elem_of_fmap.
    apply list_elem_of_filter in Hy as [Hy _]. by apply lower_keeps_no_colon.
  - intros Hne. unfold to_wsl_path, path_join. cbn [drive tail].
    destruct (tail directory) as [|a l] eqn:E; [done|].
    change ((a :: l) ++ [text]) with (a :: (l ++ [text])). cbv beta iota.
    rewrite app_comm_cons, join_snoc by done. by rewrite !append_assoc.
  - intros Hroot. unfold to_wsl_path, path_join. simpl. rewrite Hroot. simpl.
    by rewrite !append_assoc.
Qed.

(** *** The workers as threads *)

Lemma in_one_go_call (c : Call) (w : World) : in_one_go (call c) w = perform c w.
Proof. unfold call. simpl. by destruct (perform c w). Qed.

Lemma in_one_go_and_then {A B} (p : Prog A) (k : A → Prog B) (w : World) :
  in_one_go (and_then p k) w = bind (in_one_go p) (fun a => in_one_go (k a)) w.
Proof.
  revert w. induction p as [[a|e]|c k' IH]; intros w; simpl; [done..|].
  unfold bind. simpl. destruct (perform c w) as [w' r]. apply IH.
Qed.

Lemma in_one_go_try {A} (p : Prog A) (handler : Exn → option (Prog A))
    (w : World) :
  in_one_go (try_steps p handler) w
  = try_except (in_one_go p) (fun e => in_one_go <$> handler e) w.
Proof.
  revert w. induction p as [[a|e]|c k' IH]; intros w; simpl.
  - done.
  - unfold try_except. simpl. by destruct (handler e).
  - unfold try_except. simpl. destruct (perform c w) as [w' r]. apply IH.
Qed.

Lemma bind_ext {A B} (m m' : M A) (k k' : A → M B) (w : World) :
  m w = m' w → (∀ a w', k a w' = k' a w') → bind m k w = bind m' k' w.
Proof. intros Hm Hk. unfold bind. rewrite Hm. destruct (m' w) as [w' [a|e]]; [apply Hk|done]. Qed.

Lemma in_one_go_step (c : Call) (w : World) (x : World * Result (answer c)) :
  perform c w = x → in_one_go (Step c Return) w = x.
Proof. intros <-. simpl. by destruct (perform c w). Qed.

Ltac one_call :=
  unfold call;
  lazymatch goal with
  | |- in_one_go (Step ?c _) ?w = _ => exact (in_one_go_step c w _ eq_refl)
  end.

Lemma in_one_go_wait (process : Process) (w : World) :
  in_one_go (wait_steps process) w = wait process w.
Proof.
  revert w. induction process as [meanwhile rc|meanwhile raw next IH]; intros w;
    cbn [wait_steps wait].
  - rewrite in_one_go_and_then. apply bind_ext; [one_call|done].
  - rewrite in_one_go_and_then. apply bind_ext; [one_call|]. intros _ ?. apply IH.
Qed.

Lemma in_one_go_handle_line (title : string) (target : Z) (start : Q) (count : Z)
    (text : string) (st : Progress) (w : World) :
  in_one_go (handle_line_steps title target start count text st) w
  = handle_line title target start count text st w.
Proof.
  unfold handle_line_steps, handle_line.
  rewrite in_one_go_and_then. apply bind_ext; [one_call|]. intros now w1.
  destruct (Qltb 1 _); [|done].
  rewrite in_one_go_and_then. apply bind_ext; [one_call|]. intros now2 w2.
  rewrite in_one_go_and_then. apply bind_ext; [one_call|]. intros _ w3.
  rewrite in_one_go_and_then. apply bind_ext; [one_call|]. done.
Qed.

Lemma in_one_go_read_lines (title : string) (target : Z) (start : Q)
    (process : Process) (st : Progress) (w : World) :
  in_one_go (read_lines_steps title target start process st) w
  = read_lines title target start process st w.
Proof.
  revert st w. induction process as [meanwhile rc|meanwhile raw next IH]; intros st w;
    cbn [read_lines_steps read_lines].
  - rewrite in_one_go_and_then. apply bind_ext; [one_call|done].
  - rewrite in_one_go_and_then. apply bind_ext; [one_call|]. intros _ w1.
    destruct (String.eqb raw "").
    + rewrite in_one_go_and_then. apply bind_ext; [apply in_one_go_wait|done].
    + rewrite in_one_go_and_then. apply bind_ext; [one_call|]. intros status w2.
      destruct (decode_utf8 raw) as [text|].
      * rewrite in_one_go_and_then. apply bind_ext; [apply in_one_go_handle_line|].
        intros st' w3. apply IH.
      * rewrite in_one_go_and_then. apply bind_ext; [apply in_one_go_wait|done].
Qed.

Lemma in_one_go_start_process (title command : string) (w : World) :
  in_one_go (start_process_steps title command) w = start_process title command w.
Proof.
  unfold start_process_steps, start_process.
  rewrite in_one_go_and_then. apply bind_ext; [one_call|]. intros _ w1.
  rewrite in_one_go_and_then. apply bind_ext; [one_call|]. intros _ w2.
  rewrite in_one_go_and_then. apply bind_ext; [one_call|]. intros start w3.
  destruct (shlex_split command) as [parts|]; [|done].
  rewrite in_one_go_and_then. apply bind_ext; [one_call|]. done.
Qed.

Lemma in_one_go_finish_process (title : string) (parts : list string) (start : Q)
    (st : Progress) (rc : Z) (w : World) :
  in_one_go (finish_process_steps title parts start st rc) w
  = finish_process title parts start st rc w.
Proof.
  unfold finish_process_steps, finish_process.
  rewrite in_one_go_and_then. apply bind_ext; [one_call|]. intros now w1.
  destruct (negb (rc =? 0)).
  - rewrite in_one_go_and_then. apply bind_ext; [one_call|]. intros _ w2.
    rewrite in_one_go_and_then. apply bind_ext; [one_call|]. intros n w3.
    rewrite in_one_go_and_then. apply bind_ext; [one_call|]. done.
  - rewrite in_one_go_and_then. apply bind_ext; [one_call|]. intros n w2.
    rewrite in_one_go_and_then. apply bind_ext; [one_call|]. intros _ w3.
    rewrite in_one_go_and_then. apply bind_ext; [one_call|]. done.
Qed.

Lemma in_one_go_run_process (title command : string) (target : Z) (w : World) :
  in_one_go (run_process_steps title command target) w
  = run_process_and_update_systray title command target w.
Proof.
  unfold run_process_steps, run_process_and_update_systray.
  rewrite in_one_go_and_then. apply bind_ext; [apply in_one_go_start_process|].
  intros [[start parts] process] w1.
  rewrite in_one_go_and_then. apply bind_ext; [apply in_one_go_read_lines|].
  intros r w2. apply in_one_go_finish_process.
Qed.

Lemma try_except_ext {A} (m m' : M A) (h h' : Exn → option (M A)) (w : World) :
  m w = m' w →
  (∀ e, match h e, h' e with
        | Some a, Some b => ∀ w', a w' = b w'
        | None, None => True
        | _, _ => False
        end) →
  try_except m h w = try_except m' h' w.
Proof.
  intros Hm Hh. unfold try_except. rewrite Hm. destruct (m' w) as [w' [a|e]]; [done|].
  specialize (Hh e). destruct (h e), (h' e); done.
Qed.

(** The steps of [run_backup], taken with no step of another thread in
    between, are [run_backup] of the sequential model. *)
Lemma run_backup_in_one_go (config : BackupConfiguration) (w : World) :
  in_one_go (run_backup_steps config) w = run_backup config w.
Proof.
  unfold run_backup_steps, run_backup. rewrite in_one_go_try.
  apply try_except_ext.
  - unfold run_backup_body_steps, run_backup_body.
    rewrite in_one_go_and_then. apply bind_ext; [one_call|]. intros running w1.
    destruct running; [one_call|].
    rewrite in_one_go_and_then. apply bind_ext; [one_call|]. intros _ w2.
    rewrite in_one_go_and_then. apply bind_ext; [one_call|]. intros n w3.
    rewrite in_one_go_and_then. apply bind_ext; [apply in_one_go_run_process|].
    intros n' w4. one_call.
  - intros e. destruct (is_CalledProcessError e); cbn [fmap option_fmap option_map];
      [done|]. intros w'.
    rewrite in_one_go_and_then. apply bind_ext; [one_call|].
    intros _ w1. one_call.
Qed.

(** The same for [run_post_backup]. *)
Lemma run_post_backup_in_one_go (config : BackupConfiguration) (is_scheduled : bool)
    (w : World) :
  in_one_go (run_post_backup_steps config is_scheduled) w
  = run_post_backup config is_scheduled w.
Proof.
  unfold run_post_backup_steps, run_post_backup. rewrite in_one_go_try.
  apply try_except_ext.
  - unfold run_post_backup_body_steps, run_post_backup_body.
    rewrite in_one_go_and_then. apply bind_ext.
    { destruct is_scheduled; [one_call|done]. }
    intros _ w0.
    rewrite in_one_go_and_then. apply bind_ext; [one_call|]. intros running w1.
    destruct running; [one_call|].
    rewrite in_one_go_and_then. apply bind_ext; [one_call|]. intros backup_running w2.
    destruct backup_running.
    + rewrite in_one_go_and_then. apply bind_ext; [one_call|]. intros _ w3.
      rewrite in_one_go_and_then. apply bind_ext; [one_call|]. intros _ w4.
      one_call.
    + rewrite in_one_go_and_then. apply bind_ext; [apply in_one_go_run_process|]. done.
  - intros e. destruct (is_CalledProcessError e); cbn [fmap option_fmap option_map];
      [done|]. intros w'.
    rewrite in_one_go_and_then. apply bind_ext; [one_call|].
    intros _ w1. one_call.
Qed.

(** *** Runs of threads *)

(** The steps a thread takes in a run are steps of what it had to do. *)
Lemma run_threads_took (schedule : list nat) (pool : list (Prog unit)) (w : World) (i : nat)
    (p : Prog unit) :
  pool !! i = Some p →
  ∃ p', (run_threads schedule pool w).1.2 !! i = Some p'
        ∧ took p (steps_of i (run_threads schedule pool w).1.1) p'.
Proof.
  revert pool w p. induction schedule as [|j later IH]; intros pool w p Hp; simpl.
  { by exists p. }
  destruct (pool !! j) as [[r|c k]|] eqn:Hj; [by apply IH| |by apply IH].
  destruct (perform c w) as [w' r] eqn:Hc.
  destruct (decide (j = i)) as [->|Hne].
  - rewrite Hp in Hj. simplify_eq.
    destruct (IH (<[i := k r]> pool) w' (k r)) as (p' & Hp' & Ht).
    { apply list_lookup_insert_eq. by eapply lookup_lt_Some. }
    destruct (run_threads later (<[i := k r]> pool) w') as [[events pool'] w''].
    simpl in *. exists p'. split; [done|].
    unfold steps_of. rewrite filter_cons_True by done. simpl.
    rewrite Hc. simpl. done.
  - destruct (IH (<[j := k r]> pool) w' p) as (p' & Hp' & Ht).
    { by rewrite list_lookup_insert_ne by done. }
    destruct (run_threads later (<[j := k r]> pool) w') as [[events pool'] w''].
    simpl in *. exists p'. split; [done|].
    unfold steps_of. by rewrite filter_cons_False.
Qed.

Lemma took_after {A} (p p' : Prog A) (es : list Event) :
  took p es p' → ∀ e, e ∈ es → after e = (perform (made e) (before e)).1.
Proof.
  revert p. induction es as [|e es IH]; intros p; simpl.
  - by intros _ e ?%elem_of_nil.
  - destruct p as [|c k]; [done|]. intros (Hc & Ha & Ht) e' [->|Hin]%elem_of_cons.
    + by rewrite Hc.
    + by eapply IH.
Qed.

(** A thread that obeys a monitor sets off no alarm in any run, and what
    it has left to do obeys the monitor from the state reached. *)
Lemma obeys_took {S A} (monitor : S → Event → option S) (final : S → Prop)
    (p p' : Prog A) (es : list Event) (s : S) :
  obeys monitor final s p → took p es p' →
  ∃ s', watch monitor s es = Some s' ∧ obeys monitor final s' p'.
Proof.
  revert p s. induction es as [|e es IH]; intros p s Ho; simpl.
  - intros ->. by exists s.
  - destruct p as [|c k]; [done|]. intros (Hc & Ha & Ht).
    simpl in Ho. specialize (Ho (actor e) (before e)).
    assert ({| actor := actor e; made := c; before := before e;
               after := (perform c (before e)).1 |} = e) as He.
    { destruct e. simpl in *. by subst. }
    rewrite He in Ho. destruct (monitor s e) as [s'|]; [|done]. by eapply IH.
Qed.

Lemma makes_only_weaken {A} (P Q : Call → Prop) (p : Prog A) :
  (∀ c, P c → Q c) → makes_only P p → makes_only Q p.
Proof.
  intros HPQ. induction p as [r|c k IH]; simpl; [done|].
  intros [Hc Hk]. split; [by apply HPQ|]. intros r. by apply IH.
Qed.

Lemma makes_only_and_then {A B} (P : Call → Prop) (p : Prog A) (k : A → Prog B) :
  makes_only P p → (∀ a, makes_only P (k a)) → makes_only P (and_then p k).
Proof.
  intros Hp Hk. induction p as [[a|e]|c k' IH]; simpl; [done..|].
  destruct Hp as [Hc Hk']. split; [done|]. intros r. by apply IH.
Qed.

Lemma makes_only_try {A} (P : Call → Prop) (p : Prog A) (handler : Exn → option (Prog A)) :
  makes_only P p → (∀ e h, handler e = Some h → makes_only P h) →
  makes_only P (try_steps p handler).
Proof.
  intros Hp Hh. induction p as [[a|e]|c k' IH]; simpl.
  - done.
  - destruct (handler e) as [h|] eqn:E; [by eapply Hh|done].
  - destruct Hp as [Hc Hk']. split; [done|]. intros r. by apply IH.
Qed.

Lemma makes_only_call (P : Call → Prop) (c : Call) : P c → makes_only P (call c).
Proof. intros Hc. by split. Qed.

(** *** The calls of the supervisor *)

Lemma wait_steps_calls (process : Process) : makes_only after_start (wait_steps process).
Proof.
  induction process as [m rc|m raw next IH]; cbn [wait_steps].
  - apply makes_only_and_then; [by apply makes_only_call|done].
  - apply makes_only_and_then; [by apply makes_only_call|]. intros _. apply IH.
Qed.

Lemma handle_line_steps_calls (title : string) (target : Z) (start : Q) (count : Z)
    (text : string) (st : Progress) :
  makes_only after_start (handle_line_steps title target start count text st).
Proof.
  unfold handle_line_steps. apply makes_only_and_then; [by apply makes_only_call|].
  intros now. destruct (Qltb 1 _); [|done].
  apply makes_only_and_then; [by apply makes_only_call|]. intros now2.
  apply makes_only_and_then; [by apply makes_only_call|]. intros _.
  apply makes_only_and_then; [by apply makes_only_call|]. done.
Qed.

Lemma read_lines_steps_calls (title : string) (target : Z) (start : Q)
    (process : Process) (st : Progress) :
  makes_only after_start (read_lines_steps title target start process st).
Proof.
  revert st. induction process as [m rc|m raw next IH]; intros st; cbn [read_lines_steps].
  - apply makes_only_and_then; [by apply makes_only_call|done].
  - apply makes_only_and_then; [by apply makes_only_call|]. intros _.
    destruct (String.eqb raw "").
    + apply makes_only_and_then; [apply wait_steps_calls|done].
    + apply makes_only_and_then; [by apply makes_only_call|]. intros status.
      destruct (decode_utf8 raw).
      * apply makes_only_and_then; [apply handle_line_steps_calls|]. intros st'. apply IH.
      * apply makes_only_and_then; [apply wait_steps_calls|done].
Qed.

Lemma finish_process_steps_calls (title : string) (parts : list string) (start : Q)
    (st : Progress) (rc : Z) :
  makes_only after_start (finish_process_steps title parts start st rc).
Proof.
  unfold finish_process_steps. apply makes_only_and_then; [by apply makes_only_call|].
  intros now. destruct (negb (rc =? 0)).
  - apply makes_only_and_then; [by apply makes_only_call|]. intros _.
    apply makes_only_and_then; [by apply makes_only_call|]. intros n.
    apply makes_only_and_then; [by apply makes_only_call|]. done.
  - apply makes_only_and_then; [by apply makes_only_call|]. intros n.
    apply makes_only_and_then; [by apply makes_only_call|]. intros _.
    apply makes_only_and_then; [by apply makes_only_call|]. done.
Qed.

Lemma start_process_steps_calls (title command : string) :
  makes_only supervising (start_process_steps title command).
Proof.
  unfold start_process_steps. apply makes_only_and_then; [by apply makes_only_call|].
  intros _. apply makes_only_and_then; [by apply makes_only_call|]. intros _.
  apply makes_only_and_then; [by apply makes_only_call|]. intros start.
  destruct (shlex_split command); [|done].
  apply makes_only_and_then; [by apply makes_only_call|]. done.
Qed.

Lemma after_start_supervising (c : Call) : after_start c → supervising c.
Proof. by destruct c. Qed.

Lemma run_process_steps_calls (title command : string) (target : Z) :
  makes_only supervising (run_process_steps title command target).
Proof.
  unfold run_process_steps. apply makes_only_and_then; [apply start_process_steps_calls|].
  intros [[start parts] process].
  apply (makes_only_weaken after_start); [apply after_start_supervising|].
  apply makes_only_and_then; [apply read_lines_steps_calls|].
  intros r. apply finish_process_steps_calls.
Qed.

(** The handler of the two workers. *)
Lemma start_handler_calls (title : string) (text : Exn → string) (e : Exn)
    (h : Prog unit) :
  (if is_CalledProcessError e then Some (returns tt)
   else Some (and_then (call (call_set_status title FAILED))
                (fun _ => call (call_output (text e))))) = Some h →
  makes_only after_start h.
Proof.
  destruct (is_CalledProcessError e); intros [= <-]; [done|].
  split; [done|]. intros [[]|?]; [by apply makes_only_call|done].
Qed.

Lemma task_is_running_result (task : string) (w : World) :
  (task_is_running task w).2 = Ok (bool_decide (is_active (status_of task (task_status w)))).
Proof. by rewrite task_is_running_effect. Qed.

Lemma output_result (line : string) (w : World) : (output line w).2 = Ok tt.
Proof. by rewrite output_effect. Qed.

Lemma time_result (w : World) : (time w).2 = Ok (time_at (ticks w)).
Proof. done. Qed.

Lemma rotate_logs_result (log_file : Path) (w : World) : (rotate_logs log_file w).2 = Ok tt.
Proof. by rewrite rotate_logs_spec. Qed.

Lemma supervising_obeys_guard {A} (primary : string) (p : Prog A) :
  makes_only supervising p → obeys (guard_monitor primary) (fun _ => True) passed p.
Proof.
  induction p as [r|c k IH]; simpl; [done|]. intros [Hc Hk] i w.
  unfold guard_monitor. simpl. destruct c; simpl in Hc; try done; by apply IH.
Qed.

Lemma after_start_obeys_guard {A} (primary : string) (s : Guard) (p : Prog A) :
  makes_only after_start p → obeys (guard_monitor primary) (fun _ => True) s p.
Proof.
  induction p as [r|c k IH]; simpl; [done|]. intros [Hc Hk] i w.
  unfold guard_monitor. simpl. destruct c; simpl in Hc; try done; by apply IH.
Qed.

Lemma after_start_obeys_start {A} (title : string) (s : Handling) (p : Prog A) :
  s = cleared ∨ s = marked ∨ s = started_one →
  makes_only after_start p → obeys (start_monitor title) handled s p.
Proof.
  intros Hs. induction p as [r|c k IH]; simpl.
  - intros _. unfold handled. destruct Hs as [-> | [-> | ->]]; done.
  - intros [Hc Hk] i w.
    destruct Hs as [-> | [-> | ->]]; destruct c;
      repeat match goal with x : TaskStatus |- _ => destruct x end;
      simpl in Hc; try done; simpl; apply IH; auto.
Qed.

Ltac obey :=
  cbn [obeys try_steps and_then call returns raises]; intros ? ?;
  cbn [perform made before after guard_monitor start_monitor];
  rewrite ?task_is_running_result, ?output_result, ?rotate_logs_result.

(** The worker of [run_post_backup] reads the status of the backup task at
    most once and calls [Popen] only after it found it not active. *)
Lemma run_post_backup_obeys_guard (config : BackupConfiguration) (is_scheduled : bool) :
  obeys (guard_monitor (name config +:+ " backup")) (fun _ => True) unread
    (run_post_backup_steps config is_scheduled).
Proof.
  unfold run_post_backup_steps, run_post_backup_body_steps.
  assert (String.eqb (name config +:+ " post-backup") (name config +:+ " backup") = false)
    as Hne by (apply String.eqb_neq, title_backup_ne_post_backup).
  set (handler := fun ex : Exn => _).
  assert (∀ e h, handler e = Some h → makes_only after_start h) as Hh.
  { intros e h. subst handler. apply (start_handler_calls _ (fun ex => _)). }
  assert (obeys (guard_monitor (name config +:+ " backup")) (fun _ => True) unread
            (try_steps
               (running <- call (call_task_is_running (name config +:+ " post-backup")) ;;
                if running
                then call (call_output
                             ((name config +:+ " post-backup") +:+ " is already running, skipping"))
                else
                  backup_running <- call (call_task_is_running (name config +:+ " backup")) ;;
                  if backup_running
                  then
                    call (call_output
                            ((name config +:+ " backup") +:+ " is still running, delaying "
                             +:+ (name config +:+ " post-backup"))) ;;
                    call (call_sleep 30) ;;
                    call (call_put_input (StartPostBackup config is_scheduled))
                  else
                    run_process_steps (name config +:+ " post-backup")
                      (post_backup_command config) 0 ;;
                    returns tt)%steps handler)) as Hrest.
  { obey. rewrite Hne. case_bool_decide as Hown.
    - obey. done.
    - obey. rewrite String.eqb_refl. case_bool_decide as Hprimary.
      + obey. obey. obey. done.
      + apply supervising_obeys_guard. apply makes_only_try.
        * apply makes_only_and_then; [apply run_process_steps_calls|done].
        * intros e h H. eapply makes_only_weaken; [apply after_start_supervising|eauto]. }
  destruct is_scheduled; [|exact Hrest].
  obey. exact Hrest.
Qed.

(** From its first statement on the supervisor marks the task RUNNING,
    then calls [Popen] at most once. *)
Lemma supervisor_obeys_start (title command : string) (target : Z) (k : Z → Prog unit)
    (handler : Exn → option (Prog unit)) :
  (∀ n, makes_only after_start (k n)) →
  (∀ e h, handler e = Some h → makes_only after_start h) →
  obeys (start_monitor title) handled cleared
    (try_steps (and_then (run_process_steps title command target) k) handler).
Proof.
  intros Hk Hh. unfold run_process_steps, start_process_steps.
  obey. rewrite String.eqb_refl.
  obey. obey.
  destruct (shlex_split command) as [parts|].
  - obey. apply after_start_obeys_start; [auto|].
    apply makes_only_try; [|done].
    lazymatch goal with
    | |- context [match ?x with Ok _ => _ | Raise _ => _ end] =>
        destruct x as [process|e]; [cbn [and_then returns]|done]
    end.
    apply makes_only_and_then; [|done].
    apply makes_only_and_then; [apply read_lines_steps_calls|].
    intros r. apply finish_process_steps_calls.
  - rewrite time_result. cbn [try_steps and_then raises].
    destruct (handler (ValueError "No closing quotation")) as [h|] eqn:E;
      [|by (simpl; split; discriminate)].
    apply after_start_obeys_start; [auto|]. by eapply Hh.
Qed.

Lemma run_backup_obeys_start (config : BackupConfiguration) :
  obeys (start_monitor (name config +:+ " backup")) handled not_checked
    (run_backup_steps config).
Proof.
  unfold run_backup_steps, run_backup_body_steps.
  set (handler := fun ex : Exn => _).
  assert (∀ e h, handler e = Some h → makes_only after_start h) as Hh.
  { intros e h. subst handler. apply (start_handler_calls _ (fun ex => _)). }
  obey. rewrite String.eqb_refl. case_bool_decide as Hown.
  - obey. rewrite String.eqb_refl. by (simpl; split; discriminate).
  - obey. obey.
    lazymatch goal with
    | |- context [match ?x with Ok _ => _ | Raise _ => _ end] => destruct x as [n|e]
    end.
    + apply supervisor_obeys_start; [|done]. intros n'. by apply makes_only_call.
    + cbn [try_steps and_then]. destruct (handler e) as [h|] eqn:E; [|by (simpl; split; discriminate)].
      apply after_start_obeys_start; [auto|]. by eapply Hh.
Qed.

Lemma run_post_backup_obeys_start (config : BackupConfiguration) (is_scheduled : bool) :
  obeys (start_monitor (name config +:+ " post-backup")) handled not_checked
    (run_post_backup_steps config is_scheduled).
Proof.
  unfold run_post_backup_steps, run_post_backup_body_steps.
  assert (String.eqb (name config +:+ " backup") (name config +:+ " post-backup") = false)
    as Hne.
  { apply String.eqb_neq. intros H. by apply (title_backup_ne_post_backup (name config)). }
  set (handler := fun ex : Exn => _).
  assert (∀ e h, handler e = Some h → makes_only after_start h) as Hh.
  { intros e h. subst handler. apply (start_handler_calls _ (fun ex => _)). }
  assert (obeys (start_monitor (name config +:+ " post-backup")) handled not_checked
            (try_steps
               (running <- call (call_task_is_running (name config +:+ " post-backup")) ;;
                if running
                then call (call_output
                             ((name config +:+ " post-backup") +:+ " is already running, skipping"))
                else
                  backup_running <- call (call_task_is_running (name config +:+ " backup")) ;;
                  if backup_running
                  then
                    call (call_output
                            ((name config +:+ " backup") +:+ " is still running, delaying "
                             +:+ (name config +:+ " post-backup"))) ;;
                    call (call_sleep 30) ;;
                    call (call_put_input (StartPostBackup config is_scheduled))
                  else
                    run_process_steps (name config +:+ " post-backup")
                      (post_backup_command config) 0 ;;
                    returns tt)%steps handler)) as Hrest.
  { obey. rewrite String.eqb_refl. case_bool_decide as Hown.
    - obey. rewrite String.eqb_refl. by (simpl; split; discriminate).
    - obey. rewrite Hne. case_bool_decide as Hprimary.
      + obey. obey. obey. by (simpl; split; discriminate).
      + by apply supervisor_obeys_start. }
  destruct is_scheduled; [|exact Hrest].
  obey. exact Hrest.
Qed.

(** *** What the monitors tell *)

Lemma watch_app {S} (monitor : S → Event → option S) (s : S) (l1 l2 : list Event) :
  watch monitor s (l1 ++ l2)
  = match watch monitor s l1 with
    | Some s' => watch monitor s' l2
    | None => None
    end.
Proof.
  revert s. induction l1 as [|e l1 IH]; intros s; simpl; [done|].
  destruct (monitor s e); [apply IH|done].
Qed.

Lemma watch_split {S} (monitor : S → Event → option S) (s s' : S)
    (earlier later : list Event) (e : Event) :
  watch monitor s (earlier ++ e :: later) = Some s' →
  ∃ s1 s2, watch monitor s earlier = Some s1 ∧ monitor s1 e = Some s2
           ∧ watch monitor s2 later = Some s'.
Proof.
  rewrite watch_app. destruct (watch monitor s earlier) as [s1|]; [|done]. simpl.
  destruct (monitor s1 e) as [s2|] eqn:E; [|done]. eauto.
Qed.

Ltac label Hc := rewrite ?Hc; simpl; first [done|tauto|congruence].

Ltac calls e Hc :=
  destruct (made e)
    as [seconds|task_title|line|item|lf|lcf|lcf n|task status|task| | |args|meanwhile|hover icon]
    eqn:Hc.

Lemma guard_settled (primary : string) (s s' : Guard) (l : list Event) :
  s ≠ unread → watch (guard_monitor primary) s l = Some s' →
  s' = s
  ∧ Forall (fun e => made e ≠ call_task_is_running primary) l
  ∧ (s = blocked → Forall (fun e => ¬ is_Popen (made e)) l).
Proof.
  intros Hs. induction l as [|e l IH]; simpl.
  - intros [= <-]. by repeat split.
  - unfold guard_monitor at 1.
    calls e Hc;
      try (intros H; apply IH in H as (-> & H1 & H2);
           split; [done|]; split; [constructor; [label Hc|done]|];
           intros Hb; constructor; [label Hc|auto]).
    + destruct (String.eqb_spec task_title primary) as [->|Hne].
      * by destruct s.
      * intros H. apply IH in H as (-> & H1 & H2).
        split; [done|]. split; [constructor; [label Hc|done]|].
        intros Hb. constructor; [label Hc|auto].
    + destruct s; try done. intros H. apply IH in H as (-> & H1 & H2).
      split; [done|]. split; [constructor; [label Hc|done]|]. done.
Qed.

Lemma guard_unread (primary : string) (s' : Guard) (l : list Event) :
  watch (guard_monitor primary) unread l = Some s' →
  match s' with
  | unread =>
      Forall (fun e => ¬ is_Popen (made e)) l
      ∧ Forall (fun e => made e ≠ call_task_is_running primary) l
  | blocked => Forall (fun e => ¬ is_Popen (made e)) l
  | passed =>
      ∃ earlier check later,
        l = earlier ++ check :: later
        ∧ made check = call_task_is_running primary
        ∧ ¬ is_active (status_of primary (task_status (before check)))
        ∧ Forall (fun e => ¬ is_Popen (made e)) earlier
        ∧ Forall (fun e => made e ≠ call_task_is_running primary) (earlier ++ later)
  end.
Proof.
  induction l as [|e l IH]; simpl.
  - intros [= <-]. by split.
  - unfold guard_monitor at 1.
    calls e Hc;
      try (intros H; apply IH in H; destruct s';
           [destruct H; split; constructor; first [done|label Hc]
           |destruct H as (earlier & check & later & -> & H1 & H2 & H3 & H4);
            exists (e :: earlier), check, later;
            repeat split; try done; constructor; first [done|label Hc]
           |constructor; first [done|label Hc]]).
    + destruct (String.eqb_spec task_title primary) as [->|Hne].
      * case_bool_decide as Ha; intros H;
          apply guard_settled in H as (-> & H1 & H2); try done.
        -- constructor; [label Hc|auto].
        -- exists [], e, l. repeat split; try done.
      * intros H. apply IH in H. destruct s'.
        -- destruct H. split; constructor; first [done|label Hc].
        -- destruct H as (earlier & check & later & -> & H1 & H2 & H3 & H4).
           exists (e :: earlier), check, later.
           repeat split; try done; constructor; first [done|label Hc].
        -- constructor; first [done|label Hc].
    + done.
Qed.

(** One step of the monitor of a start request, case by case. *)
Ltac start_cases s e Hc Hm :=
  unfold start_monitor in Hm; destruct s; calls e Hc;
  try (match goal with status : TaskStatus |- _ => destruct status end);
  simpl in Hm; try discriminate Hm;
  try (match type of Hm with context [String.eqb ?a ?b] =>
         destruct (String.eqb_spec a b); [subst|]; try discriminate Hm end);
  try (match type of Hm with context [bool_decide ?P] =>
         destruct (bool_decide_reflect P) end);
  try discriminate Hm;
  try (injection Hm as <-).

Lemma start_check (title : string) (s s' : Handling) (e : Event) :
  start_monitor title s e = Some s' → made e = call_task_is_running title →
  s = not_checked
  ∧ s' = if bool_decide (is_active (status_of title (task_status (before e))))
         then skipping else cleared.
Proof.
  intros Hm Hc'. by start_cases s e Hc Hm; simplify_eq.
Qed.

Lemma start_Popen (title : string) (s s' : Handling) (e : Event) :
  start_monitor title s e = Some s' → is_Popen (made e) → s = marked ∧ s' = started_one.
Proof. intros Hm Hp. by start_cases s e Hc Hm. Qed.

Lemma start_history (title : string) (s s' : Handling) (l : list Event) :
  watch (start_monitor title) s l = Some s' →
  (s' = not_checked →
     s = not_checked ∧ Forall (fun e => ∃ seconds, made e = call_sleep seconds) l)
  ∧ (s = skipped → l = [])
  ∧ (s = skipping →
       l = [] ∧ s' = skipping
       ∨ ∃ o, l = [o] ∧ s' = skipped
              ∧ made o = call_output (title +:+ " is already running, skipping"))
  ∧ (s = started_one → Forall (fun e => ¬ is_Popen (made e)) l)
  ∧ (s' = marked →
       (s = not_checked ∨ s = cleared ∨ s = marked)
       ∧ Forall (fun e => ¬ is_Popen (made e)) l
       ∧ (s ≠ marked → Exists (fun e => made e = call_set_status title RUNNING) l)
       ∧ (s = not_checked →
            Exists (fun e => made e = call_task_is_running title
                             ∧ ¬ is_active (status_of title (task_status (before e)))) l)).
Proof.
  revert s. induction l as [|e l IH]; intros s; simpl.
  { intros [= <-]. split; [|split; [|split; [|split]]].
    - intros ->. split; [done|constructor].
    - done.
    - intros ->. by left.
    - intros _. constructor.
    - intros ->. split; [auto|]. split; [constructor|]. by split. }
  destruct (start_monitor title s e) as [s1|] eqn:Hm; [|done].
  intros H. pose proof (IH _ H) as (H1 & H2 & H3 & H4 & H5).
  split; [|split; [|split; [|split]]].
  - intros Hs'. destruct (H1 Hs') as [Hs1 Hl].
    start_cases s e Hc Hm; try done. split; [done|]. constructor; eauto.
  - intros Hs. by start_cases s e Hc Hm.
  - intros Hs. right. exists e.
    start_cases s e Hc Hm; try done.
    rewrite (H2 eq_refl) in H |- *. by injection H as <-.
  - intros Hs. start_cases s e Hc Hm; try done;
      (constructor; [label Hc|by apply H4]).
  - intros Hs'. destruct (H5 Hs') as (Hs1 & Hl & Hmark & Hcheck).
    start_cases s e Hc Hm; destruct Hs1 as [?|[?|?]]; try discriminate;
      (split; [auto|]); (split; [constructor; [label Hc|done]|]);
      (split; [intros ?; first [done|by constructor 2; auto|by constructor 1]|]);
      intros ?; first [done|by constructor 2; auto|by constructor 1].
Qed.

(** *** What a step does to the processes and to the status table *)

(** Only [Popen] starts a process, and it records the status table it
    found. *)
Lemma perform_started (c : Call) (w : World) :
  started (perform c w).1 = started w
  ∨ ∃ args, c = call_Popen args
            ∧ started (perform c w).1 = started w ++ [(args, task_status w)].
Proof.
  destruct c; cbn [perform];
    try (left; match goal with
               | |- started (?m w).1 = _ => first
                   [ reflexivity
                   | apply (frame_output started started_insensitive)
                   | apply (frame_task_is_running started started_insensitive)
                   | apply (frame_run_loop started started_insensitive)
                   | apply (frame_update_systray started started_insensitive)
                   | apply frame_load_line_count ]
               end).
  - left. by rewrite rotate_logs_spec.
  - unfold Popen. destruct (popen _ _); [right; eauto|by left].
Qed.

Lemma quiet_step_statuses (c : Call) (w : World) (task : string) :
  (∃ seconds, c = call_sleep seconds)
  ∨ (∃ task_title, c = call_task_is_running task_title)
  ∨ (∃ line, c = call_output line) →
  status_of task (task_status (perform c w).1) = status_of task (task_status w).
Proof.
  intros [[? ->]|[[? ->]|[? ->]]]; cbn [perform].
  - done.
  - rewrite task_is_running_effect. simpl. apply status_of_touch.
  - by rewrite output_effect.
Qed.


Lemma start_worker_obeys (item : QueueItem) (title : string) (worker : Prog unit) :
  start_title item = Some title → start_worker item = Some worker →
  obeys (start_monitor title) handled not_checked worker
  ∧ ∀ w, in_one_go worker w = thread_body (start_thread_of item) w.
Proof.
  destruct item; try done; simpl; intros [= <-] [= <-].
  - split; [apply run_backup_obeys_start|apply run_backup_in_one_go].
  - split; [apply run_post_backup_obeys_start|apply run_post_backup_in_one_go].
Qed.


End Proofs.
(** ** Examples and instances on concrete inputs *)

Import Demo Scenarios.

(** A FAILED task takes precedence over a RUNNING one. *)
Example failed_beats_running :
  select_icon [("Alpha backup", RUNNING); ("Beta backup", FAILED)] = Some error_ico.
Proof. reflexivity. Qed.

(** "post-backup" is looked for before "backup". *)
Example post_backup_icon_first :
  select_icon [("Alpha backup", FINISHED); ("Alpha post-backup", RUNNING)]
  = Some post_backup_ico.
Proof. reflexivity. Qed.

(** With the log and its nine generations present, every file moves up by
    one, what generation 9 held is gone and the log itself is gone. *)
Example rotate_all_ten :
  let fs := files (world_after (rotate_logs (log_file alpha)) all_ten_logs) in
  fs !! "C:\logs\borgmatic-alpha.log" = None
  ∧ fs !! "C:\logs\borgmatic-alpha.log.1" = Some "current"
  ∧ fs !! "C:\logs\borgmatic-alpha.log.2" = Some "old 1"
  ∧ fs !! "C:\logs\borgmatic-alpha.log.5" = Some "old 4"
  ∧ fs !! "C:\logs\borgmatic-alpha.log.9" = Some "old 8"
  ∧ size fs = 9%nat.
Proof. vm_compute. repeat split. Qed.

(** With no log file at all nothing happens. *)
Example rotate_nothing :
  rotate_logs (log_file alpha) empty_world = (empty_world, Ok tt).
Proof. reflexivity. Qed.

(** A first backup of three lines: the task is FINISHED, the line-count file
    holds 3, and the success text with the statistics is the last message. *)
Example alpha_backup_finishes :
  let w := world_after (run_backup (platform := three_lines) alpha) empty_world in
  task_status w = [("Alpha backup", FINISHED)]
  ∧ files w !! "C:\logs\lines-alpha.txt" = Some "3"
  ∧ last (output_queue w)
    = Some (UpdateSystray
              (Some ("Finished Alpha backup at 10:00 AM in 0:03s:" +:+ nl +:+ nl
                     +:+ "Number of files: 12"))
              (Some success_ico)).
Proof. vm_compute. repeat split. Qed.

(** A failing backup: the task is FAILED and no line count is written. *)
Example alpha_backup_fails :
  let w := world_after (run_backup (platform := failing) alpha) empty_world in
  task_status w = [("Alpha backup", FAILED)]
  ∧ files w !! "C:\logs\lines-alpha.txt" = None
  ∧ result_of (run_backup (platform := failing) alpha) empty_world = Ok tt.
Proof. vm_compute. repeat split. Qed.

(** The analyzer on one log: three items ten seconds apart, then one after
    a gap of eleven minutes, which is not counted; equal totals keep the
    order in which the files were first met. *)
Example analysis_of_sample :
  let w := with_files {[ "C:\logs\borgmatic-alpha.log" := sample_log ]} empty_world in
  match result_of (analysis (platform := no_processes) alpha) w with
  | Ok (sorted_files, sorted_paths, _, backup_count) =>
      backup_count = 1
      ∧ map fst sorted_files = ["/home/a.txt"; "/home/b.txt"]
      ∧ map (report_line backup_count) sorted_files
        = ["10.00s: /home/a.txt" +:+ nl; "10.00s: /home/b.txt" +:+ nl]
      ∧ map (report_line backup_count) sorted_paths
        = ["20.00s: " +:+ nl; "20.00s: /home" +:+ nl;
           "10.00s: /home/a.txt" +:+ nl; "10.00s: /home/b.txt" +:+ nl]
  | Raise _ => False
  end.
Proof. vm_compute. repeat split. Qed.

(** Floats are binary64: a tenth is not 1/10, 0.1 + 0.2 is above 0.3, and
    [f"{x:.2f}"] rounds the float it is given, so that 0.005 prints as 0.01
    and 0.015 as 0.01 as well, while 0.125, a float itself, is a tie and
    goes to the even 0.12. *)
Example floats_are_binary64 :
  PyFloat.binary64 (1 # 10) = (3602879701896397 # 36028797018963968)%Q
  ∧ (PyFloat.binary64 (3 # 10)
     < PyFloat.add (PyFloat.binary64 (1 # 10)) (PyFloat.binary64 (2 # 10)))%Q
  ∧ PyStr.format_2f (PyFloat.binary64 (5 # 1000)) = "0.01"
  ∧ PyStr.format_2f (PyFloat.binary64 (15 # 1000)) = "0.01"
  ∧ PyStr.format_2f (PyFloat.binary64 (125 # 1000)) = "0.12"
  ∧ PyStr.format_2f (PyFloat.div (PyFloat.binary64 (- 1 # 1000)) 2) = "-0.00".
Proof. vm_compute. repeat split. Qed.

(** [len] counts characters: the two bytes of an e with an acute accent
    are one character. *)
Example len_counts_characters :
  let e_acute := String (ascii_of_nat 195) (String (ascii_of_nat 169) "") in
  PyStr.len e_acute = 1%nat ∧ String.length e_acute = 2%nat ∧ PyStr.len "AB" = 2%nat.
Proof. vm_compute. repeat split. Qed.

(** *** Instances of the theorems that have hypotheses *)

Lemma post_backup_is_requeued_while_backup_active_witness :
  ¬ is_active (status_of "Alpha post-backup" (task_status backup_running))
  ∧ is_active (status_of "Alpha backup" (task_status backup_running))
  ∧ input_queue (world_after (run_post_backup (platform := three_lines) alpha true)
                   backup_running)
    = [StartPostBackup alpha true].
Proof.
  assert (¬ is_active (status_of "Alpha post-backup" (task_status backup_running))) as H1.
  { vm_compute. intros [H|H]; discriminate H. }
  assert (is_active (status_of "Alpha backup" (task_status backup_running))) as H2.
  { left. reflexivity. }
  split; [exact H1|]. split; [exact H2|].
  apply (post_backup_is_requeued_while_backup_active (platform := three_lines)
           alpha true backup_running H1 H2).
Defined.



Lemma cancelled_backup_exiting_zero_finishes_witness :
  ¬ is_active (status_of "Alpha backup" (task_status empty_world))
  ∧ load_line_count (platform := cancelled_but_fine) (backup_line_count_file alpha)
      (world_after (task_is_running "Alpha backup" ;; rotate_logs (log_file alpha))
         empty_world)
    = (cancelled_loaded.1, Ok 0)
  ∧ start_process (platform := cancelled_but_fine) "Alpha backup" (backup_command alpha)
      cancelled_loaded.1
    = (cancelled_started.1, Ok (cancelled_start, cancelled_parts, cancelled_process))
  ∧ read_lines (platform := cancelled_but_fine) "Alpha backup" 0 cancelled_start
      cancelled_process
      {| line_count := 0; stats_output := ""; last_update_time := cancelled_start |}
      cancelled_started.1
    = (cancelled_read.1, Ok (cancelled_progress, 0))
  ∧ status_of "Alpha backup" (task_status cancelled_read.1) = CANCEL_REQUESTED
  ∧ status_of "Alpha backup"
      (task_status (world_after (run_backup (platform := cancelled_but_fine) alpha)
                      empty_world))
    = FINISHED
  ∧ files (world_after (run_backup (platform := cancelled_but_fine) alpha) empty_world)
      !! path_str (backup_line_count_file alpha)
    = Some "2".
Proof.
  assert (¬ is_active (status_of "Alpha backup" (task_status empty_world))) as H0.
  { vm_compute. intros [H|H]; discriminate H. }
  assert (load_line_count (platform := cancelled_but_fine) (backup_line_count_file alpha)
            (world_after (task_is_running "Alpha backup" ;; rotate_logs (log_file alpha))
               empty_world)
          = (cancelled_loaded.1, Ok 0)) as H1 by (vm_compute; reflexivity).
  assert (start_process (platform := cancelled_but_fine) "Alpha backup"
            (backup_command alpha) cancelled_loaded.1
          = (cancelled_started.1,
             Ok (cancelled_start, cancelled_parts, cancelled_process))) as H2
    by (vm_compute; reflexivity).
  assert (read_lines (platform := cancelled_but_fine) "Alpha backup" 0 cancelled_start
            cancelled_process
            {| line_count := 0; stats_output := ""; last_update_time := cancelled_start |}
            cancelled_started.1
          = (cancelled_read.1, Ok (cancelled_progress, 0))) as H3
    by (vm_compute; reflexivity).
  assert (status_of "Alpha backup" (task_status cancelled_read.1) = CANCEL_REQUESTED)
    as H4 by (vm_compute; reflexivity).
  split; [exact H0|]. split; [exact H1|]. split; [exact H2|]. split; [exact H3|].
  split; [exact H4|].
  destruct (cancelled_backup_exiting_zero_finishes (platform := cancelled_but_fine)
              alpha empty_world _ _ _ _ _ _ _ _ _ H0 H1 H2 H3 H4) as [Hzero _].
  destruct (Hzero eq_refl) as (Hs & _ & Hf & _). split; [exact Hs|exact Hf].
Defined.

(** A scheduled post-backup request that meets a running backup starts
    nothing and comes back on the input queue. *)
Example post_backup_delayed :
  let w := world_after (run_post_backup (platform := three_lines) alpha true)
             backup_running in
  started w = [] ∧ slept w = [10; 30] ∧ input_queue w = [StartPostBackup alpha true]
  ∧ task_status w = [("Alpha backup", RUNNING); ("Alpha post-backup", NOT_STARTED)].
Proof. vm_compute. repeat split. Qed.

(** The dispatch loop survives an object it does not know and leaves for
    Exit; what arrives after Exit is never handled. *)
Example loop_survives_unknown :
  let w := world_after (run (platform := three_lines)
                          [[Other "int"]; [StartBackup alpha false]; [Exit];
                           [StartBackup alpha false]]) empty_world in
  loop_exited w = true
  ∧ threads w = [{| target := target_run_backup; args := StartBackup alpha false |}]
  ∧ map (fun item => match item with UpdateSystray _ i => i | _ => None end)
      (output_queue w)
    = [Some drive_ico; None; Some error_ico; None; Some drive_ico]
  ∧ stdout w
    = ["[2024-05-01 10:00:00.0] Background backup thread started";
       "[2024-05-01 10:00:00.2] Error in background backup thread: "
       +:+ "Backup thread got unknown type in input queue: <class 'int'>" +:+ nl
       +:+ "Traceback (most recent call last): ...";
       "[2024-05-01 10:00:00.5] Exiting background backup thread"].
Proof. vm_compute. repeat split. Qed.

(** A cancelled backup whose process exits with 0 all the same ends
    FINISHED, with its line count saved. *)
Example cancelled_backup_finishes :
  let w := world_after (run_backup (platform := cancelled_but_fine) alpha) empty_world in
  task_status w = [("Alpha backup", FINISHED)]
  ∧ files w !! "C:\logs\lines-alpha.txt" = Some "2"
  ∧ stdout w
    = ["[2024-05-01 10:00:00.0] Running Alpha backup: started";
       "[2024-05-01 10:00:00.4] Cancelled Alpha backup";
       "[2024-05-01 10:00:00.10] Finished Alpha backup at 10:00 AM in 0:03s:"].
Proof. vm_compute. repeat split. Qed.

(** *** Instances of the further theorems that have hypotheses *)

Import Cases.

Lemma unreadable_line_count_fails_the_backup_witness :
  ¬ is_active (status_of "Alpha backup" (task_status unreadable_lines))
  ∧ files unreadable_lines !! path_str (backup_line_count_file alpha) = Some "many"
  ∧ parse_int (Platform := three_lines) "many" = None
  ∧ status_of "Alpha backup"
      (task_status (world_after (run_backup (platform := three_lines) alpha)
                      unreadable_lines))
    = FAILED.
Proof.
  assert (¬ is_active (status_of "Alpha backup" (task_status unreadable_lines))) as H0.
  { vm_compute. intros [H|H]; discriminate H. }
  assert (path_str (backup_line_count_file alpha) ≠ path_str (log_file alpha)) as H1
    by (vm_compute; discriminate).
  assert (∀ i, 1 ≤ i ≤ 9 →
            path_str (backup_line_count_file alpha) ≠ generation_str (log_file alpha) i)
    as H2 by (intros i _; unfold generation_str; vm_compute; discriminate).
  assert (files unreadable_lines !! path_str (backup_line_count_file alpha) = Some "many")
    as H3 by (vm_compute; reflexivity).
  assert (parse_int (Platform := three_lines) "many" = None) as H4
    by (vm_compute; reflexivity).
  split; [exact H0|]. split; [exact H3|]. split; [exact H4|].
  destruct (unreadable_line_count_fails_the_backup (platform := three_lines)
              alpha "many" unreadable_lines H0 H1 H2 H3 H4) as (_ & Hs & _).
  exact Hs.
Defined.

Lemma failed_listing_fails_the_diff_witness :
  shlex_split (Platform := failing)
    ("wsl.exe -d " +:+ wsl_distro alpha +:+ " -- PATH=~/.local/bin:$PATH borgmatic "
     +:+ "--config " +:+ to_wsl_path (config_file alpha) +:+ " borg rlist")
  = Some alpha_list_parts
  ∧ popen (Platform := failing) (length (started empty_world)) alpha_list_parts
    = Some (prints ["Creating archive" +:+ nl; "error" +:+ nl] 1)
  ∧ exit_code (prints ["Creating archive" +:+ nl; "error" +:+ nl] 1) ≠ 0
  ∧ status_of "Alpha diff"
      (task_status (world_after (diff_last_backups (platform := failing) alpha "notepad.exe")
                      empty_world))
    = FAILED.
Proof.
  assert (shlex_split (Platform := failing)
            ("wsl.exe -d " +:+ wsl_distro alpha +:+ " -- PATH=~/.local/bin:$PATH borgmatic "
             +:+ "--config " +:+ to_wsl_path (config_file alpha) +:+ " borg rlist")
          = Some alpha_list_parts) as H1 by (vm_compute; reflexivity).
  assert (popen (Platform := failing) (length (started empty_world)) alpha_list_parts
          = Some (prints ["Creating archive" +:+ nl; "error" +:+ nl] 1)) as H2
    by (vm_compute; reflexivity).
  assert (exit_code (prints ["Creating archive" +:+ nl; "error" +:+ nl] 1) ≠ 0) as H3
    by (vm_compute; discriminate).
  split; [exact H1|]. split; [exact H2|]. split; [exact H3|].
  destruct (failed_listing_fails_the_diff (platform := failing) alpha "notepad.exe"
              alpha_list_parts _ empty_world H1 H2 H3) as (_ & Hs & _).
  exact Hs.
Defined.

Lemma malformed_log_line_fails_the_analysis_witness :
  files malformed_log !! path_str (log_file alpha)
  = Some ("plain text" +:+ nl
          +:+ "[2024-05-01 10:00:00,000] INFO A /home/a.txt" +:+ nl
          +:+ "[yesterday at-noon] INFO A /home/b.txt" +:+ nl)
  ∧ ("[yesterday at-noon] INFO A /home/b.txt" +:+ nl)
    ∈ PyStr.lines ("plain text" +:+ nl
                   +:+ "[2024-05-01 10:00:00,000] INFO A /home/a.txt" +:+ nl
                   +:+ "[yesterday at-noon] INFO A /home/b.txt" +:+ nl)
  ∧ strptime (Platform := three_lines)
      (timestamp_text ("[yesterday at-noon] INFO A /home/b.txt" +:+ nl)) = None
  ∧ status_of "Alpha analysis"
      (task_status (world_after (analyze_logs (platform := three_lines) alpha "notepad.exe")
                      malformed_log))
    = FAILED.
Proof.
  assert (files malformed_log !! path_str (log_file alpha)
          = Some ("plain text" +:+ nl
                  +:+ "[2024-05-01 10:00:00,000] INFO A /home/a.txt" +:+ nl
                  +:+ "[yesterday at-noon] INFO A /home/b.txt" +:+ nl)) as H1
    by (vm_compute; reflexivity).
  assert (("[yesterday at-noon] INFO A /home/b.txt" +:+ nl)
          ∈ PyStr.lines ("plain text" +:+ nl
                         +:+ "[2024-05-01 10:00:00,000] INFO A /home/a.txt" +:+ nl
                         +:+ "[yesterday at-noon] INFO A /home/b.txt" +:+ nl)) as H2
    by (vm_compute; do 2 right; left).
  assert (5 ≤ length (PyStr.split_ws ("[yesterday at-noon] INFO A /home/b.txt" +:+ nl)))%nat
    as H3 by (vm_compute; lia).
  assert (strptime (Platform := three_lines)
            (timestamp_text ("[yesterday at-noon] INFO A /home/b.txt" +:+ nl)) = None) as H4
    by (vm_compute; reflexivity).
  split; [exact H1|]. split; [exact H2|]. split; [exact H4|].
  destruct (malformed_log_line_fails_the_analysis (platform := three_lines)
              alpha "notepad.exe" _ _ malformed_log H1 H2 H3 H4) as (_ & Hs & _).
  exact Hs.
Defined.

Lemma excluded_report_lists_the_current_log_witness :
  analyze_logs_body (platform := three_lines) alpha "notepad.exe" excluding_logs
  = (excluding_analysis.1, Ok tt)
  ∧ path_str (report_excluded alpha) ≠ path_str (report_errors alpha)
  ∧ files excluding_analysis.1 !! path_str (report_excluded alpha)
    = Some ("Excluded files for Alpha (latest backup):" +:+ nl +:+ nl
            +:+ "[2024-05-01 10:00:01,000] INFO - /home/cache" +:+ nl).
Proof.
  assert (analyze_logs_body (platform := three_lines) alpha "notepad.exe" excluding_logs
          = (excluding_analysis.1, Ok tt)) as H1 by (vm_compute; reflexivity).
  assert (path_str (report_excluded alpha) ≠ path_str (report_errors alpha)) as H2
    by (vm_compute; discriminate).
  split; [exact H1|]. split; [exact H2|].
  destruct (excluded_report_lists_the_current_log (platform := three_lines)
              alpha "notepad.exe" excluding_logs _ H1 H2) as [H _].
  rewrite H. vm_compute. reflexivity.
Defined.


Lemma an_icon_is_always_chosen_witness :
  (∀ task, (task, RUNNING) ∈ [("Alpha post-backup", RUNNING); ("Alpha backup", FINISHED)] →
           ∃ n, task ∈ task_titles n)
  ∧ is_Some (select_icon [("Alpha post-backup", RUNNING); ("Alpha backup", FINISHED)]).
Proof.
  assert (∀ task,
            (task, RUNNING) ∈ [("Alpha post-backup", RUNNING); ("Alpha backup", FINISHED)] →
            ∃ n, task ∈ task_titles n) as H.
  { intros task Hin. exists "Alpha".
    apply elem_of_cons in Hin as [Hin|Hin].
    - inversion Hin. right. left.
    - apply elem_of_cons in Hin as [Hin|Hin]; [discriminate Hin|].
      by apply elem_of_nil in Hin. }
  split; [exact H|].
  exact (an_icon_is_always_chosen _ H).
Defined.


Lemma scheduled_backups_are_enabled_by_default_witness :
  Systray.output_queue fresh_tray = []
  ∧ input_queue (with_input_queue
                   [EnableScheduledBackups alpha; EnableScheduledBackups beta] empty_world)
    = Systray.output_queue (Systray.start [alpha; beta] fresh_tray)
  ∧ NoDup (map name [alpha; beta])
  ∧ jobs (world_after (run_loop (platform := three_lines) (replicate 2 []))
            (with_input_queue
               [EnableScheduledBackups alpha; EnableScheduledBackups beta] empty_world))
    = jobs_of alpha ++ jobs_of beta.
Proof.
  assert (Systray.output_queue fresh_tray = []) as H1 by reflexivity.
  assert (input_queue (with_input_queue
                         [EnableScheduledBackups alpha; EnableScheduledBackups beta]
                         empty_world)
          = Systray.output_queue (Systray.start [alpha; beta] fresh_tray)) as H2
    by reflexivity.
  assert (NoDup (map name [alpha; beta])) as H3
    by (apply (bool_decide_unpack _); vm_compute; exact I).
  split; [exact H1|]. split; [exact H2|]. split; [exact H3|].
  destruct (scheduled_backups_are_enabled_by_default (platform := three_lines)
              [alpha; beta] fresh_tray _ H1 H2 H3 eq_refl eq_refl) as (_ & H & _).
  exact H.
Defined.

Lemma menu_requests_are_known_witness :
  Systray.menu_request "notepad.exe" alpha 2 = Some (StartPostBackup alpha false)
  ∧ ∀ w, result_of (dispatch (platform := three_lines) (StartPostBackup alpha false)) w
         = Ok Next.
Proof.
  split; [reflexivity|].
  destruct (menu_requests_are_known (platform := three_lines) "notepad.exe" alpha 2
              (StartPostBackup alpha false) eq_refl) as (_ & H & _).
  exact H.
Defined.

Lemma systray_is_sent_what_it_knows_witness :
  Forall (fun queue_item => systray_knows queue_item = true) (output_queue empty_world)
  ∧ Forall (fun queue_item => systray_knows queue_item = true)
      (output_queue
         (world_after
            (thread_body (platform := three_lines)
               {| target := target_run_backup; args := StartBackup alpha false |})
            empty_world)).
Proof.
  assert (Forall (fun queue_item => systray_knows queue_item = true)
            (output_queue empty_world)) as H by constructor.
  split; [exact H|].
  destruct (systray_is_sent_what_it_knows (platform := three_lines) [[Exit]]
              {| target := target_run_backup; args := StartBackup alpha false |}
              empty_world H) as [_ Hbody].
  exact Hbody.
Defined.

Lemma item_line_is_read_back_witness :
  Forall is_word ["2024-05-01"; "10:00:00,000"; "INFO"; "A"]
  ∧ Forall is_word ["/home/My"; "Documents/a.txt"]
  ∧ strptime (Platform := three_lines) ("2024-05-01" +:+ " " +:+ "10:00:00,000" +:+ "000")
    = Some ten_o_clock
  ∧ timestamp_text ("[2024-05-01 10:00:00,000] INFO A /home/My Documents/a.txt" +:+ nl)
    = "2024-05-01 10:00:00,000000".
Proof.
  assert (Forall is_word ["2024-05-01"; "10:00:00,000"; "INFO"; "A"]) as H1
    by (repeat first [apply Forall_nil_2|apply Forall_cons_2];
        (split; [discriminate|repeat constructor])).
  assert (Forall is_word ["/home/My"; "Documents/a.txt"]) as H2
    by (repeat first [apply Forall_nil_2|apply Forall_cons_2];
        (split; [discriminate|repeat constructor])).
  assert (strptime (Platform := three_lines)
            ("2024-05-01" +:+ " " +:+ "10:00:00,000" +:+ "000") = Some ten_o_clock) as H3
    by (vm_compute; reflexivity).
  split; [exact H1|]. split; [exact H2|]. split; [exact H3|].
  destruct (item_line_is_read_back (platform := three_lines) 0
              "2024-05-01" "10:00:00,000" "INFO" "A" ["/home/My"; "Documents/a.txt"]
              {| file_backup_times := []; path_backup_times := [];
                 error_lines := []; excluded_files := [] |}
              {| previous_timestamp := None; previous_line := "" |}
              ten_o_clock H1 H2 ltac:(discriminate) H3) as [H _].
  exact H.
Defined.

Lemma dispatch_loop_leaves_at_exit_witness :
  Forall (fun queue_item => is_exit queue_item = false) [CancelBackup alpha; Other "str"]
  ∧ input_queue (with_input_queue [CancelBackup alpha; Other "str"; Exit] empty_world)
    = [CancelBackup alpha; Other "str"] ++ Exit :: []
  ∧ loop_exited
      (world_after (run_loop (platform := three_lines) [[]; []; []])
         (with_input_queue [CancelBackup alpha; Other "str"; Exit] empty_world))
    = true.
Proof.
  assert (Forall (fun queue_item => is_exit queue_item = false)
            [CancelBackup alpha; Other "str"]) as H1 by (repeat constructor).
  assert (input_queue (with_input_queue [CancelBackup alpha; Other "str"; Exit] empty_world)
          = [CancelBackup alpha; Other "str"] ++ Exit :: []) as H2 by reflexivity.
  split; [exact H1|]. split; [exact H2|].
  destruct (dispatch_loop_leaves_at_exit (platform := three_lines) _ _ [[]; []; []]
              (with_input_queue [CancelBackup alpha; Other "str"; Exit] empty_world)
              H1 eq_refl H2) as [H _].
  { simpl. lia. }
  exact H.
Defined.

(** *** Further instances *)

(** The names taken from a listing of three archives, of one and of none. *)
Example last_two_of_three_archives :
  last_two_backups ("alpha-1 Mon, 2024-04-29" +:+ nl +:+ "alpha-2 Tue, 2024-04-30" +:+ nl
                    +:+ "alpha-3 Wed, 2024-05-01" +:+ nl)
  = "alpha-2 alpha-3".
Proof. by vm_compute. Qed.

Example last_two_of_one_archive :
  last_two_backups ("alpha-1 Mon, 2024-04-29" +:+ nl) = "alpha-1".
Proof. by vm_compute. Qed.

Example last_two_of_no_archive : last_two_backups "" = "".
Proof. by vm_compute. Qed.

(** What the systray thread shows for the busy tray: the update, then the
    error about the object of unknown class; the late update is not shown. *)
Example busy_tray_updates :
  map fst (Systray.updates
             (Systray.systray_update_thread (platform := three_lines) [[]; []; []; []]
                busy_tray))
  = [Some backup_ico; Some error_ico].
Proof. by vm_compute. Qed.

(** The paths generated for the second configuration. *)
Example beta_paths :
  path_str (log_file beta) = "C:\logs\borgmatic-beta.log"
  ∧ path_str (backup_line_count_file beta) = "C:\logs\lines-beta.txt"
  ∧ path_str (report_excluded beta) = "C:\reports\beta-excluded.txt"
  ∧ to_wsl_path (config_file beta) = "/mnt/c/config/borgmatic-beta.yml".
Proof. by vm_compute. Qed.

(** *** Workers that overtake one another, and the analysis of two logs *)

Import Races Rounding.





Lemma analyzer_accumulates_and_averages_witness :
  analysis (platform := three_lines) alpha two_generations
  = (two_generations_analysed.1, Ok (analysed_files, analysed_paths, analysed_scan, 2))
  ∧ analyze_logs_body (platform := three_lines) alpha "notepad.exe" two_generations
    = (two_generations_reported.1, Ok tt)
  ∧ length (scanned_logs alpha (files two_generations)) = 2%nat
  ∧ file_backup_times analysed_scan
    = spec_totals
        (flat_map (spec_charges (platform := three_lines))
           (scanned_logs alpha (files two_generations)))
  ∧ files two_generations_reported.1 !! "C:\logs\alpha-files.txt"
    = Some ("Average backup times for Alpha files (2 backups analyzed):" +:+ nl +:+ nl
            +:+ "5.00s: /home/a.txt" +:+ nl
            +:+ "0.15s: /srv/e.txt" +:+ nl
            +:+ "0.15s: /srv/f.txt" +:+ nl
            +:+ "0.01s: /home/b.txt" +:+ nl)
  ∧ files two_generations_reported.1 !! "C:\logs\alpha-paths.txt"
    = Some ("Average backup times for Alpha paths (2 backups analyzed):" +:+ nl +:+ nl
            +:+ "5.30s: " +:+ nl
            +:+ "5.00s: /home" +:+ nl
            +:+ "5.00s: /home/a.txt" +:+ nl
            +:+ "0.30s: /srv" +:+ nl
            +:+ "0.15s: /srv/e.txt" +:+ nl
            +:+ "0.15s: /srv/f.txt" +:+ nl
            +:+ "0.01s: /home/b.txt" +:+ nl).
Proof.
  assert (analysis (platform := three_lines) alpha two_generations
          = (two_generations_analysed.1,
             Ok (analysed_files, analysed_paths, analysed_scan, 2))) as Hanalysis
    by (vm_compute; reflexivity).
  assert (analyze_logs_body (platform := three_lines) alpha "notepad.exe" two_generations
          = (two_generations_reported.1, Ok tt)) as Hbody
    by (vm_compute; reflexivity).
  split; [exact Hanalysis|]. split; [exact Hbody|].
  destruct (analyzer_accumulates_and_averages (platform := three_lines) alpha
              two_generations two_generations_analysed.1 analysed_files analysed_paths
              analysed_scan 2 Hanalysis)
    as (_ & Hfiles & _ & _ & _ & _ & _ & Hreports).
  split; [vm_compute; reflexivity|]. split; [exact Hfiles|].
  destruct (Hreports "notepad.exe" two_generations_reported.1 Hbody) as [Hf Hp].
  split.
  - change "C:\logs\alpha-files.txt" with (path_str (report_files alpha)).
    rewrite Hf by (vm_compute; discriminate). vm_compute. reflexivity.
  - change "C:\logs\alpha-paths.txt" with (path_str (report_paths alpha)).
    rewrite Hp by (vm_compute; discriminate). vm_compute. reflexivity.
Defined.
